(** * Email fetcher: thread correlation, classification, todo and alert lifecycles

    A shallow embedding of the parts of the repository that the specification
    speaks about:

    - [Threader]    : src/sync/threader.ts
    - [Categorizer] : the two revisions of src/report/categorizer.ts
    - [TodoSync]    : src/dashboard/todo-sync.ts
    - [AlertManager]: src/jobs/alert-manager.ts
    - [JobsReport]  : src/jobs/run-jobs-report.ts

    Conventions.  JavaScript strings are modelled as [string] (a sequence of
    one-byte code units; case folding is the ASCII one).  A [Date] is the
    number of milliseconds since the epoch, a [Z].  A nullable field is an
    [option].  A JavaScript [Map] keeps its insertion order, so it is an
    association list ([JsMap]); a database table with a unique key is a
    [gmap] from that key to its row. *)

From Stdlib Require Import ZArith List String Ascii Bool Lia Permutation Sorted.
From stdpp Require Import gmap strings list fin_maps.

Local Open Scope string_scope.
Local Open Scope Z_scope.
Local Open Scope list_scope.

(** ** JavaScript strings *)

Module Js.

(** The characters matched by [\s] and removed by [String.prototype.trim]
    among the one-byte code units. *)
Definition isSpace (c : ascii) : bool :=
  let n := nat_of_ascii c in
  ((9 <=? n) && (n <=? 13))%nat || (n =? 32)%nat || (n =? 160)%nat.

(** [.] in a regular expression: anything but a line terminator. *)
Definition isLineTerminator (c : ascii) : bool :=
  let n := nat_of_ascii c in (n =? 10)%nat || (n =? 13)%nat.

Definition isDigit (c : ascii) : bool :=
  let n := nat_of_ascii c in ((48 <=? n) && (n <=? 57))%nat.

Definition isLower (c : ascii) : bool :=
  let n := nat_of_ascii c in ((97 <=? n) && (n <=? 122))%nat.

Definition isUpper (c : ascii) : bool :=
  let n := nat_of_ascii c in ((65 <=? n) && (n <=? 90))%nat.

(** [\w] *)
Definition isWord (c : ascii) : bool :=
  isDigit c || isLower c || isUpper c || (nat_of_ascii c =? 95)%nat.

(** The capital letters of the upper half of the one-byte range: 192 to
    222 without the multiplication sign 215. *)
Definition isLatin1Upper (c : ascii) : bool :=
  let n := nat_of_ascii c in
  ((192 <=? n) && (n <=? 222))%nat && negb (n =? 215)%nat.

(** [String.prototype.toLowerCase] on a one-byte code unit: the capital
    letters, A to Z and 192 to 222 without 215, move up by 32. *)
Definition lowerChar (c : ascii) : ascii :=
  if isUpper c || isLatin1Upper c then ascii_of_nat (nat_of_ascii c + 32) else c.

Definition chars (s : string) : list ascii := list_ascii_of_string s.
Definition str (l : list ascii) : string := string_of_list_ascii l.

Definition toLowerCase (s : string) : string := str (map lowerChar (chars s)).

Fixpoint dropSpaces (l : list ascii) : list ascii :=
  match l with
  | c :: l' => if isSpace c then dropSpaces l' else l
  | [] => []
  end.

Definition trimChars (l : list ascii) : list ascii :=
  rev (dropSpaces (rev (dropSpaces l))).

Definition trim (s : string) : string := str (trimChars (chars s)).

(** [s.slice(0, n)] *)
Definition slice0 (n : nat) (s : string) : string := str (take n (chars s)).

Fixpoint startsWithChars (p l : list ascii) : bool :=
  match p, l with
  | [], _ => true
  | a :: p', b :: l' => Ascii.eqb a b && startsWithChars p' l'
  | _ :: _, [] => false
  end.

Fixpoint includesChars (p l : list ascii) : bool :=
  startsWithChars p l ||
  match l with
  | [] => false
  | _ :: l' => includesChars p l'
  end.

Definition startsWith (s p : string) : bool := startsWithChars (chars p) (chars s).
Definition endsWith (s p : string) : bool :=
  startsWithChars (rev (chars p)) (rev (chars s)).
Definition includes (s p : string) : bool := includesChars (chars p) (chars s).

(** Truthiness of a nullable string: [null], [undefined] and the empty
    string are falsy. *)
Definition truthy (o : option string) : option string :=
  match o with
  | Some s => if String.eqb s EmptyString then None else Some s
  | None => None
  end.

(** [a || b] on nullable strings. *)
Definition orElse (a b : option string) : option string :=
  match truthy a with
  | Some s => Some s
  | None => b
  end.

(** [a || d] with a string default. *)
Definition orDefault (a : option string) (d : string) : string :=
  match truthy a with
  | Some s => s
  | None => d
  end.

End Js.

(** ** Regular expressions

    The patterns of the source are regular; they are matched by Brzozowski
    derivatives.  [matches r s] holds when [r] matches the whole of [s]. *)

Module Regex.

Inductive re : Type :=
| Void : re
| Eps : re
| Cls : (ascii -> bool) -> re
| Seq : re -> re -> re
| Alt : re -> re -> re
| Star : re -> re.

Fixpoint nullable (r : re) : bool :=
  match r with
  | Void => false
  | Eps => true
  | Cls _ => false
  | Seq a b => nullable a && nullable b
  | Alt a b => nullable a || nullable b
  | Star _ => true
  end.

Definition isVoid (r : re) : bool :=
  match r with Void => true | _ => false end.

Definition seq' (a b : re) : re :=
  if isVoid a || isVoid b then Void else Seq a b.

Definition alt' (a b : re) : re :=
  if isVoid a then b else if isVoid b then a else Alt a b.

Fixpoint deriv (c : ascii) (r : re) : re :=
  match r with
  | Void => Void
  | Eps => Void
  | Cls p => if p c then Eps else Void
  | Seq a b =>
      alt' (seq' (deriv c a) b) (if nullable a then deriv c b else Void)
  | Alt a b => alt' (deriv c a) (deriv c b)
  | Star a => seq' (deriv c a) (Star a)
  end.

Fixpoint matchesChars (r : re) (s : list ascii) : bool :=
  match s with
  | [] => nullable r
  | c :: s' => matchesChars (deriv c r) s'
  end.

(** What it means for a regular expression to match a text. *)
Inductive Matches : re -> list ascii -> Prop :=
| MEps : Matches Eps []
| MCls p c : p c = true -> Matches (Cls p) [c]
| MSeq a b s1 s2 : Matches a s1 -> Matches b s2 -> Matches (Seq a b) (s1 ++ s2)
| MAltL a b s : Matches a s -> Matches (Alt a b) s
| MAltR a b s : Matches b s -> Matches (Alt a b) s
| MStarNil a : Matches (Star a) []
| MStarApp a s1 s2 :
    Matches a s1 -> Matches (Star a) s2 -> Matches (Star a) (s1 ++ s2).

Definition matches (r : re) (s : string) : bool := matchesChars r (Js.chars s).

Definition chr (c : ascii) : re := Cls (Ascii.eqb c).
Definition any : re := Cls (fun _ => true).
Definition dot : re := Cls (fun c => negb (Js.isLineTerminator c)).
Definition space : re := Cls Js.isSpace.
Definition digit : re := Cls Js.isDigit.
Definition lower : re := Cls Js.isLower.
Definition nonWord : re := Cls (fun c => negb (Js.isWord c)).
Definition opt (r : re) : re := Alt Eps r.
Definition plus (r : re) : re := Seq r (Star r).

Fixpoint litChars (l : list ascii) : re :=
  match l with
  | [] => Eps
  | c :: l' => Seq (chr c) (litChars l')
  end.
Definition lit (s : string) : re := litChars (Js.chars s).

Fixpoint seqs (l : list re) : re :=
  match l with
  | [] => Eps
  | r :: l' => Seq r (seqs l')
  end.

Fixpoint alts (l : list re) : re :=
  match l with
  | [] => Void
  | r :: l' => Alt r (alts l')
  end.

(** [/^r$/.test(s)] *)
Definition testWhole (r : re) (s : string) : bool := matches r s.
(** [/^r/.test(s)] *)
Definition testPrefix (r : re) (s : string) : bool := matches (Seq r (Star any)) s.
(** [/r/.test(s)] *)
Definition testSearch (r : re) (s : string) : bool :=
  matches (seqs [Star any; r; Star any]) s.
(** [/\br/.test(s)] for an [r] that starts with a word character: the
    match starts at the beginning or after a non-word character. *)
Definition testSearchB (r : re) (s : string) : bool :=
  matches (seqs [opt (Seq (Star any) nonWord); r; Star any]) s.
(** [/\br\b/.test(s)] for an [r] that starts and ends with a word character. *)
Definition testSearchBB (r : re) (s : string) : bool :=
  matches (seqs [opt (Seq (Star any) nonWord); r; opt (Seq nonWord (Star any))]) s.

(** The index of the leftmost match of [r] in [s], if any. *)
Fixpoint firstMatch (r : re) (s : list ascii) (i : nat) : option nat :=
  if matchesChars (Seq r (Star any)) s then Some i
  else match s with
       | [] => None
       | _ :: s' => firstMatch r s' (S i)
       end.

(** [s.split(r)[0]] for an [r] that matches no empty string. *)
Definition splitHead (r : re) (s : string) : string :=
  match firstMatch r (Js.chars s) 0 with
  | Some i => Js.str (take i (Js.chars s))
  | None => s
  end.

End Regex.

(** ** The data model (src/db/schema) *)

Record Attachment : Type := {
  filename : option string;
  contentType : option string;
  size : option Z
}.

(** A row of the [emails] table.  [toAddresses] and [attachments] hold
    serialised lists; the model keeps what parsing them yields
    ([attachments = None] when the column is null or does not parse). *)
Record Email : Type := {
  messageId : option string;
  inReplyTo : option string;
  references : option string;
  subject : option string;
  date : option Z;
  fromAddress : option string;
  fromName : option string;
  toAddresses : option (list string);
  mailbox : string;
  bodyText : option string;
  hasAttachments : bool;
  attachments : option (list Attachment)
}.

(** ** JavaScript [Map]: an association list in insertion order *)

Module JsMap.
Section Defs.
Context {V : Type}.

Definition t : Type := list (string * V).

Fixpoint get (m : t) (k : string) : option V :=
  match m with
  | [] => None
  | (k', v) :: m' => if String.eqb k' k then Some v else get m' k
  end.

Definition has (m : t) (k : string) : bool :=
  match get m k with Some _ => true | None => false end.

(** [m.set(k, v)]: an existing key keeps its position. *)
Fixpoint set (m : t) (k : string) (v : V) : t :=
  match m with
  | [] => [(k, v)]
  | (k', v') :: m' =>
      if String.eqb k' k then (k', v) :: m' else (k', v') :: set m' k v
  end.

Definition keys (m : t) : list string := map fst m.
Definition values (m : t) : list V := map snd m.
End Defs.
Arguments t : clear implicits.

(** [if (!m.has(k)) m.set(k, []); m.get(k).push(...xs)] *)
Definition pushAll {A : Type} (m : t (list A)) (k : string) (xs : list A) : t (list A) :=
  match get m k with
  | Some l => set m k (l ++ xs)
  | None => set m k xs
  end.
End JsMap.

(** ** Loops that may fail: a fold in the [option] monad *)

Fixpoint foldOpt {S A : Type} (f : S -> A -> option S) (l : list A) (s : S) : option S :=
  match l with
  | [] => Some s
  | x :: l' => match f s x with
               | Some s' => foldOpt f l' s'
               | None => None
               end
  end.

(** A loop whose body may throw: the rounds are run in order until one
    throws.  A round gives the state it leaves and whether it threw. *)
Fixpoint loopUntilRaise {S A : Type} (body : S -> A -> S * bool) (l : list A) (s : S)
  : S * bool :=
  match l with
  | [] => (s, false)
  | x :: l' =>
      let '(s', raised) := body s x in
      if raised then (s', true) else loopUntilRaise body l' s'
  end.

(** ** src/sync/threader.ts *)

Module Threader.

(** Removing a leading [/^(re|fwd?|fw):\s*/gi]: the pattern is anchored at the
    start, so at most one prefix is removed. *)
Definition stripReplyPrefix (l : list ascii) : list ascii :=
  let low := map Js.lowerChar l in
  if Js.startsWithChars (Js.chars "re:") low then Js.dropSpaces (drop 3 l)
  else if Js.startsWithChars (Js.chars "fwd:") low then Js.dropSpaces (drop 4 l)
  else if Js.startsWithChars (Js.chars "fw:") low then Js.dropSpaces (drop 3 l)
  else l.

(** The text after the first [']'], when no line terminator comes before it. *)
Fixpoint afterBracket (l : list ascii) : option (list ascii) :=
  match l with
  | [] => None
  | c :: l' =>
      if Ascii.eqb c "]" then Some l'
      else if Js.isLineTerminator c then None
      else afterBracket l'
  end.

(** Removing a leading [/^\[.*?\]\s*/g] *)
Definition stripTag (l : list ascii) : list ascii :=
  match l with
  | c :: l' =>
      if Ascii.eqb c "[" then
        match afterBracket l' with
        | Some r => Js.dropSpaces r
        | None => l
        end
      else l
  | [] => []
  end.

Definition normalizeSubject (subject : option string) : string :=
  match Js.truthy subject with
  | None => EmptyString
  | Some s =>
      Js.toLowerCase (Js.str (Js.trimChars (stripTag (stripReplyPrefix (Js.chars s)))))
  end.

Fixpoint takeToken (l : list ascii) : list ascii :=
  match l with
  | c :: l' => if Js.isSpace c then [] else c :: takeToken l'
  | [] => []
  end.

(** [references.split(/\s+/).filter(Boolean)[0]] *)
Definition firstReference (refs : string) : option string :=
  match takeToken (Js.dropSpaces (Js.chars refs)) with
  | [] => None
  | tok => Some (Js.str tok)
  end.

Definition generateThreadId
    (messageId inReplyTo references subject : option string) : string :=
  match Js.truthy references ≫= firstReference with
  | Some r => r
  | None =>
      match Js.truthy inReplyTo with
      | Some r => r
      | None =>
          match Js.truthy messageId with
          | Some m => m
          | None => "subject:" +:+ normalizeSubject subject
          end
      end
  end.

(** The seed thread id of an email (first pass). *)
Definition threadIdOf (e : Email) : string :=
  generateThreadId (messageId e) (inReplyTo e) (references e) (subject e).

(** First pass: assign thread ids. *)
Definition assignStep (st : JsMap.t (list Email) * JsMap.t string) (email : Email)
  : JsMap.t (list Email) * JsMap.t string :=
  let '(threads, messageIdToThread) := st in
  let threadId := threadIdOf email in
  let messageIdToThread' :=
    match Js.truthy (messageId email) with
    | Some mid => JsMap.set messageIdToThread mid threadId
    | None => messageIdToThread
    end in
  (JsMap.pushAll threads threadId [email], messageIdToThread').

Definition assignThreads (emails : list Email) : JsMap.t (list Email) * JsMap.t string :=
  fold_left assignStep emails ([], []).

(** [while (m.has(t)) t = m.get(t)]: the loop is run for at most as many
    rounds as [m] has entries.  A chain without a cycle visits each key at
    most once, so it ends within that bound; [None] stands for a loop that
    would not end. *)
Fixpoint followFuel (fuel : nat) (m : JsMap.t string) (t : string) : option string :=
  match JsMap.get m t with
  | None => Some t
  | Some t' =>
      match fuel with
      | O => None
      | S fuel' => followFuel fuel' m t'
      end
  end.

Definition follow (m : JsMap.t string) (t : string) : option string :=
  followFuel (length m) m t.

(** The thread that [email] replies into, when it is not [threadId]. *)
Definition relatedThreadOf (messageIdToThread : JsMap.t string) (threadId : string)
    (email : Email) : option string :=
  match Js.truthy (inReplyTo email) with
  | Some irt =>
      match JsMap.get messageIdToThread irt with
      | Some relatedThread =>
          if String.eqb relatedThread threadId then None else Some relatedThread
      | None => None
      end
  | None => None
  end.

(** The inner [for] loop of the second pass, left at the first hit. *)
Fixpoint firstRelated (messageIdToThread : JsMap.t string) (threadId : string)
    (threadEmails : list Email) : option string :=
  match threadEmails with
  | [] => None
  | email :: rest =>
      match relatedThreadOf messageIdToThread threadId email with
      | Some r => Some r
      | None => firstRelated messageIdToThread threadId rest
      end
  end.

(** Second pass: merge threads related via In-Reply-To. *)
Definition mergeStep (messageIdToThread : JsMap.t string)
    (st : JsMap.t (list Email) * JsMap.t string) (entry : string * list Email)
  : option (JsMap.t (list Email) * JsMap.t string) :=
  let '(mergedThreads, threadMergeMap) := st in
  let '(threadId, threadEmails) := entry in
  targetThreadId ←
    match firstRelated messageIdToThread threadId threadEmails with
    | Some relatedThread =>
        follow threadMergeMap
          (Js.orDefault (JsMap.get threadMergeMap relatedThread) relatedThread)
    | None => Some threadId
    end;
  let threadMergeMap' :=
    if String.eqb targetThreadId threadId then threadMergeMap
    else JsMap.set threadMergeMap threadId targetThreadId in
  finalTarget ← follow threadMergeMap' targetThreadId;
  Some (JsMap.pushAll mergedThreads finalTarget threadEmails, threadMergeMap').

Definition mergeByReply (threads : JsMap.t (list Email)) (messageIdToThread : JsMap.t string)
  : option (JsMap.t (list Email) * JsMap.t string) :=
  foldOpt (mergeStep messageIdToThread) threads ([], []).

(** Third pass, first loop: threads whose first email has the same
    normalized subject are mapped to the first such thread. *)
Definition subjectStep (st : JsMap.t string * JsMap.t string) (entry : string * list Email)
  : JsMap.t string * JsMap.t string :=
  let '(subjectToThread, subjectMergeMap) := st in
  let '(threadId, threadEmails) := entry in
  let normSubject := normalizeSubject (head threadEmails ≫= subject) in
  if (5 <? String.length normSubject)%nat then
    match JsMap.get subjectToThread normSubject with
    | Some existingThreadId =>
        (subjectToThread, JsMap.set subjectMergeMap threadId existingThreadId)
    | None => (JsMap.set subjectToThread normSubject threadId, subjectMergeMap)
    end
  else st.

(** Third pass, second loop: apply the subject merges. *)
Definition applyStep (subjectMergeMap : JsMap.t string)
    (finalMergedThreads : JsMap.t (list Email)) (entry : string * list Email)
  : option (JsMap.t (list Email)) :=
  let '(threadId, threadEmails) := entry in
  finalTarget ← follow subjectMergeMap threadId;
  Some (JsMap.pushAll finalMergedThreads finalTarget threadEmails).

Definition mergeBySubject (mergedThreads : JsMap.t (list Email))
  : option (JsMap.t (list Email)) :=
  let '(_, subjectMergeMap) := fold_left subjectStep mergedThreads ([], []) in
  foldOpt (applyStep subjectMergeMap) mergedThreads [].

(** [a.date?.getTime() || 0] *)
Definition dateKey (e : Email) : Z :=
  match date e with
  | Some d => d
  | None => 0
  end.

(** [Array.prototype.sort] with the comparator [dateA - dateB]: a stable
    sort by [dateKey]. *)
Fixpoint insertByDate (x : Email) (l : list Email) : list Email :=
  match l with
  | [] => [x]
  | y :: l' => if dateKey x <=? dateKey y then x :: l else y :: insertByDate x l'
  end.

Definition sortByDate (l : list Email) : list Email := foldr insertByDate [] l.

Definition sortThreads (m : JsMap.t (list Email)) : JsMap.t (list Email) :=
  map (fun '(k, l) => (k, sortByDate l)) m.

Definition groupEmailsIntoThreads (emails : list Email) : option (JsMap.t (list Email)) :=
  let '(threads, messageIdToThread) := assignThreads emails in
  '(mergedThreads, _) ← mergeByReply threads messageIdToThread;
  finalMergedThreads ← mergeBySubject mergedThreads;
  Some (sortThreads finalMergedThreads).

(** *** Sample messages *)

Definition mkEmail (mid irt refs subj : option string) (d : option Z) : Email :=
  {| messageId := mid; inReplyTo := irt; references := refs; subject := subj;
     date := d; fromAddress := Some "buyer@acme.example"; fromName := None;
     toAddresses := None; mailbox := "INBOX"; bodyText := None;
     hasAttachments := false; attachments := None |}.

End Threader.

(** ** Invariants and predicates of the threader *)

Module ThreaderInv.
Import JsMap Threader.

(** *** Merge chains end

    [reach m t n r]: following [m] from [t] takes [n] rounds and stops at
    [r], a key without an entry. *)
Inductive reach (m : JsMap.t string) : string -> nat -> string -> Prop :=
| reach_root t : get m t = None -> reach m t 0 t
| reach_step t t' n r : get m t = Some t' -> reach m t' n r -> reach m t (S n) r.

(** Every chain of [m] ends within [length m] rounds. *)
Definition Chains (m : JsMap.t string) : Prop :=
  forall t, exists n r, (n <= length m)%nat /\ reach m t n r.

(** The third pass, first loop: keys still to come have no entry, and
    registered threads are roots of the subject merge map. *)
Definition SubjectInv (todo : list string) (st : JsMap.t string * JsMap.t string) : Prop :=
  let '(subjectToThread, subjectMergeMap) := st in
  Chains subjectMergeMap /\
  (forall k, In k todo ->
     get subjectMergeMap k = None /\ forall s, get subjectToThread s <> Some k) /\
  (forall s t, get subjectToThread s = Some t -> get subjectMergeMap t = None).

(** The first pass: every thread holds the emails seen so far that seed it. *)
Definition AssignInv (seen : list Email) (threads : JsMap.t (list Email)) : Prop :=
  NoDup (keys threads) /\
  Permutation (concat (values threads)) seen /\
  (forall k l e, In (k, l) threads -> In e l -> threadIdOf e = k).

(** [e1] and [e2] sit in one thread of [out]. *)
Definition CoThreaded (out : JsMap.t (list Email)) (e1 e2 : Email) : Prop :=
  exists k l, In (k, l) out /\ In e1 l /\ In e2 l.

(** Two groupings put the same emails together. *)
Definition SamePartition (o1 o2 : JsMap.t (list Email)) : Prop :=
  forall e1 e2, CoThreaded o1 e1 e2 <-> CoThreaded o2 e1 e2.

Definition dateLe (a b : Email) : Prop := dateKey a <= dateKey b.

(** Timestamps ascending with the undated emails last: an undated email
    is never followed by a dated one, and dated emails are in order. *)
Definition OrderedUndatedLast (l : list Email) : Prop :=
  forall i j a b, (i < j)%nat -> l !! i = Some a -> l !! j = Some b ->
    match date a, date b with
    | Some da, Some db => da <= db
    | None, Some _ => False
    | _, None => True
    end.

End ThreaderInv.

(** ** Sample mailboxes for the threader *)

Module ThreaderSamples.
Import Threader.

(** A conversation whose subject changed on the way, and a lone email that
    carries the new subject. *)
Definition rfq : Email :=
  mkEmail (Some "<a1@acme.example>") None (Some "<root@acme.example>")
          (Some "Quote for brackets") (Some 1000).
Definition poReply : Email :=
  mkEmail (Some "<a2@acme.example>") None (Some "<root@acme.example>")
          (Some "PO 4471 brackets") (Some 2000).
Definition poLone : Email :=
  mkEmail (Some "<a3@acme.example>") None None
          (Some "PO 4471 brackets") (Some 3000).

Definition arrival1 : list Email := [rfq; poReply; poLone].
Definition arrival2 : list Email := [poReply; rfq; poLone].

(** A reply chain [first <- second <- third] whose replies carry their own
    reference roots. *)
Definition first : Email :=
  mkEmail (Some "<m1>") None None None (Some 10).
Definition second : Email :=
  mkEmail (Some "<m2>") (Some "<m1>") (Some "<r2>") None (Some 20).
Definition third : Email :=
  mkEmail (Some "<m3>") (Some "<m2>") (Some "<r3>") None (Some 30).

(** Two emails that name each other as parent, and one that names itself. *)
Definition ping : Email :=
  mkEmail (Some "<p1>") (Some "<p2>") (Some "<x1>") None (Some 1).
Definition pong : Email :=
  mkEmail (Some "<p2>") (Some "<p1>") (Some "<x2>") None (Some 2).
Definition selfRef : Email :=
  mkEmail (Some "<s1>") (Some "<s1>") (Some "<s1>") None None.

(** One thread with a dated and an undated email. *)
Definition dated : Email :=
  mkEmail (Some "<d1>") None (Some "<droot>") None (Some 1700000000000).
Definition undated : Email :=
  mkEmail (Some "<d2>") None (Some "<droot>") None None.

End ThreaderSamples.

(** ** src/report/categorizer.ts

    The repository holds two revisions of this file.  [Categorizer] is the
    one with acknowledgment and attachment detection; [CategorizerSafetyNets]
    is the one with the subject safety nets and the forced response for
    purchase orders and quote requests.  What they share comes first. *)

Inductive Category : Type := customer | vendor | other.

Inductive ItemType : Type := po_received | po_sent | quote_request | general | other_item.

Definition Category_eqb (a b : Category) : bool :=
  match a, b with
  | customer, customer | vendor, vendor | other, other => true
  | _, _ => false
  end.

Definition ItemType_eqb (a b : ItemType) : bool :=
  match a, b with
  | po_received, po_received | po_sent, po_sent | quote_request, quote_request
  | general, general | other_item, other_item => true
  | _, _ => false
  end.

(** The answer of the external classifier for one thread. *)
Module AiResult.
Record t : Type := {
  category : Category;
  itemType : ItemType;
  contactName : option string;
  summary : string;
  needsResponse : bool;
  relatedTo : option string
}.
End AiResult.

Module Contact.
Record t : Type := { email : option string; name : option string }.
End Contact.

(** What the document analyzer extracts from a purchase order.  The total is
    a floating-point number of dollars; amounts are counted in cents here, the
    unit of the [poTotal] column: [total] is [None] when the total is
    missing, 0 or not a number (falsy), and otherwise holds
    [Math.round(total * 100)], which is 0 for a total under half a cent.  The
    matchers are given amounts in the same unit. *)
Module PoDetails.
Record t : Type := { poNumber : option string; total : option Z }.
End PoDetails.

Module CategorizedThread.
Record t : Type := {
  threadKey : string;
  emails : list Email;
  category : Category;
  itemType : ItemType;
  contactEmail : option string;
  contactName : option string;
  subject : string;
  summary : option string;
  emailCount : nat;
  lastEmailDate : option Z;
  lastEmailFromUs : bool;
  needsResponse : bool;
  poDetails : option PoDetails.t;
  isSuspicious : bool
}.
End CategorizedThread.

Module ThreadData.
Record t : Type := {
  threadKey : string;
  threadEmails : list Email;
  initialCategory : Category;
  contact : Contact.t;
  lastEmailFromUs : bool;
  lastEmailDate : option Z
}.
End ThreadData.

Module CategorizerBase.
Section WithDomain.
(** [process.env.IMAP_USER?.split("@")[1]?.toLowerCase() || "masprecisionparts.com"] *)
Variable OUR_DOMAIN : string.

Definition fromLower (email : Email) : string :=
  Js.orDefault (option_map Js.toLowerCase (fromAddress email)) EmptyString.

Definition isOutbound (email : Email) : bool :=
  Js.includes (fromLower email) OUR_DOMAIN
  || String.eqb (mailbox email) "Sent"
  || String.eqb (mailbox email) "Sent Items".

(** [isOutbound(lastEmail)] where [lastEmail] may be [undefined]: reading
    a field of [undefined] throws; the callers only pass non-empty
    threads, and the model answers [false] for the missing email. *)
Definition isOutboundOpt (email : option Email) : bool :=
  match email with
  | Some e => isOutbound e
  | None => false
  end.

Definition firstExternal (l : list string) : option string :=
  find (fun to => negb (Js.includes (Js.toLowerCase to) OUR_DOMAIN)) l.

Fixpoint inboundContact (emails : list Email) : option Contact.t :=
  match emails with
  | [] => None
  | email :: rest =>
      match Js.truthy (fromAddress email) with
      | Some from =>
          if negb (isOutbound email)
             && negb (Js.includes (Js.toLowerCase from) OUR_DOMAIN)
          then Some {| Contact.email := Some from;
                       Contact.name := Js.truthy (fromName email) |}
          else inboundContact rest
      | None => inboundContact rest
      end
  end.

Fixpoint recipientContact (emails : list Email) : option Contact.t :=
  match emails with
  | [] => None
  | email :: rest =>
      match toAddresses email with
      | Some toList =>
          if isOutbound email then
            match firstExternal toList with
            | Some to => Some {| Contact.email := Some to; Contact.name := None |}
            | None => recipientContact rest
            end
          else recipientContact rest
      | None => recipientContact rest
      end
  end.

Definition getExternalContact (emails : list Email) : Contact.t :=
  match inboundContact emails with
  | Some c => c
  | None =>
      match recipientContact emails with
      | Some c => c
      | None => {| Contact.email := None; Contact.name := None |}
      end
  end.

Definition automatedPatterns : list string :=
  ["newsletter"; "noreply"; "no-reply"; "donotreply"; "automated";
   "notification"; "alert@"; "mailer-daemon"; "postmaster"].

Definition isAutomatedEmail (email : Email) : bool :=
  let subj := Js.toLowerCase (Js.orDefault (subject email) EmptyString) in
  let from := Js.toLowerCase (Js.orDefault (fromAddress email) EmptyString) in
  existsb (fun p => Js.includes from p || Js.includes subj p) automatedPatterns.

Definition billingWords : list string :=
  ["invoice"; "quotation"; "quote"; "estimate"; "est_"; "inv_"].

Definition determineInitialCategory (emails : list Email) : Category :=
  match Threader.sortByDate emails with
  | [] => other
  | firstEmail :: _ =>
      if isAutomatedEmail firstEmail then other
      else
        let subj := Js.toLowerCase (Js.orDefault (subject firstEmail) EmptyString) in
        if isOutbound firstEmail then
          if existsb (Js.includes subj) billingWords then customer else vendor
        else customer
  end.

(** Sorting by date descending, as [isLastEmailFromUs] does. *)
Fixpoint insertByDateDesc (x : Email) (l : list Email) : list Email :=
  match l with
  | [] => [x]
  | y :: l' =>
      if Threader.dateKey y <=? Threader.dateKey x then x :: l
      else y :: insertByDateDesc x l'
  end.

Definition isLastEmailFromUs (emails : list Email) : bool :=
  match foldr insertByDateDesc [] emails with
  | [] => false
  | e :: _ => isOutbound e
  end.

Definition laterDate (latest : option Z) (email : Email) : option Z :=
  match date email, latest with
  | Some d, Some l => if l <? d then Some d else latest
  | Some d, None => Some d
  | None, _ => latest
  end.

Definition getLastEmailDate (emails : list Email) : option Z :=
  fold_left laterDate emails None.

Definition threadDataOf (entry : string * list Email) : option ThreadData.t :=
  let '(threadKey, threadEmails) := entry in
  match threadEmails with
  | [] => None
  | _ =>
      Some {| ThreadData.threadKey := threadKey;
              ThreadData.threadEmails := threadEmails;
              ThreadData.initialCategory := determineInitialCategory threadEmails;
              ThreadData.contact := getExternalContact threadEmails;
              ThreadData.lastEmailFromUs := isLastEmailFromUs threadEmails;
              ThreadData.lastEmailDate := getLastEmailDate threadEmails |}
  end.

Definition buildDataByKey (threadsData : list ThreadData.t) : JsMap.t ThreadData.t :=
  fold_left (fun m data => JsMap.set m (ThreadData.threadKey data) data) threadsData [].

(** The threads that the classifier relates to another known thread. *)
Definition buildMergedInto (dataByKey : JsMap.t ThreadData.t)
    (aiResults : JsMap.t AiResult.t) : JsMap.t string :=
  fold_left
    (fun m '(threadKey, result) =>
       match Js.truthy (AiResult.relatedTo result) with
       | Some target =>
           if JsMap.has dataByKey target then JsMap.set m threadKey target else m
       | None => m
       end)
    aiResults [].

(** The keys merged into [threadKey], in the order of [mergedInto]. *)
Definition mergedKeys (mergedInto : JsMap.t string) (threadKey : string) : list string :=
  map fst (filter (fun '(_, targetKey) => String.eqb targetKey threadKey) mergedInto).

(** All emails of a thread, those of merged threads included, by date. *)
Definition collectEmails (dataByKey : JsMap.t ThreadData.t) (mergedInto : JsMap.t string)
    (data : ThreadData.t) : list Email :=
  Threader.sortByDate
    (ThreadData.threadEmails data ++
     flat_map (fun mergedKey =>
                 match JsMap.get dataByKey mergedKey with
                 | Some mergedData => ThreadData.threadEmails mergedData
                 | None => []
                 end)
              (mergedKeys mergedInto (ThreadData.threadKey data))).

(** The number of merged threads that are known. *)
Definition mergedCount (dataByKey : JsMap.t ThreadData.t) (mergedInto : JsMap.t string)
    (data : ThreadData.t) : nat :=
  length (filter (fun mergedKey => JsMap.has dataByKey mergedKey)
                 (mergedKeys mergedInto (ThreadData.threadKey data))).

Definition mergedSummary (aiResults : JsMap.t AiResult.t)
    (dataByKey : JsMap.t ThreadData.t) (mergedInto : JsMap.t string)
    (data : ThreadData.t) (aiResult : option AiResult.t) : option string :=
  let summary := option_map AiResult.summary aiResult in
  match Js.truthy summary with
  | Some s =>
      if (0 <? mergedCount dataByKey mergedInto data)%nat then
        Some (fold_left
                (fun acc mergedKey =>
                   match JsMap.get aiResults mergedKey with
                   | Some r =>
                       match Js.truthy (Some (AiResult.summary r)) with
                       | Some ms => acc +:+ " " +:+ ms
                       | None => acc
                       end
                   | None => acc
                   end)
                (mergedKeys mergedInto (ThreadData.threadKey data)) s)
      else summary
  | None => summary
  end.

(** The part of [categorizeThreads] around the per-thread decision: the
    two revisions differ in [decide], which yields the item type and
    [needsResponse] from the first email's subject, the category, the
    last email and the classifier's answer. *)
Definition finishThread
    (decide : Email -> Category -> bool -> option Email -> option AiResult.t
              -> ItemType * bool)
    (aiResults : JsMap.t AiResult.t) (dataByKey : JsMap.t ThreadData.t)
    (mergedInto : JsMap.t string) (data : ThreadData.t) (firstEmail : Email)
  : CategorizedThread.t :=
  let aiResult := JsMap.get aiResults (ThreadData.threadKey data) in
  let allEmails := collectEmails dataByKey mergedInto data in
  let lastEmail := last allEmails in
  let lastEmailFromUs := isOutboundOpt lastEmail in
  let category :=
    match aiResult with
    | Some r => AiResult.category r
    | None => ThreadData.initialCategory data
    end in
  let '(itemType, needsResponse) :=
    decide firstEmail category lastEmailFromUs lastEmail aiResult in
  {| CategorizedThread.threadKey := ThreadData.threadKey data;
     CategorizedThread.emails := allEmails;
     CategorizedThread.category := category;
     CategorizedThread.itemType := itemType;
     CategorizedThread.contactEmail := Contact.email (ThreadData.contact data);
     CategorizedThread.contactName :=
       match aiResult ≫= AiResult.contactName with
       | Some contactName => Some contactName
       | None => Contact.name (ThreadData.contact data)
       end;
     CategorizedThread.subject := Js.orDefault (subject firstEmail) "(no subject)";
     CategorizedThread.summary := mergedSummary aiResults dataByKey mergedInto data aiResult;
     CategorizedThread.emailCount := length allEmails;
     CategorizedThread.lastEmailDate := lastEmail ≫= date;
     CategorizedThread.lastEmailFromUs := lastEmailFromUs;
     CategorizedThread.needsResponse := needsResponse;
     CategorizedThread.poDetails := None;
     CategorizedThread.isSuspicious := false |}.

(** [categorizeThreads], from the emails of the window on.  [classify]
    stands for the classifier calls ([categorizeThreadsWithBatch]): it
    answers for some of the threads. *)
Definition categorizeWith
    (decide : Email -> Category -> bool -> option Email -> option AiResult.t
              -> ItemType * bool)
    (classify : list ThreadData.t -> JsMap.t AiResult.t)
    (emails : list Email) : option (list CategorizedThread.t) :=
  threadMap ← Threader.groupEmailsIntoThreads emails;
  let threadsData := omap threadDataOf threadMap in
  let aiResults := classify threadsData in
  let dataByKey := buildDataByKey threadsData in
  let mergedInto := buildMergedInto dataByKey aiResults in
  Some (omap
          (fun data =>
             if JsMap.has mergedInto (ThreadData.threadKey data) then None
             else
               match ThreadData.threadEmails data with
               | firstEmail :: _ =>
                   Some (finishThread decide aiResults dataByKey mergedInto data firstEmail)
               | [] => None
               end)
          threadsData).
End WithDomain.
End CategorizerBase.

(** *** The revision with acknowledgment detection *)

Module Categorizer.
Import Regex.

Definition sizeOf (att : Attachment) : Z :=
  match size att with
  | Some n => n
  | None => 0
  end.

Definition imageExt : re := alts [lit "png"; lit "jpeg"; lit "jpg"; lit "gif"].

(** [signatureImagePatterns.some(p => p.test(s))] *)
Definition matchesSignaturePattern (s : string) : bool :=
  testWhole (seqs [lit "image/"; imageExt]) s
  || Js.includes s "logo"
  || Js.includes s "signature"
  || matches (seqs [Star any; lit "image"; plus digit; chr "."; imageExt]) s.

Definition realContentTypes : list string :=
  ["pdf"; "document"; "spreadsheet"; "msword"; "excel"; "application/"].

Definition realExtensions : list string :=
  [".pdf"; ".doc"; ".docx"; ".xls"; ".xlsx"].

(** One round of the loop of [hasRealAttachments]: [true] when it returns. *)
Definition isRealAttachment (att : Attachment) : bool :=
  let filename := Js.orDefault (option_map Js.toLowerCase (filename att)) EmptyString in
  let contentType := Js.orDefault (option_map Js.toLowerCase (contentType att)) EmptyString in
  if Js.startsWith contentType "image/" && (sizeOf att <? 100000) then false
  else if (matchesSignaturePattern filename || matchesSignaturePattern contentType)
          && (sizeOf att <? 100000) then false
  else existsb (Js.includes contentType) realContentTypes
       || existsb (Js.endsWith filename) realExtensions
       || (100000 <? sizeOf att).

Definition hasRealAttachments (email : Email) : bool :=
  match attachments email with
  | Some atts => existsb isRealAttachment atts
  | None => false
  end.

Definition newline : re := chr "010".

(** [/\n\s*[-_]{2,}|\n\s*sent from|\n\s*get outlook|\n\s*\[/] *)
Definition signatureMarker : re :=
  let dashes := Cls (fun c => Ascii.eqb c "-" || Ascii.eqb c "_") in
  alts [seqs [newline; Star space; dashes; plus dashes];
        seqs [newline; Star space; lit "sent from"];
        seqs [newline; Star space; lit "get outlook"];
        seqs [newline; Star space; chr "["]].

Definition bang : re := opt (chr "!").
Definition stop : re := opt (chr ".").

Definition strictAckPatterns : list re :=
  [seqs [opt (lit "great "); lit "thank"; opt (chr "s"); bang; stop];
   seqs [lit "thank you"; bang; stop];
   seqs [lit "thanks"; bang; opt (chr " "); lit "so much"; bang; stop];
   seqs [lit "got it"; bang; stop];
   seqs [lit "sounds good"; bang; stop];
   seqs [lit "perfect"; bang; stop];
   seqs [lit "received"; bang; stop];
   seqs [lit "ok"; bang; stop];
   seqs [lit "okay"; bang; stop];
   seqs [lit "will do"; bang; stop];
   seqs [lit "noted"; bang; stop];
   seqs [lit "acknowledged"; bang; stop];
   seqs [lit "awesome"; bang; stop];
   seqs [lit "great"; bang; stop]].

(** [/^(great )?thanks?!?\.?\s*([\n\r]+\s*[a-z]+)?$/] *)
Definition ackWithClosingPattern : re :=
  seqs [opt (lit "great "); lit "thank"; opt (chr "s"); bang; stop; Star space;
        opt (seqs [plus (Cls Js.isLineTerminator); Star space; plus lower])].

Definition isSimpleAcknowledgment (bodyText : option string) : bool :=
  match Js.truthy bodyText with
  | None => false
  | Some body =>
      let firstPart := Js.trim (Js.toLowerCase (Js.slice0 200 body)) in
      let beforeSignature := Js.trim (splitHead signatureMarker firstPart) in
      existsb (fun p => testWhole p beforeSignature) strictAckPatterns
      || (testWhole ackWithClosingPattern beforeSignature
          && (String.length beforeSignature <? 40)%nat)
  end.

(** The subject test that marks a customer thread as a purchase order. *)
Definition subjectIndicatesPo (subjectLower : string) : bool :=
  Js.includes subjectLower "po number"
  || Js.includes subjectLower "po attached"
  || Js.includes subjectLower "po#"
  || Js.includes subjectLower "purchase order"
  || testSearchB (seqs [lit "po"; Star space; plus digit]) subjectLower
  || testSearchB (seqs [lit "po"; seqs [digit; digit; digit; digit; digit]; Star digit])
                 subjectLower.

(** Whether a response is needed: our reply, then the acknowledgment, then
    a real attachment, then the classifier. *)
Definition determineNeedsResponse (lastEmailFromUs : bool) (lastEmail : option Email)
    (aiResult : option AiResult.t) : bool :=
  if lastEmailFromUs then false
  else if isSimpleAcknowledgment (lastEmail ≫= bodyText) then false
  else if match lastEmail with
          | Some e => hasAttachments e && hasRealAttachments e
          | None => false
          end then true
  else match aiResult with
       | Some r => AiResult.needsResponse r
       | None => true
       end.

Definition determineItemType (firstEmail : Email) (category : Category)
    (aiResult : option AiResult.t) : ItemType :=
  let itemType :=
    match aiResult with
    | Some r => AiResult.itemType r
    | None => general
    end in
  let subjectLower := Js.toLowerCase (Js.orDefault (subject firstEmail) EmptyString) in
  if Category_eqb category customer && ItemType_eqb itemType general
     && subjectIndicatesPo subjectLower
  then po_received else itemType.

Definition decide (firstEmail : Email) (category : Category) (lastEmailFromUs : bool)
    (lastEmail : option Email) (aiResult : option AiResult.t) : ItemType * bool :=
  (determineItemType firstEmail category aiResult,
   determineNeedsResponse lastEmailFromUs lastEmail aiResult).

Definition categorizeThreads (OUR_DOMAIN : string)
    (classify : list ThreadData.t -> JsMap.t AiResult.t) (emails : list Email)
  : option (list CategorizedThread.t) :=
  CategorizerBase.categorizeWith OUR_DOMAIN decide classify emails.

End Categorizer.

(** *** The revision with the subject safety nets *)

Module CategorizerSafetyNets.
Import Regex.

Definition poPatterns (s : string) : bool :=
  testSearchB (seqs [lit "po"; Star space; opt (chr "#"); plus digit]) s
  || testSearch (seqs [lit "purchase"; Star space; lit "order"]) s
  || testSearchB (seqs [lit "po"; plus space; lit "attached"]) s
  || testSearchB (seqs [lit "po"; plus space; lit "number"]) s
  || testSearch (seqs [lit "please"; plus space; lit "proceed"; plus space; lit "with";
                       Star dot; lit "order"]) s
  || testSearch (seqs [lit "go"; plus space; lit "ahead"; plus space; lit "with";
                       Star dot; lit "quote"]) s
  || testSearch (seqs [lit "placing"; plus space; chr "a"; opt (chr "n"); plus space;
                       lit "order"]) s.

Definition rfqPatterns (s : string) : bool :=
  testSearchBB (lit "rfq") s
  || testSearch (seqs [lit "request"; plus space; lit "for"; plus space; lit "quot"]) s
  || testSearch (seqs [lit "please"; plus space; lit "quote"]) s
  || testSearch (seqs [lit "quote"; plus space; lit "request"]) s
  || testSearch (seqs [lit "pricing"; plus space; lit "request"]) s
  || testSearch (seqs [lit "need"; plus space; chr "a"; plus space; lit "quote"]) s
  || testSearch (seqs [lit "send"; plus space; opt (seqs [lit "us"; plus space]);
                       chr "a"; plus space; lit "quote"]) s.

Definition quotationPatterns (s : string) : bool :=
  matches (seqs [lit "quotation"; opt (Seq nonWord (Star any))]) s
  || testPrefix (seqs [lit "quote"; Star space; opt (chr "#"); Star digit]) s
  || testPrefix (seqs [lit "estimate"; Star space; opt (chr "#"); Star digit]) s
  || testSearchB (seqs [lit "quotation"; Star space; opt (chr "#"); plus digit]) s
  || testSearchB (seqs [lit "est";
                        Star (Cls (fun c => Ascii.eqb c "_" || Js.isSpace c));
                        plus digit]) s.

(** One safety net: a customer thread still typed [general] whose subject
    matches is retyped. *)
Definition safetyNet (pattern : string -> bool) (forced : ItemType)
    (category : Category) (subjectLower : string) (itemType : ItemType) : ItemType :=
  if Category_eqb category customer && ItemType_eqb itemType general
     && pattern subjectLower
  then forced else itemType.

Definition determineItemType (firstEmail : Email) (category : Category)
    (aiResult : option AiResult.t) : ItemType :=
  let itemType :=
    match aiResult with
    | Some r => AiResult.itemType r
    | None => general
    end in
  let subjectLower := Js.toLowerCase (Js.orDefault (subject firstEmail) EmptyString) in
  let afterPo := safetyNet poPatterns po_received category subjectLower itemType in
  let afterRfq := safetyNet rfqPatterns quote_request category subjectLower afterPo in
  safetyNet quotationPatterns quote_request category subjectLower afterRfq.

(** [!lastEmailFromUs && (aiResult?.needsResponse ?? true)] *)
Definition initialNeedsResponse (lastEmailFromUs : bool)
    (aiResult : option AiResult.t) : bool :=
  negb lastEmailFromUs
  && match aiResult with
     | Some r => AiResult.needsResponse r
     | None => true
     end.

(** The last [if] of the decision: purchase orders and quote requests
    always need an acknowledgment. *)
Definition forceResponse (lastEmailFromUs : bool) (itemType : ItemType)
    (needsResponse : bool) : bool :=
  if negb lastEmailFromUs
     && (ItemType_eqb itemType po_received || ItemType_eqb itemType quote_request)
  then true else needsResponse.

Definition decide (firstEmail : Email) (category : Category) (lastEmailFromUs : bool)
    (lastEmail : option Email) (aiResult : option AiResult.t) : ItemType * bool :=
  let itemType := determineItemType firstEmail category aiResult in
  (itemType,
   forceResponse lastEmailFromUs itemType (initialNeedsResponse lastEmailFromUs aiResult)).

Definition categorizeThreads (OUR_DOMAIN : string)
    (classify : list ThreadData.t -> JsMap.t AiResult.t) (emails : list Email)
  : option (list CategorizedThread.t) :=
  CategorizerBase.categorizeWith OUR_DOMAIN decide classify emails.

End CategorizerSafetyNets.

(** ** Sample threads for the classification *)

Module CategorizerSamples.

Definition ourDomain : string := "masprecisionparts.com".

Definition poPdf : Attachment :=
  {| filename := Some "PO-4471.pdf"; contentType := Some "application/pdf";
     size := Some 250000 |}.

(** Our quote, and the customer's answer: "Thanks!" above a signature
    block, with the purchase order attached. *)
Definition ourQuote : Email :=
  {| messageId := Some "<q1@masprecisionparts.com>"; inReplyTo := None;
     references := Some "<t1@acme.example>"; subject := Some "Re: Brackets";
     date := Some 1000; fromAddress := Some "sales@masprecisionparts.com";
     fromName := None; toAddresses := Some ["buyer@acme.example"];
     mailbox := "Sent"; bodyText := Some "Please find our quote attached.";
     hasAttachments := false; attachments := None |}.

Definition ackWithPo : Email :=
  {| messageId := Some "<t2@acme.example>"; inReplyTo := Some "<q1@masprecisionparts.com>";
     references := Some "<t1@acme.example>"; subject := Some "Re: Brackets";
     date := Some 2000; fromAddress := Some "buyer@acme.example";
     fromName := Some "Jane Buyer"; toAddresses := Some ["sales@masprecisionparts.com"];
     mailbox := "INBOX";
     bodyText := Some ("Thanks!" +:+ String "010" (String "010" "--")
                       +:+ String "010" "Jane Buyer, Acme");
     hasAttachments := true; attachments := Some [poPdf] |}.

(** The classifier is down: no answer for any thread. *)
Definition noAnswers (_ : list ThreadData.t) : JsMap.t AiResult.t := [].

(** An inbound purchase order that the classifier files as general mail
    that needs no response. *)
Definition poMail : Email :=
  {| messageId := Some "<po1@acme.example>"; inReplyTo := None; references := None;
     subject := Some "PO#445210 attached"; date := Some 5000;
     fromAddress := Some "buyer@acme.example"; fromName := Some "Jane Buyer";
     toAddresses := Some ["sales@masprecisionparts.com"]; mailbox := "INBOX";
     bodyText := Some "See attached."; hasAttachments := false; attachments := None |}.

(** A customer's bare thanks under the subject of a purchase order. *)
Definition poThanks : Email :=
  {| messageId := Some "<po3@acme.example>"; inReplyTo := None; references := None;
     subject := Some "PO 12345"; date := Some 7000;
     fromAddress := Some "buyer@acme.example"; fromName := Some "Jane Buyer";
     toAddresses := Some ["sales@masprecisionparts.com"]; mailbox := "INBOX";
     bodyText := Some "Thanks!"; hasAttachments := false; attachments := None |}.

(** The purchase order of another day, attached as a PDF. *)
Definition poMailWithPdf : Email :=
  {| messageId := Some "<po2@acme.example>"; inReplyTo := None; references := None;
     subject := Some "PO#4471 attached"; date := Some 6000;
     fromAddress := Some "buyer@acme.example"; fromName := Some "Jane Buyer";
     toAddresses := Some ["sales@masprecisionparts.com"]; mailbox := "INBOX";
     bodyText := Some "See attached."; hasAttachments := true;
     attachments := Some [poPdf] |}.

Definition saysGeneral (threadsData : list ThreadData.t) : JsMap.t AiResult.t :=
  map (fun data =>
         (ThreadData.threadKey data,
          {| AiResult.category := customer; AiResult.itemType := general;
             AiResult.contactName := None; AiResult.summary := "General mail";
             AiResult.needsResponse := false; AiResult.relatedTo := None |}))
      threadsData.

(** A request for quotation that we answered, and a purchase order that
  we sent to a vendor. *)
Definition rfqMail : Email :=
{| messageId := Some "<r1@acme.example>"; inReplyTo := None; references := None;
   subject := Some "RFQ steel plates"; date := Some 1000;
   fromAddress := Some "buyer@acme.example"; fromName := Some "Jane Buyer";
   toAddresses := Some ["sales@masprecisionparts.com"]; mailbox := "INBOX";
   bodyText := Some "Please quote 40 plates."; hasAttachments := false;
   attachments := None |}.

Definition quoteReply : Email :=
{| messageId := Some "<r2@masprecisionparts.com>"; inReplyTo := Some "<r1@acme.example>";
   references := Some "<r1@acme.example>"; subject := Some "Here's your quote Q-1049";
   date := Some 2000; fromAddress := Some "sales@masprecisionparts.com";
   fromName := None; toAddresses := Some ["buyer@acme.example"]; mailbox := "Sent";
   bodyText := Some "Quote attached."; hasAttachments := false; attachments := None |}.

Definition vendorPo : Email :=
{| messageId := Some "<v1@masprecisionparts.com>"; inReplyTo := None; references := None;
   subject := Some "PO for vendor X raw materials"; date := Some 3000;
   fromAddress := Some "purchasing@masprecisionparts.com"; fromName := None;
   toAddresses := Some ["orders@vendorx.example"]; mailbox := "Sent";
   bodyText := Some "Order attached."; hasAttachments := false; attachments := None |}.

End CategorizerSamples.

(** ** src/dashboard/todo-sync.ts *)

Inductive Status : Type := st_open | st_resolved | st_dismissed.

Inductive ResolvedBy : Type := by_manual | by_email_activity | by_auto.

Inductive TodoType : Type :=
  po_unacknowledged | quote_unanswered | general_unanswered | vendor_followup.

Definition Status_eqb (a b : Status) : bool :=
  match a, b with
  | st_open, st_open | st_resolved, st_resolved | st_dismissed, st_dismissed => true
  | _, _ => false
  end.

Module IdentifiedTodo.
Record t : Type := {
  threadKey : string;
  todoType : TodoType;
  description : string;
  contactName : option string;
  contactEmail : option string;
  subject : option string;
  originalDate : option Z
}.
End IdentifiedTodo.

(** A row of [dash_todos]; the table is unique on [threadKey]. *)
Module DashTodo.
Record t : Type := {
  threadKey : string;
  todoType : TodoType;
  category : Category;
  itemType : ItemType;
  contactEmail : option string;
  contactName : option string;
  subject : option string;
  summary : option string;
  description : string;
  firstDetectedAt : Z;
  lastEmailDate : option Z;
  emailCount : nat;
  needsResponse : bool;
  lastEmailFromUs : bool;
  status : Status;
  resolvedAt : option Z;
  resolvedBy : option ResolvedBy;
  poDetails : option PoDetails.t;
  isSuspicious : bool;
  createdAt : Z;
  updatedAt : Z
}.
End DashTodo.

Module TodoSync.

Record Db : Type := {
  dashTodos : gmap string DashTodo.t;
  dismissedThreads : gset string
}.

Record TodoSyncResult : Type := {
  newTodos : nat;
  resolvedTodos : nat;
  updatedThreads : nat
}.

Definition withTodos (db : Db) (rows : gmap string DashTodo.t) : Db :=
  {| dashTodos := rows; dismissedThreads := dismissedThreads db |}.

(** [new Map] filled with [set]: the last entry of a key wins. *)
Definition todosByThreadKey (todos : list IdentifiedTodo.t) : gmap string IdentifiedTodo.t :=
  fold_left (fun m todo => <[IdentifiedTodo.threadKey todo := todo]> m) todos ∅.

Definition threadsByKey (threads : list CategorizedThread.t) : gmap string CategorizedThread.t :=
  fold_left (fun m thread => <[CategorizedThread.threadKey thread := thread]> m) threads ∅.

(** [[...new Set(l)]]: the first occurrence of each key, in order. *)
Fixpoint dedup (seen : gset string) (l : list string) : list string :=
  match l with
  | [] => []
  | k :: l' => if decide (k ∈ seen) then dedup seen l' else k :: dedup ({[k]} ∪ seen) l'
  end.

Definition allThreadKeys (threads : list CategorizedThread.t)
    (todos : list IdentifiedTodo.t) : list string :=
  dedup ∅ (map CategorizedThread.threadKey threads ++ map IdentifiedTodo.threadKey todos).

(** The auto-resolve update. *)
Definition resolveByReply (now : Z) (thread : CategorizedThread.t) (row : DashTodo.t)
  : DashTodo.t :=
  {| DashTodo.threadKey := DashTodo.threadKey row;
     DashTodo.todoType := DashTodo.todoType row;
     DashTodo.category := DashTodo.category row;
     DashTodo.itemType := DashTodo.itemType row;
     DashTodo.contactEmail := DashTodo.contactEmail row;
     DashTodo.contactName := DashTodo.contactName row;
     DashTodo.subject := DashTodo.subject row;
     DashTodo.summary := DashTodo.summary row;
     DashTodo.description := DashTodo.description row;
     DashTodo.firstDetectedAt := DashTodo.firstDetectedAt row;
     DashTodo.lastEmailDate := CategorizedThread.lastEmailDate thread;
     DashTodo.emailCount := CategorizedThread.emailCount thread;
     DashTodo.needsResponse := false;
     DashTodo.lastEmailFromUs := true;
     DashTodo.status := st_resolved;
     DashTodo.resolvedAt := Some now;
     DashTodo.resolvedBy := Some by_email_activity;
     DashTodo.poDetails := DashTodo.poDetails row;
     DashTodo.isSuspicious := DashTodo.isSuspicious row;
     DashTodo.createdAt := DashTodo.createdAt row;
     DashTodo.updatedAt := now |}.

(** The metadata update; [existingTodo] is the row as it was fetched. *)
Definition updateMetadata (now : Z) (thread : CategorizedThread.t)
    (todo : option IdentifiedTodo.t) (existingTodo : DashTodo.t) (row : DashTodo.t)
  : DashTodo.t :=
  let retype :=
    match todo with
    | Some t => if Status_eqb (DashTodo.status existingTodo) st_open then Some t else None
    | None => None
    end in
  {| DashTodo.threadKey := DashTodo.threadKey row;
     DashTodo.todoType :=
       match retype with
       | Some t => IdentifiedTodo.todoType t
       | None => DashTodo.todoType row
       end;
     DashTodo.category := DashTodo.category row;
     DashTodo.itemType := DashTodo.itemType row;
     DashTodo.contactEmail :=
       match retype ≫= (fun t => Js.truthy (IdentifiedTodo.contactEmail t)) with
       | Some e => Some e
       | None => DashTodo.contactEmail row
       end;
     DashTodo.contactName :=
       match retype ≫= (fun t => Js.truthy (IdentifiedTodo.contactName t)) with
       | Some n => Some n
       | None => DashTodo.contactName row
       end;
     DashTodo.subject := DashTodo.subject row;
     DashTodo.summary :=
       match Js.truthy (CategorizedThread.summary thread) with
       | Some s => Some s
       | None => DashTodo.summary row
       end;
     DashTodo.description :=
       match retype with
       | Some t => IdentifiedTodo.description t
       | None => DashTodo.description row
       end;
     DashTodo.firstDetectedAt := DashTodo.firstDetectedAt row;
     DashTodo.lastEmailDate := CategorizedThread.lastEmailDate thread;
     DashTodo.emailCount := CategorizedThread.emailCount thread;
     DashTodo.needsResponse := CategorizedThread.needsResponse thread;
     DashTodo.lastEmailFromUs := CategorizedThread.lastEmailFromUs thread;
     DashTodo.status := DashTodo.status row;
     DashTodo.resolvedAt := DashTodo.resolvedAt row;
     DashTodo.resolvedBy := DashTodo.resolvedBy row;
     DashTodo.poDetails :=
       match CategorizedThread.poDetails thread with
       | Some d => Some d
       | None => DashTodo.poDetails row
       end;
     DashTodo.isSuspicious :=
       if CategorizedThread.isSuspicious thread then true else DashTodo.isSuspicious row;
     DashTodo.createdAt := DashTodo.createdAt row;
     DashTodo.updatedAt := now |}.

(** The values of both [insert]s; they differ in the status columns. *)
Definition newRow (now : Z) (threadKey : string) (thread : CategorizedThread.t)
    (todo : IdentifiedTodo.t) (dismissed : bool) : DashTodo.t :=
  {| DashTodo.threadKey := threadKey;
     DashTodo.todoType := IdentifiedTodo.todoType todo;
     DashTodo.category := CategorizedThread.category thread;
     DashTodo.itemType := CategorizedThread.itemType thread;
     DashTodo.contactEmail :=
       Js.orElse (IdentifiedTodo.contactEmail todo) (CategorizedThread.contactEmail thread);
     DashTodo.contactName :=
       Js.orElse (IdentifiedTodo.contactName todo) (CategorizedThread.contactName thread);
     DashTodo.subject :=
       Js.orElse (IdentifiedTodo.subject todo) (Some (CategorizedThread.subject thread));
     DashTodo.summary := CategorizedThread.summary thread;
     DashTodo.description := IdentifiedTodo.description todo;
     DashTodo.firstDetectedAt :=
       match IdentifiedTodo.originalDate todo with
       | Some d => d
       | None => now
       end;
     DashTodo.lastEmailDate := CategorizedThread.lastEmailDate thread;
     DashTodo.emailCount := CategorizedThread.emailCount thread;
     DashTodo.needsResponse := CategorizedThread.needsResponse thread;
     DashTodo.lastEmailFromUs := CategorizedThread.lastEmailFromUs thread;
     DashTodo.status := if dismissed then st_dismissed else st_open;
     DashTodo.resolvedAt := if dismissed then Some now else None;
     DashTodo.resolvedBy := if dismissed then Some by_manual else None;
     DashTodo.poDetails := CategorizedThread.poDetails thread;
     DashTodo.isSuspicious := CategorizedThread.isSuspicious thread;
     DashTodo.createdAt := now;
     DashTodo.updatedAt := now |}.

(** [insert(...).onConflictDoNothing()] on the unique thread key. *)
Definition insertOnConflictDoNothing (row : DashTodo.t) (rows : gmap string DashTodo.t)
  : gmap string DashTodo.t :=
  match rows !! DashTodo.threadKey row with
  | Some _ => rows
  | None => <[DashTodo.threadKey row := row]> rows
  end.

(** [existingTodo.status === "open" && thread?.lastEmailFromUs && !todo] *)
Definition repliedWithoutNewTodo (existingTodo : DashTodo.t)
    (thread : option CategorizedThread.t) (todo : option IdentifiedTodo.t) : bool :=
  Status_eqb (DashTodo.status existingTodo) st_open
  && match thread with
     | Some th => CategorizedThread.lastEmailFromUs th
     | None => false
     end
  && match todo with
     | Some _ => false
     | None => true
     end.

(** One round of the loop over [allThreadKeys].  [existing] is the table as
    fetched before the loop; updates go to the row with the fetched id,
    that is, to the row of the same thread key. *)
Definition syncKey (now : Z)
    (threads : gmap string CategorizedThread.t) (todos : gmap string IdentifiedTodo.t)
    (existing : gmap string DashTodo.t)
    (st : Db * TodoSyncResult) (threadKey : string) : Db * TodoSyncResult :=
  let '(db, result) := st in
  let thread := threads !! threadKey in
  let todo := todos !! threadKey in
  match existing !! threadKey with
  | Some existingTodo =>
      if repliedWithoutNewTodo existingTodo thread todo then
        match thread with
        | Some th =>
            (withTodos db (alter (resolveByReply now th) threadKey (dashTodos db)),
             {| newTodos := newTodos result;
                resolvedTodos := S (resolvedTodos result);
                updatedThreads := updatedThreads result |})
        | None => st
        end
      else
        match thread with
        | Some th =>
            (withTodos db
               (alter (updateMetadata now th todo existingTodo) threadKey (dashTodos db)),
             {| newTodos := newTodos result;
                resolvedTodos := resolvedTodos result;
                updatedThreads := S (updatedThreads result) |})
        | None => st
        end
  | None =>
      match todo, thread with
      | Some td, Some th =>
          if decide (threadKey ∈ dismissedThreads db) then
            (withTodos db
               (insertOnConflictDoNothing (newRow now threadKey th td true) (dashTodos db)),
             result)
          else
            (withTodos db
               (insertOnConflictDoNothing (newRow now threadKey th td false) (dashTodos db)),
             {| newTodos := S (newTodos result);
                resolvedTodos := resolvedTodos result;
                updatedThreads := updatedThreads result |})
      | _, _ => st
      end
  end.

Definition syncDashTodos (now : Z) (threads : list CategorizedThread.t)
    (todos : list IdentifiedTodo.t) (db : Db) : Db * TodoSyncResult :=
  fold_left
    (syncKey now (threadsByKey threads) (todosByThreadKey todos) (dashTodos db))
    (allThreadKeys threads todos)
    (db, {| newTodos := 0; resolvedTodos := 0; updatedThreads := 0 |}).

(** Our reply came after the todo was first detected. *)
Definition repliedAfterDetection (OUR_DOMAIN : string) (row : DashTodo.t)
    (thread : CategorizedThread.t) : bool :=
  existsb
    (fun e =>
       CategorizerBase.isOutbound OUR_DOMAIN e
       && match date e with
          | Some d => DashTodo.firstDetectedAt row <? d
          | None => false
          end)
    (CategorizedThread.emails thread).

End TodoSync.

(** ** A sample todo reconciliation *)

Module TodoSamples.
Import CategorizerSamples TodoSync.

(** A request for a quote, our reply, and the customer's closing thanks. *)
Definition rfqMail : Email :=
  {| messageId := Some "<r1@acme.example>"; inReplyTo := None;
     references := None; subject := Some "RFQ steel plates";
     date := Some 1000; fromAddress := Some "buyer@acme.example";
     fromName := Some "Jane Buyer"; toAddresses := Some ["sales@masprecisionparts.com"];
     mailbox := "INBOX"; bodyText := Some "Please quote 40 plates.";
     hasAttachments := false; attachments := None |}.

Definition quoteReply : Email :=
  {| messageId := Some "<r2@masprecisionparts.com>"; inReplyTo := Some "<r1@acme.example>";
     references := Some "<r1@acme.example>"; subject := Some "Re: RFQ steel plates";
     date := Some 2000; fromAddress := Some "sales@masprecisionparts.com";
     fromName := None; toAddresses := Some ["buyer@acme.example"];
     mailbox := "Sent"; bodyText := Some "Here is your quote Q-1049.";
     hasAttachments := false; attachments := None |}.

Definition closingThanks : Email :=
  {| messageId := Some "<r3@acme.example>"; inReplyTo := Some "<r2@masprecisionparts.com>";
     references := Some "<r1@acme.example>"; subject := Some "Re: RFQ steel plates";
     date := Some 3000; fromAddress := Some "buyer@acme.example";
     fromName := Some "Jane Buyer"; toAddresses := Some ["sales@masprecisionparts.com"];
     mailbox := "INBOX"; bodyText := Some "Thanks!";
     hasAttachments := false; attachments := None |}.

Definition rfqKey : string := "<r1@acme.example>".

(** The open todo that the request created when it came in. *)
Definition rfqTodo : DashTodo.t :=
  {| DashTodo.threadKey := rfqKey;
     DashTodo.todoType := quote_unanswered;
     DashTodo.category := customer;
     DashTodo.itemType := quote_request;
     DashTodo.contactEmail := Some "buyer@acme.example";
     DashTodo.contactName := Some "Jane Buyer";
     DashTodo.subject := Some "RFQ steel plates";
     DashTodo.summary := None;
     DashTodo.description := "Customer requested a quote";
     DashTodo.firstDetectedAt := 1000;
     DashTodo.lastEmailDate := Some 1000;
     DashTodo.emailCount := 1;
     DashTodo.needsResponse := true;
     DashTodo.lastEmailFromUs := false;
     DashTodo.status := st_open;
     DashTodo.resolvedAt := None;
     DashTodo.resolvedBy := None;
     DashTodo.poDetails := None;
     DashTodo.isSuspicious := false;
     DashTodo.createdAt := 1000;
     DashTodo.updatedAt := 1000 |}.

Definition dbWithRfqTodo : Db :=
  {| dashTodos := {[rfqKey := rfqTodo]}; dismissedThreads := ∅ |}.

(** The thread as the categorizer hands it over. *)
Definition threadAfterThanks : CategorizedThread.t :=
  match Categorizer.categorizeThreads ourDomain noAnswers
          [rfqMail; quoteReply; closingThanks] with
  | Some (ct :: _) => ct
  | _ =>
      {| CategorizedThread.threadKey := EmptyString; CategorizedThread.emails := [];
         CategorizedThread.category := other; CategorizedThread.itemType := general;
         CategorizedThread.contactEmail := None; CategorizedThread.contactName := None;
         CategorizedThread.subject := EmptyString; CategorizedThread.summary := None;
         CategorizedThread.emailCount := 0; CategorizedThread.lastEmailDate := None;
         CategorizedThread.lastEmailFromUs := false;
         CategorizedThread.needsResponse := false;
         CategorizedThread.poDetails := None; CategorizedThread.isSuspicious := false |}
  end.

Definition threadAfterReply : CategorizedThread.t :=
  match Categorizer.categorizeThreads ourDomain noAnswers [rfqMail; quoteReply] with
  | Some (ct :: _) => ct
  | _ => threadAfterThanks
  end.

(** A thread that was dismissed by hand and then gets a new inbound email. *)
Definition dbDismissed : Db :=
  {| dashTodos := ∅; dismissedThreads := {[rfqKey]} |}.

Definition threadRfqOnly : CategorizedThread.t :=
  match Categorizer.categorizeThreads ourDomain noAnswers [rfqMail] with
  | Some (ct :: _) => ct
  | _ => threadAfterThanks
  end.

Definition identifiedRfq : IdentifiedTodo.t :=
  {| IdentifiedTodo.threadKey := rfqKey;
     IdentifiedTodo.todoType := quote_unanswered;
     IdentifiedTodo.description := "Customer requested a quote";
     IdentifiedTodo.contactName := Some "Jane Buyer";
     IdentifiedTodo.contactEmail := Some "buyer@acme.example";
     IdentifiedTodo.subject := Some "RFQ steel plates";
     IdentifiedTodo.originalDate := Some 1000 |}.

End TodoSamples.

(** ** src/jobs/alert-manager.ts *)

Inductive AlertType : Type :=
  po_detected | po_detected_with_so | no_qb_customer | suspicious_po_email
| po_missing_so | so_should_be_closed.

Definition AlertType_eqb (a b : AlertType) : bool :=
  match a, b with
  | po_detected, po_detected | po_detected_with_so, po_detected_with_so
  | no_qb_customer, no_qb_customer | suspicious_po_email, suspicious_po_email
  | po_missing_so, po_missing_so | so_should_be_closed, so_should_be_closed => true
  | _, _ => false
  end.

(** A row of [qb_sync_alerts] without its serial id: the table is a map from
    the id to the rest of the row.  Amounts are in cents. *)
Module QbSyncAlert.
Record t : Type := {
  alertType : AlertType;
  threadKey : string;
  subject : option string;
  contactEmail : option string;
  contactName : option string;
  detectedAt : Z;
  escalatedAt : option Z;
  resolvedAt : option Z;
  resolvedBy : option ResolvedBy;
  status : Status;
  poNumber : option string;
  poTotal : option Z;
  qbCustomerId : option string;
  qbCustomerName : option string;
  salesOrderId : option string;
  salesOrderRef : option string;
  salesOrderTotal : option Z;
  estimateId : option string;
  estimateRef : option string;
  lastNotifiedAt : option Z
}.
End QbSyncAlert.

Module MatchResult.
Record t : Type := { customerId : string; customerName : string }.
End MatchResult.

Module QbDocument.
Record t : Type := { id : string; refNumber : option string; totalAmount : option Z }.
End QbDocument.

(** A call to the ledger, tagged with what it was made for (a thread key
    in stage 1, an alert id in stage 2). *)
Inductive LedgerCall (Tag : Type) : Type :=
| MatchCustomer (tag : Tag) (email : string)
| GetDocuments (tag : Tag) (customerId : string).
Arguments MatchCustomer {Tag}.
Arguments GetDocuments {Tag}.

Definition callTag {Tag : Type} (c : LedgerCall Tag) : Tag :=
  match c with
  | MatchCustomer tag _ => tag
  | GetDocuments tag _ => tag
  end.

(** What a call to the ledger gives: a reply, or an exception (an API
    error, a timeout, too many retries).  The alert manager catches none of
    them: an exception ends the function that made the call. *)
Inductive Reply (A : Type) : Type :=
| Replies (a : A)
| Raises.
Arguments Replies {A}.
Arguments Raises {A}.

Definition raised {A : Type} (r : Reply A) : bool :=
  match r with
  | Replies _ => false
  | Raises => true
  end.

(** The rounds of a loop that are run when [raises] tells the rounds that
    throw: those up to the first one that throws, that one included. *)
Fixpoint attempted {A : Type} (raises : A -> bool) (l : list A) : list A :=
  match l with
  | [] => []
  | x :: l' => x :: (if raises x then [] else attempted raises l')
  end.

Module AlertManager.

Definition ESCALATION_HOURS : Z := 4.

Record AlertDb : Type := {
  rows : gmap nat QbSyncAlert.t;
  nextId : nat
}.

Definition withRows (db : AlertDb) (r : gmap nat QbSyncAlert.t) : AlertDb :=
  {| rows := r; nextId := nextId db |}.

Section WithLedger.
(** The collaborators.  [Docs] is what [getCustomerJobDocuments] returns;
    [findMatchingSalesOrder] and [findMatchingEstimate] compare reference
    numbers and floating-point amounts and are taken as given.
    [mentionsPdf] is [e.attachments?.toLowerCase().includes("pdf")], a
    test on the stored text of the attachments, which the [Email] record
    holds parsed.  [analyzeEmailPdfs] is called inside a [try]: it gives
    the details of the first document, [None] when it throws, finds no
    document or no details.  [client] is [None] when the ledger client
    cannot be set up. *)
Variable OUR_DOMAIN : string.
Variable Docs : Type.
Variable isDomainTrusted : string -> bool.
Variable mentionsPdf : Email -> bool.
Variable analyzeEmailPdfs : Email -> option PoDetails.t.
Variable findMatchingSalesOrder : Docs -> option string -> option Z -> option QbDocument.t.
Variable findMatchingEstimate : Docs -> option string -> option Z -> option QbDocument.t.

(** The two calls to the ledger; both are awaited outside any [try]. *)
Record Ledger : Type := {
  matchCustomer : string -> option string -> Reply (option MatchResult.t);
  getCustomerJobDocuments : string -> Reply Docs
}.

Variable client : option Ledger.

(** A number that is neither 0 nor missing. *)
Definition nonZero (z : option Z) : option Z :=
  match z with
  | Some n => if n =? 0 then None else Some n
  | None => None
  end.

Definition createAlert (data : QbSyncAlert.t) (db : AlertDb)
  : AlertDb * (nat * QbSyncAlert.t) :=
  ({| rows := <[nextId db := data]> (rows db); nextId := S (nextId db) |},
   (nextId db, data)).

Definition baseAlert (now : Z) (thread : CategorizedThread.t) (contact : Contact.t)
  : QbSyncAlert.t :=
  {| QbSyncAlert.alertType := po_detected;
     QbSyncAlert.threadKey := CategorizedThread.threadKey thread;
     QbSyncAlert.subject := Some (CategorizedThread.subject thread);
     QbSyncAlert.contactEmail := Contact.email contact;
     QbSyncAlert.contactName := Contact.name contact;
     QbSyncAlert.detectedAt := now;
     QbSyncAlert.escalatedAt := None;
     QbSyncAlert.resolvedAt := None;
     QbSyncAlert.resolvedBy := None;
     QbSyncAlert.status := st_open;
     QbSyncAlert.poNumber := None;
     QbSyncAlert.poTotal := None;
     QbSyncAlert.qbCustomerId := None;
     QbSyncAlert.qbCustomerName := None;
     QbSyncAlert.salesOrderId := None;
     QbSyncAlert.salesOrderRef := None;
     QbSyncAlert.salesOrderTotal := None;
     QbSyncAlert.estimateId := None;
     QbSyncAlert.estimateRef := None;
     QbSyncAlert.lastNotifiedAt := None |}.

Definition withType (ty : AlertType) (a : QbSyncAlert.t) : QbSyncAlert.t :=
  {| QbSyncAlert.alertType := ty;
     QbSyncAlert.threadKey := QbSyncAlert.threadKey a;
     QbSyncAlert.subject := QbSyncAlert.subject a;
     QbSyncAlert.contactEmail := QbSyncAlert.contactEmail a;
     QbSyncAlert.contactName := QbSyncAlert.contactName a;
     QbSyncAlert.detectedAt := QbSyncAlert.detectedAt a;
     QbSyncAlert.escalatedAt := QbSyncAlert.escalatedAt a;
     QbSyncAlert.resolvedAt := QbSyncAlert.resolvedAt a;
     QbSyncAlert.resolvedBy := QbSyncAlert.resolvedBy a;
     QbSyncAlert.status := QbSyncAlert.status a;
     QbSyncAlert.poNumber := QbSyncAlert.poNumber a;
     QbSyncAlert.poTotal := QbSyncAlert.poTotal a;
     QbSyncAlert.qbCustomerId := QbSyncAlert.qbCustomerId a;
     QbSyncAlert.qbCustomerName := QbSyncAlert.qbCustomerName a;
     QbSyncAlert.salesOrderId := QbSyncAlert.salesOrderId a;
     QbSyncAlert.salesOrderRef := QbSyncAlert.salesOrderRef a;
     QbSyncAlert.salesOrderTotal := QbSyncAlert.salesOrderTotal a;
     QbSyncAlert.estimateId := QbSyncAlert.estimateId a;
     QbSyncAlert.estimateRef := QbSyncAlert.estimateRef a;
     QbSyncAlert.lastNotifiedAt := QbSyncAlert.lastNotifiedAt a |}.

Definition withPoDetails (poDetails : option PoDetails.t) (a : QbSyncAlert.t)
  : QbSyncAlert.t :=
  match poDetails with
  | None => a
  | Some d =>
      {| QbSyncAlert.alertType := QbSyncAlert.alertType a;
         QbSyncAlert.threadKey := QbSyncAlert.threadKey a;
         QbSyncAlert.subject := QbSyncAlert.subject a;
         QbSyncAlert.contactEmail := QbSyncAlert.contactEmail a;
         QbSyncAlert.contactName := QbSyncAlert.contactName a;
         QbSyncAlert.detectedAt := QbSyncAlert.detectedAt a;
         QbSyncAlert.escalatedAt := QbSyncAlert.escalatedAt a;
         QbSyncAlert.resolvedAt := QbSyncAlert.resolvedAt a;
         QbSyncAlert.resolvedBy := QbSyncAlert.resolvedBy a;
         QbSyncAlert.status := QbSyncAlert.status a;
         QbSyncAlert.poNumber := PoDetails.poNumber d;
         QbSyncAlert.poTotal := PoDetails.total d;
         QbSyncAlert.qbCustomerId := QbSyncAlert.qbCustomerId a;
         QbSyncAlert.qbCustomerName := QbSyncAlert.qbCustomerName a;
         QbSyncAlert.salesOrderId := QbSyncAlert.salesOrderId a;
         QbSyncAlert.salesOrderRef := QbSyncAlert.salesOrderRef a;
         QbSyncAlert.salesOrderTotal := QbSyncAlert.salesOrderTotal a;
         QbSyncAlert.estimateId := QbSyncAlert.estimateId a;
         QbSyncAlert.estimateRef := QbSyncAlert.estimateRef a;
         QbSyncAlert.lastNotifiedAt := QbSyncAlert.lastNotifiedAt a |}
  end.

Definition withCustomer (m : MatchResult.t) (a : QbSyncAlert.t) : QbSyncAlert.t :=
  {| QbSyncAlert.alertType := QbSyncAlert.alertType a;
     QbSyncAlert.threadKey := QbSyncAlert.threadKey a;
     QbSyncAlert.subject := QbSyncAlert.subject a;
     QbSyncAlert.contactEmail := QbSyncAlert.contactEmail a;
     QbSyncAlert.contactName := QbSyncAlert.contactName a;
     QbSyncAlert.detectedAt := QbSyncAlert.detectedAt a;
     QbSyncAlert.escalatedAt := QbSyncAlert.escalatedAt a;
     QbSyncAlert.resolvedAt := QbSyncAlert.resolvedAt a;
     QbSyncAlert.resolvedBy := QbSyncAlert.resolvedBy a;
     QbSyncAlert.status := QbSyncAlert.status a;
     QbSyncAlert.poNumber := QbSyncAlert.poNumber a;
     QbSyncAlert.poTotal := QbSyncAlert.poTotal a;
     QbSyncAlert.qbCustomerId := Some (MatchResult.customerId m);
     QbSyncAlert.qbCustomerName := Some (MatchResult.customerName m);
     QbSyncAlert.salesOrderId := QbSyncAlert.salesOrderId a;
     QbSyncAlert.salesOrderRef := QbSyncAlert.salesOrderRef a;
     QbSyncAlert.salesOrderTotal := QbSyncAlert.salesOrderTotal a;
     QbSyncAlert.estimateId := QbSyncAlert.estimateId a;
     QbSyncAlert.estimateRef := QbSyncAlert.estimateRef a;
     QbSyncAlert.lastNotifiedAt := QbSyncAlert.lastNotifiedAt a |}.

Definition withSalesOrder (so : QbDocument.t) (a : QbSyncAlert.t) : QbSyncAlert.t :=
  {| QbSyncAlert.alertType := QbSyncAlert.alertType a;
     QbSyncAlert.threadKey := QbSyncAlert.threadKey a;
     QbSyncAlert.subject := QbSyncAlert.subject a;
     QbSyncAlert.contactEmail := QbSyncAlert.contactEmail a;
     QbSyncAlert.contactName := QbSyncAlert.contactName a;
     QbSyncAlert.detectedAt := QbSyncAlert.detectedAt a;
     QbSyncAlert.escalatedAt := QbSyncAlert.escalatedAt a;
     QbSyncAlert.resolvedAt := QbSyncAlert.resolvedAt a;
     QbSyncAlert.resolvedBy := QbSyncAlert.resolvedBy a;
     QbSyncAlert.status := QbSyncAlert.status a;
     QbSyncAlert.poNumber := QbSyncAlert.poNumber a;
     QbSyncAlert.poTotal := QbSyncAlert.poTotal a;
     QbSyncAlert.qbCustomerId := QbSyncAlert.qbCustomerId a;
     QbSyncAlert.qbCustomerName := QbSyncAlert.qbCustomerName a;
     QbSyncAlert.salesOrderId := Some (QbDocument.id so);
     QbSyncAlert.salesOrderRef := QbDocument.refNumber so;
     QbSyncAlert.salesOrderTotal := QbDocument.totalAmount so;
     QbSyncAlert.estimateId := QbSyncAlert.estimateId a;
     QbSyncAlert.estimateRef := QbSyncAlert.estimateRef a;
     QbSyncAlert.lastNotifiedAt := QbSyncAlert.lastNotifiedAt a |}.

Definition withEstimate (est : option QbDocument.t) (a : QbSyncAlert.t) : QbSyncAlert.t :=
  match est with
  | None => a
  | Some e =>
      {| QbSyncAlert.alertType := QbSyncAlert.alertType a;
         QbSyncAlert.threadKey := QbSyncAlert.threadKey a;
         QbSyncAlert.subject := QbSyncAlert.subject a;
         QbSyncAlert.contactEmail := QbSyncAlert.contactEmail a;
         QbSyncAlert.contactName := QbSyncAlert.contactName a;
         QbSyncAlert.detectedAt := QbSyncAlert.detectedAt a;
         QbSyncAlert.escalatedAt := QbSyncAlert.escalatedAt a;
         QbSyncAlert.resolvedAt := QbSyncAlert.resolvedAt a;
         QbSyncAlert.resolvedBy := QbSyncAlert.resolvedBy a;
         QbSyncAlert.status := QbSyncAlert.status a;
         QbSyncAlert.poNumber := QbSyncAlert.poNumber a;
         QbSyncAlert.poTotal := QbSyncAlert.poTotal a;
         QbSyncAlert.qbCustomerId := QbSyncAlert.qbCustomerId a;
         QbSyncAlert.qbCustomerName := QbSyncAlert.qbCustomerName a;
         QbSyncAlert.salesOrderId := QbSyncAlert.salesOrderId a;
         QbSyncAlert.salesOrderRef := QbSyncAlert.salesOrderRef a;
         QbSyncAlert.salesOrderTotal := QbSyncAlert.salesOrderTotal a;
         QbSyncAlert.estimateId := Some (QbDocument.id e);
         QbSyncAlert.estimateRef := QbDocument.refNumber e;
         QbSyncAlert.lastNotifiedAt := QbSyncAlert.lastNotifiedAt a |}
  end.

(** [thread.emails.find(e => e.hasAttachments && ...includes("pdf"))] and
    the analysis of that email. *)
Definition emailWithPdf (thread : CategorizedThread.t) : option Email :=
  find (fun e => hasAttachments e && mentionsPdf e) (CategorizedThread.emails thread).

Definition extractPoDetails (thread : CategorizedThread.t) : option PoDetails.t :=
  emailWithPdf thread ≫= analyzeEmailPdfs.

(** The body of the loop of [analyzeNewPoEmails] for a thread without a
    prior alert: the alert to create, or the exception of a ledger call,
    and the ledger calls made on the way. *)
Definition stage1Alert (now : Z) (thread : CategorizedThread.t)
  : Reply QbSyncAlert.t * list (LedgerCall string) :=
  let key := CategorizedThread.threadKey thread in
  let contact :=
    CategorizerBase.getExternalContact OUR_DOMAIN (CategorizedThread.emails thread) in
  let base := baseAlert now thread contact in
  match Js.truthy (Contact.email contact) with
  | None => (Replies (withType suspicious_po_email base), [])
  | Some email =>
      if negb (isDomainTrusted email)
      then (Replies (withType suspicious_po_email base), [])
      else
        let poDetails := extractPoDetails thread in
        let base := withPoDetails poDetails base in
        match client with
        | None => (Replies (withType po_detected base), [])
        | Some qb =>
            match matchCustomer qb email (Js.truthy (Contact.name contact)) with
            | Raises => (Raises, [MatchCustomer key email])
            | Replies None =>
                (Replies (withType no_qb_customer base), [MatchCustomer key email])
            | Replies (Some matchResult) =>
                let base := withCustomer matchResult base in
                let customerId := MatchResult.customerId matchResult in
                let calls := [MatchCustomer key email; GetDocuments key customerId] in
                let poNumber := poDetails ≫= (fun d => Js.truthy (PoDetails.poNumber d)) in
                let total := poDetails ≫= PoDetails.total in
                match getCustomerJobDocuments qb customerId with
                | Raises => (Raises, calls)
                | Replies docs =>
                    match findMatchingSalesOrder docs poNumber total with
                    | Some matchingSO =>
                        (Replies (withType po_detected_with_so
                                    (withSalesOrder matchingSO base)), calls)
                    | None =>
                        (Replies
                           (withType po_detected
                              (withEstimate (findMatchingEstimate docs poNumber total)
                                            base)),
                         calls)
                    end
                end
            end
        end
  end.

(** The thread keys that already have an alert, whatever its status. *)
Definition existingThreadKeys (db : AlertDb) : gset string :=
  list_to_set (map (fun '(_, a) => QbSyncAlert.threadKey a) (map_to_list (rows db))).

(** The state of the loop: the table, the alerts created and the ledger
    calls made so far. *)
Record Stage1 : Type := {
  s1_db : AlertDb;
  newAlerts : list (nat * QbSyncAlert.t);
  s1_calls : list (LedgerCall string)
}.

(** One round of the loop, and whether it throws. *)
Definition analyzeThread (now : Z) (existing : gset string) (st : Stage1)
    (thread : CategorizedThread.t) : Stage1 * bool :=
  if decide (CategorizedThread.threadKey thread ∈ existing) then (st, false)
  else
    match stage1Alert now thread with
    | (Replies data, calls) =>
        let '(db', alert) := createAlert data (s1_db st) in
        ({| s1_db := db'; newAlerts := newAlerts st ++ [alert];
            s1_calls := s1_calls st ++ calls |}, false)
    | (Raises, calls) =>
        ({| s1_db := s1_db st; newAlerts := newAlerts st;
            s1_calls := s1_calls st ++ calls |}, true)
    end.

(** [analyzeNewPoEmails]: the state it leaves, and whether it threw
    instead of returning the new alerts. *)
Definition analyzeNewPoEmails (now : Z) (poReceivedThreads : list CategorizedThread.t)
    (db : AlertDb) : Stage1 * bool :=
  loopUntilRaise (analyzeThread now (existingThreadKeys db)) poReceivedThreads
                 {| s1_db := db; newAlerts := []; s1_calls := [] |}.

(** The ledger calls of the round of a thread. *)
Definition callsFor (now : Z) (existing : gset string) (thread : CategorizedThread.t)
  : list (LedgerCall string) :=
  if decide (CategorizedThread.threadKey thread ∈ existing) then []
  else snd (stage1Alert now thread).

(** The round of the thread throws. *)
Definition stage1Raises (now : Z) (existing : gset string) (thread : CategorizedThread.t)
  : bool :=
  negb (bool_decide (CategorizedThread.threadKey thread ∈ existing))
  && raised (fst (stage1Alert now thread)).

(** *** Stage 2 *)

Definition cutoffTime (now : Z) : Z := now - ESCALATION_HOURS * 60 * 60 * 1000.

(** The [where] clause of the candidate query. *)
Definition isCandidate (now : Z) (a : QbSyncAlert.t) : bool :=
  AlertType_eqb (QbSyncAlert.alertType a) po_detected
  && Status_eqb (QbSyncAlert.status a) st_open
  && (QbSyncAlert.detectedAt a <? cutoffTime now)
  && match QbSyncAlert.escalatedAt a with
     | None => true
     | Some _ => false
     end.

Definition escalated (now : Z) (a : QbSyncAlert.t) : QbSyncAlert.t :=
  {| QbSyncAlert.alertType := po_missing_so;
     QbSyncAlert.threadKey := QbSyncAlert.threadKey a;
     QbSyncAlert.subject := QbSyncAlert.subject a;
     QbSyncAlert.contactEmail := QbSyncAlert.contactEmail a;
     QbSyncAlert.contactName := QbSyncAlert.contactName a;
     QbSyncAlert.detectedAt := QbSyncAlert.detectedAt a;
     QbSyncAlert.escalatedAt := Some now;
     QbSyncAlert.resolvedAt := QbSyncAlert.resolvedAt a;
     QbSyncAlert.resolvedBy := QbSyncAlert.resolvedBy a;
     QbSyncAlert.status := QbSyncAlert.status a;
     QbSyncAlert.poNumber := QbSyncAlert.poNumber a;
     QbSyncAlert.poTotal := QbSyncAlert.poTotal a;
     QbSyncAlert.qbCustomerId := QbSyncAlert.qbCustomerId a;
     QbSyncAlert.qbCustomerName := QbSyncAlert.qbCustomerName a;
     QbSyncAlert.salesOrderId := QbSyncAlert.salesOrderId a;
     QbSyncAlert.salesOrderRef := QbSyncAlert.salesOrderRef a;
     QbSyncAlert.salesOrderTotal := QbSyncAlert.salesOrderTotal a;
     QbSyncAlert.estimateId := QbSyncAlert.estimateId a;
     QbSyncAlert.estimateRef := QbSyncAlert.estimateRef a;
     QbSyncAlert.lastNotifiedAt := QbSyncAlert.lastNotifiedAt a |}.

Definition closed (st : Status) (by_ : ResolvedBy) (now : Z) (a : QbSyncAlert.t)
  : QbSyncAlert.t :=
  {| QbSyncAlert.alertType := QbSyncAlert.alertType a;
     QbSyncAlert.threadKey := QbSyncAlert.threadKey a;
     QbSyncAlert.subject := QbSyncAlert.subject a;
     QbSyncAlert.contactEmail := QbSyncAlert.contactEmail a;
     QbSyncAlert.contactName := QbSyncAlert.contactName a;
     QbSyncAlert.detectedAt := QbSyncAlert.detectedAt a;
     QbSyncAlert.escalatedAt := QbSyncAlert.escalatedAt a;
     QbSyncAlert.resolvedAt := Some now;
     QbSyncAlert.resolvedBy := Some by_;
     QbSyncAlert.status := st;
     QbSyncAlert.poNumber := QbSyncAlert.poNumber a;
     QbSyncAlert.poTotal := QbSyncAlert.poTotal a;
     QbSyncAlert.qbCustomerId := QbSyncAlert.qbCustomerId a;
     QbSyncAlert.qbCustomerName := QbSyncAlert.qbCustomerName a;
     QbSyncAlert.salesOrderId := QbSyncAlert.salesOrderId a;
     QbSyncAlert.salesOrderRef := QbSyncAlert.salesOrderRef a;
     QbSyncAlert.salesOrderTotal := QbSyncAlert.salesOrderTotal a;
     QbSyncAlert.estimateId := QbSyncAlert.estimateId a;
     QbSyncAlert.estimateRef := QbSyncAlert.estimateRef a;
     QbSyncAlert.lastNotifiedAt := QbSyncAlert.lastNotifiedAt a |}.

(** [update ... where id = alertId] *)
Definition escalateAlert (now : Z) (alertId : nat) (db : AlertDb) : AlertDb :=
  withRows db (alter (escalated now) alertId (rows db)).

Definition resolveAlert (now : Z) (alertId : nat) (by_ : ResolvedBy) (db : AlertDb)
  : AlertDb :=
  withRows db (alter (closed st_resolved by_ now) alertId (rows db)).

Definition dismissAlert (now : Z) (alertId : nat) (db : AlertDb) : AlertDb :=
  withRows db (alter (closed st_dismissed by_manual now) alertId (rows db)).

Record Stage2 : Type := {
  s2_db : AlertDb;
  escalations : list nat;
  s2_calls : list (LedgerCall nat)
}.

(** Whether the ledger, asked now, holds a sales order for the alert. *)
Definition salesOrderNow (qb : Ledger) (customerId : string) (alert : QbSyncAlert.t)
  : Reply (option QbDocument.t) :=
  match getCustomerJobDocuments qb customerId with
  | Replies docs =>
      Replies (findMatchingSalesOrder docs
                                      (Js.truthy (QbSyncAlert.poNumber alert))
                                      (nonZero (QbSyncAlert.poTotal alert)))
  | Raises => Raises
  end.

(** One round of the loop of [checkEscalations], and whether it throws;
    [alert] is the row as the candidate query returned it. *)
Definition escalationStep (now : Z) (qb : Ledger) (st : Stage2)
    (candidate : nat * QbSyncAlert.t) : Stage2 * bool :=
  let '(alertId, alert) := candidate in
  match Js.truthy (QbSyncAlert.qbCustomerId alert) with
  | None =>
      ({| s2_db := escalateAlert now alertId (s2_db st);
          escalations := escalations st ++ [alertId];
          s2_calls := s2_calls st |}, false)
  | Some customerId =>
      let calls := s2_calls st ++ [GetDocuments alertId customerId] in
      match salesOrderNow qb customerId alert with
      | Raises =>
          ({| s2_db := s2_db st; escalations := escalations st; s2_calls := calls |},
           true)
      | Replies (Some _) =>
          ({| s2_db := resolveAlert now alertId by_auto (s2_db st);
              escalations := escalations st;
              s2_calls := calls |}, false)
      | Replies None =>
          ({| s2_db := escalateAlert now alertId (s2_db st);
              escalations := escalations st ++ [alertId];
              s2_calls := calls |}, false)
      end
  end.

(** The round of the candidate throws. *)
Definition escalationRaises (qb : Ledger) (candidate : nat * QbSyncAlert.t) : bool :=
  match Js.truthy (QbSyncAlert.qbCustomerId (snd candidate)) with
  | None => false
  | Some customerId => raised (salesOrderNow qb customerId (snd candidate))
  end.

(** The change that a round makes to the row of its candidate, and the
    ledger call it makes. *)
Definition escalationChange (now : Z) (qb : Ledger) (alert : QbSyncAlert.t)
  : QbSyncAlert.t -> QbSyncAlert.t :=
  match Js.truthy (QbSyncAlert.qbCustomerId alert) with
  | None => escalated now
  | Some customerId =>
      match salesOrderNow qb customerId alert with
      | Replies (Some _) => closed st_resolved by_auto now
      | Replies None => escalated now
      | Raises => fun a => a
      end
  end.

Definition escalationCalls (candidate : nat * QbSyncAlert.t) : list (LedgerCall nat) :=
  let '(alertId, alert) := candidate in
  match Js.truthy (QbSyncAlert.qbCustomerId alert) with
  | None => []
  | Some customerId => [GetDocuments alertId customerId]
  end.

Definition candidateAlerts (now : Z) (db : AlertDb) : list (nat * QbSyncAlert.t) :=
  filter (fun '(_, a) => isCandidate now a = true) (map_to_list (rows db)).

(** [checkEscalations]: the state it leaves, and whether it threw. *)
Definition checkEscalations (now : Z) (db : AlertDb) : Stage2 * bool :=
  let idle := {| s2_db := db; escalations := []; s2_calls := [] |} in
  match candidateAlerts now db with
  | [] => (idle, false)
  | candidates =>
      match client with
      | None => (idle, false)
      | Some qb => loopUntilRaise (escalationStep now qb) candidates idle
      end
  end.

(** The candidates whose round is run. *)
Definition attemptedCandidates (now : Z) (qb : Ledger) (db : AlertDb)
  : list (nat * QbSyncAlert.t) :=
  attempted (escalationRaises qb) (candidateAlerts now db).

(** What stage 2 does to the row [alertId]: the change of its round, when
    that round is run. *)
Definition afterEscalationCheck (now : Z) (db : AlertDb) (alertId : nat)
    (a : QbSyncAlert.t) : QbSyncAlert.t :=
  match client with
  | None => a
  | Some qb =>
      if bool_decide (alertId ∈ (attemptedCandidates now qb db).*1)
      then escalationChange now qb a a
      else a
  end.

(** The claim of the specification about stage 2, row by row: a row past
    the threshold is promoted or resolved only after a ledger call made
    for it. *)
Definition reverifiedBeforeChange (now : Z) (db : AlertDb) : Prop :=
  forall alertId a a',
    rows db !! alertId = Some a ->
    rows (s2_db (fst (checkEscalations now db))) !! alertId = Some a' ->
    a' <> a ->
    exists customerId,
      In (GetDocuments alertId customerId) (s2_calls (fst (checkEscalations now db))).

End WithLedger.
End AlertManager.

(** The operations that change the alert table, and a run of them. *)
Module AlertOps.
Import AlertManager.

Section WithLedger.
Variable Docs : Type.
Variable findMatchingSalesOrder : Docs -> option string -> option Z -> option QbDocument.t.
Variable client : option (Ledger Docs).

Inductive AlertOp : Type :=
| OpCreate (data : QbSyncAlert.t)
| OpEscalate (now : Z) (alertId : nat)
| OpResolve (now : Z) (alertId : nat) (by_ : ResolvedBy)
| OpDismiss (now : Z) (alertId : nat)
| OpCheckEscalations (now : Z).

Definition applyOp (db : AlertDb) (op : AlertOp) : AlertDb :=
  match op with
  | OpCreate data => fst (createAlert data db)
  | OpEscalate now alertId => escalateAlert now alertId db
  | OpResolve now alertId by_ => resolveAlert now alertId by_ db
  | OpDismiss now alertId => dismissAlert now alertId db
  | OpCheckEscalations now =>
      s2_db (fst (checkEscalations Docs findMatchingSalesOrder client now db))
  end.

(** The serial id is ahead of every row. *)
Definition SerialAhead (db : AlertDb) : Prop :=
  forall i a, rows db !! i = Some a -> (i < nextId db)%nat.
End WithLedger.
End AlertOps.

(** ** Sample ledger and alerts *)

Module AlertSamples.
Import CategorizerSamples AlertManager.

Definition SampleDocs : Type := list QbDocument.t.

Definition acmeLedger : Ledger SampleDocs :=
  {| matchCustomer := fun email _ =>
       Replies
         (if String.eqb email "buyer@acme.example"
          then Some {| MatchResult.customerId := "C-1"; MatchResult.customerName := "Acme" |}
          else None);
     getCustomerJobDocuments := fun customerId =>
       Replies
         (if String.eqb customerId "C-1"
          then [{| QbDocument.id := "SO-9"; QbDocument.refNumber := Some "4471";
                   QbDocument.totalAmount := Some 125000 |}]
          else []) |}.

(** A ledger that answers no call: every request times out. *)
Definition ledgerTimesOut : Ledger SampleDocs :=
  {| matchCustomer := fun _ _ => Raises;
     getCustomerJobDocuments := fun _ => Raises |}.

(** A stand-in for the matcher: the reference number equals the PO number. *)
Definition sameReference (docs : SampleDocs) (poNumber : option string) (_ : option Z)
  : option QbDocument.t :=
  find (fun d =>
          match QbDocument.refNumber d, poNumber with
          | Some r, Some p => String.eqb r p
          | _, _ => false
          end) docs.

Definition noEstimate (_ : SampleDocs) (_ : option string) (_ : option Z)
  : option QbDocument.t := None.

Definition trustAcme (email : string) : bool := Js.endsWith email "@acme.example".

(** The attachments mention a PDF when a file name or a content type
    does. *)
Definition namesPdf (e : Email) : bool :=
  match attachments e with
  | Some atts =>
      existsb (fun att =>
                 Js.includes (Js.toLowerCase (Js.orDefault (filename att) EmptyString)) "pdf"
                 || Js.includes (Js.toLowerCase (Js.orDefault (contentType att) EmptyString))
                                "pdf")
              atts
  | None => false
  end.

Definition readsPo4471 (_ : Email) : option PoDetails.t :=
  Some {| PoDetails.poNumber := Some "4471"; PoDetails.total := Some 125000 |}.

Definition emptyDb : AlertDb := {| rows := ∅; nextId := 1 |}.

(** The purchase order thread of [poMail], as categorized. *)
Definition poThread : CategorizedThread.t :=
  match CategorizerSafetyNets.categorizeThreads ourDomain saysGeneral [poMail] with
  | Some (ct :: _) => ct
  | _ => TodoSamples.threadAfterThanks
  end.

(** The thread of a purchase order that comes as a PDF. *)
Definition poThreadWithPdf : CategorizedThread.t :=
  match CategorizerSafetyNets.categorizeThreads ourDomain saysGeneral [poMailWithPdf] with
  | Some (ct :: _) => ct
  | _ => TodoSamples.threadAfterThanks
  end.

(** A pending alert without a ledger customer, as stage 1 creates it while
    the ledger client is down; detected at time 0. *)
Definition pendingNoCustomer : QbSyncAlert.t :=
  {| QbSyncAlert.alertType := po_detected;
     QbSyncAlert.threadKey := "<po1@acme.example>";
     QbSyncAlert.subject := Some "PO#445210 attached";
     QbSyncAlert.contactEmail := Some "buyer@acme.example";
     QbSyncAlert.contactName := Some "Jane Buyer";
     QbSyncAlert.detectedAt := 0;
     QbSyncAlert.escalatedAt := None;
     QbSyncAlert.resolvedAt := None;
     QbSyncAlert.resolvedBy := None;
     QbSyncAlert.status := st_open;
     QbSyncAlert.poNumber := Some "4471";
     QbSyncAlert.poTotal := Some 125000;
     QbSyncAlert.qbCustomerId := None;
     QbSyncAlert.qbCustomerName := None;
     QbSyncAlert.salesOrderId := None;
     QbSyncAlert.salesOrderRef := None;
     QbSyncAlert.salesOrderTotal := None;
     QbSyncAlert.estimateId := None;
     QbSyncAlert.estimateRef := None;
     QbSyncAlert.lastNotifiedAt := None |}.

(** The same alert with its ledger customer. *)
Definition pendingAcme : QbSyncAlert.t :=
  withCustomer {| MatchResult.customerId := "C-1"; MatchResult.customerName := "Acme" |}
               pendingNoCustomer.

Definition dbNoCustomer : AlertDb := {| rows := {[1%nat := pendingNoCustomer]}; nextId := 2 |}.
Definition dbAcme : AlertDb := {| rows := {[1%nat := pendingAcme]}; nextId := 2 |}.

Definition fiveHours : Z := 5 * 60 * 60 * 1000.

End AlertSamples.

(** ** src/jobs/run-jobs-report.ts *)

Module JobsReport.

Definition JOBS_CHECK_KEY : string := "_jobs_check".

(** What [runFullAlertCheck] returns: the ids of the alerts of each kind. *)
Record AlertSummary : Type := {
  newAlerts : list nat;
  escalations : list nat;
  resolved : list nat;
  openAlerts : list nat
}.

Record TimeWindow : Type := { start : Z; end_ : Z }.

Record State : Type := {
  syncMetadata : gmap string Z;
  alertRows : gmap nat QbSyncAlert.t
}.

Inductive Outcome : Type := Returned | Threw.

Definition getLastJobCheckTime (st : State) : option Z :=
  syncMetadata st !! JOBS_CHECK_KEY.

(** Update the row of [JOBS_CHECK_KEY] when there is one, insert it
    otherwise. *)
Definition saveJobCheckTime (timestamp : Z) (st : State) : State :=
  {| syncMetadata :=
       match syncMetadata st !! JOBS_CHECK_KEY with
       | Some _ => alter (fun _ => timestamp) JOBS_CHECK_KEY (syncMetadata st)
       | None => <[JOBS_CHECK_KEY := timestamp]> (syncMetadata st)
       end;
     alertRows := alertRows st |}.

Definition getHourlyWindow (now : Z) (st : State) : TimeWindow :=
  {| start :=
       match getLastJobCheckTime st with
       | Some lastCheck => lastCheck
       | None => now - 2 * 60 * 60 * 1000
       end;
     end_ := now |}.

Definition notified (now : Z) (a : QbSyncAlert.t) : QbSyncAlert.t :=
  {| QbSyncAlert.alertType := QbSyncAlert.alertType a;
     QbSyncAlert.threadKey := QbSyncAlert.threadKey a;
     QbSyncAlert.subject := QbSyncAlert.subject a;
     QbSyncAlert.contactEmail := QbSyncAlert.contactEmail a;
     QbSyncAlert.contactName := QbSyncAlert.contactName a;
     QbSyncAlert.detectedAt := QbSyncAlert.detectedAt a;
     QbSyncAlert.escalatedAt := QbSyncAlert.escalatedAt a;
     QbSyncAlert.resolvedAt := QbSyncAlert.resolvedAt a;
     QbSyncAlert.resolvedBy := QbSyncAlert.resolvedBy a;
     QbSyncAlert.status := QbSyncAlert.status a;
     QbSyncAlert.poNumber := QbSyncAlert.poNumber a;
     QbSyncAlert.poTotal := QbSyncAlert.poTotal a;
     QbSyncAlert.qbCustomerId := QbSyncAlert.qbCustomerId a;
     QbSyncAlert.qbCustomerName := QbSyncAlert.qbCustomerName a;
     QbSyncAlert.salesOrderId := QbSyncAlert.salesOrderId a;
     QbSyncAlert.salesOrderRef := QbSyncAlert.salesOrderRef a;
     QbSyncAlert.salesOrderTotal := QbSyncAlert.salesOrderTotal a;
     QbSyncAlert.estimateId := QbSyncAlert.estimateId a;
     QbSyncAlert.estimateRef := QbSyncAlert.estimateRef a;
     QbSyncAlert.lastNotifiedAt := Some now |}.

Definition markAlertsNotified (now : Z) (alertIds : list nat) (st : State) : State :=
  {| syncMetadata := syncMetadata st;
     alertRows := fold_left (fun r alertId => alter (notified now) alertId r)
                            alertIds (alertRows st) |}.

Definition hasContent (result : AlertSummary) : bool :=
  (0 <? length (newAlerts result))%nat
  || (0 <? length (escalations result))%nat
  || (0 <? length (resolved result))%nat.

Section WithCollaborators.
(** [sendReportEmail]: [true] when the mail went out, [false] when the
    call throws.  Its arguments are rendered from the summary at the time
    of the run. *)
Variable sendReportEmail : Z -> AlertSummary -> bool.

(** [syncEmails], [categorizeThreads] on the window and
    [runFullAlertCheck], in this order: the summary of the alert check
    and the database it leaves. *)
Variable syncAndCheck : Z -> TimeWindow -> State -> AlertSummary * State.

Definition runHourlyCheck (preview : bool) (now : Z) (st : State) : Outcome * State :=
  let window := getHourlyWindow now st in
  let '(result, st) := syncAndCheck now window st in
  if negb (hasContent result) then
    (Returned, if preview then st else saveJobCheckTime (end_ window) st)
  else if preview then (Returned, st)
  else if sendReportEmail now result then
    (Returned,
     saveJobCheckTime (end_ window)
       (markAlertsNotified now (newAlerts result ++ escalations result) st))
  else (Threw, st).

(** The alert check does not write the job checkpoint. *)
Definition LeavesCheckpoint : Prop :=
  forall now window st,
    getLastJobCheckTime (snd (syncAndCheck now window st)) = getLastJobCheckTime st.
End WithCollaborators.

(** *** A sample run *)

Definition someActivity : AlertSummary :=
  {| newAlerts := [1%nat]; escalations := []; resolved := []; openAlerts := [1%nat] |}.

Definition checkedAtNine : State :=
  {| syncMetadata := {[JOBS_CHECK_KEY := 9000]}; alertRows := ∅ |}.

(** Before the first run: no checkpoint yet. *)
Definition neverChecked : State := {| syncMetadata := ∅; alertRows := ∅ |}.

Definition twoHours : Z := 2 * 60 * 60 * 1000.
Definition tenOClock : Z := 10 * 60 * 60 * 1000.
Definition elevenOClock : Z := 11 * 60 * 60 * 1000.

(** An alert check that finds one new alert and records the mailbox sync. *)
Definition findsOneAlert (now : Z) (_ : TimeWindow) (st : State) : AlertSummary * State :=
  (someActivity,
   {| syncMetadata := <["INBOX" := now]> (syncMetadata st);
      alertRows := <[1%nat := AlertSamples.pendingAcme]> (alertRows st) |}).

Definition smtpDown (_ : Z) (_ : AlertSummary) : bool := false.
Definition smtpUp (_ : Z) (_ : AlertSummary) : bool := true.

End JobsReport.


(** * More of the repository

    The functions around the ones above: the rest of the threader and of the
    categorizer, the handlers that change todos and alerts, the matching of
    ledger documents, the ledger client's retry loop and the alert mail
    templates. *)

(** ** Strings without leading white space *)

Module JsInv.
Definition Unspaced (l : list ascii) : Prop :=
  match l with
  | c :: _ => Js.isSpace c = false
  | [] => True
  end.

Definition NonEmptyThreads (m : JsMap.t (list Email)) : Prop :=
  forall k l, In (k, l) m -> l <> [].
End JsInv.

(** ** src/sync/threader.ts: identifyCustomer *)

Module IdentifyCustomer.

Record Customer : Type := { name : string; email : string }.

(** The first recipient outside our domain. *)
Definition firstOutside (ourDomainLower : string) (toList : list string) : option string :=
  find (fun to => negb (Js.includes (Js.toLowerCase to) ourDomainLower)) toList.

Fixpoint scan (ourDomainLower : string) (emails : list Email) : option Customer :=
  match emails with
  | [] => None
  | e :: rest =>
      let inbound :=
        if String.eqb (mailbox e) "INBOX" then
          match Js.truthy (fromAddress e) with
          | Some from =>
              if negb (Js.includes (Js.toLowerCase from) ourDomainLower)
              then Some {| name := Js.orDefault (fromName e) from; email := from |}
              else None
          | None => None
          end
        else None in
      match inbound with
      | Some c => Some c
      | None =>
          let outbound :=
            if String.eqb (mailbox e) "Sent" || String.eqb (mailbox e) "Sent Items" then
              match toAddresses e with
              | Some toList =>
                  option_map (fun to => {| name := to; email := to |})
                             (firstOutside ourDomainLower toList)
              | None => None
              end
            else None in
          match outbound with
          | Some c => Some c
          | None => scan ourDomainLower rest
          end
      end
  end.

Definition identifyCustomer (emails : list Email) (ourDomain : string) : option Customer :=
  scan (Js.toLowerCase ourDomain) emails.

End IdentifyCustomer.

(** ** src/report/categorizer.ts: the window, the counts and the batches *)

Module CategorizerMore.
Import CategorizerBase.

(** [fetchEmailsInWindow]: [date >= start and date <= end]; a row without
    a date satisfies neither comparison. *)
Definition inWindow (window : JobsReport.TimeWindow) (email : Email) : bool :=
  match date email with
  | Some d => (JobsReport.start window <=? d) && (d <=? JobsReport.end_ window)
  | None => false
  end.

Definition fetchEmailsInWindow (window : JobsReport.TimeWindow) (table : list Email)
  : list Email :=
  List.filter (inWindow window) table.

Record Counts : Type := { received : nat; sent : nat }.

Definition countStep (OUR_DOMAIN : string) (c : Counts) (email : Email) : Counts :=
  if isOutbound OUR_DOMAIN email
  then {| received := received c; sent := S (sent c) |}
  else {| received := S (received c); sent := sent c |}.

Definition countEmailsByDirection (OUR_DOMAIN : string) (emails : list Email) : Counts :=
  fold_left (countStep OUR_DOMAIN) emails {| received := 0; sent := 0 |}.

Definition getEmailCounts (OUR_DOMAIN : string) (window : JobsReport.TimeWindow)
    (table : list Email) : Counts :=
  countEmailsByDirection OUR_DOMAIN (fetchEmailsInWindow window table).

Definition MAX_THREADS_PER_BATCH : nat := 20.

(** [for (let i = 0; i < threadsData.length; i += MAX_THREADS_PER_BATCH)
    batches.push(threadsData.slice(i, i + MAX_THREADS_PER_BATCH))]; the loop
    runs at most once per thread. *)
Fixpoint batchLoop {A : Type} (fuel i : nat) (threadsData : list A) : list (list A) :=
  match fuel with
  | O => []
  | S fuel' =>
      if (i <? length threadsData)%nat then
        take MAX_THREADS_PER_BATCH (drop i threadsData)
        :: batchLoop fuel' (i + MAX_THREADS_PER_BATCH) threadsData
      else []
  end.

Definition splitIntoBatches {A : Type} (threadsData : list A) : list (list A) :=
  batchLoop (length threadsData) 0 threadsData.

(** The calls to the classifier. *)
Inductive ClassifierCall : Type :=
| BatchCall (threadKeys : list string)
| SingleCall (threadKey : string).

Section WithClassifier.
(** [categorizeThreadsBatch] answers with an object keyed by thread key
    ([Object.entries] lists it), [categorizeThreadWithAI] with one
    result; [None] stands for a call that throws. *)
Variable categorizeThreadsBatch : list ThreadData.t -> option (list (string * AiResult.t)).
Variable categorizeThreadWithAI : ThreadData.t -> option AiResult.t.

Definition Results : Type := JsMap.t AiResult.t * list ClassifierCall.

Definition storeResults (results : JsMap.t AiResult.t)
    (batchResults : list (string * AiResult.t)) : JsMap.t AiResult.t :=
  fold_left (fun m '(threadKey, result) => JsMap.set m threadKey result)
            batchResults results.

(** The fallback: one call per thread of the batch. *)
Definition individually (st : Results) (data : ThreadData.t) : Results :=
  let '(results, calls) := st in
  let calls := calls ++ [SingleCall (ThreadData.threadKey data)] in
  match categorizeThreadWithAI data with
  | Some aiResult => (JsMap.set results (ThreadData.threadKey data) aiResult, calls)
  | None => (results, calls)
  end.

Definition batchStep (st : Results) (batch : list ThreadData.t) : Results :=
  let '(results, calls) := st in
  let calls := calls ++ [BatchCall (map ThreadData.threadKey batch)] in
  match categorizeThreadsBatch batch with
  | Some batchResults => (storeResults results batchResults, calls)
  | None => fold_left individually batch (results, calls)
  end.

Definition runBatches (threadsData : list ThreadData.t) : Results :=
  match threadsData with
  | [] => ([], [])
  | _ => fold_left batchStep (splitIntoBatches threadsData) ([], [])
  end.

Definition categorizeThreadsWithBatch (threadsData : list ThreadData.t)
  : JsMap.t AiResult.t :=
  fst (runBatches threadsData).
End WithClassifier.

(** The calls made for one batch. *)
Definition callsOf (categorizeThreadsBatch : list ThreadData.t -> option (list (string * AiResult.t)))
    (batch : list ThreadData.t) : list ClassifierCall :=
  BatchCall (map ThreadData.threadKey batch)
  :: match categorizeThreadsBatch batch with
     | Some _ => []
     | None => map (fun data => SingleCall (ThreadData.threadKey data)) batch
     end.

(** A classifier that is down. *)
Definition batchDown (_ : list ThreadData.t) : option (list (string * AiResult.t)) := None.
Definition singleDown (_ : ThreadData.t) : option AiResult.t := None.

End CategorizerMore.

(** ** The handlers that close todos by hand

    [POST /api/todos] (src/app/api/todos/route.ts) and
    [DELETE /api/dismissed-threads]. *)

Module TodoRoutes.
Import TodoSync.

Inductive BulkAction : Type := ActResolve | ActDismiss.

(** A row of the legacy table [email_todo_items]. *)
Record TodoItem : Type := {
  itemThreadKey : string;
  resolved : bool;
  itemResolvedAt : option Z
}.

Record Tables : Type := {
  db : Db;
  todoItems : gmap nat TodoItem
}.

Inductive Response : Type :=
| BadRequest
| NotFound
| Updated (updatedCount : nat)
| Undismissed (threadKey : string).

Definition newStatus (action : BulkAction) : Status :=
  match action with
  | ActResolve => st_resolved
  | ActDismiss => st_dismissed
  end.

(** [set({status, resolvedAt, resolvedBy: "manual", updatedAt})] *)
Definition closeByHand (action : BulkAction) (now : Z) (row : DashTodo.t) : DashTodo.t :=
  {| DashTodo.threadKey := DashTodo.threadKey row;
     DashTodo.todoType := DashTodo.todoType row;
     DashTodo.category := DashTodo.category row;
     DashTodo.itemType := DashTodo.itemType row;
     DashTodo.contactEmail := DashTodo.contactEmail row;
     DashTodo.contactName := DashTodo.contactName row;
     DashTodo.subject := DashTodo.subject row;
     DashTodo.summary := DashTodo.summary row;
     DashTodo.description := DashTodo.description row;
     DashTodo.firstDetectedAt := DashTodo.firstDetectedAt row;
     DashTodo.lastEmailDate := DashTodo.lastEmailDate row;
     DashTodo.emailCount := DashTodo.emailCount row;
     DashTodo.needsResponse := DashTodo.needsResponse row;
     DashTodo.lastEmailFromUs := DashTodo.lastEmailFromUs row;
     DashTodo.status := newStatus action;
     DashTodo.resolvedAt := Some now;
     DashTodo.resolvedBy := Some by_manual;
     DashTodo.poDetails := DashTodo.poDetails row;
     DashTodo.isSuspicious := DashTodo.isSuspicious row;
     DashTodo.createdAt := DashTodo.createdAt row;
     DashTodo.updatedAt := now |}.

(** [where threadKey in threadKeys and status = 'open'] *)
Definition selected (threadKeys : list string) (k : string) (row : DashTodo.t) : bool :=
  bool_decide (k ∈ threadKeys) && Status_eqb (DashTodo.status row) st_open.

Definition closeSelected (action : BulkAction) (now : Z) (threadKeys : list string)
    (rows : gmap string DashTodo.t) : gmap string DashTodo.t :=
  map_imap (fun k row => Some (if selected threadKeys k row
                               then closeByHand action now row else row)) rows.

(** [.returning({ threadKey })]: the keys of the rows that were updated. *)
Definition updatedKeys (threadKeys : list string) (rows : gmap string DashTodo.t)
  : list string :=
  map fst (List.filter (fun '(k, row) => selected threadKeys k row) (map_to_list rows)).

Definition resolveItem (now : Z) (item : TodoItem) : TodoItem :=
  {| itemThreadKey := itemThreadKey item; resolved := true; itemResolvedAt := Some now |}.

(** The body of [POST /api/todos]; [threadKeys] is [None] when the field
    is not an array. *)
Definition bulkUpdate (action : option BulkAction) (threadKeys : option (list string))
    (now : Z) (t : Tables) : Response * Tables :=
  match action, threadKeys with
  | Some action, Some (k0 :: ks) =>
      let threadKeys := k0 :: ks in
      let updated := updatedKeys threadKeys (dashTodos (db t)) in
      let rows := closeSelected action now threadKeys (dashTodos (db t)) in
      let dismissed :=
        match action with
        | ActDismiss => list_to_set updated ∪ dismissedThreads (db t)
        | ActResolve => dismissedThreads (db t)
        end in
      let items :=
        match updated with
        | [] => todoItems t
        | _ => fmap (fun item =>
                       if bool_decide (itemThreadKey item ∈ updated)
                       then resolveItem now item else item)
                    (todoItems t)
        end in
      (Updated (length updated),
       {| db := {| dashTodos := rows; dismissedThreads := dismissed |};
          todoItems := items |})
  | _, _ => (BadRequest, t)
  end.

(** The body of [DELETE /api/dismissed-threads]. *)
Definition undismiss (threadKey : option string) (t : Tables) : Response * Tables :=
  match Js.truthy threadKey with
  | None => (BadRequest, t)
  | Some k =>
      if decide (k ∈ dismissedThreads (db t)) then
        (Undismissed k,
         {| db := {| dashTodos := dashTodos (db t);
                     dismissedThreads := dismissedThreads (db t) ∖ {[k]} |};
            todoItems := todoItems t |})
      else (NotFound, t)
  end.

(** The tables with one open todo, for the request for quotation. *)
Definition sampleTables : Tables :=
  {| db := TodoSamples.dbWithRfqTodo; todoItems := ∅ |}.

(** A round of the reconciliation that inserts nothing as open and
    resolves nothing. *)
Definition quietKey (threads : gmap string CategorizedThread.t)
    (todos : gmap string IdentifiedTodo.t) (existing : gmap string DashTodo.t)
    (k : string) : Prop :=
  match existing !! k with
  | Some existingTodo => repliedWithoutNewTodo existingTodo (threads !! k) (todos !! k) = false
  | None => todos !! k = None \/ threads !! k = None
  end.

End TodoRoutes.

(** ** src/jobs/alert-manager.ts: auto-resolution and the summary *)

Module AlertResolution.
Import AlertManager.

(** [{ ...alert, status: "resolved" }] *)
Definition markedResolved (a : QbSyncAlert.t) : QbSyncAlert.t :=
  {| QbSyncAlert.alertType := QbSyncAlert.alertType a;
     QbSyncAlert.threadKey := QbSyncAlert.threadKey a;
     QbSyncAlert.subject := QbSyncAlert.subject a;
     QbSyncAlert.contactEmail := QbSyncAlert.contactEmail a;
     QbSyncAlert.contactName := QbSyncAlert.contactName a;
     QbSyncAlert.detectedAt := QbSyncAlert.detectedAt a;
     QbSyncAlert.escalatedAt := QbSyncAlert.escalatedAt a;
     QbSyncAlert.resolvedAt := QbSyncAlert.resolvedAt a;
     QbSyncAlert.resolvedBy := QbSyncAlert.resolvedBy a;
     QbSyncAlert.status := st_resolved;
     QbSyncAlert.poNumber := QbSyncAlert.poNumber a;
     QbSyncAlert.poTotal := QbSyncAlert.poTotal a;
     QbSyncAlert.qbCustomerId := QbSyncAlert.qbCustomerId a;
     QbSyncAlert.qbCustomerName := QbSyncAlert.qbCustomerName a;
     QbSyncAlert.salesOrderId := QbSyncAlert.salesOrderId a;
     QbSyncAlert.salesOrderRef := QbSyncAlert.salesOrderRef a;
     QbSyncAlert.salesOrderTotal := QbSyncAlert.salesOrderTotal a;
     QbSyncAlert.estimateId := QbSyncAlert.estimateId a;
     QbSyncAlert.estimateRef := QbSyncAlert.estimateRef a;
     QbSyncAlert.lastNotifiedAt := QbSyncAlert.lastNotifiedAt a |}.

(** The [where] clauses of the two queries. *)
Definition isPoAlert (a : QbSyncAlert.t) : bool :=
  (AlertType_eqb (QbSyncAlert.alertType a) po_detected
   || AlertType_eqb (QbSyncAlert.alertType a) po_missing_so)
  && Status_eqb (QbSyncAlert.status a) st_open.

Definition isNoCustomerAlert (a : QbSyncAlert.t) : bool :=
  AlertType_eqb (QbSyncAlert.alertType a) no_qb_customer
  && Status_eqb (QbSyncAlert.status a) st_open.

Definition selectAlerts (p : QbSyncAlert.t -> bool) (db : AlertDb)
  : list (nat * QbSyncAlert.t) :=
  filter (fun '(_, a) => p a = true) (map_to_list (rows db)).

Section WithLedger.
Variable Docs : Type.
Variable findMatchingSalesOrder : Docs -> option string -> option Z -> option QbDocument.t.
Variable client : option (Ledger Docs).

Record Stage3 : Type := {
  s3_db : AlertDb;
  resolved : list (nat * QbSyncAlert.t)
}.

(** Whether the ledger, asked now, settles the alert; an alert without
    customer id or contact email is skipped without a call. *)
Definition salesOrderExists (qb : Ledger Docs) (alert : QbSyncAlert.t) : Reply bool :=
  match Js.truthy (QbSyncAlert.qbCustomerId alert) with
  | Some customerId =>
      match salesOrderNow Docs findMatchingSalesOrder qb customerId alert with
      | Replies (Some _) => Replies true
      | Replies None => Replies false
      | Raises => Raises
      end
  | None => Replies false
  end.

Definition customerExists (qb : Ledger Docs) (alert : QbSyncAlert.t) : Reply bool :=
  match Js.truthy (QbSyncAlert.contactEmail alert) with
  | Some email =>
      match matchCustomer Docs qb email (Js.truthy (QbSyncAlert.contactName alert)) with
      | Replies (Some _) => Replies true
      | Replies None => Replies false
      | Raises => Raises
      end
  | None => Replies false
  end.

(** One round of either loop, and whether it throws: [alert] is the row
    as its query returned it. *)
Definition resolveStep (settled : QbSyncAlert.t -> Reply bool) (now : Z) (st : Stage3)
    (candidate : nat * QbSyncAlert.t) : Stage3 * bool :=
  let '(alertId, alert) := candidate in
  match settled alert with
  | Replies true =>
      ({| s3_db := resolveAlert now alertId by_auto (s3_db st);
          resolved := resolved st ++ [(alertId, markedResolved alert)] |}, false)
  | Replies false => (st, false)
  | Raises => (st, true)
  end.

(** [checkAndResolveAlerts]: the state it leaves, and whether it threw.
    An exception in the first loop ends the function before the second
    query. *)
Definition checkAndResolveAlerts (now : Z) (db : AlertDb) : Stage3 * bool :=
  let idle := {| s3_db := db; resolved := [] |} in
  match client with
  | None => (idle, false)
  | Some qb =>
      let '(afterPo, threw) :=
        loopUntilRaise (resolveStep (salesOrderExists qb) now)
                       (selectAlerts isPoAlert db) idle in
      if threw then (afterPo, true)
      else loopUntilRaise (resolveStep (customerExists qb) now)
                          (selectAlerts isNoCustomerAlert (s3_db afterPo)) afterPo
  end.

(** The two recurring checks, in any order and any number. *)
Inductive Check : Type :=
| RunEscalations (now : Z)
| RunResolution (now : Z).

Definition runCheck (db : AlertDb) (c : Check) : AlertDb :=
  match c with
  | RunEscalations now =>
      s2_db (fst (checkEscalations Docs findMatchingSalesOrder client now db))
  | RunResolution now => s3_db (fst (checkAndResolveAlerts now db))
  end.
End WithLedger.

(** *** The summary of the open alerts *)

Record OpenAlertsSummary : Type := {
  poDetected : list (nat * QbSyncAlert.t);
  poWithSo : list (nat * QbSyncAlert.t);
  poMissingSo : list (nat * QbSyncAlert.t);
  noQbCustomer : list (nat * QbSyncAlert.t);
  suspiciousEmail : list (nat * QbSyncAlert.t);
  soShouldBeClosed : list (nat * QbSyncAlert.t)
}.

Definition getOpenAlerts (alertRows : gmap nat QbSyncAlert.t) : list (nat * QbSyncAlert.t) :=
  List.filter (fun '(_, a) => Status_eqb (QbSyncAlert.status a) st_open)
              (map_to_list alertRows).

Definition ofType (ty : AlertType) (alerts : list (nat * QbSyncAlert.t))
  : list (nat * QbSyncAlert.t) :=
  List.filter (fun '(_, a) => AlertType_eqb (QbSyncAlert.alertType a) ty) alerts.

Definition getOpenAlertsSummary (alertRows : gmap nat QbSyncAlert.t) : OpenAlertsSummary :=
  let openAlerts := getOpenAlerts alertRows in
  {| poDetected := ofType po_detected openAlerts;
     poWithSo := ofType po_detected_with_so openAlerts;
     poMissingSo := ofType po_missing_so openAlerts;
     noQbCustomer := ofType no_qb_customer openAlerts;
     suspiciousEmail := ofType suspicious_po_email openAlerts;
     soShouldBeClosed := ofType so_should_be_closed openAlerts |}.

(** The ids that the morning review and the historical check mark as
    notified. *)
Definition reviewedIds (summary : OpenAlertsSummary) : list nat :=
  map fst (poDetected summary) ++ map fst (poMissingSo summary)
  ++ map fst (noQbCustomer summary) ++ map fst (suspiciousEmail summary)
  ++ map fst (soShouldBeClosed summary).

(** [totalOpen] of the morning review. *)
Definition totalOpen (summary : OpenAlertsSummary) : nat :=
  length (poDetected summary) + length (poMissingSo summary)
  + length (noQbCustomer summary) + length (suspiciousEmail summary)
  + length (soShouldBeClosed summary).

(** The alerts that no recurring check acts on: closed ones, the kinds
    that are only reported, and an escalated alert that carries no ledger
    customer. *)
Definition Inert (a : QbSyncAlert.t) : Prop :=
  QbSyncAlert.status a <> st_open
  \/ QbSyncAlert.alertType a = po_detected_with_so
  \/ QbSyncAlert.alertType a = suspicious_po_email
  \/ QbSyncAlert.alertType a = so_should_be_closed
  \/ (QbSyncAlert.alertType a = po_missing_so
      /\ Js.truthy (QbSyncAlert.qbCustomerId a) = None).

(** At most one alert per thread key. *)
Definition UniqueThreadKeys (db : AlertDb) : Prop :=
  forall i j a b,
    rows db !! i = Some a -> rows db !! j = Some b ->
    QbSyncAlert.threadKey a = QbSyncAlert.threadKey b -> i = j.

End AlertResolution.

(** An alert that was created while the ledger was down and has been
    escalated since. *)
Module AlertMoreSamples.
Import AlertManager AlertSamples.

Definition escalatedNoCustomer : QbSyncAlert.t := escalated fiveHours pendingNoCustomer.

Definition dbEscalated : AlertDb :=
  {| rows := {[1%nat := escalatedNoCustomer]}; nextId := 2 |}.

Definition tenHours : Z := 10 * 60 * 60 * 1000.
End AlertMoreSamples.

(** ** src/jobs/run-jobs-report.ts: the morning review *)

Module MorningReview.
Import JobsReport AlertResolution.

Section WithCollaborators.
(** [sendReportEmail] answers whether the mail was sent ([false]: it
    throws); [syncAndCheck] stands for [syncEmails], [categorizeThreads]
    and [runFullAlertCheck] on the overnight window. *)
Variable sendReportEmail : Z -> OpenAlertsSummary -> bool.
Variable syncAndCheck : Z -> State -> State.

Definition runMorningReview (preview : bool) (now : Z) (st : State) : Outcome * State :=
  let st := syncAndCheck now st in
  let summary := getOpenAlertsSummary (alertRows st) in
  if preview then (Returned, st)
  else if sendReportEmail now summary then
    (Returned, markAlertsNotified now (reviewedIds summary) st)
  else (Threw, st).
End WithCollaborators.

(** Whether the review marks the row as notified. *)
Definition reviewed (a : QbSyncAlert.t) : bool :=
  Status_eqb (QbSyncAlert.status a) st_open
  && negb (AlertType_eqb (QbSyncAlert.alertType a) po_detected_with_so).

Definition sendsAlways (_ : Z) (_ : OpenAlertsSummary) : bool := true.
Definition findsNothing (_ : Z) (st : State) : State := st.

End MorningReview.

(** ** src/quickbooks/conductor-client.ts: fetchWithRetry *)

Module ConductorClient.

Definition MAX_RETRIES : nat := 3.

(** What one call of [fetch] does: it answers, or it throws (an
    [AbortError] when the timeout fired). *)
Inductive FetchOutcome : Type :=
| Answers (status : Z) (retryAfter : option string)
| ThrowsAbort
| ThrowsOther (message : string).

Inductive Result : Type :=
| Returns (status : Z) (retryAfter : option string)
| ThrowsTimedOut
| Rethrows (message : string)
| ThrowsMaxRetries.

(** What the loop does, in order; a delay is in milliseconds, [None] when
    it is not a number. *)
Inductive Event : Type :=
| Fetch (attempt : nat)
| Sleep (delay : option Z).

Section WithNetwork.
(** The outcome of the call made in each round, and [parseInt] on the
    [Retry-After] header ([None]: not a number). *)
Variable fetch : nat -> FetchOutcome.
Variable parseInt : string -> option Z.

Definition rateLimitDelay (attempt : nat) (retryAfter : option string) : option Z :=
  match Js.truthy retryAfter with
  | Some s => option_map (fun n => n * 1000) (parseInt s)
  | None => Some (2 ^ Z.of_nat (attempt + 1) * 1000)
  end.

(** The rounds from [attempt] on, [remaining] of them:
    [attempt + remaining = maxRetries]. *)
Fixpoint fetchLoop (remaining attempt : nat) : Result * list Event :=
  match remaining with
  | O => (ThrowsMaxRetries, [])
  | S remaining' =>
      match fetch attempt with
      | Answers status retryAfter =>
          if status =? 429 then
            let '(result, events) := fetchLoop remaining' (S attempt) in
            (result, Fetch attempt :: Sleep (rateLimitDelay attempt retryAfter) :: events)
          else (Returns status retryAfter, [Fetch attempt])
      | ThrowsAbort =>
          match remaining' with
          | O => (ThrowsTimedOut, [Fetch attempt])
          | _ =>
              let '(result, events) := fetchLoop remaining' (S attempt) in
              (result,
               Fetch attempt :: Sleep (Some (2 ^ Z.of_nat attempt * 1000)) :: events)
          end
      | ThrowsOther message =>
          match remaining' with
          | O => (Rethrows message, [Fetch attempt])
          | _ =>
              let '(result, events) := fetchLoop remaining' (S attempt) in
              (result,
               Fetch attempt :: Sleep (Some (2 ^ Z.of_nat attempt * 1000)) :: events)
          end
      end
  end.

Definition fetchWithRetry (maxRetries : nat) : Result * list Event :=
  fetchLoop maxRetries 0.

(** The attempts made, in order. *)
Definition attempts (events : list Event) : list nat :=
  omap (fun e => match e with Fetch k => Some k | Sleep _ => None end) events.

(** An attempt after which the loop goes on when it is not the last. *)
Definition failed (k : nat) : Prop :=
  match fetch k with
  | Answers status _ => status = 429
  | _ => True
  end.
End WithNetwork.

(** A server that is busy twice and then answers. *)
Definition busyTwice (attempt : nat) : FetchOutcome :=
  match attempt with
  | 0%nat => Answers 429 (Some "7")
  | 1%nat => ThrowsAbort
  | _ => Answers 200 None
  end.

Definition readsSeven (_ : string) : option Z := Some 7.

End ConductorClient.

(** ** src/quickbooks/job-documents.ts: matching a purchase order to a document *)

Module JobDocuments.
Import Regex.

(** A sales order or an estimate, as far as the matching reads it. *)
Record Document : Type := {
  docId : string;
  refNumber : option string;
  memo : option string;
  totalAmount : option string
}.

Definition isAlnum (c : ascii) : bool := Js.isLower c || Js.isDigit c.

(** [s.toLowerCase().replace(/[^a-z0-9]/g, "")] *)
Definition normalize (s : string) : string :=
  Js.str (List.filter isAlnum (map Js.lowerChar (Js.chars s))).

(** [new RegExp(`^${poNorm}[a-z]$`)] and
    [new RegExp(`^${poNorm}(r|rev)?\\d*$`)]; [poNorm] holds letters and
    digits only, so it stands for itself in the pattern. *)
Definition prefixPattern (poNorm : string) : re := Seq (lit poNorm) lower.
Definition revisionPattern (poNorm : string) : re :=
  Seq (lit poNorm) (Seq (opt (Alt (lit "r") (lit "rev"))) (Star digit)).

Definition numberMatches (poNorm : string) (docNorm : string) : bool :=
  String.eqb docNorm poNorm
  || testWhole (prefixPattern poNorm) docNorm
  || testWhole (revisionPattern poNorm) docNorm.

Definition matchesByNumber (poNumber : option string) (doc : Document) : bool :=
  match Js.truthy poNumber with
  | Some po =>
      let poNorm := normalize po in
      (3 <=? String.length poNorm)%nat
      && (numberMatches poNorm (normalize (Js.orDefault (refNumber doc) EmptyString))
          || numberMatches poNorm (normalize (Js.orDefault (memo doc) EmptyString)))
  | None => false
  end.

Section WithAmounts.
(** The amount of the purchase order is a floating-point number; the
    test of the tolerances (5 percent either way, or up to 15 percent
    above) on it and on [parseFloat(doc.totalAmount)] is taken as
    given.  [poAmount] is [None] when it is missing, 0 or not a
    number. *)
Variable Amount : Type.
Variable withinTolerance : Amount -> string -> bool.

Definition matchesByAmount (poAmount : option Amount) (doc : Document) : bool :=
  match poAmount, Js.truthy (totalAmount doc) with
  | Some amount, Some total => withinTolerance amount total
  | _, _ => false
  end.

Definition matchByPoOrAmount (documents : list Document) (poNumber : option string)
    (poAmount : option Amount) : option Document :=
  find (fun doc => matchesByNumber poNumber doc || matchesByAmount poAmount doc)
       documents.

Record CustomerJobDocuments : Type := {
  salesOrders : list Document;
  estimates : list Document
}.

Definition findMatchingSalesOrder (docs : CustomerJobDocuments)
    (poNumber : option string) (poAmount : option Amount) : option Document :=
  matchByPoOrAmount (salesOrders docs) poNumber poAmount.

Definition findMatchingEstimate (docs : CustomerJobDocuments)
    (poNumber : option string) (poAmount : option Amount) : option Document :=
  matchByPoOrAmount (estimates docs) poNumber poAmount.
End WithAmounts.

(** The suffixes that the patterns allow after the PO number: nothing or
    digits, after an optional [r] or [rev]; or one letter. *)
Definition RevisionSuffix (suffix : list ascii) : Prop :=
  (exists c, suffix = [c] /\ Js.isLower c = true) \/
  (exists pre digits,
      suffix = pre ++ digits /\
      (pre = [] \/ pre = Js.chars "r" \/ pre = Js.chars "rev") /\
      Forall (fun c => Js.isDigit c = true) digits).

Definition ExtendsBy (poNorm docNorm : string) : Prop :=
  exists suffix, Js.chars docNorm = Js.chars poNorm ++ suffix /\ RevisionSuffix suffix.

(** Two sales orders of one customer. *)
Definition so10 : Document :=
  {| docId := "80000-1"; refNumber := Some "PO 10"; memo := None;
     totalAmount := Some "900.00" |}.
Definition so1 : Document :=
  {| docId := "80000-2"; refNumber := Some "PO 1"; memo := None;
     totalAmount := Some "120.00" |}.
Definition neverClose (_ : Z) (_ : string) : bool := false.

End JobDocuments.

(** ** src/quickbooks/invoice-so-matcher.ts *)

Module InvoiceSoMatcher.

Record LinkedTransaction : Type := { transactionType : string; linkedId : string }.

Record SalesOrder : Type := {
  soId : string;
  soRefNumber : option string;
  soMemo : option string;
  soTotalAmount : option string;
  isManuallyClosed : bool;
  isFullyInvoiced : bool
}.

Record Invoice : Type := {
  invRefNumber : option string;
  invMemo : option string;
  invTotalAmount : option string;
  linkedTransactions : option (list LinkedTransaction)
}.

Inductive MatchType : Type := full | partial | overbilled.
Inductive MatchReason : Type := linked | byRefNumber.

Definition MatchType_eqb (a b : MatchType) : bool :=
  match a, b with
  | full, full | partial, partial | overbilled, overbilled => true
  | _, _ => false
  end.

(** The prefixes of [/^(po|so|inv|invoice|sales order)[\s#:-]*/]: the
    alternatives are tried from the left, and what follows them may be
    empty, so the first alternative that fits is taken. *)
Definition refPrefixes : list string := ["po"; "so"; "inv"; "invoice"; "sales order"].

Definition isSeparator (c : ascii) : bool :=
  Js.isSpace c || Ascii.eqb c "#" || Ascii.eqb c ":" || Ascii.eqb c "-".

Fixpoint dropSeparators (l : list ascii) : list ascii :=
  match l with
  | c :: l' => if isSeparator c then dropSeparators l' else l
  | [] => []
  end.

Definition stripRefPrefix (l : list ascii) : list ascii :=
  match find (fun p => Js.startsWithChars (Js.chars p) l) refPrefixes with
  | Some p => dropSeparators (drop (String.length p) l)
  | None => l
  end.

Definition normalizeRef (ref : option string) : string :=
  match Js.truthy ref with
  | None => EmptyString
  | Some r =>
      Js.str (List.filter JobDocuments.isAlnum
                          (stripRefPrefix (map Js.lowerChar (Js.chars r))))
  end.

Definition refsMatch (ref1 ref2 : option string) : bool :=
  let norm1 := normalizeRef ref1 in
  let norm2 := normalizeRef ref2 in
  if String.eqb norm1 EmptyString || String.eqb norm2 EmptyString then false
  else String.eqb norm1 norm2 || Js.includes norm1 norm2 || Js.includes norm2 norm1.

Section WithAmounts.
(** Amounts are floating-point numbers: [parseFloat(x || "0")], the
    difference and [getMatchType] on them are taken as given. *)
Variable Money : Type.
Variable parseAmount : option string -> Money.
Variable minus : Money -> Money -> Money.
Variable getMatchType : Money -> Money -> MatchType.

Record SimpleMatchResult : Type := {
  salesOrder : SalesOrder;
  invoice : Invoice;
  matchType : MatchType;
  matchReason : MatchReason;
  soTotal : Money;
  invoiceTotal : Money;
  difference : Money
}.

Definition mkMatch (so : SalesOrder) (inv : Invoice) (reason : MatchReason)
  : SimpleMatchResult :=
  let soTotal := parseAmount (soTotalAmount so) in
  let invTotal := parseAmount (invTotalAmount inv) in
  {| salesOrder := so; invoice := inv;
     matchType := getMatchType soTotal invTotal;
     matchReason := reason;
     soTotal := soTotal; invoiceTotal := invTotal;
     difference := minus soTotal invTotal |}.

Definition State : Type := list SimpleMatchResult * gset string.

Definition isSalesOrderLink (l : LinkedTransaction) : bool :=
  String.eqb (transactionType l) "qbd_sales_order"
  || String.eqb (transactionType l) "SalesOrder".

(** Pass 1, inner loop. *)
Definition linkStep (salesOrders : list SalesOrder) (inv : Invoice) (st : State)
    (l : LinkedTransaction) : State :=
  let '(matches, matchedSoIds) := st in
  if isSalesOrderLink l then
    match find (fun s => String.eqb (soId s) (linkedId l)) salesOrders with
    | Some so =>
        if decide (soId so ∈ matchedSoIds) then st
        else (matches ++ [mkMatch so inv linked], {[soId so]} ∪ matchedSoIds)
    | None => st
    end
  else st.

Definition linkPass (salesOrders : list SalesOrder) (st : State) (inv : Invoice) : State :=
  match linkedTransactions inv with
  | Some links => fold_left (linkStep salesOrders inv) links st
  | None => st
  end.

Definition truthyRefs (a b : option string) : list string :=
  omap Js.truthy [a; b].

Definition hasRefMatch (so : SalesOrder) (inv : Invoice) : bool :=
  existsb (fun soRef =>
             existsb (fun invRef => refsMatch (Some soRef) (Some invRef))
                     (truthyRefs (invRefNumber inv) (invMemo inv)))
          (truthyRefs (soRefNumber so) (soMemo so)).

(** Pass 2, one sales order: the first invoice with a matching
    reference. *)
Definition refPass (invoices : list Invoice) (st : State) (so : SalesOrder) : State :=
  let '(matches, matchedSoIds) := st in
  if decide (soId so ∈ matchedSoIds) then st
  else
    match find (hasRefMatch so) invoices with
    | Some inv => (matches ++ [mkMatch so inv byRefNumber], {[soId so]} ∪ matchedSoIds)
    | None => st
    end.

Definition matchByPoNumber (salesOrders : list SalesOrder) (invoices : list Invoice)
  : list SimpleMatchResult :=
  let afterLinks := fold_left (linkPass salesOrders) invoices ([], ∅) in
  fst (fold_left (refPass invoices) salesOrders afterLinks).

Definition isOpen (so : SalesOrder) : bool :=
  negb (isManuallyClosed so) && negb (isFullyInvoiced so).

Definition findSosShouldBeClosed (salesOrders : list SalesOrder)
    (invoices : list Invoice) : list SimpleMatchResult :=
  match List.filter isOpen salesOrders with
  | [] => []
  | openSOs =>
      List.filter (fun m => MatchType_eqb (matchType m) full)
                  (matchByPoNumber openSOs invoices)
  end.

Definition findOverbilledMatches (salesOrders : list SalesOrder)
    (invoices : list Invoice) : list SimpleMatchResult :=
  List.filter (fun m => MatchType_eqb (matchType m) overbilled)
              (matchByPoNumber salesOrders invoices).

(** What stands behind a match: both documents come from the input, the
    totals are those of the two documents, and the reason holds. *)
Definition Justified (salesOrders : list SalesOrder) (invoices : list Invoice)
    (m : SimpleMatchResult) : Prop :=
  In (salesOrder m) salesOrders /\
  In (invoice m) invoices /\
  m = mkMatch (salesOrder m) (invoice m) (matchReason m) /\
  match matchReason m with
  | linked =>
      exists links l,
        linkedTransactions (invoice m) = Some links /\ In l links /\
        isSalesOrderLink l = true /\ linkedId l = soId (salesOrder m)
  | byRefNumber => hasRefMatch (salesOrder m) (invoice m) = true
  end.

Definition matchedIds (ms : list SimpleMatchResult) : list string :=
  map (fun m => soId (salesOrder m)) ms.

(** The invariant of both passes: [matchedSoIds] is the set of the sales
    orders of [matches], each of them occurring once. *)
Definition Consistent (salesOrders : list SalesOrder) (invoices : list Invoice)
    (st : State) : Prop :=
  NoDup (matchedIds (fst st)) /\
  (forall m, In m (fst st) ->
             soId (salesOrder m) ∈ snd st /\ Justified salesOrders invoices m) /\
  (forall id, id ∈ snd st -> In id (matchedIds (fst st))).
End WithAmounts.

End InvoiceSoMatcher.

(** ** The alert mail templates (src/quickbooks/alert-email-template) *)

Module AlertTemplates.

(** [text.replace(/c/g, by)] for one character [c]. *)
Definition replaceAll (c : ascii) (by_ : string) (l : list ascii) : list ascii :=
  flat_map (fun x => if Ascii.eqb x c then Js.chars by_ else [x]) l.

Definition quote : ascii := "034".
Definition apostrophe : ascii := "039".

(** The five replacements, in the order of the source. *)
Definition escapePasses (l : list ascii) : list ascii :=
  replaceAll apostrophe "&#039;"
    (replaceAll quote "&quot;"
       (replaceAll ">" "&gt;"
          (replaceAll "<" "&lt;"
             (replaceAll "&" "&amp;" l)))).

Definition escapeHtml (text : option string) : string :=
  match Js.truthy text with
  | None => EmptyString
  | Some t => Js.str (escapePasses (Js.chars t))
  end.

(** What stands for one character of the text in the end. *)
Definition entity (c : ascii) : list ascii :=
  if Ascii.eqb c "&" then Js.chars "&amp;"
  else if Ascii.eqb c "<" then Js.chars "&lt;"
  else if Ascii.eqb c ">" then Js.chars "&gt;"
  else if Ascii.eqb c quote then Js.chars "&quot;"
  else if Ascii.eqb c apostrophe then Js.chars "&#039;"
  else [c].

(** The characters that open or close a tag or an attribute value. *)
Definition isMarkup (c : ascii) : bool :=
  Ascii.eqb c "<" || Ascii.eqb c ">" || Ascii.eqb c quote || Ascii.eqb c apostrophe.

End AlertTemplates.

(** ** Bounds on what a regular expression matches *)

Module RegexBounds.
Import Regex.

(** The characters that can occur in a text matched by [r]. *)
Fixpoint mayContain (r : re) (c : ascii) : bool :=
  match r with
  | Void | Eps => false
  | Cls p => p c
  | Seq a b | Alt a b => mayContain a c || mayContain b c
  | Star a => mayContain a c
  end.

(** A bound on the length of the texts matched by [r], if it has one that
    can be read off its shape. *)
Fixpoint maxLen (r : re) : option nat :=
  match r with
  | Void | Eps => Some 0%nat
  | Cls _ => Some 1%nat
  | Seq a b =>
      match maxLen a, maxLen b with
      | Some m, Some n => Some (m + n)%nat
      | _, _ => None
      end
  | Alt a b =>
      match maxLen a, maxLen b with
      | Some m, Some n => Some (Nat.max m n)
      | _, _ => None
      end
  | Star a =>
      match maxLen a with
      | Some 0%nat => Some 0%nat
      | _ => None
      end
  end.

(** The characters of an acknowledgment: lower-case letters, white space,
    the exclamation mark and the full stop. *)
Definition ackChar (c : ascii) : bool :=
  Js.isLower c || Js.isSpace c || Ascii.eqb c "!" || Ascii.eqb c ".".

(** The text that [isSimpleAcknowledgment] tests: the first 200
    characters in lower case, trimmed, up to the signature marker. *)
Definition beforeSignature (body : string) : string :=
  Js.trim (splitHead Categorizer.signatureMarker
                     (Js.trim (Js.toLowerCase (Js.slice0 200 body)))).

(** A thanks with a closing name above a signature block. *)
Definition thanksWithSignature : string :=
  Js.str (Js.chars "Thanks!" ++ ["010"; "010"]%char ++ Js.chars "Preet"
          ++ ["010"]%char ++ Js.chars "--" ++ ["010"]%char
          ++ Js.chars "Preet Singh, 555-0134").

End RegexBounds.

(** ** Resolving a todo of a report (src/app/api/todos/[id]/route.ts) *)

Module TodoItemRoute.
Import TodoSync TodoRoutes.

Inductive PatchResponse : Type :=
| PatchBadRequest
| PatchNotFound
| ResolvedCount (resolvedCount : nat)
| ResolvedTodo (todo : TodoItem).

(** [insert(dismissedThreads).values({threadKey, ...}).onConflictDoNothing()] *)
Definition dismissThread (threadKey : string) (d : Db) : Db :=
  {| dashTodos := dashTodos d; dismissedThreads := {[threadKey]} ∪ dismissedThreads d |}.

Definition hasThreadKey (threadKey : string) (item : TodoItem) : bool :=
  String.eqb (itemThreadKey item) threadKey.

(** [select().from(todoItems).where(eq(todoItems.threadKey, threadKey))] *)
Definition itemsOfThread (threadKey : string) (items : gmap nat TodoItem)
  : list (nat * TodoItem) :=
  List.filter (fun '(_, item) => hasThreadKey threadKey item) (map_to_list items).

(** [reportId] is a number of the request body, truthy unless 0. *)
Definition truthyNumber (n : option Z) : bool :=
  match n with
  | Some z => negb (z =? 0)
  | None => false
  end.

Definition resolveByThreadKey (reportId : option Z) (threadKey : option string)
    (now : Z) (t : Tables) : PatchResponse * Tables :=
  match truthyNumber reportId, Js.truthy threadKey with
  | true, Some k =>
      match itemsOfThread k (todoItems t) with
      | [] => (PatchNotFound, t)
      | todos =>
          (ResolvedCount (length todos),
           {| db := dismissThread k (db t);
              todoItems := fmap (fun item => if hasThreadKey k item
                                             then resolveItem now item else item)
                                (todoItems t) |})
      end
  | _, _ => (PatchBadRequest, t)
  end.

(** The row with a numeric id; the ids of the table are not negative. *)
Definition lookupId (todoId : Z) (items : gmap nat TodoItem) : option TodoItem :=
  if todoId <? 0 then None else items !! Z.to_nat todoId.

Section WithParseInt.
(** [parseInt(id, 10)], [None] for [NaN]. *)
Variable parseInt : string -> option Z.

Definition resolveById (id : string) (now : Z) (t : Tables) : PatchResponse * Tables :=
  match parseInt id with
  | None => (PatchBadRequest, t)
  | Some todoId =>
      match lookupId todoId (todoItems t) with
      | None => (PatchNotFound, t)
      | Some todo =>
          (ResolvedTodo (resolveItem now todo),
           {| db := dismissThread (itemThreadKey todo) (db t);
              todoItems := alter (resolveItem now) (Z.to_nat todoId) (todoItems t) |})
      end
  end.

(** The body of [PATCH /api/todos/:id]. *)
Definition patchTodo (id : string) (reportId : option Z) (threadKey : option string)
    (now : Z) (t : Tables) : PatchResponse * Tables :=
  if String.eqb id "resolve" then resolveByThreadKey reportId threadKey now t
  else resolveById id now t.
End WithParseInt.

End TodoItemRoute.

(** ** The stored purchase-order attachments (src/storage/po-attachment-manager.ts) *)

Module PoAttachments.

(** A row of [email_po_attachments], with the columns that the detection
    reads; [poNumber] and [poTotal], which the analysis also writes and
    nothing here reads, are left out.  A new row has no analysis: its
    analysis columns are null. *)
Record PoAttachment : Type := {
  paId : nat;
  paEmailId : Z;
  paThreadKey : string;
  paFilename : string;
  analysisJson : option PoDetails.t;
  analyzedAt : option Z;
  isValidPo : option bool;
  notPoReason : option string
}.

(** The rows in the order of their insertion, and the next serial id. *)
Record Table : Type := { rows : list PoAttachment; nextId : nat }.

Record FetchedPdf : Type := {
  pdfFilename : string;
  pdfContent : string;
  originalFilename : option string
}.

Record PoValidationResult : Type := {
  details : option PoDetails.t;
  valid : bool;
  whyNot : option string
}.

Definition isAttachment (emailId : Z) (filename : string) (r : PoAttachment) : bool :=
  (paEmailId r =? emailId) && String.eqb (paFilename r) filename.

(** [select ... where emailId = ? and filename = ? limit 1] *)
Definition getStoredAttachment (emailId : Z) (filename : string) (t : Table)
  : option PoAttachment :=
  find (isAttachment emailId filename) (rows t).

(** The upload of the file is a side effect outside the table; its
    failure is logged and ignored. *)
Definition storeAttachment (emailId : Z) (threadKey : string) (pdf : FetchedPdf)
    (t : Table) : option PoAttachment * Table :=
  match getStoredAttachment emailId (pdfFilename pdf) t with
  | Some existing => (Some existing, t)
  | None =>
      let inserted :=
        {| paId := nextId t; paEmailId := emailId; paThreadKey := threadKey;
           paFilename := pdfFilename pdf;
           analysisJson := None; analyzedAt := None; isValidPo := None;
           notPoReason := None |} in
      (Some inserted, {| rows := rows t ++ [inserted]; nextId := S (nextId t) |})
  end.

Definition withAnalysis (now : Z) (v : PoValidationResult) (r : PoAttachment)
  : PoAttachment :=
  {| paId := paId r; paEmailId := paEmailId r; paThreadKey := paThreadKey r;
     paFilename := paFilename r;
     analysisJson := details v; analyzedAt := Some now;
     isValidPo := Some (valid v); notPoReason := whyNot v |}.

(** [update ... set {...analysis, analyzedAt: new Date()} where id = ?] *)
Definition updateAttachmentAnalysis (attachmentId : nat) (now : Z)
    (v : PoValidationResult) (t : Table) : Table :=
  {| rows := map (fun r => if (paId r =? attachmentId)%nat then withAnalysis now v r else r)
                 (rows t);
     nextId := nextId t |}.

(** The serial ids are distinct and below the next one. *)
Definition WellFormed (t : Table) : Prop :=
  NoDup (map paId (rows t)) /\ Forall (fun r => (paId r < nextId t)%nat) (rows t).

End PoAttachments.

(** ** Smart detection of purchase orders (src/report/po-detector) *)

Module SmartPoDetection.
Import PoAttachments.

Inductive AttemptResult : Type := att_success | att_fetch_failed | att_not_a_po.

Definition AttemptResult_eqb (a b : AttemptResult) : bool :=
  match a, b with
  | att_success, att_success | att_fetch_failed, att_fetch_failed
  | att_not_a_po, att_not_a_po => true
  | _, _ => false
  end.

Record AttemptedFile : Type := {
  attFilename : string;
  attResult : AttemptResult;
  attReason : option string
}.

Record SmartPoDetectionResult : Type := {
  success : bool;
  poDetailsList : list PoDetails.t;
  primaryPo : option PoDetails.t;
  needsReclassification : bool;
  attemptedFiles : list AttemptedFile
}.

Record AttachmentInfo : Type := {
  infoFilename : string;
  infoContentType : string;
  infoSize : Z
}.

Record RankedAttachment : Type := {
  rankedFilename : string;
  isPoCandidate : bool;
  rankReason : option string
}.

Inductive FetchReply : Type :=
| FetchThrows (error : string)
| FetchNotFound
| Fetched (pdf : FetchedPdf).

Inductive FailureStage : Type := no_attachments | no_po_candidate | not_a_po.

(** The calls that leave the process. *)
Inductive Call : Type :=
| CallRank
| CallFetch (filename : string)
| CallAnalyze (filename : string)
| CallLogFailure (stage : FailureStage).

Definition isFetch (c : Call) : bool :=
  match c with CallFetch _ => true | _ => false end.
Definition isAnalyze (c : Call) : bool :=
  match c with CallAnalyze _ => true | _ => false end.

(** The loop state: the table, the attempted files, the valid purchase
    orders and the calls made. *)
Record Loop : Type := {
  table : Table;
  attempted : list AttemptedFile;
  validPoDetails : list PoDetails.t;
  calls : list Call
}.

Definition attempt (l : Loop) (t : Table) (file : AttemptedFile)
    (found : list PoDetails.t) (made : list Call) : Loop :=
  {| table := t;
     attempted := attempted l ++ [file];
     validPoDetails := validPoDetails l ++ found;
     calls := calls l ++ made |}.

(** The verdict that the table holds for a file, if it holds one:
    [existing && existing.analyzedAt], then a valid purchase order with
    its details, or a document that is none. *)
Definition cachedVerdict (existing : option PoAttachment)
  : option (AttemptedFile * list PoDetails.t) :=
  match existing with
  | Some e =>
      match analyzedAt e with
      | Some _ =>
          match isValidPo e, analysisJson e with
          | Some true, Some d =>
              Some ({| attFilename := paFilename e; attResult := att_success;
                       attReason := None |}, [d])
          | Some false, _ =>
              Some ({| attFilename := paFilename e; attResult := att_not_a_po;
                       attReason :=
                         Some (Js.orDefault (notPoReason e)
                                            "Previously determined not a PO") |}, [])
          | _, _ => None
          end
      | None => None
      end
  | None => None
  end.

Section WithCollaborators.
(** The mail server and the document analyzer, asked for the [i]-th
    candidate; the id of the email row, the thread key and the clock. *)
Variable fetchSpecificAttachment : nat -> string -> FetchReply.
Variable analyzeAndValidatePo : nat -> FetchedPdf -> PoValidationResult.
Variable emailId : Z.
Variable threadKey : string.
Variable now : Z.

Definition failed (filename reason : string) : AttemptedFile :=
  {| attFilename := filename; attResult := att_fetch_failed; attReason := Some reason |}.

(** One round of the loop over the candidates. *)
Definition processCandidate (l : Loop) (i : nat) (candidate : RankedAttachment) : Loop :=
  let filename := rankedFilename candidate in
  match cachedVerdict (getStoredAttachment emailId filename (table l)) with
  | Some (file, found) =>
      attempt l (table l)
              {| attFilename := filename; attResult := attResult file;
                 attReason := attReason file |} found []
  | None =>
      match fetchSpecificAttachment i filename with
      | FetchThrows error =>
          attempt l (table l) (failed filename error) [] [CallFetch filename]
      | FetchNotFound =>
          attempt l (table l) (failed filename "Attachment not found in email") []
                  [CallFetch filename]
      | Fetched pdf =>
          match storeAttachment emailId threadKey pdf (table l) with
          | (None, t) =>
              attempt l t (failed filename "Failed to store attachment") []
                      [CallFetch filename]
          | (Some stored, t) =>
              let validationResult := analyzeAndValidatePo i pdf in
              let t := updateAttachmentAnalysis (paId stored) now validationResult t in
              let made := [CallFetch filename; CallAnalyze (pdfFilename pdf)] in
              match valid validationResult, details validationResult with
              | true, Some d =>
                  attempt l t {| attFilename := filename; attResult := att_success;
                                 attReason := None |} [d] made
              | _, _ =>
                  attempt l t
                    {| attFilename := filename; attResult := att_not_a_po;
                       attReason :=
                         Some (Js.orDefault (whyNot validationResult)
                                            "Document is not a purchase order") |}
                    [] made
              end
          end
      end
  end.

Fixpoint processCandidates (l : Loop) (i : nat) (candidates : list RankedAttachment)
  : Loop :=
  match candidates with
  | [] => l
  | candidate :: rest => processCandidates (processCandidate l i candidate) (S i) rest
  end.

Definition nothingFound (attemptedFiles : list AttemptedFile) : SmartPoDetectionResult :=
  {| success := false; poDetailsList := []; primaryPo := None;
     needsReclassification := true; attemptedFiles := attemptedFiles |}.

(** [smartPoDetection], from the parsed attachments and the answer of
    the ranking on; it gives the result, the table and the calls made. *)
Definition smartPoDetection (attachments : list AttachmentInfo)
    (rankedAttachments : list RankedAttachment) (t : Table)
  : SmartPoDetectionResult * Table * list Call :=
  match attachments with
  | [] => (nothingFound [], t, [CallLogFailure no_attachments])
  | _ =>
      match List.filter isPoCandidate rankedAttachments with
      | [] =>
          (nothingFound
             (map (fun r => {| attFilename := rankedFilename r;
                               attResult := att_not_a_po;
                               attReason := rankReason r |})
                  rankedAttachments),
           t, [CallRank; CallLogFailure no_po_candidate])
      | candidates =>
          let l := processCandidates
                     {| table := t; attempted := []; validPoDetails := [];
                        calls := [CallRank] |}
                     0 candidates in
          let success := negb (Nat.eqb (length (validPoDetails l)) 0) in
          ({| success := success;
              poDetailsList := validPoDetails l;
              primaryPo := head (validPoDetails l);
              needsReclassification := negb success;
              attemptedFiles := attempted l |},
           table l,
           calls l ++ (if success then [] else [CallLogFailure not_a_po]))
      end
  end.
End WithCollaborators.

Definition successes (files : list AttemptedFile) : list AttemptedFile :=
  List.filter (fun f => AttemptResult_eqb (attResult f) att_success) files.

Definition candidatesOf (rankedAttachments : list RankedAttachment)
  : list RankedAttachment :=
  List.filter isPoCandidate rankedAttachments.

Definition fetchFailures (files : list AttemptedFile) : list AttemptedFile :=
  List.filter (fun f => AttemptResult_eqb (attResult f) att_fetch_failed) files.

(** What identifies a row: these columns are never updated. *)
Definition rowKey (r : PoAttachment) : nat * Z * string :=
  (paId r, paEmailId r, paFilename r).

(** What the rounds for the candidates [cs] add to the loop state: one
    attempted file per candidate, one purchase order per success, a fetch
    for every file that failed or was analyzed, and rows at the end of
    the table, at most one per fetch. *)
Definition Progress (before after : Loop) (cs : list RankedAttachment) : Prop :=
  exists files found made added,
    attempted after = attempted before ++ files /\
    validPoDetails after = validPoDetails before ++ found /\
    calls after = calls before ++ made /\
    map rowKey (rows (table after)) = map rowKey (rows (table before)) ++ added /\
    map attFilename files = map rankedFilename cs /\
    length found = length (successes files) /\
    length (List.filter isFetch made)
    = (length (fetchFailures files) + length (List.filter isAnalyze made))%nat /\
    (length (List.filter isFetch made) <= length cs)%nat /\
    (length added <= length (List.filter isFetch made))%nat /\
    Forall (fun c => isFetch c || isAnalyze c = true) made.

(** The table holds a verdict for every candidate. *)
Definition AllCached (emailId : Z) (t : Table) (candidates : list RankedAttachment)
  : Prop :=
  Forall (fun c => cachedVerdict (getStoredAttachment emailId (rankedFilename c) t) <> None)
         candidates.

(** The table holds this verdict for the file. *)
Definition Settled (emailId : Z) (t : Table) (filename : string)
    (result : AttemptResult) (found : list PoDetails.t) : Prop :=
  exists file,
    cachedVerdict (getStoredAttachment emailId filename t) = Some (file, found) /\
    attResult file = result.

Definition outcome (f : AttemptedFile) : string * AttemptResult :=
  (attFilename f, attResult f).

(** The mail server hands out every file under the name it was asked
    for. *)
Definition KeepsNames (fetch : nat -> string -> FetchReply) : Prop :=
  forall i filename pdf, fetch i filename = Fetched pdf -> pdfFilename pdf = filename.

(** The analyzer gives the details of what it takes for a purchase
    order. *)
Definition ValidWithDetails (analyze : nat -> FetchedPdf -> PoValidationResult) : Prop :=
  forall i pdf, valid (analyze i pdf) = true -> exists d, details (analyze i pdf) = Some d.

End SmartPoDetection.

(** ** Sample detections *)

Module DetectionSamples.
Import PoAttachments SmartPoDetection.

Definition po4471 : PoDetails.t :=
  {| PoDetails.poNumber := Some "4471"; PoDetails.total := Some 125000 |}.

Definition emptyTable : Table := {| rows := []; nextId := 1 |}.

Definition onePdf : list AttachmentInfo :=
  [{| infoFilename := "po-4471.pdf"; infoContentType := "application/pdf";
      infoSize := 48213 |}].
Definition rankedPdf : list RankedAttachment :=
  [{| rankedFilename := "po-4471.pdf"; isPoCandidate := true; rankReason := None |}].

Definition oneWord : list AttachmentInfo :=
  [{| infoFilename := "po-4471.docx";
      infoContentType := "application/msword"; infoSize := 31200 |}].
Definition rankedWord : list RankedAttachment :=
  [{| rankedFilename := "po-4471.docx"; isPoCandidate := true; rankReason := None |}].

(** A mail server that has every file. *)
Definition fetchAsNamed (_ : nat) (filename : string) : FetchReply :=
  Fetched {| pdfFilename := filename; pdfContent := "%PDF-1.4";
             originalFilename := None |}.

(** A mail server whose file is a Word document: it comes back converted,
    under the name of the PDF. *)
Definition fetchConverted (_ : nat) (filename : string) : FetchReply :=
  Fetched {| pdfFilename := "po-4471.pdf"; pdfContent := "%PDF-1.4";
             originalFilename := Some filename |}.

(** A mail server that is down. *)
Definition fetchDown (_ : nat) (_ : string) : FetchReply := FetchThrows "ECONNREFUSED".

Definition readsPo (_ : nat) (_ : FetchedPdf) : PoValidationResult :=
  {| details := Some po4471; valid := true; whyNot := None |}.

Definition readsNothing (_ : nat) (_ : FetchedPdf) : PoValidationResult :=
  {| details := None; valid := false; whyNot := Some "not asked" |}.

End DetectionSamples.
(** ** Facts about the regular expressions *)

Module RegexFacts.
Import Regex.

Lemma Matches_Void s : ~ Matches Void s.
Proof. intros H. inversion H. Qed.

Lemma Matches_Seq_inv a b s :
  Matches (Seq a b) s ->
  exists s1 s2, s = s1 ++ s2 /\ Matches a s1 /\ Matches b s2.
Proof. intros H. inversion H. subst. eauto. Qed.

Lemma Matches_Alt_inv a b s : Matches (Alt a b) s -> Matches a s \/ Matches b s.
Proof. intros H. inversion H; auto. Qed.

Lemma Matches_Cls_inv p s : Matches (Cls p) s -> exists c, s = [c] /\ p c = true.
Proof. intros H. inversion H. eauto. Qed.

Lemma nullable_spec r : nullable r = true <-> Matches r [].
Proof.
  induction r as [| |p|a IHa b IHb|a IHa b IHb|a IHa]; simpl.
  - split; [discriminate | intros H; inversion H].
  - split; [constructor | reflexivity].
  - split; [discriminate | intros H; inversion H].
  - rewrite andb_true_iff, IHa, IHb. split.
    + intros [Ha Hb]. apply (MSeq a b [] [] Ha Hb).
    + intros H. apply Matches_Seq_inv in H as (s1 & s2 & Heq & Ha & Hb).
      symmetry in Heq. apply app_eq_nil in Heq as [-> ->]. auto.
  - rewrite orb_true_iff, IHa, IHb. split.
    + intros [H|H]; [now apply MAltL | now apply MAltR].
    + apply Matches_Alt_inv.
  - split; [constructor | reflexivity].
Qed.

Lemma isVoid_spec r : isVoid r = true -> r = Void.
Proof. destruct r; simpl; congruence. Qed.

Lemma seq'_spec a b s : Matches (seq' a b) s <-> Matches (Seq a b) s.
Proof.
  unfold seq'. destruct (isVoid a) eqn:Ea; simpl.
  - apply isVoid_spec in Ea. subst a. split; [intros H; inversion H|].
    intros H. apply Matches_Seq_inv in H as (s1 & s2 & _ & Ha & _).
    now apply Matches_Void in Ha.
  - destruct (isVoid b) eqn:Eb; [|reflexivity].
    apply isVoid_spec in Eb. subst b. split; [intros H; inversion H|].
    intros H. apply Matches_Seq_inv in H as (s1 & s2 & _ & _ & Hb).
    now apply Matches_Void in Hb.
Qed.

Lemma alt'_spec a b s : Matches (alt' a b) s <-> Matches (Alt a b) s.
Proof.
  unfold alt'. destruct (isVoid a) eqn:Ea.
  - apply isVoid_spec in Ea. subst a. split; [now apply MAltR|].
    intros H. apply Matches_Alt_inv in H as [H|H]; [now apply Matches_Void in H | assumption].
  - destruct (isVoid b) eqn:Eb; [|reflexivity].
    apply isVoid_spec in Eb. subst b. split; [now apply MAltL|].
    intros H. apply Matches_Alt_inv in H as [H|H]; [assumption | now apply Matches_Void in H].
Qed.

(** A non-empty match of a star starts with a non-empty match of its body. *)
Lemma Matches_Star_cons a c s :
  Matches (Star a) (c :: s) ->
  exists s1 s2, s = s1 ++ s2 /\ Matches a (c :: s1) /\ Matches (Star a) s2.
Proof.
  intros H. remember (Star a) as r eqn:Hr. remember (c :: s) as cs eqn:Hcs.
  revert s Hcs. induction H as [| | | | | |a' s1 s2 H1 _ H2 IH2]; intros t Hcs;
    try discriminate.
  inversion Hr. subst a'. destruct s1 as [|c1 s1].
  - simpl in Hcs. now apply IH2.
  - simpl in Hcs. inversion Hcs. subst. eauto.
Qed.

(** The derivative by [c] matches what is left after a leading [c]. *)
Lemma deriv_spec r : forall c s, Matches (deriv c r) s <-> Matches r (c :: s).
Proof.
  induction r as [| |p|a IHa b IHb|a IHa b IHb|a IHa]; intros c s; simpl.
  - split; intros H; inversion H.
  - split; intros H; inversion H.
  - destruct (p c) eqn:E.
    + split; intros H.
      * inversion H. now apply MCls.
      * apply Matches_Cls_inv in H as (c' & Heq & _). inversion Heq. constructor.
    + split; intros H; [inversion H|].
      apply Matches_Cls_inv in H as (c' & Heq & Hp). inversion Heq. congruence.
  - rewrite alt'_spec. split.
    + intros H. apply Matches_Alt_inv in H as [Hl|Hr].
      * apply seq'_spec, Matches_Seq_inv in Hl as (s1 & s2 & -> & Ha & Hb).
        apply IHa in Ha. apply (MSeq a b (c :: s1) s2 Ha Hb).
      * destruct (nullable a) eqn:En; [|now apply Matches_Void in Hr].
        apply nullable_spec in En. apply IHb in Hr. apply (MSeq a b [] (c :: s) En Hr).
    + intros H. apply Matches_Seq_inv in H as (s1 & s2 & Heq & Ha & Hb).
      destruct s1 as [|c1 s1]; simpl in Heq.
      * subst s2. apply MAltR. apply nullable_spec in Ha. rewrite Ha. now apply IHb.
      * inversion Heq. subst. apply MAltL, seq'_spec. apply MSeq; [now apply IHa | assumption].
  - rewrite alt'_spec. split.
    + intros H. apply Matches_Alt_inv in H as [H|H]; [apply MAltL, IHa | apply MAltR, IHb]; assumption.
    + intros H. apply Matches_Alt_inv in H as [H|H]; [apply MAltL, IHa | apply MAltR, IHb]; assumption.
  - rewrite seq'_spec. split.
    + intros H. apply Matches_Seq_inv in H as (s1 & s2 & -> & Ha & Hb).
      apply IHa in Ha. apply (MStarApp a (c :: s1) s2 Ha Hb).
    + intros H. apply Matches_Star_cons in H as (s1 & s2 & -> & Ha & Hb).
      apply MSeq; [now apply IHa | assumption].
Qed.

(** The matcher decides the matching relation. *)
Lemma matchesChars_spec s : forall r, matchesChars r s = true <-> Matches r s.
Proof.
  induction s as [|c s IH]; intros r; simpl.
  - apply nullable_spec.
  - rewrite IH. apply deriv_spec.
Qed.

End RegexFacts.

(** ** Facts about [JsMap] *)

Module JsMapFacts.
Import JsMap.

Section Facts.
Context {V : Type}.
Implicit Types (m : JsMap.t V) (k x : string) (v : V).

Lemma get_set_eq m k v : get (set m k v) k = Some v.
Proof.
  induction m as [|[k' v'] m IH]; simpl.
  - now rewrite String.eqb_refl.
  - destruct (String.eqb k' k) eqn:E; simpl; rewrite E; auto.
Qed.

Lemma get_set_ne m k x v : k <> x -> get (set m k v) x = get m x.
Proof.
  intros Hne. induction m as [|[k' v'] m IH]; simpl.
  - apply String.eqb_neq in Hne. now rewrite Hne.
  - destruct (String.eqb k' k) eqn:E; simpl.
    + apply String.eqb_eq in E. subst k'.
      apply String.eqb_neq in Hne. now rewrite Hne.
    + destruct (String.eqb k' x); auto.
Qed.

Lemma get_In m k v : get m k = Some v -> In (k, v) m.
Proof.
  induction m as [|[k' v'] m IH]; simpl; [discriminate|].
  destruct (String.eqb k' k) eqn:E; intros H.
  - apply String.eqb_eq in E. inversion H. subst. now left.
  - right. auto.
Qed.

Lemma get_None_keys m k : get m k = None <-> ~ In k (keys m).
Proof.
  induction m as [|[k' v'] m IH]; simpl.
  - split; auto.
  - destruct (String.eqb k' k) eqn:E.
    + apply String.eqb_eq in E. split; [discriminate|]. intros H. exfalso. auto.
    + apply String.eqb_neq in E. rewrite IH. split.
      * intros H [H1|H1]; auto.
      * intros H H1. auto.
Qed.

Lemma In_get m k v : NoDup (keys m) -> In (k, v) m -> get m k = Some v.
Proof.
  induction m as [|[k' v'] m IH]; simpl; [tauto|].
  intros Hnd [H|H].
  - inversion H. subst. now rewrite String.eqb_refl.
  - inversion Hnd as [|? ? Hnotin Hnd']. subst.
    destruct (String.eqb k' k) eqn:E.
    + apply String.eqb_eq in E. subst. exfalso. apply Hnotin.
      apply list_elem_of_In. apply (in_map fst) in H. exact H.
    + auto.
Qed.

Lemma length_set_fresh m k v : get m k = None -> length (set m k v) = S (length m).
Proof.
  induction m as [|[k' v'] m IH]; simpl; auto.
  destruct (String.eqb k' k); [discriminate|].
  intros H. simpl. now rewrite IH.
Qed.

Lemma keys_set_fresh m k v : get m k = None -> keys (set m k v) = keys m ++ [k].
Proof.
  unfold keys. induction m as [|[k' v'] m IH]; simpl; auto.
  destruct (String.eqb k' k); [discriminate|].
  intros H. simpl. now rewrite IH.
Qed.

Lemma keys_set_present m k v v0 : get m k = Some v0 -> keys (set m k v) = keys m.
Proof.
  unfold keys. induction m as [|[k' v'] m IH]; simpl; [discriminate|].
  destruct (String.eqb k' k); simpl; auto.
  intros H. now rewrite IH.
Qed.

Lemma NoDup_keys_set m k v : NoDup (keys m) -> NoDup (keys (set m k v)).
Proof.
  intros Hnd. destruct (get m k) eqn:E.
  - now rewrite (keys_set_present _ _ _ _ E).
  - rewrite (keys_set_fresh _ _ _ E).
    apply NoDup_app. repeat split; auto.
    + intros x Hx Hx'. apply list_elem_of_In in Hx, Hx'.
      destruct Hx' as [<-|[]]. now apply get_None_keys in E.
    + apply NoDup_singleton.
Qed.

Lemma In_set_old m k v k0 v0 :
  In (k0, v0) m -> In (k0, v0) (set m k v) \/ (k0 = k /\ get m k = Some v0).
Proof.
  induction m as [|[k' v'] m IH]; simpl; [tauto|].
  destruct (String.eqb k' k) eqn:E.
  - apply String.eqb_eq in E. subst k'. intros [H|H].
    + inversion H. subst. now right.
    + left. now right.
  - intros [H|H].
    + left. now left.
    + destruct (IH H) as [H'|[-> H']]; [left; now right | now right].
Qed.

Lemma In_set_inv m k v k0 v0 :
  In (k0, v0) (set m k v) -> In (k0, v0) m \/ (k0 = k /\ v0 = v).
Proof.
  induction m as [|[k' v'] m IH]; simpl.
  - intros [H|[]]. inversion H. now right.
  - destruct (String.eqb k' k) eqn:E.
    + apply String.eqb_eq in E. subst k'. intros [H|H].
      * inversion H. now right.
      * left. now right.
    + intros [H|H].
      * left. now left.
      * destruct (IH H) as [H'|H']; [left; now right | now right].
Qed.

End Facts.

Section PushAll.
Context {A : Type}.
Implicit Types (m : JsMap.t (list A)) (k : string) (xs : list A).

Lemma concat_values_set_fresh m k xs :
  get m k = None -> concat (values (set m k xs)) = concat (values m) ++ xs.
Proof.
  unfold values. induction m as [|[k' v'] m IH]; simpl.
  - intros _. now rewrite app_nil_r.
  - destruct (String.eqb k' k); [discriminate|].
    intros H. simpl. rewrite IH by assumption. now rewrite app_assoc.
Qed.

Lemma concat_values_set_present m k l xs :
  get m k = Some l ->
  Permutation (concat (values (set m k (l ++ xs)))) (concat (values m) ++ xs).
Proof.
  unfold values. induction m as [|[k' v'] m IH]; simpl; [discriminate|].
  destruct (String.eqb k' k); simpl.
  - intros H. inversion H. subst v'.
    rewrite <- !app_assoc. apply Permutation_app_head, Permutation_app_comm.
  - intros H. rewrite <- app_assoc. apply Permutation_app_head. auto.
Qed.

Lemma pushAll_perm m k xs :
  Permutation (concat (values (pushAll m k xs))) (concat (values m) ++ xs).
Proof.
  unfold pushAll. destruct (get m k) eqn:E.
  - now apply concat_values_set_present.
  - now rewrite concat_values_set_fresh.
Qed.

Lemma pushAll_old m k xs k0 l0 :
  In (k0, l0) m -> exists l0', In (k0, l0') (pushAll m k xs) /\ incl l0 l0'.
Proof.
  intros Hin. unfold pushAll. destruct (get m k) as [l|] eqn:E.
  - destruct (In_set_old m k (l ++ xs) _ _ Hin) as [H|[-> H]].
    + exists l0. split; [assumption | apply incl_refl].
    + rewrite E in H. inversion H. subst l0.
      exists (l ++ xs). split; [apply get_In, get_set_eq | now apply incl_appl, incl_refl].
  - destruct (In_set_old m k xs _ _ Hin) as [H|[-> H]].
    + exists l0. split; [assumption | apply incl_refl].
    + congruence.
Qed.

Lemma pushAll_new m k xs :
  exists l', In (k, l') (pushAll m k xs) /\ incl xs l'.
Proof.
  unfold pushAll. destruct (get m k) as [l|] eqn:E.
  - exists (l ++ xs). split; [apply get_In, get_set_eq | now apply incl_appr, incl_refl].
  - exists xs. split; [apply get_In, get_set_eq | apply incl_refl].
Qed.

Lemma pushAll_inv m k xs k0 l0 :
  In (k0, l0) (pushAll m k xs) ->
  In (k0, l0) m \/
  (k0 = k /\ ((exists l, get m k = Some l /\ l0 = l ++ xs) \/ l0 = xs)).
Proof.
  unfold pushAll. destruct (get m k) as [l|] eqn:E; intros H;
    apply In_set_inv in H as [H|[-> ->]]; eauto 7.
Qed.

Lemma NoDup_keys_pushAll m k xs : NoDup (keys m) -> NoDup (keys (pushAll m k xs)).
Proof.
  intros H. unfold pushAll. destruct (get m k); now apply NoDup_keys_set.
Qed.

End PushAll.
End JsMapFacts.

(** ** Facts about the threader *)

Module ThreaderFacts.
Import JsMap JsMapFacts Threader ThreaderInv.


Lemma reach_followFuel m t n r :
  reach m t n r -> forall fuel, (n <= fuel)%nat -> followFuel fuel m t = Some r.
Proof.
  induction 1 as [t Ht | t t' n r Ht _ IH]; intros fuel Hle.
  - destruct fuel; simpl; now rewrite Ht.
  - destruct fuel as [|fuel]; [lia|]. simpl. rewrite Ht. apply IH. lia.
Qed.

(** More rounds than needed change nothing: the cut-off of [followFuel]
    only shows in a loop that would not end. *)
Lemma followFuel_enough fuel m t r :
  followFuel fuel m t = Some r ->
  forall fuel', (fuel <= fuel')%nat -> followFuel fuel' m t = Some r.
Proof.
  revert t. induction fuel as [|fuel IH]; intros t Hrun fuel' Hle.
  - simpl in Hrun. destruct (get m t) eqn:E; [discriminate|].
    destruct fuel'; simpl; now rewrite E.
  - destruct fuel' as [|fuel']; [lia|]. simpl in *.
    destruct (get m t) as [t'|]; [|assumption]. apply IH; [assumption | lia].
Qed.

Lemma reach_root_None m t n r : reach m t n r -> get m r = None.
Proof. induction 1; auto. Qed.


(** The loop is deterministic: a start has one exit and one round count. *)
Lemma reach_det m t n r :
  reach m t n r -> forall n' r', reach m t n' r' -> n = n' /\ r = r'.
Proof.
  induction 1 as [t Ht | t t' n r Ht _ IH]; intros n' r' H'; inversion H'; subst.
  - auto.
  - congruence.
  - congruence.
  - assert (t' = t'0) by congruence. subst t'0.
    destruct (IH _ _ H0) as [-> ->]. auto.
Qed.

Lemma followFuel_reach fuel m :
  forall t r, followFuel fuel m t = Some r -> exists n, (n <= fuel)%nat /\ reach m t n r.
Proof.
  induction fuel as [|fuel IH]; intros t r Hrun; simpl in Hrun.
  - destruct (get m t) eqn:E; [discriminate|]. inversion Hrun. subst r.
    exists 0%nat. split; [lia | now constructor].
  - destruct (get m t) as [t'|] eqn:E.
    + destruct (IH _ _ Hrun) as (n & Hn & Hreach).
      exists (S n). split; [lia | now apply reach_step with t'].
    + inversion Hrun. subst r. exists 0%nat. split; [lia | now constructor].
Qed.

(** The keys visited on the way to the exit are distinct keys of the map. *)
Lemma reach_visits m t n r :
  reach m t n r ->
  exists visited : list string,
    length visited = n /\ NoDup visited /\
    forall x, x ∈ visited -> exists k, (1 <= k <= n)%nat /\ reach m x k r.
Proof.
  induction 1 as [t Ht | t t' n r Ht Hreach IH].
  - exists []. split; [reflexivity|]. split; [constructor|]. intros x Hx. inversion Hx.
  - destruct IH as (visited & Hlen & Hnd & Hvis).
    assert (Hstep : reach m t (S n) r) by now apply reach_step with t'.
    exists (t :: visited). split; [simpl; now rewrite Hlen|]. split.
    + constructor; [|assumption]. intros Hin.
      destruct (Hvis _ Hin) as (k & Hk & Hreach').
      destruct (reach_det _ _ _ _ Hstep _ _ Hreach') as [Heq _]. lia.
    + intros x Hx. apply elem_of_cons in Hx as [->|Hx].
      * exists (S n). split; [lia | assumption].
      * destruct (Hvis _ Hx) as (k & Hk & Hreach'). exists k. split; [lia | assumption].
Qed.

(** A loop that ends does so within as many rounds as the map has entries. *)
Lemma reach_bound m t n r : reach m t n r -> (n <= length m)%nat.
Proof.
  intros Hreach. destruct (reach_visits _ _ _ _ Hreach) as (visited & <- & Hnd & Hvis).
  replace (length m) with (length (keys m)) by apply length_map.
  apply submseteq_length, NoDup_submseteq; [assumption|].
  intros x Hx. destruct (Hvis _ Hx) as (k & Hk & Hreach').
  apply list_elem_of_In. destruct (in_dec string_dec x (keys m)) as [Hin|Hnotin]; [assumption|].
  apply get_None_keys in Hnotin. inversion Hreach'; subst; [lia | congruence].
Qed.

(** The model of the loop is exact: [follow] returns the exit of the loop
    when the loop ends, and [None] only when it does not. *)
Lemma follow_iff_reach m t r : follow m t = Some r <-> exists n, reach m t n r.
Proof.
  unfold follow. split.
  - intros Hrun. destruct (followFuel_reach _ _ _ _ Hrun) as (n & _ & Hreach). eauto.
  - intros (n & Hreach). apply (reach_followFuel _ _ _ _ Hreach), (reach_bound _ _ _ _ Hreach).
Qed.

Lemma Chains_nil : Chains [].
Proof. intros t. exists 0%nat, t. split; [simpl; lia | now constructor]. Qed.

Lemma Chains_follow m t :
  Chains m -> exists r, follow m t = Some r /\ get m r = None.
Proof.
  intros H. destruct (H t) as (n & r & Hn & Hr).
  exists r. split.
  - unfold follow. now apply (reach_followFuel _ _ _ _ Hr).
  - now apply (reach_root_None _ _ _ _ Hr).
Qed.

(** A new edge from a key without entry to another root keeps the chains
    finite: a chain that ended in [k] now ends, one round later, in [r]. *)
Lemma reach_set m k r t n ρ :
  get m k = None -> get m r = None -> r <> k ->
  reach m t n ρ ->
  exists n' ρ', (n' <= S n)%nat /\ reach (set m k r) t n' ρ'.
Proof.
  intros Hk Hr Hne. induction 1 as [t Ht | t t' n ρ Ht _ IH].
  - destruct (String.eqb_spec k t) as [->|Hkt].
    + exists 1%nat, r. split; [lia|].
      apply reach_step with r; [apply get_set_eq|].
      apply reach_root. rewrite get_set_ne; auto.
    + exists 0%nat, t. split; [lia|].
      apply reach_root. now rewrite get_set_ne.
  - destruct IH as (n' & ρ' & Hn' & Hreach).
    exists (S n'), ρ'. split; [lia|].
    apply reach_step with t'; [|assumption].
    rewrite get_set_ne; [assumption|]. intros ->. congruence.
Qed.

Lemma Chains_set m k r :
  Chains m -> get m k = None -> get m r = None -> r <> k -> Chains (set m k r).
Proof.
  intros H Hk Hr Hne t. destruct (H t) as (n & ρ & Hn & Hreach).
  destruct (reach_set m k r t n ρ Hk Hr Hne Hreach) as (n' & ρ' & Hn' & Hreach').
  exists n', ρ'. split; [|assumption].
  rewrite length_set_fresh by assumption. lia.
Qed.

(** *** The second pass returns *)

Lemma mergeStep_total mid merged mm threadId threadEmails :
  Chains mm -> get mm threadId = None ->
  exists merged' mm',
    mergeStep mid (merged, mm) (threadId, threadEmails) = Some (merged', mm') /\
    Chains mm' /\
    (forall x, x <> threadId -> get mm x = None -> get mm' x = None) /\
    (exists target, merged' = pushAll merged target threadEmails).
Proof.
  intros Hch Hfresh. unfold mergeStep.
  assert (Htarget : exists target,
    match firstRelated mid threadId threadEmails with
    | Some relatedThread =>
        follow mm (Js.orDefault (get mm relatedThread) relatedThread)
    | None => Some threadId
    end = Some target /\ get mm target = None).
  { destruct (firstRelated mid threadId threadEmails) as [related|].
    - apply Chains_follow, Hch.
    - now exists threadId. }
  destruct Htarget as (target & -> & Hroot). simpl.
  destruct (String.eqb_spec target threadId) as [->|Hne].
  - destruct (Chains_follow mm threadId Hch) as (r & -> & _). simpl.
    eauto 10.
  - assert (Hch' : Chains (set mm threadId target)) by now apply Chains_set.
    destruct (Chains_follow _ target Hch') as (r & -> & _). simpl.
    do 2 eexists. split; [reflexivity|]. split; [assumption|]. split; [|eauto].
    intros x Hx Hnone. rewrite get_set_ne; auto.
Qed.

Lemma mergeFold_total mid entries :
  forall merged mm,
    NoDup (keys entries) -> Chains mm ->
    (forall k, In k (keys entries) -> get mm k = None) ->
    exists st, foldOpt (mergeStep mid) entries (merged, mm) = Some st.
Proof.
  induction entries as [|[threadId threadEmails] entries IH]; intros merged mm Hnd Hch Hfresh.
  - simpl. eauto.
  - simpl in Hnd. apply NoDup_cons in Hnd as [Hnotin Hnd].
    destruct (mergeStep_total mid merged mm threadId threadEmails Hch)
      as (merged' & mm' & Hstep & Hch' & Hkeep & _).
    { apply Hfresh. now left. }
    cbn [foldOpt]. rewrite Hstep. apply IH; auto.
    intros k Hk. apply Hkeep.
    + intros ->. apply Hnotin. now apply list_elem_of_In.
    + apply Hfresh. now right.
Qed.

(** *** The third pass returns *)


Lemma subjectStep_inv threadId threadEmails todo st :
  ~ In threadId todo ->
  SubjectInv (threadId :: todo) st ->
  SubjectInv todo (subjectStep st (threadId, threadEmails)).
Proof.
  destruct st as [stt smm]. intros Hnotin (Hch & Htodo & Hroots).
  assert (Hweak : SubjectInv todo (stt, smm)).
  { split; [assumption|]. split; [|assumption]. intros k Hk. apply Htodo. now right. }
  destruct (Htodo threadId (or_introl eq_refl)) as [Hfresh Hunused].
  unfold subjectStep.
  destruct (5 <? String.length _)%nat; [|exact Hweak].
  set (norm := normalizeSubject _).
  destruct (get stt norm) as [existing|] eqn:E.
  - assert (Hne : existing <> threadId) by (intros ->; now apply (Hunused norm)).
    split; [apply Chains_set; eauto|]. split.
    + intros k Hk. destruct (Htodo k (or_intror Hk)) as [H1 H2]. split; [|assumption].
      rewrite get_set_ne; [assumption|]. intros ->. contradiction.
    + intros s t Hst. rewrite get_set_ne; [eauto|].
      intros ->. now apply (Hunused s).
  - split; [assumption|]. split.
    + intros k Hk. destruct (Htodo k (or_intror Hk)) as [H1 H2]. split; [assumption|].
      intros s. destruct (String.eqb_spec norm s) as [->|Hs].
      * rewrite get_set_eq. intros [= ->]. contradiction.
      * rewrite get_set_ne by assumption. apply H2.
    + intros s t. destruct (String.eqb_spec norm s) as [->|Hs].
      * rewrite get_set_eq. intros [= ->]. assumption.
      * rewrite get_set_ne by assumption. apply Hroots.
Qed.

Lemma subjectFold_inv entries :
  forall st, NoDup (keys entries) -> SubjectInv (keys entries) st ->
             SubjectInv [] (fold_left subjectStep entries st).
Proof.
  induction entries as [|[threadId threadEmails] entries IH]; intros st Hnd Hinv.
  - exact Hinv.
  - simpl in Hnd. apply NoDup_cons in Hnd as [Hnotin Hnd].
    simpl. apply IH; [assumption|].
    apply subjectStep_inv; [|exact Hinv].
    intros H. apply Hnotin. now apply list_elem_of_In.
Qed.

Lemma applyFold_total smm entries :
  Chains smm ->
  forall final, exists final', foldOpt (applyStep smm) entries final = Some final'.
Proof.
  intros Hch. induction entries as [|[threadId threadEmails] entries IH]; intros final.
  - simpl. eauto.
  - simpl. destruct (Chains_follow smm threadId Hch) as (r & -> & _). simpl. apply IH.
Qed.

Lemma mergeBySubject_total mergedThreads :
  NoDup (keys mergedThreads) -> exists final, mergeBySubject mergedThreads = Some final.
Proof.
  intros Hnd. unfold mergeBySubject.
  pose proof (subjectFold_inv mergedThreads ([], []) Hnd) as Hinv.
  destruct (fold_left subjectStep mergedThreads ([], [])) as [stt smm].
  apply applyFold_total. apply Hinv.
  split; [apply Chains_nil|]. split; [|discriminate].
  intros k _. split; [reflexivity | discriminate].
Qed.

(** *** The first pass groups by seed thread id *)


Lemma assignStep_inv seen threads mid email :
  AssignInv seen threads ->
  AssignInv (seen ++ [email]) (fst (assignStep (threads, mid) email)).
Proof.
  intros (Hnd & Hperm & Hseed). simpl. split; [|split].
  - now apply NoDup_keys_pushAll.
  - etransitivity; [apply pushAll_perm|]. now apply Permutation_app_tail.
  - intros k l e Hin He.
    apply pushAll_inv in Hin as [Hin|[-> [(l0 & Hget & ->)| ->]]].
    + eauto.
    + apply in_app_or in He as [He|[<-|[]]]; [|reflexivity].
      apply get_In in Hget. eauto.
    + destruct He as [<-|[]]. reflexivity.
Qed.

Lemma assignFold_inv emails :
  forall seen st, AssignInv seen (fst st) ->
                  AssignInv (seen ++ emails) (fst (fold_left assignStep emails st)).
Proof.
  induction emails as [|email emails IH]; intros seen [threads mid] Hinv.
  - simpl. now rewrite app_nil_r.
  - simpl fold_left. replace (seen ++ email :: emails) with ((seen ++ [email]) ++ emails)
      by now rewrite <- app_assoc.
    apply IH. apply (assignStep_inv seen threads mid email Hinv).
Qed.

Lemma assignThreads_inv emails : AssignInv emails (fst (assignThreads emails)).
Proof.
  apply (assignFold_inv emails [] ([], [])).
  split; [constructor|]. split; [constructor|]. intros k l e [].
Qed.


Lemma assign_same_seed emails threads e1 e2 :
  AssignInv emails threads ->
  In e1 emails -> In e2 emails -> threadIdOf e1 = threadIdOf e2 ->
  CoThreaded threads e1 e2.
Proof.
  intros (Hnd & Hperm & Hseed) H1 H2 Heq.
  assert (Hfind : forall e, In e emails -> exists l, In (threadIdOf e, l) threads /\ In e l).
  { intros e He. apply (Permutation_in _ (Permutation_sym Hperm)) in He.
    apply in_concat in He as (l & Hl & He).
    apply in_map_iff in Hl as ([k l'] & <- & Hkl). simpl in He.
    exists l'. split; [|assumption]. now rewrite (Hseed k l' e Hkl He). }
  destruct (Hfind e1 H1) as (l1 & Hl1 & He1).
  destruct (Hfind e2 H2) as (l2 & Hl2 & He2).
  rewrite <- Heq in Hl2.
  apply (In_get _ _ _ Hnd) in Hl1, Hl2.
  assert (l1 = l2) by congruence. subst l2.
  exists (threadIdOf e1), l1. split; [now apply get_In | auto].
Qed.

(** *** A pass that pushes whole threads keeps them together *)

Section Regroup.
Context {T : Type}.
Variable proj : T -> JsMap.t (list Email).
Variable step : T -> string * list Email -> option T.
Hypothesis step_push :
  forall t k l t', step t (k, l) = Some t' ->
                   exists target, proj t' = pushAll (proj t) target l.

Lemma regroup entries :
  forall t t', foldOpt step entries t = Some t' ->
    Permutation (concat (values (proj t')))
                (concat (values (proj t)) ++ concat (values entries)) /\
    (forall k0 l0, In (k0, l0) (proj t) ->
                   exists l0', In (k0, l0') (proj t') /\ incl l0 l0') /\
    (forall k l, In (k, l) entries ->
                 exists k' l', In (k', l') (proj t') /\ incl l l') /\
    (NoDup (keys (proj t)) -> NoDup (keys (proj t'))).
Proof.
  induction entries as [|[k l] entries IH]; intros t t' Hfold.
  - simpl in Hfold. inversion Hfold. subst t'. simpl. rewrite app_nil_r.
    repeat split; auto.
    + intros k0 l0 H. exists l0. split; [assumption | apply incl_refl].
    + intros k l [].
  - simpl in Hfold. destruct (step t (k, l)) as [t1|] eqn:Hstep; [|discriminate].
    destruct (step_push _ _ _ _ Hstep) as (target & Hproj).
    destruct (IH _ _ Hfold) as (Hperm & Hold & Hnew & Hnd).
    rewrite Hproj in Hperm, Hold, Hnd. split; [|split; [|split]].
    + etransitivity; [exact Hperm|]. simpl.
      rewrite app_assoc. apply Permutation_app_tail, pushAll_perm.
    + intros k0 l0 Hin.
      destruct (pushAll_old (proj t) target l k0 l0 Hin) as (l1 & Hin1 & Hincl1).
      destruct (Hold _ _ Hin1) as (l2 & Hin2 & Hincl2).
      exists l2. split; [assumption | now apply incl_tran with l1].
    + intros k0 l0 [Hin|Hin].
      * inversion Hin. subst k0 l0.
        destruct (pushAll_new (proj t) target l) as (l1 & Hin1 & Hincl1).
        destruct (Hold _ _ Hin1) as (l2 & Hin2 & Hincl2).
        exists target, l2. split; [assumption | now apply incl_tran with l1].
      * eauto.
    + intros H. apply Hnd. now apply NoDup_keys_pushAll.
Qed.
End Regroup.

Lemma mergeStep_push mid st k l st' :
  mergeStep mid st (k, l) = Some st' ->
  exists target, fst st' = pushAll (fst st) target l.
Proof.
  destruct st as [merged mm]. unfold mergeStep.
  destruct (match firstRelated mid k l with Some _ => _ | None => _ end) as [target|];
    [|discriminate]. simpl.
  destruct (follow _ target) as [final|]; [|discriminate]. simpl.
  intros [= <-]. eauto.
Qed.

Lemma applyStep_push smm final k l final' :
  applyStep smm final (k, l) = Some final' ->
  exists target, final' = pushAll final target l.
Proof.
  unfold applyStep. destruct (follow smm k) as [target|]; [|discriminate]. simpl.
  intros [= <-]. eauto.
Qed.

Lemma CoThreaded_regroup (src dst : JsMap.t (list Email)) e1 e2 :
  (forall k l, In (k, l) src -> exists k' l', In (k', l') dst /\ incl l l') ->
  CoThreaded src e1 e2 -> CoThreaded dst e1 e2.
Proof.
  intros H (k & l & Hin & H1 & H2).
  destruct (H _ _ Hin) as (k' & l' & Hin' & Hincl).
  exists k', l'. auto.
Qed.

(** *** Sorting by date *)


Lemma insertByDate_perm x l : Permutation (insertByDate x l) (x :: l).
Proof.
  induction l as [|y l IH]; simpl; [reflexivity|].
  destruct (dateKey x <=? dateKey y); [reflexivity|].
  etransitivity; [apply perm_skip, IH | apply perm_swap].
Qed.

Lemma sortByDate_perm l : Permutation (sortByDate l) l.
Proof.
  induction l as [|x l IH]; simpl; [reflexivity|].
  etransitivity; [apply insertByDate_perm | now apply perm_skip].
Qed.

Lemma insertByDate_sorted x l :
  StronglySorted dateLe l -> StronglySorted dateLe (insertByDate x l).
Proof.
  induction 1 as [|y l Hsorted IH Hall]; simpl.
  - repeat constructor.
  - destruct (Z.leb_spec (dateKey x) (dateKey y)) as [Hle|Hgt].
    + constructor; [now constructor|].
      constructor; [exact Hle|].
      eapply Forall_impl; [exact Hall|].
      intros z Hz. unfold dateLe in *. lia.
    + constructor; [exact IH|].
      apply (Permutation_Forall (Permutation_sym (insertByDate_perm x l))).
      constructor; [unfold dateLe; lia | exact Hall].
Qed.

Lemma sortByDate_sorted l : StronglySorted dateLe (sortByDate l).
Proof.
  induction l as [|x l IH]; simpl; [constructor | now apply insertByDate_sorted].
Qed.

Lemma In_sortThreads m k l' :
  In (k, l') (sortThreads m) <-> exists l, In (k, l) m /\ l' = sortByDate l.
Proof.
  unfold sortThreads. rewrite in_map_iff. split.
  - intros ([k0 l] & Heq & Hin). inversion Heq. subst. eauto.
  - intros (l & Hin & ->). now exists (k, l).
Qed.

Lemma keys_sortThreads m : keys (sortThreads m) = keys m.
Proof.
  unfold keys, sortThreads. rewrite map_map. apply map_ext. now intros [k l].
Qed.

Lemma concat_sortThreads m :
  Permutation (concat (values (sortThreads m))) (concat (values m)).
Proof.
  induction m as [|[k l] m IH]; simpl; [reflexivity|].
  apply Permutation_app; [apply sortByDate_perm | exact IH].
Qed.

(** *** The grouping as a whole *)

Lemma mergeByReply_spec threads mid :
  NoDup (keys threads) ->
  exists merged mm,
    mergeByReply threads mid = Some (merged, mm) /\
    NoDup (keys merged) /\
    Permutation (concat (values merged)) (concat (values threads)) /\
    (forall k l, In (k, l) threads -> exists k' l', In (k', l') merged /\ incl l l').
Proof.
  intros Hnd. unfold mergeByReply.
  destruct (mergeFold_total mid threads [] [] Hnd Chains_nil) as ([merged mm] & Hfold).
  { intros k _. reflexivity. }
  exists merged, mm. split; [exact Hfold|].
  destruct (regroup fst (mergeStep mid) (mergeStep_push mid) threads _ _ Hfold)
    as (Hperm & _ & Hnew & Hnd').
  simpl in *. split; [apply Hnd'; constructor|]. split; assumption.
Qed.

Lemma mergeBySubject_spec merged :
  NoDup (keys merged) ->
  exists final,
    mergeBySubject merged = Some final /\
    NoDup (keys final) /\
    Permutation (concat (values final)) (concat (values merged)) /\
    (forall k l, In (k, l) merged -> exists k' l', In (k', l') final /\ incl l l').
Proof.
  intros Hnd. destruct (mergeBySubject_total merged Hnd) as (final & Hfinal).
  exists final. split; [exact Hfinal|].
  unfold mergeBySubject in Hfinal.
  destruct (fold_left subjectStep merged ([], [])) as [stt smm].
  destruct (regroup (fun t => t) (applyStep smm) (applyStep_push smm) merged _ _ Hfinal)
    as (Hperm & _ & Hnew & Hnd').
  simpl in *. split; [apply Hnd'; constructor|]. split; assumption.
Qed.

Lemma groupEmailsIntoThreads_spec emails :
  exists out,
    groupEmailsIntoThreads emails = Some out /\
    NoDup (keys out) /\
    Permutation (concat (values out)) emails /\
    (forall e1 e2, In e1 emails -> In e2 emails ->
                   threadIdOf e1 = threadIdOf e2 -> CoThreaded out e1 e2) /\
    (forall k l, In (k, l) out -> StronglySorted dateLe l).
Proof.
  unfold groupEmailsIntoThreads.
  pose proof (assignThreads_inv emails) as Hassign.
  destruct (assignThreads emails) as [threads mid]. simpl in Hassign.
  pose proof Hassign as (Hnd1 & Hperm1 & _).
  destruct (mergeByReply_spec threads mid Hnd1) as (merged & mm & -> & Hnd2 & Hperm2 & Hkeep2).
  simpl.
  destruct (mergeBySubject_spec merged Hnd2) as (final & -> & Hnd3 & Hperm3 & Hkeep3).
  simpl. eexists. split; [reflexivity|]. split; [|split; [|split]].
  - now rewrite keys_sortThreads.
  - rewrite concat_sortThreads. now rewrite Hperm3, Hperm2.
  - intros e1 e2 H1 H2 Heq.
    pose proof (assign_same_seed emails threads e1 e2 Hassign H1 H2 Heq) as Hco.
    apply (CoThreaded_regroup _ _ _ _ Hkeep2) in Hco.
    apply (CoThreaded_regroup _ _ _ _ Hkeep3) in Hco.
    destruct Hco as (k & l & Hin & Hl1 & Hl2).
    exists k, (sortByDate l). split; [apply In_sortThreads; eauto|].
    split; apply (Permutation_in _ (Permutation_sym (sortByDate_perm l))); assumption.
  - intros k l Hin. apply In_sortThreads in Hin as (l0 & _ & ->).
    apply sortByDate_sorted.
Qed.

End ThreaderFacts.

(** ** Claims about the threader *)

Import JsMap Threader ThreaderInv ThreaderFacts ThreaderSamples.

Lemma groupEmailsIntoThreads_total emails :
  exists out, groupEmailsIntoThreads emails = Some out.
Proof.
  destruct (groupEmailsIntoThreads_spec emails) as (out & H & _). eauto.
Qed.

(** The stranded reply: processed newest first, [third] is merged into the
    thread of [second] before that thread is itself merged into the thread
    of [first], and stays behind under the old key. *)
Example reply_chain_oldest_first :
  groupEmailsIntoThreads [first; second; third]
  = Some [("<m1>", [first; second; third])].
Proof. vm_compute. reflexivity. Qed.

Example reply_chain_newest_first :
  groupEmailsIntoThreads [third; second; first]
  = Some [("<r2>", [third]); ("<m1>", [first; second])].
Proof. vm_compute. reflexivity. Qed.

Example mutual_references_end :
  groupEmailsIntoThreads [ping; pong; selfRef]
  = Some [("<x2>", [ping; pong]); ("<s1>", [selfRef])].
Proof. vm_compute. reflexivity. Qed.

(** C1, as stated, fails: the third pass reads the subject of the email that
    arrived first in each thread, so [arrival1] and [arrival2], two orders of
    the same three emails, are partitioned differently. *)
Lemma C1_partition_depends_on_arrival_order :
  Permutation arrival1 arrival2 /\
  exists o1 o2,
    groupEmailsIntoThreads arrival1 = Some o1 /\
    groupEmailsIntoThreads arrival2 = Some o2 /\
    ~ SamePartition o1 o2.
Proof.
  split; [apply perm_swap|].
  exists [("<root@acme.example>", [rfq; poReply]); ("<a3@acme.example>", [poLone])],
         [("<root@acme.example>", [rfq; poReply; poLone])].
  split; [vm_compute; reflexivity|]. split; [vm_compute; reflexivity|].
  intros Hsame.
  assert (Hco : CoThreaded [("<root@acme.example>", [rfq; poReply; poLone])] rfq poLone).
  { exists "<root@acme.example>", [rfq; poReply; poLone]. simpl. tauto. }
  apply Hsame in Hco. destruct Hco as (k & l & Hin & H1 & H2).
  simpl in Hin. destruct Hin as [Hin|[Hin|[]]]; inversion Hin; subst l; simpl in H1, H2.
  - destruct H2 as [H2|[H2|[]]]; discriminate H2.
  - destruct H1 as [H1|[]]; discriminate H1.
Qed.

(** C1 (corrected): for every two arrival orders of the same emails the
    grouping returns, files every email in exactly one thread (the threads
    together hold the same emails in both runs), and keeps the emails with
    the same seed thread id together in both runs.  Which seed groups the
    In-Reply-To and subject passes merge depends on the arrival order. *)
Theorem C1_seed_groups_independent_of_order (l1 l2 : list Email) :
  Permutation l1 l2 ->
  exists o1 o2,
    groupEmailsIntoThreads l1 = Some o1 /\
    groupEmailsIntoThreads l2 = Some o2 /\
    Permutation (concat (values o1)) l1 /\
    Permutation (concat (values o2)) l1 /\
    (forall e1 e2, In e1 l1 -> In e2 l1 -> threadIdOf e1 = threadIdOf e2 ->
                   CoThreaded o1 e1 e2 /\ CoThreaded o2 e1 e2).
Proof.
  intros Hperm.
  destruct (groupEmailsIntoThreads_spec l1) as (o1 & Ho1 & _ & Hp1 & Hseed1 & _).
  destruct (groupEmailsIntoThreads_spec l2) as (o2 & Ho2 & _ & Hp2 & Hseed2 & _).
  exists o1, o2. split; [exact Ho1|]. split; [exact Ho2|]. split; [exact Hp1|].
  split; [now rewrite Hp2|].
  intros e1 e2 H1 H2 Heq. split; [now apply Hseed1|].
  apply Hseed2; [| |exact Heq]; apply (Permutation_in _ Hperm); assumption.
Qed.

Lemma C1_seed_groups_witness :
  Permutation arrival1 arrival2 /\
  exists o1 o2,
    groupEmailsIntoThreads arrival1 = Some o1 /\
    groupEmailsIntoThreads arrival2 = Some o2 /\
    Permutation (concat (values o1)) arrival1 /\
    Permutation (concat (values o2)) arrival1 /\
    (forall e1 e2, In e1 arrival1 -> In e2 arrival1 -> threadIdOf e1 = threadIdOf e2 ->
                   CoThreaded o1 e1 e2 /\ CoThreaded o2 e1 e2).
Proof.
  split; [apply perm_swap|].
  apply (C1_seed_groups_independent_of_order arrival1 arrival2). apply perm_swap.
Defined.

(** C9, as stated, fails: an email without a date sorts under the key 0, so
    it comes before, not after, the dated emails of its thread. *)
Lemma C9_undated_sorted_first :
  groupEmailsIntoThreads [dated; undated] = Some [("<droot>", [undated; dated])] /\
  ~ OrderedUndatedLast [undated; dated].
Proof.
  split; [vm_compute; reflexivity|].
  intros H. exact (H 0%nat 1%nat undated dated ltac:(lia) eq_refl eq_refl).
Qed.

(** C9 (corrected): the grouping returns, and the emails of every thread are
    in ascending order of [dateKey], the timestamp in milliseconds with 0
    standing in for a missing date: undated emails sort as the epoch, ahead
    of every email dated after it. *)
Theorem C9_threads_sorted_by_dateKey (emails : list Email) :
  exists out,
    groupEmailsIntoThreads emails = Some out /\
    forall k l, In (k, l) out -> StronglySorted dateLe l.
Proof.
  destruct (groupEmailsIntoThreads_spec emails) as (out & Hout & _ & _ & _ & Hsorted).
  eauto.
Qed.

Lemma C9_threads_sorted_witness :
  exists out,
    groupEmailsIntoThreads [dated; undated] = Some out /\
    forall k l, In (k, l) out -> StronglySorted dateLe l.
Proof. apply (C9_threads_sorted_by_dateKey [dated; undated]). Defined.

(** C10: the grouping returns on every list of emails, whatever their
    In-Reply-To and References headers say.  In the model each
    chain-following loop is cut off after as many rounds as its merge map has
    entries, so returning means that no loop needed more: the merge maps
    never hold a cycle. *)
Theorem C10_grouping_terminates (emails : list Email) :
  exists out, groupEmailsIntoThreads emails = Some out.
Proof. apply groupEmailsIntoThreads_total. Qed.

(** ** Facts and claims about the classification *)

Module CategorizerFacts.
Import CategorizerBase.

(** Every categorized thread comes out of the per-thread decision, taken on
    its own last email. *)
Lemma categorizeWith_In dom decide classify emails cts ct :
  categorizeWith dom decide classify emails = Some cts ->
  In ct cts ->
  exists firstEmail aiResult,
    let lastEmail := last (CategorizedThread.emails ct) in
    CategorizedThread.lastEmailFromUs ct = isOutboundOpt dom lastEmail /\
    (CategorizedThread.itemType ct, CategorizedThread.needsResponse ct)
    = decide firstEmail (CategorizedThread.category ct)
             (CategorizedThread.lastEmailFromUs ct) lastEmail aiResult.
Proof.
  unfold categorizeWith. intros Hrun Hin.
  destruct (Threader.groupEmailsIntoThreads emails) as [threadMap|]; [|discriminate].
  simpl in Hrun. inversion Hrun as [Hcts]. clear Hrun. subst cts.
  apply list_elem_of_In in Hin. apply list_elem_of_omap in Hin as (data & _ & Hdata).
  destruct (JsMap.has _ _); [discriminate|].
  destruct (ThreadData.threadEmails data) as [|firstEmail rest] eqn:Hemails; [discriminate|].
  inversion Hdata as [Hct]. clear Hdata.
  exists firstEmail, (JsMap.get (classify (omap (threadDataOf dom) threadMap))
                                (ThreadData.threadKey data)).
  unfold finishThread.
  destruct (decide _ _ _ _ _) as [itemType needsResponse] eqn:Hdecide.
  simpl. split; [reflexivity|]. now rewrite Hdecide.
Qed.

(** The same, with the classifier's answer for the thread named. *)
Lemma categorizeWith_answer dom decide classify emails cts ct :
  categorizeWith dom decide classify emails = Some cts ->
  In ct cts ->
  exists threadMap firstEmail,
    Threader.groupEmailsIntoThreads emails = Some threadMap /\
    (CategorizedThread.itemType ct, CategorizedThread.needsResponse ct)
    = decide firstEmail (CategorizedThread.category ct)
             (CategorizedThread.lastEmailFromUs ct)
             (last (CategorizedThread.emails ct))
             (JsMap.get (classify (omap (threadDataOf dom) threadMap))
                        (CategorizedThread.threadKey ct)).
Proof.
  unfold categorizeWith. intros Hrun Hin.
  destruct (Threader.groupEmailsIntoThreads emails) as [threadMap|]; [|discriminate].
  simpl in Hrun. inversion Hrun as [Hcts]. clear Hrun. subst cts.
  apply list_elem_of_In in Hin. apply list_elem_of_omap in Hin as (data & _ & Hdata).
  destruct (JsMap.has _ _); [discriminate|].
  destruct (ThreadData.threadEmails data) as [|firstEmail rest] eqn:Hemails; [discriminate|].
  inversion Hdata as [Hct]. clear Hdata.
  exists threadMap, firstEmail. split; [reflexivity|].
  unfold finishThread.
  destruct (decide _ _ _ _ _) as [itemType needsResponse] eqn:Hdecide.
  simpl. now rewrite Hdecide.
Qed.

End CategorizerFacts.

Import CategorizerSamples.

(** C5, as stated, fails: the acknowledgment is tested before the
    attachment.  The customer's "Thanks!" above a signature block, with the
    purchase order attached as a PDF, leaves the thread without a needed
    response. *)
Lemma C5_acknowledgment_checked_before_attachment :
  Categorizer.isSimpleAcknowledgment (bodyText ackWithPo) = true /\
  hasAttachments ackWithPo = true /\
  Categorizer.hasRealAttachments ackWithPo = true /\
  exists ct,
    Categorizer.categorizeThreads ourDomain noAnswers [ourQuote; ackWithPo] = Some [ct] /\
    last (CategorizedThread.emails ct) = Some ackWithPo /\
    CategorizedThread.lastEmailFromUs ct = false /\
    CategorizedThread.needsResponse ct = false.
Proof.
  split; [vm_compute; reflexivity|]. split; [reflexivity|].
  split; [vm_compute; reflexivity|].
  eexists. split; [vm_compute; reflexivity|].
  split; [reflexivity|]. split; reflexivity.
Qed.

(** C5 (corrected): a thread whose last email is inbound and is, before any
    signature block, nothing but an acknowledgment phrase gets
    needsResponse = false, whether or not that email carries a real
    attachment and whatever the classifier answered: the acknowledgment takes
    precedence over the attachment. *)
Theorem C5_acknowledgment_takes_precedence
    (dom : string) (classify : list ThreadData.t -> JsMap.t AiResult.t)
    (emails : list Email) (cts : list CategorizedThread.t) (ct : CategorizedThread.t) :
  Categorizer.categorizeThreads dom classify emails = Some cts ->
  In ct cts ->
  CategorizedThread.lastEmailFromUs ct = false ->
  Categorizer.isSimpleAcknowledgment (last (CategorizedThread.emails ct) ≫= bodyText) = true ->
  CategorizedThread.needsResponse ct = false.
Proof.
  intros Hrun Hin Hinbound Hack.
  destruct (CategorizerFacts.categorizeWith_In _ _ _ _ _ _ Hrun Hin)
    as (firstEmail & aiResult & _ & Hdecide).
  unfold Categorizer.decide in Hdecide.
  apply (f_equal snd) in Hdecide. simpl in Hdecide. rewrite Hdecide.
  unfold Categorizer.determineNeedsResponse.
  now rewrite Hinbound, Hack.
Qed.

Lemma C5_acknowledgment_precedence_witness :
  exists ct,
    Categorizer.categorizeThreads ourDomain noAnswers [ourQuote; ackWithPo] = Some [ct] /\
    In ct [ct] /\
    CategorizedThread.lastEmailFromUs ct = false /\
    Categorizer.isSimpleAcknowledgment (last (CategorizedThread.emails ct) ≫= bodyText) = true /\
    CategorizedThread.needsResponse ct = false.
Proof.
  eexists. split; [vm_compute; reflexivity|].
  split; [left; reflexivity|]. split; [reflexivity|]. split; [vm_compute; reflexivity|].
  eapply (C5_acknowledgment_takes_precedence ourDomain noAnswers [ourQuote; ackWithPo]).
  - vm_compute. reflexivity.
  - left. reflexivity.
  - reflexivity.
  - vm_compute. reflexivity.
Defined.

(** C6, as stated, fails on the revision that has the acknowledgment and
    attachment checks: it has no forcing step.  A customer's "Thanks!" under
    the subject "PO 12345" is typed po_received, its last email is inbound,
    and it needs no response. *)
Lemma C6_no_forcing_after_acknowledgment :
  exists ct,
    Categorizer.categorizeThreads ourDomain noAnswers [poThanks] = Some [ct] /\
    CategorizedThread.itemType ct = po_received /\
    CategorizedThread.lastEmailFromUs ct = false /\
    CategorizedThread.needsResponse ct = false.
Proof.
  eexists. split; [vm_compute; reflexivity|]. repeat split; reflexivity.
Qed.

(** C6 (corrected): in the revision with the safety nets, every thread typed
    po_received or quote_request whose last email is inbound comes out with
    needsResponse = true, whatever the classifier answered.  In the revision
    with the acknowledgment and attachment checks nothing is forced: a thread
    whose last email is inbound gets the outcome of those checks, false after
    a simple acknowledgment, true for a real attachment without one, and
    otherwise the classifier's answer, or true without one. *)
Theorem C6_response_forced_only_with_safety_nets
    (dom : string) (classify : list ThreadData.t -> JsMap.t AiResult.t)
    (emails : list Email) :
  (forall cts ct,
     CategorizerSafetyNets.categorizeThreads dom classify emails = Some cts ->
     In ct cts ->
     CategorizedThread.lastEmailFromUs ct = false ->
     CategorizedThread.itemType ct = po_received \/
     CategorizedThread.itemType ct = quote_request ->
     CategorizedThread.needsResponse ct = true) /\
  (forall cts ct,
     Categorizer.categorizeThreads dom classify emails = Some cts ->
     In ct cts ->
     CategorizedThread.lastEmailFromUs ct = false ->
     let lastEmail := last (CategorizedThread.emails ct) in
     exists threadMap,
       Threader.groupEmailsIntoThreads emails = Some threadMap /\
       let aiResult :=
         JsMap.get (classify (omap (CategorizerBase.threadDataOf dom) threadMap))
                   (CategorizedThread.threadKey ct) in
       CategorizedThread.needsResponse ct =
       if Categorizer.isSimpleAcknowledgment (lastEmail ≫= bodyText) then false
       else if match lastEmail with
               | Some e => hasAttachments e && Categorizer.hasRealAttachments e
               | None => false
               end then true
       else match aiResult with
            | Some r => AiResult.needsResponse r
            | None => true
            end).
Proof.
  split.
  - intros cts ct Hrun Hin Hinbound Htype.
    destruct (CategorizerFacts.categorizeWith_In _ _ _ _ _ _ Hrun Hin)
      as (firstEmail & aiResult & _ & Hdecide).
    unfold CategorizerSafetyNets.decide in Hdecide.
    pose proof (f_equal fst Hdecide) as Htype'. pose proof (f_equal snd Hdecide) as Hneeds.
    simpl in Htype', Hneeds. rewrite Hneeds, <- Htype'.
    unfold CategorizerSafetyNets.forceResponse. rewrite Hinbound.
    destruct Htype as [-> | ->]; reflexivity.
  - intros cts ct Hrun Hin Hinbound lastEmail.
    destruct (CategorizerFacts.categorizeWith_answer _ _ _ _ _ _ Hrun Hin)
      as (threadMap & firstEmail & Hgroup & Hdecide).
    exists threadMap. split; [exact Hgroup|]. cbv zeta.
    unfold Categorizer.decide in Hdecide.
    apply (f_equal snd) in Hdecide. simpl in Hdecide. rewrite Hdecide.
    unfold Categorizer.determineNeedsResponse. now rewrite Hinbound.
Qed.

Lemma C6_force_response_witness :
  exists ct,
    CategorizerSafetyNets.categorizeThreads ourDomain saysGeneral [poMail] = Some [ct] /\
    CategorizedThread.lastEmailFromUs ct = false /\
    CategorizedThread.itemType ct = po_received /\
    CategorizedThread.needsResponse ct = true.
Proof.
  eexists. split; [vm_compute; reflexivity|]. split; [reflexivity|]. split; [reflexivity|].
  eapply (proj1 (C6_response_forced_only_with_safety_nets ourDomain saysGeneral [poMail])).
  - vm_compute. reflexivity.
  - left. reflexivity.
  - reflexivity.
  - left. reflexivity.
Defined.

(** Three worked threads.  A request for quotation that we answered is a
    customer quote request that needs no response, also when the
    classifier is down or files it as general mail. *)
Example answered_rfq_needs_no_response :
  forall classify, In classify [noAnswers; saysGeneral] ->
  exists ct,
    CategorizerSafetyNets.categorizeThreads ourDomain classify [rfqMail; quoteReply]
      = Some [ct] /\
    CategorizedThread.category ct = customer /\
    CategorizedThread.itemType ct = quote_request /\
    CategorizedThread.lastEmailFromUs ct = true /\
    CategorizedThread.needsResponse ct = false.
Proof.
  intros classify [<-|[<-|[]]]; eexists; (split; [vm_compute; reflexivity|]);
    repeat split; reflexivity.
Qed.

(** A thread that we started is a vendor thread. *)
Example outbound_first_is_vendor :
  exists ct,
    CategorizerSafetyNets.categorizeThreads ourDomain noAnswers [vendorPo] = Some [ct] /\
    CategorizedThread.category ct = vendor /\
    CategorizedThread.needsResponse ct = false.
Proof. eexists. split; [vm_compute; reflexivity|]. split; reflexivity. Qed.

(** An inbound purchase order that the classifier files as general mail is
    turned into [po_received] by the subject pattern. *)
Example po_subject_overrides_general :
  exists ct,
    CategorizerSafetyNets.categorizeThreads ourDomain saysGeneral [poMail] = Some [ct] /\
    CategorizedThread.itemType ct = po_received /\
    CategorizedThread.needsResponse ct = true.
Proof. eexists. split; [vm_compute; reflexivity|]. split; reflexivity. Qed.

(** ** Facts and claims about the todo reconciliation *)

Module TodoSyncFacts.
Import TodoSync.

Lemma dedup_spec l :
  forall seen k, In k (dedup seen l) <-> In k l /\ k ∉ seen.
Proof.
  induction l as [|x l IH]; intros seen k; simpl; [tauto|].
  destruct (decide (x ∈ seen)) as [Hx|Hx].
  - rewrite IH. split; [tauto|]. intros [[->|H] Hk]; [contradiction | tauto].
  - simpl. rewrite IH, elem_of_union, elem_of_singleton.
    destruct (decide (x = k)) as [->|Hne]; intuition congruence.
Qed.

Lemma dedup_NoDup l : forall seen, NoDup (dedup seen l).
Proof.
  induction l as [|x l IH]; intros seen; simpl; [constructor|].
  destruct (decide (x ∈ seen)); [apply IH|].
  constructor; [|apply IH].
  intros H. apply list_elem_of_In, dedup_spec in H. destruct H as [_ H].
  apply H, elem_of_union. left. now apply elem_of_singleton.
Qed.

Lemma allThreadKeys_In threads todos k :
  In k (allThreadKeys threads todos) <->
  In k (map CategorizedThread.threadKey threads) \/ In k (map IdentifiedTodo.threadKey todos).
Proof.
  unfold allThreadKeys. rewrite dedup_spec, in_app_iff.
  split; [tauto|]. intros H. split; [exact H | apply not_elem_of_empty].
Qed.

(** A key of [threadsByKey] is the key of a thread of the batch. *)
Lemma threadsByKey_In threads k th :
  threadsByKey threads !! k = Some th -> In k (map CategorizedThread.threadKey threads).
Proof.
  unfold threadsByKey.
  assert (H : forall m : gmap string CategorizedThread.t,
    fold_left (fun m thread => <[CategorizedThread.threadKey thread := thread]> m) threads m
      !! k = Some th ->
    is_Some (m !! k) \/ In k (map CategorizedThread.threadKey threads)).
  { induction threads as [|t threads IH]; intros m Hm; simpl in *; [left; eauto|].
    destruct (IH _ Hm) as [[x Hx]|Hin]; [|tauto].
    destruct (decide (CategorizedThread.threadKey t = k)) as [->|Hne]; [tauto|].
    rewrite lookup_insert_ne in Hx by assumption. left. eauto. }
  intros Hk. destruct (H ∅ Hk) as [[x Hx]|Hin]; [|assumption].
  rewrite lookup_empty in Hx. discriminate.
Qed.

Section Step.
Variables (now : Z) (threads : gmap string CategorizedThread.t)
          (todos : gmap string IdentifiedTodo.t) (existing : gmap string DashTodo.t).

Local Abbreviation step := (syncKey now threads todos existing).

Lemma insertOnConflict_other row (rows : gmap string DashTodo.t) k :
  DashTodo.threadKey row <> k -> insertOnConflictDoNothing row rows !! k = rows !! k.
Proof.
  intros Hne. unfold insertOnConflictDoNothing.
  destruct (rows !! DashTodo.threadKey row); [reflexivity|].
  now rewrite lookup_insert_ne.
Qed.

Lemma syncKey_other st k k' :
  k <> k' -> dashTodos (fst (step st k)) !! k' = dashTodos (fst st) !! k'.
Proof.
  intros Hne. destruct st as [db result]. unfold syncKey.
  destruct (existing !! k) as [existingTodo|].
  - destruct (repliedWithoutNewTodo _ _ _); destruct (threads !! k); simpl;
      try reflexivity; now rewrite lookup_alter_ne.
  - destruct (todos !! k); [|reflexivity]. destruct (threads !! k); [|reflexivity].
    destruct (decide _); simpl; now rewrite insertOnConflict_other.
Qed.

Lemma syncKey_dismissed st k :
  dismissedThreads (fst (step st k)) = dismissedThreads (fst st).
Proof.
  destruct st as [db result]. unfold syncKey.
  destruct (existing !! k) as [existingTodo|].
  - destruct (repliedWithoutNewTodo _ _ _); destruct (threads !! k); reflexivity.
  - destruct (todos !! k); [|reflexivity]. destruct (threads !! k); [|reflexivity].
    destruct (decide _); reflexivity.
Qed.

(** What a round does to the row of its own key depends on that row and
    on the dismissed keys only. *)
Lemma syncKey_same st1 st2 k :
  dashTodos (fst st1) !! k = dashTodos (fst st2) !! k ->
  dismissedThreads (fst st1) = dismissedThreads (fst st2) ->
  dashTodos (fst (step st1 k)) !! k = dashTodos (fst (step st2 k)) !! k.
Proof.
  destruct st1 as [db1 r1], st2 as [db2 r2]. simpl. intros Hrow Hdis. unfold syncKey.
  destruct (existing !! k) as [existingTodo|].
  - destruct (repliedWithoutNewTodo _ _ _); destruct (threads !! k); simpl;
      try assumption; rewrite !lookup_alter_eq; now rewrite Hrow.
  - destruct (todos !! k); [|assumption]. destruct (threads !! k); [|assumption].
    rewrite Hdis.
    destruct (decide _); simpl; unfold insertOnConflictDoNothing; simpl;
      rewrite Hrow; destruct (dashTodos db2 !! k) eqn:E;
      rewrite ?lookup_insert_eq; congruence.
Qed.

Lemma fold_dismissed ks :
  forall st, dismissedThreads (fst (fold_left step ks st)) = dismissedThreads (fst st).
Proof.
  induction ks as [|k ks IH]; intros st; simpl; [reflexivity|].
  now rewrite IH, syncKey_dismissed.
Qed.

Lemma fold_other ks k :
  ~ In k ks ->
  forall st, dashTodos (fst (fold_left step ks st)) !! k = dashTodos (fst st) !! k.
Proof.
  induction ks as [|k1 ks IH]; intros Hnotin st; simpl; [reflexivity|].
  rewrite IH by (simpl in Hnotin; tauto).
  apply syncKey_other. simpl in Hnotin. tauto.
Qed.

(** The loop visits each key once: the row of [k] at the end is the row
    that the round of [k] leaves, started from the table as fetched. *)
Lemma fold_lookup ks k :
  NoDup ks -> In k ks ->
  forall st0 st,
    dashTodos (fst st) !! k = dashTodos (fst st0) !! k ->
    dismissedThreads (fst st) = dismissedThreads (fst st0) ->
    dashTodos (fst (fold_left step ks st)) !! k = dashTodos (fst (step st0 k)) !! k.
Proof.
  induction ks as [|k1 ks IH]; intros Hnd Hin st0 st Hrow Hdis; [destruct Hin|].
  apply NoDup_cons in Hnd as [Hnotin Hnd]. simpl.
  destruct (decide (k1 = k)) as [->|Hne].
  - rewrite fold_other by (intros H; apply Hnotin; now apply list_elem_of_In).
    now apply syncKey_same.
  - destruct Hin as [Heq|Hin]; [contradiction|].
    apply IH; auto.
    + now rewrite syncKey_other.
    + now rewrite syncKey_dismissed.
Qed.
End Step.

Lemma syncDashTodos_dismissed now threads todos db :
  dismissedThreads (fst (syncDashTodos now threads todos db)) = dismissedThreads db.
Proof. unfold syncDashTodos. now rewrite fold_dismissed. Qed.

(** The row of [k] after the pass. *)
Lemma syncDashTodos_lookup now threads todos db k :
  dashTodos (fst (syncDashTodos now threads todos db)) !! k =
  if bool_decide (k ∈ allThreadKeys threads todos) then
    dashTodos (fst (syncKey now (threadsByKey threads) (todosByThreadKey todos)
                            (dashTodos db)
                            (db, {| newTodos := 0; resolvedTodos := 0; updatedThreads := 0 |})
                            k)) !! k
  else dashTodos db !! k.
Proof.
  unfold syncDashTodos. case_bool_decide as Hin.
  - apply fold_lookup; auto; [apply dedup_NoDup | now apply list_elem_of_In].
  - rewrite fold_other; [reflexivity|]. intros H. apply Hin. now apply list_elem_of_In.
Qed.

End TodoSyncFacts.

Import TodoSync TodoSamples.

(** C4, as stated, fails: the pass looks at the last email only.  We answered
    the request (the reply is outbound and later than the todo's detection),
    the customer closed with "Thanks!", and the open todo stays open. *)
Lemma C4_trailing_thanks_leaves_todo_open :
  CategorizedThread.emails threadAfterThanks = [rfqMail; quoteReply; closingThanks] /\
  repliedAfterDetection ourDomain rfqTodo threadAfterThanks = true /\
  dashTodos dbWithRfqTodo !! rfqKey = Some rfqTodo /\
  DashTodo.status rfqTodo = st_open /\
  exists row,
    dashTodos (fst (syncDashTodos 5000 [threadAfterThanks] [] dbWithRfqTodo)) !! rfqKey
    = Some row /\
    DashTodo.status row = st_open /\
    DashTodo.resolvedBy row = None.
Proof.
  split; [vm_compute; reflexivity|]. split; [vm_compute; reflexivity|].
  split; [vm_compute; reflexivity|]. split; [reflexivity|].
  eexists. split; [vm_compute; reflexivity|]. split; reflexivity.
Qed.

(** C4 (corrected): an open todo is resolved with resolvedBy = email_activity
    exactly when the batch holds its thread, the last email of that thread is
    from us, and no todo was identified for the thread; in every other case
    the pass leaves it open.  An outbound email that is followed by an
    inbound one does not resolve it. *)
Theorem C4_open_todo_resolved_when_last_email_from_us
    (now : Z) (threads : list CategorizedThread.t) (todos : list IdentifiedTodo.t)
    (db : Db) (k : string) (row : DashTodo.t) :
  dashTodos db !! k = Some row ->
  DashTodo.status row = st_open ->
  exists row',
    dashTodos (fst (syncDashTodos now threads todos db)) !! k = Some row' /\
    if repliedWithoutNewTodo row (threadsByKey threads !! k) (todosByThreadKey todos !! k)
    then DashTodo.status row' = st_resolved /\
         DashTodo.resolvedBy row' = Some by_email_activity /\
         DashTodo.resolvedAt row' = Some now
    else DashTodo.status row' = st_open.
Proof.
  intros Hrow Hopen. rewrite TodoSyncFacts.syncDashTodos_lookup.
  case_bool_decide as Hin.
  - unfold syncKey. rewrite Hrow.
    destruct (repliedWithoutNewTodo row _ _) eqn:Hreplied.
    + destruct (threadsByKey threads !! k) as [th|] eqn:Hth.
      * simpl. rewrite lookup_alter_eq, Hrow. simpl. eauto.
      * unfold repliedWithoutNewTodo in Hreplied. rewrite andb_false_r in Hreplied.
        discriminate.
    + destruct (threadsByKey threads !! k) as [th|] eqn:Hth.
      * simpl. rewrite lookup_alter_eq, Hrow. simpl. eauto.
      * simpl. eauto.
  - destruct (repliedWithoutNewTodo row _ _) eqn:Hreplied; [|eauto].
    exfalso. apply Hin. apply list_elem_of_In, TodoSyncFacts.allThreadKeys_In. left.
    unfold repliedWithoutNewTodo in Hreplied.
    destruct (threadsByKey threads !! k) as [th|] eqn:Hth.
    + now apply (TodoSyncFacts.threadsByKey_In threads k th).
    + rewrite andb_false_r in Hreplied. discriminate.
Qed.

Lemma C4_open_todo_witness :
  dashTodos dbWithRfqTodo !! rfqKey = Some rfqTodo /\
  DashTodo.status rfqTodo = st_open /\
  exists row',
    dashTodos (fst (syncDashTodos 5000 [threadAfterReply] [] dbWithRfqTodo)) !! rfqKey
    = Some row' /\
    if repliedWithoutNewTodo rfqTodo (threadsByKey [threadAfterReply] !! rfqKey)
                             (todosByThreadKey [] !! rfqKey)
    then DashTodo.status row' = st_resolved /\
         DashTodo.resolvedBy row' = Some by_email_activity /\
         DashTodo.resolvedAt row' = Some 5000
    else DashTodo.status row' = st_open.
Proof.
  split; [vm_compute; reflexivity|]. split; [reflexivity|].
  apply (C4_open_todo_resolved_when_last_email_from_us
           5000 [threadAfterReply] [] dbWithRfqTodo rfqKey rfqTodo).
  - vm_compute. reflexivity.
  - reflexivity.
Defined.

(** C7: the pass never opens a todo for a dismissed thread key.  The key
    stays dismissed; where it had no row, the pass leaves none or files the
    new one as dismissed (the dismissed keys are read before the insert);
    and a row that is open afterwards was open before. *)
Theorem C7_dismissed_key_gets_no_open_todo
    (now : Z) (threads : list CategorizedThread.t) (todos : list IdentifiedTodo.t)
    (db : Db) (k : string) :
  k ∈ dismissedThreads db ->
  k ∈ dismissedThreads (fst (syncDashTodos now threads todos db)) /\
  (dashTodos db !! k = None ->
   forall row', dashTodos (fst (syncDashTodos now threads todos db)) !! k = Some row' ->
                DashTodo.status row' = st_dismissed) /\
  (forall row', dashTodos (fst (syncDashTodos now threads todos db)) !! k = Some row' ->
                DashTodo.status row' = st_open ->
                exists row, dashTodos db !! k = Some row /\ DashTodo.status row = st_open).
Proof.
  intros Hdis. split; [now rewrite TodoSyncFacts.syncDashTodos_dismissed|].
  rewrite TodoSyncFacts.syncDashTodos_lookup.
  case_bool_decide as Hin.
  - unfold syncKey. destruct (dashTodos db !! k) as [row|] eqn:Hrow.
    + split; [discriminate|]. intros row'.
      destruct (repliedWithoutNewTodo row _ _);
        destruct (threadsByKey threads !! k) as [th|]; simpl;
        rewrite ?lookup_alter_eq, Hrow; simpl; intros [= <-]; simpl; eauto; discriminate.
    + assert (Hnew : forall row',
        dashTodos (fst (match todosByThreadKey todos !! k, threadsByKey threads !! k with
                        | Some td, Some th =>
                            if decide (k ∈ dismissedThreads db) then
                              (withTodos db
                                 (insertOnConflictDoNothing (newRow now k th td true)
                                                            (dashTodos db)),
                               {| newTodos := 0; resolvedTodos := 0; updatedThreads := 0 |})
                            else
                              (withTodos db
                                 (insertOnConflictDoNothing (newRow now k th td false)
                                                            (dashTodos db)),
                               {| newTodos := 1; resolvedTodos := 0; updatedThreads := 0 |})
                        | _, _ =>
                            (db, {| newTodos := 0; resolvedTodos := 0; updatedThreads := 0 |})
                        end)) !! k = Some row' ->
        DashTodo.status row' = st_dismissed).
      { intros row'.
        destruct (todosByThreadKey todos !! k) as [td|]; [|simpl; congruence].
        destruct (threadsByKey threads !! k) as [th|]; [|simpl; congruence].
        destruct (decide (k ∈ dismissedThreads db)); [|contradiction].
        simpl. unfold insertOnConflictDoNothing. simpl. rewrite Hrow.
        rewrite lookup_insert_eq. intros [= <-]. reflexivity. }
      split; [intros _; exact Hnew|].
      intros row' Hrow' Hopen. apply Hnew in Hrow'. congruence.
  - split; [congruence|]. eauto.
Qed.

Lemma C7_dismissed_key_witness :
  (rfqKey ∈ dismissedThreads dbDismissed) /\
  (rfqKey ∈ dismissedThreads
     (fst (syncDashTodos 5000 [threadRfqOnly] [identifiedRfq] dbDismissed))) /\
  (dashTodos dbDismissed !! rfqKey = None ->
   forall row',
     dashTodos (fst (syncDashTodos 5000 [threadRfqOnly] [identifiedRfq] dbDismissed)) !! rfqKey
     = Some row' ->
     DashTodo.status row' = st_dismissed) /\
  (forall row',
     dashTodos (fst (syncDashTodos 5000 [threadRfqOnly] [identifiedRfq] dbDismissed)) !! rfqKey
     = Some row' ->
     DashTodo.status row' = st_open ->
     exists row, dashTodos dbDismissed !! rfqKey = Some row /\ DashTodo.status row = st_open).
Proof.
  split; [vm_compute; reflexivity|].
  apply (C7_dismissed_key_gets_no_open_todo 5000 [threadRfqOnly] [identifiedRfq]
           dbDismissed rfqKey).
  vm_compute. reflexivity.
Defined.

(** ** Facts and claims about the alert manager *)

(** ** Loops that stop at an exception *)

Module LoopFacts.

Lemma attempted_prefix {A : Type} (raises : A -> bool) (l : list A) :
  exists rest, l = attempted raises l ++ rest.
Proof.
  induction l as [|x l [rest IH]]; [now exists []|]. simpl.
  destruct (raises x); [now exists l|]. exists rest. simpl. now rewrite <- IH.
Qed.

Lemma attempted_In {A : Type} (raises : A -> bool) (l : list A) x :
  In x (attempted raises l) -> In x l.
Proof.
  destruct (attempted_prefix raises l) as [rest Hl]. intros Hin.
  rewrite Hl. apply in_app_iff. now left.
Qed.

Lemma attempted_app {A : Type} (raises : A -> bool) (before l : list A) :
  Forall (fun y => raises y = false) before ->
  attempted raises (before ++ l) = before ++ attempted raises l.
Proof.
  induction 1 as [|y before Hy _ IH]; [reflexivity|]. simpl. now rewrite Hy, IH.
Qed.

Lemma attempted_all {A : Type} (raises : A -> bool) (l : list A) :
  existsb raises l = false -> attempted raises l = l.
Proof.
  induction l as [|x l IH]; [reflexivity|]. simpl. intros H.
  apply orb_false_iff in H as [Hx Hl]. now rewrite Hx, IH.
Qed.

Lemma existsb_app_quiet {A : Type} (raises : A -> bool) (before l : list A) :
  Forall (fun y => raises y = false) before ->
  existsb raises (before ++ l) = existsb raises l.
Proof.
  induction 1 as [|y before Hy _ IH]; [reflexivity|]. simpl. now rewrite Hy, IH.
Qed.

Lemma existsb_false {A : Type} (raises : A -> bool) (l : list A) :
  existsb raises l = false -> forall x, In x l -> raises x = false.
Proof.
  intros Hnone x Hin. destruct (raises x) eqn:Hx; [|reflexivity].
  rewrite <- Hnone. symmetry. apply existsb_exists. eauto.
Qed.

Lemma NoDup_attempted {A B : Type} (raises : A -> bool) (f : A -> B) (l : list A) :
  NoDup (map f l) -> NoDup (map f (attempted raises l)).
Proof.
  destruct (attempted_prefix raises l) as [rest Hl]. intros Hnd.
  rewrite Hl, map_app in Hnd. now apply NoDup_app in Hnd as [Hnd _].
Qed.

(** When the element decides whether its round throws, the loop is a fold
    over the rounds that are run. *)
Lemma loopUntilRaise_attempted {S A : Type} (body : S -> A -> S * bool)
    (raises : A -> bool) (l : list A) :
  (forall s x, snd (body s x) = raises x) ->
  forall s,
    loopUntilRaise body l s
    = (fold_left (fun s x => fst (body s x)) (attempted raises l) s, existsb raises l).
Proof.
  intros Hraises. induction l as [|x l IH]; intros s; [reflexivity|]. simpl.
  specialize (Hraises s x). destruct (body s x) as [s' r]. simpl in Hraises. subst r.
  destruct (raises x); [reflexivity|]. simpl. apply IH.
Qed.

End LoopFacts.

Module AlertManagerFacts.
Import AlertManager LoopFacts.

(** Filtering the contributions of a batch of threads by a thread key. *)
Lemma flat_map_others {A : Type} (f : CategorizedThread.t -> list A)
    (P : A -> Prop) `{!forall a, Decision (P a)} (k : string) threads :
  (forall thread, CategorizedThread.threadKey thread <> k -> filter P (f thread) = []) ->
  ~ In k (map CategorizedThread.threadKey threads) ->
  filter P (flat_map f threads) = [].
Proof.
  intros Hother. induction threads as [|t threads IH]; intros Hnotin; [reflexivity|].
  simpl in *. rewrite filter_app, Hother, IH; tauto.
Qed.

(** With distinct thread keys, the alerts and calls of a key are those of
    its thread. *)
Lemma flat_map_own {A : Type} (f : CategorizedThread.t -> list A)
    (P : A -> Prop) `{!forall a, Decision (P a)} threads thread :
  (forall t, CategorizedThread.threadKey t <> CategorizedThread.threadKey thread ->
             filter P (f t) = []) ->
  NoDup (map CategorizedThread.threadKey threads) ->
  In thread threads ->
  filter P (flat_map f threads) = filter P (f thread).
Proof.
  intros Hother. induction threads as [|t threads IH]; intros Hnd Hin; [destruct Hin|].
  simpl in Hnd. apply NoDup_cons in Hnd as [Hnotin Hnd].
  simpl. rewrite filter_app. destruct Hin as [->|Hin].
  - rewrite (flat_map_others f P (CategorizedThread.threadKey thread) threads Hother).
    + now rewrite app_nil_r.
    + intros Hk. apply Hnotin. now apply list_elem_of_In.
  - rewrite IH by assumption. rewrite Hother; [reflexivity|].
    intros Heq. apply Hnotin. rewrite Heq.
    apply list_elem_of_In, in_map, Hin.
Qed.

Lemma filter_all {A : Type} (P : A -> Prop) `{!forall a, Decision (P a)} (l : list A) :
  Forall P l -> filter P l = l.
Proof.
  induction 1 as [|x l Hx _ IH]; [reflexivity|].
  rewrite filter_cons_True by exact Hx. now rewrite IH.
Qed.

Section WithLedger.
Variable OUR_DOMAIN : string.
Variable Docs : Type.
Variable isDomainTrusted : string -> bool.
Variable mentionsPdf : Email -> bool.
Variable analyzeEmailPdfs : Email -> option PoDetails.t.
Variable findMatchingSalesOrder : Docs -> option string -> option Z -> option QbDocument.t.
Variable findMatchingEstimate : Docs -> option string -> option Z -> option QbDocument.t.
Variable client : option (Ledger Docs).

Local Abbreviation stage1Alert :=
  (stage1Alert OUR_DOMAIN Docs isDomainTrusted mentionsPdf analyzeEmailPdfs
               findMatchingSalesOrder findMatchingEstimate client).
Local Abbreviation analyzeThread :=
  (analyzeThread OUR_DOMAIN Docs isDomainTrusted mentionsPdf analyzeEmailPdfs
                 findMatchingSalesOrder findMatchingEstimate client).
Local Abbreviation callsFor :=
  (callsFor OUR_DOMAIN Docs isDomainTrusted mentionsPdf analyzeEmailPdfs
            findMatchingSalesOrder findMatchingEstimate client).
Local Abbreviation stage1Raises :=
  (stage1Raises OUR_DOMAIN Docs isDomainTrusted mentionsPdf analyzeEmailPdfs
                findMatchingSalesOrder findMatchingEstimate client).
Local Abbreviation analyzeNewPoEmails :=
  (analyzeNewPoEmails OUR_DOMAIN Docs isDomainTrusted mentionsPdf analyzeEmailPdfs
                      findMatchingSalesOrder findMatchingEstimate client).

(** *** Stage 1 *)

Lemma withPoDetails_fixed d a :
  QbSyncAlert.threadKey (withPoDetails d a) = QbSyncAlert.threadKey a /\
  QbSyncAlert.status (withPoDetails d a) = QbSyncAlert.status a.
Proof. destruct d; split; reflexivity. Qed.

Lemma withEstimate_fixed e a :
  QbSyncAlert.threadKey (withEstimate e a) = QbSyncAlert.threadKey a /\
  QbSyncAlert.status (withEstimate e a) = QbSyncAlert.status a.
Proof. destruct e; split; reflexivity. Qed.

(** The alert of a thread carries its key and is open. *)
Lemma stage1Alert_spec now thread data :
  fst (stage1Alert now thread) = Replies data ->
  QbSyncAlert.threadKey data = CategorizedThread.threadKey thread /\
  QbSyncAlert.status data = st_open.
Proof.
  unfold AlertManager.stage1Alert.
  set (base := baseAlert now thread _).
  destruct (Js.truthy (Contact.email _)) as [email|];
    [|simpl; intros [= <-]; auto].
  destruct (isDomainTrusted email); [|simpl; intros [= <-]; auto].
  simpl negb. cbv iota.
  destruct (withPoDetails_fixed (extractPoDetails mentionsPdf analyzeEmailPdfs thread)
              base) as [Hk Hs].
  destruct client as [qb|]; [|simpl; intros [= <-]; simpl; auto].
  destruct (matchCustomer Docs qb email _) as [[m|]|];
    [|simpl; intros [= <-]; simpl; auto | discriminate].
  destruct (getCustomerJobDocuments Docs qb _) as [docs|]; [|discriminate].
  destruct (findMatchingSalesOrder _ _ _) as [so|]; simpl; intros [= <-]; simpl;
    [auto|].
  destruct (withEstimate_fixed
              (findMatchingEstimate docs
                 (extractPoDetails mentionsPdf analyzeEmailPdfs thread
                    ≫= (fun d => Js.truthy (PoDetails.poNumber d)))
                 (extractPoDetails mentionsPdf analyzeEmailPdfs thread
                    ≫= PoDetails.total))
              (withCustomer m
                 (withPoDetails (extractPoDetails mentionsPdf analyzeEmailPdfs thread)
                                base))) as [-> ->].
  simpl. auto.
Qed.

(** The ledger calls made for a thread are tagged with its key. *)
Lemma stage1Alert_calls now thread :
  Forall (fun c => callTag c = CategorizedThread.threadKey thread)
         (snd (stage1Alert now thread)).
Proof.
  unfold AlertManager.stage1Alert.
  destruct (Js.truthy (Contact.email _)) as [email|]; [|simpl; auto].
  destruct (isDomainTrusted email); [|simpl; auto]. simpl negb. cbv iota.
  destruct client as [qb|]; [|simpl; constructor].
  destruct (matchCustomer Docs qb email _) as [[m|]|];
    [|simpl; repeat constructor | simpl; repeat constructor].
  destruct (getCustomerJobDocuments Docs qb _) as [docs|];
    [|simpl; repeat constructor].
  destruct (findMatchingSalesOrder _ _ _) as [so|]; simpl; repeat constructor.
Qed.

Lemma callsFor_other now existing thread k :
  CategorizedThread.threadKey thread <> k ->
  filter (fun c => callTag c = k) (callsFor now existing thread) = [].
Proof.
  intros Hne. unfold AlertManager.callsFor. destruct (decide _); [reflexivity|].
  pose proof (stage1Alert_calls now thread) as Htags.
  induction Htags as [|c calls Hc _ IH]; [reflexivity|].
  rewrite filter_cons_False; [exact IH | congruence].
Qed.

Lemma analyzeThread_raises now existing st thread :
  snd (analyzeThread now existing st thread) = stage1Raises now existing thread.
Proof.
  unfold AlertManager.analyzeThread, AlertManager.stage1Raises.
  destruct (decide _) as [Hin|Hnew].
  - now rewrite bool_decide_eq_true_2.
  - rewrite bool_decide_eq_false_2 by exact Hnew.
    destruct (stage1Alert now thread) as [[data|] calls]; reflexivity.
Qed.

Lemma existingThreadKeys_spec db k :
  k ∈ existingThreadKeys db <->
  exists i a, rows db !! i = Some a /\ QbSyncAlert.threadKey a = k.
Proof.
  unfold existingThreadKeys. rewrite elem_of_list_to_set, list_elem_of_In, in_map_iff.
  split.
  - intros ([i a] & <- & Hin). exists i, a. split; [|reflexivity].
    apply elem_of_map_to_list. now apply list_elem_of_In.
  - intros (i & a & Hrow & <-). exists (i, a). split; [reflexivity|].
    apply list_elem_of_In. now apply elem_of_map_to_list.
Qed.

(** What a round does to the state. *)
Lemma analyzeThread_round now existing (st : Stage1) thread :
  let st' := fst (analyzeThread now existing st thread) in
  s1_calls st' = s1_calls st ++ callsFor now existing thread /\
  match fst (stage1Alert now thread) with
  | Replies data =>
      if decide (CategorizedThread.threadKey thread ∈ existing)
      then s1_db st' = s1_db st /\ newAlerts st' = newAlerts st
      else s1_db st' = {| rows := <[nextId (s1_db st) := data]> (rows (s1_db st));
                          nextId := S (nextId (s1_db st)) |} /\
           newAlerts st' = newAlerts st ++ [(nextId (s1_db st), data)]
  | Raises => s1_db st' = s1_db st /\ newAlerts st' = newAlerts st
  end.
Proof.
  unfold AlertManager.analyzeThread, AlertManager.callsFor.
  destruct (decide _) as [Hin|Hnew].
  - simpl. rewrite app_nil_r. split; [reflexivity|].
    destruct (fst (stage1Alert now thread)); auto.
  - destruct (stage1Alert now thread) as [[data|] calls]; simpl; auto.
Qed.

(** What a round keeps: the serial stays ahead, no row is lost, and a
    new row carries the key of the thread. *)
Lemma analyzeThread_inv now existing (st : Stage1) thread :
  AlertOps.SerialAhead (s1_db st) ->
  let st' := fst (analyzeThread now existing st thread) in
  AlertOps.SerialAhead (s1_db st') /\
  (forall i a, rows (s1_db st) !! i = Some a -> rows (s1_db st') !! i = Some a) /\
  (forall i a, rows (s1_db st') !! i = Some a ->
               rows (s1_db st) !! i = Some a \/
               QbSyncAlert.threadKey a = CategorizedThread.threadKey thread) /\
  (forall x, In x (newAlerts st) -> In x (newAlerts st')).
Proof.
  intros Hserial st'.
  destruct (analyzeThread_round now existing st thread) as [_ Hround]. fold st' in Hround.
  assert (Hsame : s1_db st' = s1_db st /\ newAlerts st' = newAlerts st ->
                  AlertOps.SerialAhead (s1_db st') /\
                  (forall i a, rows (s1_db st) !! i = Some a ->
                               rows (s1_db st') !! i = Some a) /\
                  (forall i a, rows (s1_db st') !! i = Some a ->
                               rows (s1_db st) !! i = Some a \/
                               QbSyncAlert.threadKey a
                               = CategorizedThread.threadKey thread) /\
                  (forall x, In x (newAlerts st) -> In x (newAlerts st'))).
  { intros [-> ->]. auto. }
  destruct (fst (stage1Alert now thread)) as [data|] eqn:Hdata; [|now apply Hsame].
  destruct (decide _) as [Hin|Hnew]; [now apply Hsame|].
  destruct Hround as [Hdb Hnews]. rewrite Hdb, Hnews. simpl.
  destruct (stage1Alert_spec now thread data Hdata) as [Hkey _].
  split; [|split; [|split]].
  - intros i a. simpl. intros Hrow.
    destruct (decide (i = nextId (s1_db st))) as [->|Hne]; [lia|].
    rewrite lookup_insert_ne in Hrow by congruence. apply Hserial in Hrow. lia.
  - intros i a Hrow. rewrite lookup_insert_ne; [exact Hrow|].
    intros <-. apply Hserial in Hrow. lia.
  - intros i a Hrow. destruct (decide (i = nextId (s1_db st))) as [->|Hne].
    + rewrite lookup_insert_eq in Hrow. injection Hrow as <-. now right.
    + rewrite lookup_insert_ne in Hrow by congruence. now left.
  - intros x Hx. apply in_app_iff. now left.
Qed.

Local Abbreviation round := (fun now existing st thread =>
                               fst (analyzeThread now existing st thread)).

Lemma analyzeFold_inv now existing threads :
  forall st : Stage1,
    AlertOps.SerialAhead (s1_db st) ->
    let st' := fold_left (round now existing) threads st in
    AlertOps.SerialAhead (s1_db st') /\
    (forall i a, rows (s1_db st) !! i = Some a -> rows (s1_db st') !! i = Some a) /\
    (forall i a, rows (s1_db st') !! i = Some a ->
                 rows (s1_db st) !! i = Some a \/
                 In (QbSyncAlert.threadKey a) (map CategorizedThread.threadKey threads)) /\
    (forall x, In x (newAlerts st) -> In x (newAlerts st')) /\
    s1_calls st' = s1_calls st ++ flat_map (callsFor now existing) threads.
Proof.
  induction threads as [|thread threads IH]; intros st Hserial.
  - simpl. rewrite app_nil_r. auto 6.
  - cbn [fold_left map flat_map].
    destruct (analyzeThread_inv now existing st thread Hserial)
      as (Hserial1 & Hkeep1 & Hnew1 & Hal1).
    destruct (analyzeThread_round now existing st thread) as [Hcalls1 _].
    destruct (IH _ Hserial1) as (Hserial2 & Hkeep2 & Hnew2 & Hal2 & Hcalls2).
    split; [exact Hserial2|]. split; [auto|]. split; [|split; [auto|]].
    + intros i a Hrow. destruct (Hnew2 i a Hrow) as [H|H]; [|right; now right].
      destruct (Hnew1 i a H) as [H'|H']; [now left|]. right. now left.
    + rewrite Hcalls2, Hcalls1. now rewrite <- app_assoc.
Qed.

(** The alerts that the run reports are rows of the table. *)
Lemma analyzeFold_listed now existing threads :
  forall st : Stage1,
    AlertOps.SerialAhead (s1_db st) ->
    (forall i a, In (i, a) (newAlerts st) -> rows (s1_db st) !! i = Some a) ->
    forall i a,
      In (i, a) (newAlerts (fold_left (round now existing) threads st)) ->
      rows (s1_db (fold_left (round now existing) threads st)) !! i = Some a.
Proof.
  induction threads as [|thread threads IH]; intros st Hserial Hlisted; [exact Hlisted|].
  cbn [fold_left].
  destruct (analyzeThread_inv now existing st thread Hserial) as (Hserial1 & _).
  apply IH; [exact Hserial1|].
  destruct (analyzeThread_round now existing st thread) as [_ Hround].
  assert (Hsame : s1_db (round now existing st thread) = s1_db st /\
                  newAlerts (round now existing st thread) = newAlerts st ->
                  forall i a,
                    In (i, a) (newAlerts (round now existing st thread)) ->
                    rows (s1_db (round now existing st thread)) !! i = Some a).
  { intros [-> ->]. exact Hlisted. }
  destruct (fst (stage1Alert now thread)) as [data|]; [|now apply Hsame].
  destruct (decide _); [now apply Hsame|].
  destruct Hround as [-> ->]. simpl. intros i a Hin.
  apply in_app_iff in Hin as [Hin|[[= <- <-]|[]]].
  - specialize (Hlisted i a Hin). rewrite lookup_insert_ne; [exact Hlisted|].
    intros <-. apply Hserial in Hlisted. lia.
  - apply lookup_insert_eq.
Qed.

(** The run as a fold over the threads whose round is run. *)
Lemma analyzeNewPoEmails_fold now threads db :
  analyzeNewPoEmails now threads db
  = (fold_left (round now (existingThreadKeys db))
               (attempted (stage1Raises now (existingThreadKeys db)) threads)
               {| s1_db := db; newAlerts := []; s1_calls := [] |},
     existsb (stage1Raises now (existingThreadKeys db)) threads).
Proof.
  unfold AlertManager.analyzeNewPoEmails.
  apply (loopUntilRaise_attempted
           (analyzeThread now (existingThreadKeys db))
           (stage1Raises now (existingThreadKeys db))).
  intros s x. apply analyzeThread_raises.
Qed.

(** The thread in the middle of a batch whose earlier rounds do not
    throw. *)
Lemma analyzeNewPoEmails_split now before thread after db :
  Forall (fun t => stage1Raises now (existingThreadKeys db) t = false) before ->
  exists rest tail,
    after = rest ++ tail /\
    (stage1Raises now (existingThreadKeys db) thread = true -> rest = []) /\
    analyzeNewPoEmails now (before ++ thread :: after) db
    = (fold_left (round now (existingThreadKeys db)) rest
         (round now (existingThreadKeys db)
            (fold_left (round now (existingThreadKeys db)) before
                       {| s1_db := db; newAlerts := []; s1_calls := [] |})
            thread),
       existsb (stage1Raises now (existingThreadKeys db)) (thread :: after)).
Proof.
  intros Hquiet. rewrite analyzeNewPoEmails_fold.
  rewrite (attempted_app _ before _ Hquiet), (existsb_app_quiet _ before _ Hquiet).
  cbn [attempted].
  destruct (attempted_prefix (stage1Raises now (existingThreadKeys db)) after)
    as [tail Htail].
  destruct (stage1Raises now (existingThreadKeys db) thread).
  - exists [], after. rewrite fold_left_app. auto.
  - exists (attempted (stage1Raises now (existingThreadKeys db)) after), tail.
    rewrite fold_left_app. split; [exact Htail|]. split; [discriminate | reflexivity].
Qed.

End WithLedger.

(** *** Stage 2 *)

Section Stage2.
Variable Docs : Type.
Variable findMatchingSalesOrder : Docs -> option string -> option Z -> option QbDocument.t.

Local Abbreviation checkEscalations := (checkEscalations Docs findMatchingSalesOrder).
Local Abbreviation afterEscalationCheck :=
  (afterEscalationCheck Docs findMatchingSalesOrder).
Local Abbreviation escalationStep := (escalationStep Docs findMatchingSalesOrder).
Local Abbreviation escalationChange := (escalationChange Docs findMatchingSalesOrder).
Local Abbreviation escalationRaises := (escalationRaises Docs findMatchingSalesOrder).
Local Abbreviation attemptedCandidates :=
  (attemptedCandidates Docs findMatchingSalesOrder).
Local Abbreviation round := (fun now qb st c => fst (escalationStep now qb st c)).

Lemma escalationStep_raises now qb st candidate :
  snd (escalationStep now qb st candidate) = escalationRaises qb candidate.
Proof.
  destruct candidate as [alertId alert].
  unfold AlertManager.escalationStep, AlertManager.escalationRaises. simpl.
  destruct (Js.truthy (QbSyncAlert.qbCustomerId alert)) as [customerId|]; [|reflexivity].
  destruct (salesOrderNow _ _ _ _ _) as [[so|]|]; reflexivity.
Qed.

Lemma escalationStep_rows now qb st alertId alert j :
  rows (s2_db (round now qb st (alertId, alert))) !! j
  = alter (escalationChange now qb alert) alertId (rows (s2_db st)) !! j.
Proof.
  unfold AlertManager.escalationStep, AlertManager.escalationChange.
  destruct (Js.truthy (QbSyncAlert.qbCustomerId alert)) as [customerId|]; [|reflexivity].
  destruct (salesOrderNow _ _ _ _ _) as [[so|]|]; try reflexivity.
  simpl. rewrite lookup_alter. case_decide; [subst|reflexivity].
  now destruct (rows (s2_db st) !! j).
Qed.

Lemma escalationStep_calls now qb st candidate :
  s2_calls (round now qb st candidate) = s2_calls st ++ escalationCalls candidate.
Proof.
  destruct candidate as [alertId alert].
  unfold AlertManager.escalationStep, AlertManager.escalationCalls.
  destruct (Js.truthy (QbSyncAlert.qbCustomerId alert)) as [customerId|];
    [|simpl; now rewrite app_nil_r].
  destruct (salesOrderNow _ _ _ _ _) as [[so|]|]; reflexivity.
Qed.

Lemma escalationFold_calls now qb candidates :
  forall st,
    s2_calls (fold_left (round now qb) candidates st)
    = s2_calls st ++ flat_map escalationCalls candidates.
Proof.
  induction candidates as [|c candidates IH]; intros st; cbn [fold_left flat_map].
  - now rewrite app_nil_r.
  - rewrite IH, escalationStep_calls. now rewrite <- app_assoc.
Qed.

Lemma escalationFold_other now qb candidates alertId :
  alertId ∉ candidates.*1 ->
  forall st,
    rows (s2_db (fold_left (round now qb) candidates st)) !! alertId
    = rows (s2_db st) !! alertId.
Proof.
  induction candidates as [|[i a] candidates IH]; intros Hnotin st; [reflexivity|].
  rewrite fmap_cons, not_elem_of_cons in Hnotin. destruct Hnotin as [Hne Hnotin].
  cbn [fold_left]. rewrite IH by assumption. rewrite escalationStep_rows.
  apply lookup_alter_ne. simpl in Hne. congruence.
Qed.

(** The loop visits each candidate once and changes its own row only. *)
Lemma escalationFold_own now qb candidates alertId alert :
  NoDup candidates.*1 ->
  (alertId, alert) ∈ candidates ->
  forall st,
    rows (s2_db st) !! alertId = Some alert ->
    rows (s2_db (fold_left (round now qb) candidates st)) !! alertId
    = Some (escalationChange now qb alert alert).
Proof.
  induction candidates as [|[i a] candidates IH]; intros Hnd Hin st Hrow.
  - inversion Hin.
  - rewrite fmap_cons in Hnd. apply NoDup_cons in Hnd as [Hnotin Hnd]. simpl in Hnotin.
    cbn [fold_left]. apply elem_of_cons in Hin as [Heq|Hin].
    + inversion Heq. subst i a.
      rewrite escalationFold_other by assumption.
      rewrite escalationStep_rows, lookup_alter_eq, Hrow. reflexivity.
    + assert (Hne : i <> alertId).
      { intros ->. apply Hnotin. apply list_elem_of_fmap. now exists (alertId, alert). }
      apply IH; auto.
      rewrite escalationStep_rows, lookup_alter_ne; assumption.
Qed.

Lemma candidateAlerts_spec now db alertId alert :
  (alertId, alert) ∈ candidateAlerts now db <->
  rows db !! alertId = Some alert /\ isCandidate now alert = true.
Proof.
  unfold candidateAlerts. rewrite list_elem_of_filter, elem_of_map_to_list. tauto.
Qed.

Lemma candidateAlerts_NoDup now db : NoDup (candidateAlerts now db).*1.
Proof.
  unfold candidateAlerts.
  pose proof (NoDup_fst_map_to_list (rows db)) as Hnd.
  induction (map_to_list (rows db)) as [|[i a] l IH]; [constructor|].
  rewrite fmap_cons in Hnd. apply NoDup_cons in Hnd as [Hnotin Hnd].
  rewrite filter_cons. destruct (decide _); [|auto].
  rewrite fmap_cons. apply NoDup_cons. split; [|auto].
  intros Hin. apply Hnotin. simpl in *.
  apply list_elem_of_fmap in Hin as ([j b] & -> & Hin).
  apply list_elem_of_filter in Hin as [_ Hin].
  apply list_elem_of_fmap. now exists (j, b).
Qed.

Lemma attemptedCandidates_NoDup now qb db : NoDup (attemptedCandidates now qb db).*1.
Proof. apply (NoDup_attempted _ fst), candidateAlerts_NoDup. Qed.

(** A row whose round is run is a candidate. *)
Lemma attemptedCandidates_row now qb db alertId alert :
  rows db !! alertId = Some alert ->
  alertId ∈ (attemptedCandidates now qb db).*1 ->
  (alertId, alert) ∈ attemptedCandidates now qb db /\ isCandidate now alert = true.
Proof.
  intros Hrow Hin. apply list_elem_of_fmap in Hin as ([j b] & Hj & Hin).
  simpl in Hj. subst j.
  assert (Hcand : (alertId, b) ∈ candidateAlerts now db).
  { apply list_elem_of_In in Hin. apply attempted_In in Hin.
    now apply list_elem_of_In. }
  apply candidateAlerts_spec in Hcand as [Hb Hc].
  assert (b = alert) by congruence. subst b. auto.
Qed.

(** The run as a fold over the candidates whose round is run. *)
Lemma checkEscalations_fold now db qb :
  checkEscalations (Some qb) now db
  = (fold_left (round now qb) (attemptedCandidates now qb db)
               {| s2_db := db; escalations := []; s2_calls := [] |},
     existsb (escalationRaises qb) (candidateAlerts now db)).
Proof.
  unfold AlertManager.checkEscalations, AlertManager.attemptedCandidates.
  destruct (candidateAlerts now db) as [|c cs] eqn:Hcands; [reflexivity|].
  apply (loopUntilRaise_attempted (escalationStep now qb) (escalationRaises qb)).
  intros s x. apply escalationStep_raises.
Qed.

Lemma checkEscalations_idle now db :
  checkEscalations None now db
  = ({| s2_db := db; escalations := []; s2_calls := [] |}, false).
Proof. unfold AlertManager.checkEscalations. now destruct (candidateAlerts now db). Qed.

(** Stage 2, row by row. *)
Lemma checkEscalations_lookup client now db alertId alert :
  rows db !! alertId = Some alert ->
  rows (s2_db (fst (checkEscalations client now db))) !! alertId
  = Some (afterEscalationCheck client now db alertId alert).
Proof.
  intros Hrow. unfold AlertManager.afterEscalationCheck.
  destruct client as [qb|]; [|now rewrite checkEscalations_idle].
  rewrite checkEscalations_fold. cbn [fst].
  case_bool_decide as Hin.
  - destruct (attemptedCandidates_row now qb db alertId alert Hrow Hin) as [Hmem _].
    apply escalationFold_own; [apply attemptedCandidates_NoDup | exact Hmem | exact Hrow].
  - now rewrite escalationFold_other.
Qed.

Lemma checkEscalations_calls_eq now db qb :
  s2_calls (fst (checkEscalations (Some qb) now db))
  = flat_map escalationCalls (attemptedCandidates now qb db).
Proof. rewrite checkEscalations_fold. cbn [fst]. now rewrite escalationFold_calls. Qed.

(** Every ledger call of stage 2 is made for a candidate that carries a
    customer id. *)
Lemma checkEscalations_calls_inv client now db c :
  In c (s2_calls (fst (checkEscalations client now db))) ->
  exists alertId customerId alert,
    c = GetDocuments alertId customerId /\
    rows db !! alertId = Some alert /\ isCandidate now alert = true /\
    Js.truthy (QbSyncAlert.qbCustomerId alert) = Some customerId.
Proof.
  destruct client as [qb|]; [|rewrite checkEscalations_idle; intros []].
  rewrite checkEscalations_calls_eq. intros Hin.
  apply in_flat_map in Hin as ([i a] & Hcand & Hcall).
  apply attempted_In, list_elem_of_In, candidateAlerts_spec in Hcand as [Hrow Hcand].
  unfold AlertManager.escalationCalls in Hcall.
  destruct (Js.truthy (QbSyncAlert.qbCustomerId a)) as [cid|] eqn:Hcid; [|destruct Hcall].
  destruct Hcall as [<-|[]]. eauto 8.
Qed.

Lemma escalationFold_nextId now qb candidates :
  forall st,
    nextId (s2_db (fold_left (round now qb) candidates st)) = nextId (s2_db st).
Proof.
  induction candidates as [|[i a] candidates IH]; intros st; [reflexivity|].
  cbn [fold_left]. rewrite IH. unfold AlertManager.escalationStep.
  destruct (Js.truthy (QbSyncAlert.qbCustomerId a)); [|reflexivity].
  destruct (salesOrderNow _ _ _ _ _) as [[so|]|]; reflexivity.
Qed.

Lemma checkEscalations_nextId client now db :
  nextId (s2_db (fst (checkEscalations client now db))) = nextId db.
Proof.
  destruct client as [qb|]; [|now rewrite checkEscalations_idle].
  rewrite checkEscalations_fold. cbn [fst].
  now rewrite escalationFold_nextId.
Qed.

Lemma checkEscalations_lookup_None client now db alertId :
  rows db !! alertId = None ->
  rows (s2_db (fst (checkEscalations client now db))) !! alertId = None.
Proof.
  intros Hrow.
  destruct client as [qb|]; [|now rewrite checkEscalations_idle].
  rewrite checkEscalations_fold. cbn [fst].
  rewrite escalationFold_other; [exact Hrow|].
  intros Hin. apply list_elem_of_fmap in Hin as ([j b] & Hj & Hin).
  simpl in Hj. subst j.
  apply list_elem_of_In, attempted_In, list_elem_of_In, candidateAlerts_spec
    in Hin as [Hb _].
  congruence.
Qed.

(** A row that is no candidate is left as it is. *)
Lemma afterEscalationCheck_idle client now db alertId alert :
  rows db !! alertId = Some alert ->
  isCandidate now alert = false ->
  afterEscalationCheck client now db alertId alert = alert.
Proof.
  intros Hrow Hnot. unfold AlertManager.afterEscalationCheck.
  destruct client as [qb|]; [|reflexivity].
  case_bool_decide as Hin; [|reflexivity].
  destruct (attemptedCandidates_row now qb db alertId alert Hrow Hin) as [_ Hc].
  congruence.
Qed.

(** *** Promotion is one-way *)

Variable client : option (Ledger Docs).

Local Abbreviation applyOp := (AlertOps.applyOp Docs findMatchingSalesOrder client).

Lemma applyOp_serial db op :
  AlertOps.SerialAhead db -> AlertOps.SerialAhead (applyOp db op).
Proof.
  intros Hserial i a. destruct op as [data|now alertId|now alertId by_|now alertId|now];
    simpl.
  - destruct (decide (nextId db = i)) as [<-|Hne].
    + intros _. lia.
    + rewrite lookup_insert_ne by assumption. intros H. apply Hserial in H. lia.
  - rewrite lookup_alter. case_decide; [subst|apply Hserial].
    destruct (rows db !! i) eqn:E; [|discriminate]. intros _. eapply Hserial; eauto.
  - rewrite lookup_alter. case_decide; [subst|apply Hserial].
    destruct (rows db !! i) eqn:E; [|discriminate]. intros _. eapply Hserial; eauto.
  - rewrite lookup_alter. case_decide; [subst|apply Hserial].
    destruct (rows db !! i) eqn:E; [|discriminate]. intros _. eapply Hserial; eauto.
  - rewrite checkEscalations_nextId.
    destruct (rows db !! i) eqn:E; [intros _; eapply Hserial; eauto|].
    rewrite checkEscalations_lookup_None by assumption. discriminate.
Qed.

Lemma applyOp_keeps_missing_so db op alertId a :
  AlertOps.SerialAhead db ->
  rows db !! alertId = Some a ->
  QbSyncAlert.alertType a = po_missing_so ->
  exists a', rows (applyOp db op) !! alertId = Some a' /\
             QbSyncAlert.alertType a' = po_missing_so.
Proof.
  intros Hserial Hrow Htype.
  destruct op as [data|now i|now i by_|now i|now]; simpl.
  - exists a. split; [|assumption].
    rewrite lookup_insert_ne; [assumption|]. apply Hserial in Hrow. lia.
  - rewrite lookup_alter. case_decide; [subst; rewrite Hrow|]; simpl; eauto.
  - rewrite lookup_alter. case_decide; [subst; rewrite Hrow|]; simpl; eauto.
  - rewrite lookup_alter. case_decide; [subst; rewrite Hrow|]; simpl; eauto.
  - rewrite (checkEscalations_lookup client now db alertId a Hrow).
    eexists. split; [reflexivity|].
    rewrite afterEscalationCheck_idle; [assumption | assumption|].
    unfold isCandidate. now rewrite Htype.
Qed.

(** Whatever the alert manager does afterwards, a po_missing_so alert
    remains one. *)
Lemma missing_so_never_demoted ops :
  forall db alertId a,
    AlertOps.SerialAhead db ->
    rows db !! alertId = Some a ->
    QbSyncAlert.alertType a = po_missing_so ->
    exists a', rows (fold_left applyOp ops db) !! alertId = Some a' /\
               QbSyncAlert.alertType a' = po_missing_so.
Proof.
  induction ops as [|op ops IH]; intros db alertId a Hserial Hrow Htype; simpl; [eauto|].
  destruct (applyOp_keeps_missing_so db op alertId a Hserial Hrow Htype)
    as (a1 & Hrow1 & Htype1).
  apply (IH _ alertId a1); auto using applyOp_serial.
Qed.

End Stage2.
End AlertManagerFacts.

Import AlertManager AlertSamples.




(** The outcomes of the order of checks, on the sample ledger: a sales order
    that carries the number read from the PDF; *)
Example stage1_with_sales_order :
  exists data,
    stage1Alert CategorizerSamples.ourDomain SampleDocs trustAcme namesPdf readsPo4471
                sameReference noEstimate (Some acmeLedger) 1000 poThreadWithPdf
    = (Replies data,
       [MatchCustomer (CategorizedThread.threadKey poThreadWithPdf) "buyer@acme.example";
        GetDocuments (CategorizedThread.threadKey poThreadWithPdf) "C-1"]) /\
    QbSyncAlert.alertType data = po_detected_with_so /\
    QbSyncAlert.poNumber data = Some "4471".
Proof. eexists. split; [vm_compute; reflexivity|]. split; reflexivity. Qed.

(** a thread without a PDF, whose purchase order is therefore not read; *)
Example stage1_without_pdf :
  extractPoDetails namesPdf readsPo4471 poThread = None /\
  exists data,
    fst (stage1Alert CategorizerSamples.ourDomain SampleDocs trustAcme namesPdf readsPo4471
                     sameReference noEstimate (Some acmeLedger) 1000 poThread)
    = Replies data /\
    QbSyncAlert.alertType data = po_detected /\
    QbSyncAlert.poNumber data = None.
Proof.
  split; [vm_compute; reflexivity|].
  eexists. split; [vm_compute; reflexivity|]. split; reflexivity.
Qed.

(** an untrusted sender; *)
Example stage1_untrusted_sender :
  stage1Alert CategorizerSamples.ourDomain SampleDocs (fun _ => false) namesPdf readsPo4471
              sameReference noEstimate (Some acmeLedger) 1000 poThreadWithPdf
  = (Replies
       (withType suspicious_po_email
          (baseAlert 1000 poThreadWithPdf
             (CategorizerBase.getExternalContact CategorizerSamples.ourDomain
                (CategorizedThread.emails poThreadWithPdf)))), []).
Proof. vm_compute. reflexivity. Qed.

(** and a ledger client that could not be set up. *)
Example stage1_ledger_down :
  exists data,
    stage1Alert CategorizerSamples.ourDomain SampleDocs trustAcme namesPdf readsPo4471
                sameReference noEstimate None 1000 poThreadWithPdf
    = (Replies data, []) /\
    QbSyncAlert.alertType data = po_detected.
Proof. eexists. split; [vm_compute; reflexivity | reflexivity]. Qed.




(** At exactly four hours nothing happens yet: the candidate query asks for
    alerts detected strictly before the cutoff. *)
Example at_four_hours_not_yet :
  rows (s2_db (fst (checkEscalations SampleDocs sameReference (Some acmeLedger)
                      (4 * 60 * 60 * 1000) dbAcme))) !! 1%nat
  = Some pendingAcme.
Proof. vm_compute. reflexivity. Qed.

(** When the ledger does not answer, the fetch throws: the run ends and the
    alert waits. *)
Example fetch_times_out :
  checkEscalations SampleDocs sameReference (Some ledgerTimesOut) fiveHours dbAcme
  = ({| s2_db := dbAcme; escalations := []; s2_calls := [GetDocuments 1%nat "C-1"] |},
     true).
Proof. vm_compute. reflexivity. Qed.

Import JobsReport.

(** C8, as stated, fails on a first run.  Without a checkpoint the window
    starts two hours before the clock of the run.  When the dispatch of the
    ten o'clock run throws, no checkpoint is written, and the run of eleven
    o'clock starts its window at nine: the hour from eight to nine, which the
    failed run covered, is not looked at again. *)
Lemma C8_first_run_window_not_reprocessed :
  getLastJobCheckTime neverChecked = None /\
  hasContent (fst (findsOneAlert tenOClock (getHourlyWindow tenOClock neverChecked)
                                 neverChecked)) = true /\
  fst (runHourlyCheck smtpDown findsOneAlert false tenOClock neverChecked) = Threw /\
  getLastJobCheckTime (snd (runHourlyCheck smtpDown findsOneAlert false tenOClock
                                           neverChecked)) = None /\
  start (getHourlyWindow tenOClock neverChecked) = 8 * 60 * 60 * 1000 /\
  start (getHourlyWindow elevenOClock
           (snd (runHourlyCheck smtpDown findsOneAlert false tenOClock neverChecked)))
  = 9 * 60 * 60 * 1000.
Proof. repeat split; vm_compute; reflexivity. Qed.

(** C8 (corrected): in an hourly run whose alert check has activity to
    report, a failing dispatch makes the run throw and leaves the checkpoint
    as it was before the run, so the next run computes its window from the
    same checkpoint: where a checkpoint exists, the next window starts where
    the window of this run started; where none exists, it starts two hours
    (7 200 000 ms) before the clock of the next run, hence later than the
    window of this run whenever the next run is later.  The checkpoint
    differs after the run only when the dispatch succeeded (and the run is
    not a preview), and it is then the end of the window of this run.  The
    alert check itself does not write the checkpoint. *)
Theorem C8_checkpoint_advances_only_after_dispatch
    (sendReportEmail : Z -> AlertSummary -> bool)
    (syncAndCheck : Z -> TimeWindow -> State -> AlertSummary * State)
    (preview : bool) (now : Z) (st : State) :
  LeavesCheckpoint syncAndCheck ->
  let window := getHourlyWindow now st in
  let result := fst (syncAndCheck now window st) in
  hasContent result = true ->
  let out := fst (runHourlyCheck sendReportEmail syncAndCheck preview now st) in
  let st' := snd (runHourlyCheck sendReportEmail syncAndCheck preview now st) in
  (preview = false -> sendReportEmail now result = false ->
   out = Threw /\
   getLastJobCheckTime st' = getLastJobCheckTime st /\
   (forall later, getHourlyWindow later st' = getHourlyWindow later st) /\
   (forall later,
      end_ (getHourlyWindow later st') = later /\
      start (getHourlyWindow later st')
      = match getLastJobCheckTime st with
        | Some _ => start window
        | None => later - 7200000
        end) /\
   (getLastJobCheckTime st = None ->
    forall later, now < later -> start window < start (getHourlyWindow later st'))) /\
  (getLastJobCheckTime st' <> getLastJobCheckTime st ->
   preview = false /\ sendReportEmail now result = true) /\
  (preview = false -> sendReportEmail now result = true ->
   out = Returned /\ getLastJobCheckTime st' = Some (end_ window)).
Proof.
  intros Hframe window result Hcontent out st'. subst out st'. unfold runHourlyCheck.
  fold window. specialize (Hframe now window st). subst result.
  destruct (syncAndCheck now window st) as [result st1]. simpl in *.
  rewrite Hcontent. simpl.
  destruct preview; simpl.
  - split; [discriminate|]. split; [congruence | discriminate].
  - destruct (sendReportEmail now result); simpl.
    + split; [discriminate|]. split; [auto|]. intros _ _. split; [reflexivity|].
      unfold getLastJobCheckTime, saveJobCheckTime. simpl.
      destruct (syncMetadata st1 !! JOBS_CHECK_KEY) eqn:Hlast.
      * now rewrite lookup_alter_eq, Hlast.
      * now rewrite lookup_insert_eq.
    + split; [|split; [congruence | discriminate]].
      intros _ _. split; [reflexivity|]. split; [exact Hframe|]. split; [|split].
      * intros later. unfold getHourlyWindow. now rewrite Hframe.
      * intros later. split; [reflexivity|].
        subst window. unfold getHourlyWindow. simpl. rewrite Hframe.
        destruct (getLastJobCheckTime st); [reflexivity | lia].
      * intros Hnone later Hlater. subst window. unfold getHourlyWindow. simpl.
        rewrite Hframe, Hnone. lia.
Qed.

Lemma C8_checkpoint_witness :
  LeavesCheckpoint findsOneAlert /\
  hasContent (fst (findsOneAlert 12000 (getHourlyWindow 12000 checkedAtNine) checkedAtNine))
  = true /\
  fst (runHourlyCheck smtpDown findsOneAlert false 12000 checkedAtNine) = Threw /\
  getLastJobCheckTime (snd (runHourlyCheck smtpDown findsOneAlert false 12000 checkedAtNine))
  = Some 9000 /\
  getHourlyWindow 15000 (snd (runHourlyCheck smtpDown findsOneAlert false 12000
                                             checkedAtNine))
  = {| start := 9000; end_ := 15000 |} /\
  start (getHourlyWindow 12000 checkedAtNine) = 9000.
Proof.
  assert (Hframe : LeavesCheckpoint findsOneAlert).
  { intros now window st. unfold getLastJobCheckTime, findsOneAlert. simpl.
    now rewrite lookup_insert_ne. }
  split; [exact Hframe|]. split; [reflexivity|].
  destruct (C8_checkpoint_advances_only_after_dispatch smtpDown findsOneAlert false 12000
              checkedAtNine Hframe eq_refl) as (Hfail & _).
  destruct Hfail as (Hout & Hsame & Hwindow & _); [reflexivity | reflexivity |].
  split; [exact Hout|]. split; [rewrite Hsame; reflexivity|].
  split; [rewrite Hwindow; reflexivity | reflexivity].
Defined.

Example checkpoint_after_dispatch :
  getLastJobCheckTime (snd (runHourlyCheck smtpUp findsOneAlert false 12000 checkedAtNine))
  = Some 12000.
Proof. vm_compute. reflexivity. Qed.

(** With a checkpoint, the run after a failed dispatch takes up the window
    where the failed run started it. *)
Example retry_after_failed_dispatch :
  getHourlyWindow elevenOClock
    (snd (runHourlyCheck smtpDown findsOneAlert false tenOClock checkedAtNine))
  = {| start := 9000; end_ := elevenOClock |}.
Proof. vm_compute. reflexivity. Qed.

(** * Properties of the rest of the code *)

(** ** Strings *)

Module JsFacts.
Import Js JsInv.

Lemma chars_str l : chars (str l) = l.
Proof. apply list_ascii_of_string_of_list_ascii. Qed.

Lemma str_chars s : str (chars s) = s.
Proof. apply string_of_list_ascii_of_string. Qed.

Lemma truthy_Some o s : truthy o = Some s -> o = Some s /\ s <> EmptyString.
Proof.
  destruct o as [s0|]; simpl; [|discriminate].
  destruct (String.eqb_spec s0 EmptyString); [discriminate|].
  intros [= ->]. auto.
Qed.

Lemma truthy_None o : truthy o = None -> o = None \/ o = Some EmptyString.
Proof.
  destruct o as [s0|]; simpl; [|auto].
  destruct (String.eqb_spec s0 EmptyString); [subst; auto | discriminate].
Qed.

Lemma isSpace_lowerChar c : isSpace (lowerChar c) = isSpace c.
Proof. destruct c as [[] [] [] [] [] [] [] []]; vm_compute; reflexivity. Qed.

Lemma isUpper_lowerChar c : isUpper (lowerChar c) = false.
Proof. destruct c as [[] [] [] [] [] [] [] []]; vm_compute; reflexivity. Qed.

Lemma lowerChar_idem c : lowerChar (lowerChar c) = lowerChar c.
Proof. destruct c as [[] [] [] [] [] [] [] []]; vm_compute; reflexivity. Qed.

Lemma dropSpaces_map_lower l :
  dropSpaces (map lowerChar l) = map lowerChar (dropSpaces l).
Proof.
  induction l as [|c l IH]; simpl; [reflexivity|].
  rewrite isSpace_lowerChar. now destruct (isSpace c).
Qed.

Lemma trimChars_map_lower l :
  trimChars (map lowerChar l) = map lowerChar (trimChars l).
Proof.
  unfold trimChars.
  now rewrite dropSpaces_map_lower, <- map_rev, dropSpaces_map_lower, map_rev.
Qed.

Lemma dropSpaces_idem l : dropSpaces (dropSpaces l) = dropSpaces l.
Proof.
  induction l as [|c l IH]; simpl; [reflexivity|].
  destruct (isSpace c) eqn:E; [exact IH|]. simpl. now rewrite E.
Qed.

Lemma dropSpaces_Unspaced l : Unspaced (dropSpaces l).
Proof.
  induction l as [|c l IH]; simpl; [exact I|].
  destruct (isSpace c) eqn:E; [exact IH | exact E].
Qed.

Lemma Unspaced_dropSpaces l : Unspaced l -> dropSpaces l = l.
Proof. destruct l as [|c l]; simpl; [reflexivity|]. now intros ->. Qed.

Lemma dropSpaces_suffix l : exists sp, l = sp ++ dropSpaces l /\ Forall (fun c => isSpace c = true) sp.
Proof.
  induction l as [|c l (sp & Heq & Hsp)]; simpl.
  - exists []. split; [reflexivity | constructor].
  - destruct (isSpace c) eqn:E.
    + exists (c :: sp). split; [simpl; now f_equal | now constructor].
    + exists []. split; [reflexivity | constructor].
Qed.

Lemma dropSpaces_app_spaces sp l :
  Forall (fun c => isSpace c = true) sp -> dropSpaces (sp ++ l) = dropSpaces l.
Proof. induction 1 as [|c sp Hc _ IH]; simpl; [reflexivity|]. now rewrite Hc. Qed.

(** Dropping leading spaces keeps a non-space head at the other end. *)
Lemma Unspaced_rev_dropSpaces l :
  Unspaced (rev l) -> Unspaced (rev (dropSpaces l)).
Proof.
  destruct (dropSpaces_suffix l) as (sp & Heq & _).
  intros H. rewrite Heq, rev_app_distr in H.
  destruct (rev (dropSpaces l)) as [|c r]; [exact I|]. exact H.
Qed.

Lemma trimChars_idem l : trimChars (trimChars l) = trimChars l.
Proof.
  unfold trimChars.
  set (a := dropSpaces l). set (b := dropSpaces (rev a)).
  assert (Hb : Unspaced b) by apply dropSpaces_Unspaced.
  assert (Ha : Unspaced (rev b)).
  { subst b. apply Unspaced_rev_dropSpaces. rewrite rev_involutive.
    apply dropSpaces_Unspaced. }
  rewrite (Unspaced_dropSpaces (rev b) Ha), rev_involutive.
  now rewrite (Unspaced_dropSpaces b Hb).
Qed.

Lemma includesChars_nil l : includesChars [] l = true.
Proof. destruct l; reflexivity. Qed.

End JsFacts.

(** ** The threader: subjects, thread ids and the shape of the result *)

Module ThreaderShape.
Import Js JsInv JsFacts JsMap JsMapFacts Threader ThreaderInv ThreaderFacts.

Lemma chars_append a b : chars (a +:+ b) = chars a ++ chars b.
Proof. induction a as [|c a IH]; simpl; [reflexivity|]. f_equal. exact IH. Qed.

Lemma normalizeSubject_chars s :
  normalizeSubject (Some s)
  = str (map lowerChar (trimChars (stripTag (stripReplyPrefix (chars s))))).
Proof.
  unfold normalizeSubject. simpl. destruct (String.eqb_spec s EmptyString) as [->|_].
  - reflexivity.
  - unfold toLowerCase. now rewrite chars_str.
Qed.

Lemma stripReplyPrefix_prefixed p rest :
  In (toLowerCase p) ["re:"; "fwd:"; "fw:"] ->
  stripReplyPrefix (chars p ++ rest) = dropSpaces rest.
Proof.
  intros Hp. unfold toLowerCase in Hp.
  assert (Hc : In (map lowerChar (chars p)) [chars "re:"; chars "fwd:"; chars "fw:"]).
  { destruct Hp as [Hp|[Hp|[Hp|[]]]]; apply (f_equal chars) in Hp;
      rewrite chars_str in Hp; rewrite Hp; simpl; auto. }
  clear Hp. unfold stripReplyPrefix. rewrite map_app.
  destruct Hc as [Hc|[Hc|[Hc|[]]]]; rewrite <- Hc;
    destruct (chars p) as [|c1 [|c2 [|c3 [|c4 [|c5 l]]]]]; try discriminate Hc;
    reflexivity.
Qed.

Lemma pushAll_nonempty (m : JsMap.t (list Email)) k xs :
  xs <> [] -> NonEmptyThreads m -> NonEmptyThreads (pushAll m k xs).
Proof.
  intros Hxs Hm k' l' Hin.
  apply pushAll_inv in Hin as [Hin|[-> [(l & Hget & ->)| ->]]].
  - eauto.
  - intros H. apply app_eq_nil in H as [_ H]. contradiction.
  - exact Hxs.
Qed.

Section Pushes.
Context {T : Type}.
Variable proj : T -> JsMap.t (list Email).
Variable step : T -> string * list Email -> option T.
Hypothesis step_push :
  forall t k l t', step t (k, l) = Some t' ->
                   exists target, proj t' = pushAll (proj t) target l.

Lemma pushes_nonempty entries :
  forall t t', foldOpt step entries t = Some t' ->
               NonEmptyThreads entries -> NonEmptyThreads (proj t) ->
               NonEmptyThreads (proj t').
Proof.
  induction entries as [|[k l] entries IH]; intros t t' Hfold Hentries Ht.
  - simpl in Hfold. now inversion Hfold; subst.
  - simpl in Hfold. destruct (step t (k, l)) as [t1|] eqn:Hstep; [|discriminate].
    destruct (step_push _ _ _ _ Hstep) as (target & Hproj).
    apply (IH _ _ Hfold).
    + intros k0 l0 Hin. apply (Hentries k0 l0). now right.
    + rewrite Hproj. apply pushAll_nonempty; [|exact Ht].
      apply (Hentries k l). now left.
Qed.
End Pushes.

Lemma assignFold_nonempty emails :
  forall st, NonEmptyThreads (fst st) ->
             NonEmptyThreads (fst (fold_left assignStep emails st)).
Proof.
  induction emails as [|e emails IH]; intros [threads mid] H; [exact H|].
  simpl fold_left. apply IH. simpl. apply pushAll_nonempty; [discriminate | exact H].
Qed.

Lemma length_le_concat (m : JsMap.t (list Email)) :
  NonEmptyThreads m -> (length m <= length (concat (values m)))%nat.
Proof.
  induction m as [|[k l] m IH]; intros H; simpl; [lia|].
  rewrite length_app.
  assert (l <> []) by (apply (H k l); now left).
  assert (length m <= length (concat (values m)))%nat.
  { apply IH. intros k0 l0 Hin. apply (H k0 l0). now right. }
  destruct l; [contradiction | simpl; lia].
Qed.

Lemma groupEmailsIntoThreads_nonempty emails out :
  groupEmailsIntoThreads emails = Some out -> NonEmptyThreads out.
Proof.
  unfold groupEmailsIntoThreads.
  pose proof (assignFold_nonempty emails ([], [])) as Hassign.
  unfold assignThreads.
  destruct (fold_left assignStep emails ([], [])) as [threads mid]. simpl in Hassign.
  assert (H1 : NonEmptyThreads threads) by (apply Hassign; intros k l []).
  destruct (mergeByReply threads mid) as [[merged mm]|] eqn:Hmerge; [|discriminate].
  simpl. destruct (mergeBySubject merged) as [final|] eqn:Hsubj; [|discriminate].
  simpl. intros [= <-].
  assert (H2 : NonEmptyThreads merged).
  { apply (pushes_nonempty fst (mergeStep mid) (mergeStep_push mid) threads _ _ Hmerge H1).
    intros k l []. }
  assert (H3 : NonEmptyThreads final).
  { unfold mergeBySubject in Hsubj.
    destruct (fold_left subjectStep merged ([], [])) as [stt smm].
    apply (pushes_nonempty (fun t => t) (applyStep smm) (applyStep_push smm) merged _ _
             Hsubj H2).
    intros k l []. }
  intros k l Hin. apply In_sortThreads in Hin as (l0 & Hin & ->).
  intros Hnil. apply (H3 k l0 Hin).
  apply Permutation_nil. rewrite <- Hnil. apply sortByDate_perm.
Qed.

End ThreaderShape.

Import Js JsInv JsFacts ThreaderShape.

(** X1: whatever the subject, the normalized subject is in normal form:
    trimming it or lower-casing it again changes nothing. *)
Theorem X1_normalized_subject_is_trimmed_lower_case (subject : option string) :
  trim (normalizeSubject subject) = normalizeSubject subject /\
  toLowerCase (normalizeSubject subject) = normalizeSubject subject.
Proof.
  destruct subject as [s|]; [|split; reflexivity].
  rewrite normalizeSubject_chars. unfold trim, toLowerCase. rewrite !chars_str. split.
  - now rewrite trimChars_map_lower, trimChars_idem.
  - rewrite map_map. f_equal. apply map_ext. intros c. apply lowerChar_idem.
Qed.

(** A capital letter of the upper half of the one-byte range is folded
    like the others: code unit 201 becomes 233. *)
Example latin1_capital_is_folded :
  normalizeSubject (Some (String "201" "cole PLAN")) = String "233" "cole plan".
Proof. vm_compute. reflexivity. Qed.

(** X2: a reply or forward prefix in any letter case, followed by any white
    space, is dropped: when [s] starts neither with white space nor with a
    prefix of its own, the prefixed subject normalizes like [s].  Only one
    prefix is dropped (example [second_prefix_is_kept]). *)
Theorem X2_reply_prefix_is_dropped (p sp s : string) :
  In (toLowerCase p) ["re:"; "fwd:"; "fw:"] ->
  Forall (fun c => isSpace c = true) (chars sp) ->
  Unspaced (chars s) ->
  stripReplyPrefix (chars s) = chars s ->
  normalizeSubject (Some (p +:+ sp +:+ s)) = normalizeSubject (Some s).
Proof.
  intros Hp Hsp Hs Hnone.
  rewrite !normalizeSubject_chars, !chars_append.
  rewrite (stripReplyPrefix_prefixed p _ Hp), (dropSpaces_app_spaces _ _ Hsp).
  now rewrite (Unspaced_dropSpaces _ Hs), Hnone.
Qed.

Lemma X2_reply_prefix_witness :
  normalizeSubject (Some ("RE:" +:+ "  " +:+ "[acme] Quote for brackets"))
  = normalizeSubject (Some "[acme] Quote for brackets").
Proof.
  apply (X2_reply_prefix_is_dropped "RE:" "  " "[acme] Quote for brackets").
  - left. reflexivity.
  - repeat constructor.
  - reflexivity.
  - reflexivity.
Defined.

Example second_prefix_is_kept :
  normalizeSubject (Some "Re: Fwd: Quote for brackets") = "fwd: quote for brackets" /\
  normalizeSubject (Some "Quote for brackets") = "quote for brackets".
Proof. split; reflexivity. Qed.

(** X3: a thread id is never the empty string, whatever the headers. *)
Theorem X3_thread_id_is_not_empty (messageId inReplyTo references subject : option string) :
  (0 < String.length (generateThreadId messageId inReplyTo references subject))%nat.
Proof.
  assert (Hlen : forall s, s <> EmptyString -> (0 < String.length s)%nat).
  { intros [|c s] H; [contradiction | simpl; lia]. }
  assert (Htruthy : forall o s, truthy o = Some s -> (0 < String.length s)%nat).
  { intros o s H. now apply Hlen, (truthy_Some o). }
  assert (Hrest : (0 < String.length
                         match truthy inReplyTo with
                         | Some r => r
                         | None => match truthy messageId with
                                   | Some m => m
                                   | None => "subject:" +:+ normalizeSubject subject
                                   end
                         end)%nat).
  { destruct (truthy inReplyTo) as [r|] eqn:Hr; [now apply (Htruthy inReplyTo)|].
    destruct (truthy messageId) as [m|] eqn:Hm; [now apply (Htruthy messageId)|].
    simpl. lia. }
  unfold generateThreadId.
  destruct (truthy references) as [refs|] eqn:Hrefs; simpl; [|exact Hrest].
  unfold firstReference.
  destruct (takeToken (dropSpaces (chars refs))) as [|c tok] eqn:Htok; [exact Hrest|].
  simpl. lia.
Qed.

(** X4: the grouping returns a map whose keys are pairwise distinct and
    whose threads are never empty; so there are at most as many threads as
    emails, and none for no email. *)
Theorem X4_threads_are_distinct_and_not_empty (emails : list Email) :
  exists out,
    groupEmailsIntoThreads emails = Some out /\
    NoDup (JsMap.keys out) /\
    (forall k l, In (k, l) out -> l <> []) /\
    (length out <= length emails)%nat.
Proof.
  destruct (groupEmailsIntoThreads_spec emails) as (out & Hout & Hnd & Hperm & _).
  exists out. split; [exact Hout|]. split; [exact Hnd|].
  pose proof (groupEmailsIntoThreads_nonempty emails out Hout) as Hne.
  split; [exact Hne|].
  rewrite <- (Permutation_length Hperm). now apply length_le_concat.
Qed.

(** ** The external contact of a thread *)

Module ContactFacts.
Import CategorizerBase IdentifyCustomer.

Lemma toLowerCase_nonempty s : s <> EmptyString -> toLowerCase s <> EmptyString.
Proof. destruct s; [contradiction | discriminate]. Qed.

Lemma fromLower_truthy e from :
  truthy (fromAddress e) = Some from -> fromLower e = toLowerCase from.
Proof.
  intros H. apply truthy_Some in H as [Hfrom Hne]. unfold fromLower, orDefault.
  rewrite Hfrom. simpl.
  destruct (String.eqb_spec (toLowerCase from) EmptyString) as [E|_]; [|reflexivity].
  now apply toLowerCase_nonempty in E.
Qed.

Lemma inboundContact_Some dom emails c :
  inboundContact dom emails = Some c ->
  exists m from,
    In m emails /\ truthy (fromAddress m) = Some from /\ isOutbound dom m = false /\
    includes (toLowerCase from) dom = false /\
    c = {| Contact.email := Some from; Contact.name := truthy (fromName m) |}.
Proof.
  induction emails as [|m emails IH]; simpl; [discriminate|].
  destruct (truthy (fromAddress m)) as [from|] eqn:Hfrom.
  - destruct (isOutbound dom m) eqn:Hout; simpl.
    + intros H. destruct (IH H) as (m' & from' & Hin & Hrest). exists m', from'. tauto.
    + destruct (includes (toLowerCase from) dom) eqn:Hinc; simpl.
      * intros H. destruct (IH H) as (m' & from' & Hin & Hrest). exists m', from'. tauto.
      * intros [= <-]. exists m, from. tauto.
  - intros H. destruct (IH H) as (m' & from' & Hin & Hrest). exists m', from'. tauto.
Qed.

Lemma inboundContact_None dom emails m :
  inboundContact dom emails = None -> In m emails ->
  truthy (fromAddress m) <> None -> isOutbound dom m = true.
Proof.
  induction emails as [|m0 emails IH]; simpl; [intros _ []|].
  intros Hnone [<-|Hin] Hfrom.
  - destruct (truthy (fromAddress m0)) as [from|] eqn:E; [|contradiction].
    destruct (isOutbound dom m0) eqn:Hout; [reflexivity|]. simpl in Hnone.
    destruct (includes (toLowerCase from) dom) eqn:Hinc; [|discriminate].
    unfold isOutbound in Hout. rewrite (fromLower_truthy m0 from E), Hinc in Hout.
    discriminate.
  - apply IH; [|assumption|assumption].
    destruct (truthy (fromAddress m0)); [|assumption].
    destruct (negb (isOutbound dom m0) && negb (includes (toLowerCase s) dom));
      [discriminate | assumption].
Qed.

Lemma recipientContact_Some dom emails c :
  recipientContact dom emails = Some c ->
  exists m toList to,
    In m emails /\ isOutbound dom m = true /\ toAddresses m = Some toList /\
    In to toList /\ includes (toLowerCase to) dom = false /\
    c = {| Contact.email := Some to; Contact.name := None |}.
Proof.
  induction emails as [|m emails IH]; simpl; [discriminate|].
  destruct (toAddresses m) as [toList|] eqn:Hto.
  - destruct (isOutbound dom m) eqn:Hout.
    + destruct (firstExternal dom toList) as [to|] eqn:Hfirst.
      * intros [= <-]. apply find_some in Hfirst as [Hin Hext].
        apply negb_true_iff in Hext. exists m, toList, to. tauto.
      * intros H. destruct (IH H) as (m' & l' & to' & Hin & Hrest).
        exists m', l', to'. tauto.
    + intros H. destruct (IH H) as (m' & l' & to' & Hin & Hrest).
      exists m', l', to'. tauto.
  - intros H. destruct (IH H) as (m' & l' & to' & Hin & Hrest).
    exists m', l', to'. tauto.
Qed.

Lemma recipientContact_None dom emails m toList to :
  recipientContact dom emails = None -> In m emails ->
  isOutbound dom m = true -> toAddresses m = Some toList -> In to toList ->
  includes (toLowerCase to) dom = true.
Proof.
  induction emails as [|m0 emails IH]; simpl; [intros _ []|].
  intros Hnone [<-|Hin] Hout Hto Hmem.
  - rewrite Hto, Hout in Hnone.
    destruct (firstExternal dom toList) as [to'|] eqn:Hfirst; [discriminate|].
    pose proof (find_none _ _ Hfirst to Hmem) as H. simpl in H.
    now apply negb_false_iff in H.
  - apply IH; try assumption.
    destruct (toAddresses m0); [|assumption].
    destruct (isOutbound dom m0); [|assumption].
    destruct (firstExternal dom l); [discriminate | assumption].
Qed.

Lemma scan_Some dom emails c :
  scan dom emails = Some c ->
  includes (toLowerCase (email c)) dom = false /\
  exists m, In m emails /\
            ((mailbox m = "INBOX"%string /\ fromAddress m = Some (email c) /\
              name c = orDefault (fromName m) (email c)) \/
             ((mailbox m = "Sent"%string \/ mailbox m = "Sent Items"%string) /\
              name c = email c /\
              exists toList, toAddresses m = Some toList /\ In (email c) toList)).
Proof.
  induction emails as [|m emails IH]; simpl; [discriminate|].
  assert (Hrest : scan dom emails = Some c ->
                  includes (toLowerCase (email c)) dom = false /\
                  exists m0, (m = m0 \/ In m0 emails) /\
                    ((mailbox m0 = "INBOX"%string /\ fromAddress m0 = Some (email c) /\
                      name c = orDefault (fromName m0) (email c)) \/
                     ((mailbox m0 = "Sent"%string \/ mailbox m0 = "Sent Items"%string) /\
                      name c = email c /\
                      exists toList, toAddresses m0 = Some toList /\ In (email c) toList))).
  { intros H. destruct (IH H) as (H1 & m' & Hin & H2). split; [exact H1|].
    exists m'. split; [now right | exact H2]. }
  destruct (String.eqb_spec (mailbox m) "INBOX") as [Hbox|Hbox].
  - rewrite Hbox. simpl.
    destruct (truthy (fromAddress m)) as [from|] eqn:Hfrom; [|exact Hrest].
    destruct (includes (toLowerCase from) dom) eqn:Hinc; simpl; [exact Hrest|].
    intros [= <-]. simpl. split; [exact Hinc|]. exists m.
    apply truthy_Some in Hfrom as [Hfrom _]. split; [now left|]. left. auto.
  - assert (Hsent : String.eqb (mailbox m) "Sent" || String.eqb (mailbox m) "Sent Items"
                    = true ->
                    mailbox m = "Sent"%string \/ mailbox m = "Sent Items"%string).
    { intros H. apply orb_true_iff in H as [H|H]; apply String.eqb_eq in H; auto. }
    destruct (String.eqb (mailbox m) "Sent" || String.eqb (mailbox m) "Sent Items");
      [|exact Hrest].
    destruct (toAddresses m) as [toList|] eqn:Hto; [|exact Hrest].
    destruct (firstOutside dom toList) as [to|] eqn:Hfirst; simpl; [|exact Hrest].
    intros [= <-]. simpl. apply find_some in Hfirst as [Hin Hext].
    apply negb_true_iff in Hext. split; [exact Hext|]. exists m.
    split; [now left|]. right. split; [now apply Hsent|]. split; [reflexivity|]. eauto.
Qed.

End ContactFacts.

Import CategorizerBase CategorizerSamples.

(** X5: the external contact of a thread is never an address of our own
    domain; and when [getExternalContact] finds no address, every email of
    the thread that has a sender is outbound and every recipient of an
    outbound email is in our domain. *)
Theorem X5_external_contact_is_external (dom : string) (emails : list Email) :
  (forall e, Contact.email (getExternalContact dom emails) = Some e ->
             includes (toLowerCase e) dom = false) /\
  (Contact.email (getExternalContact dom emails) = None ->
   (forall m, In m emails -> truthy (fromAddress m) <> None -> isOutbound dom m = true) /\
   (forall m toList to, In m emails -> isOutbound dom m = true ->
                        toAddresses m = Some toList -> In to toList ->
                        includes (toLowerCase to) dom = true)).
Proof.
  unfold getExternalContact.
  destruct (inboundContact dom emails) as [c|] eqn:Hin.
  - apply ContactFacts.inboundContact_Some in Hin as (m & from & _ & _ & _ & Hext & ->).
    simpl. split; [|discriminate]. now intros e [= <-].
  - destruct (recipientContact dom emails) as [c|] eqn:Hrec.
    + apply ContactFacts.recipientContact_Some in Hrec
        as (m & toList & to & _ & _ & _ & _ & Hext & ->).
      simpl. split; [|discriminate]. now intros e [= <-].
    + simpl. split; [discriminate|]. intros _. split.
      * intros m. now apply ContactFacts.inboundContact_None.
      * intros m toList to. now apply ContactFacts.recipientContact_None.
Qed.

Lemma X5_external_contact_witness :
  Contact.email (getExternalContact ourDomain [ourQuote; ackWithPo])
  = Some "buyer@acme.example" /\
  includes (toLowerCase "buyer@acme.example") ourDomain = false.
Proof.
  split; [reflexivity|].
  apply (X5_external_contact_is_external ourDomain [ourQuote; ackWithPo]). reflexivity.
Defined.

(** X6: the customer that [identifyCustomer] names is never an address of
    our domain, whatever the letter case of the domain given, and is taken
    from the thread: the sender of an email in INBOX, under the sender's
    name or else the address, or a recipient of an email in Sent or Sent
    Items, under the address as name. *)
Theorem X6_identified_customer_is_external
    (emails : list Email) (ourDomain : string) (c : IdentifyCustomer.Customer) :
  IdentifyCustomer.identifyCustomer emails ourDomain = Some c ->
  includes (toLowerCase (IdentifyCustomer.email c)) (toLowerCase ourDomain) = false /\
  exists m, In m emails /\
            ((mailbox m = "INBOX"%string /\ fromAddress m = Some (IdentifyCustomer.email c) /\
              IdentifyCustomer.name c = orDefault (fromName m) (IdentifyCustomer.email c)) \/
             ((mailbox m = "Sent"%string \/ mailbox m = "Sent Items"%string) /\
              IdentifyCustomer.name c = IdentifyCustomer.email c /\
              exists toList, toAddresses m = Some toList /\
                             In (IdentifyCustomer.email c) toList)).
Proof. apply ContactFacts.scan_Some. Qed.

Lemma X6_identified_customer_witness :
  exists c,
    IdentifyCustomer.identifyCustomer [ourQuote; ackWithPo] "MasPrecisionParts.com" = Some c /\
    IdentifyCustomer.email c = "buyer@acme.example" /\
    includes (toLowerCase (IdentifyCustomer.email c)) (toLowerCase "MasPrecisionParts.com")
    = false.
Proof.
  eexists. split; [reflexivity|]. split; [reflexivity|].
  eapply (X6_identified_customer_is_external [ourQuote; ackWithPo] "MasPrecisionParts.com").
  reflexivity.
Defined.

(** ** Categorized threads *)

Module CategorizerShape.
Import JsMap JsMapFacts Threader ThreaderInv ThreaderFacts CategorizerMore.

Lemma threadDataOf_key dom entry data :
  threadDataOf dom entry = Some data ->
  ThreadData.threadKey data = fst entry /\ ThreadData.threadEmails data = snd entry /\
  snd entry <> [].
Proof.
  destruct entry as [k l]. unfold threadDataOf. destruct l as [|e l]; [discriminate|].
  intros [= <-]. simpl. repeat split. discriminate.
Qed.

Lemma NoDup_keys_omap {A B : Type} (f : A -> option B) (ka : A -> string)
    (kb : B -> string) (l : list A) :
  (forall a b, f a = Some b -> kb b = ka a) ->
  NoDup (map ka l) -> NoDup (map kb (omap f l)).
Proof.
  intros Hkey. induction l as [|a l IH]; simpl; [constructor|].
  intros Hnd. apply NoDup_cons in Hnd as [Hnot Hnd].
  destruct (f a) as [b|] eqn:Hf; simpl; [|auto].
  apply NoDup_cons. split; [|auto].
  rewrite (Hkey a b Hf). intros Hin. apply Hnot.
  apply list_elem_of_In in Hin. apply in_map_iff in Hin as (b' & Hb' & Hin).
  apply list_elem_of_In in Hin. apply list_elem_of_omap in Hin as (a' & Ha' & Hfa').
  rewrite (Hkey a' b' Hfa') in Hb'. rewrite <- Hb'.
  apply list_elem_of_In, in_map, list_elem_of_In, Ha'.
Qed.

Lemma sortByDate_nonempty l : l <> [] -> sortByDate l <> [].
Proof.
  intros Hl Hnil. apply Hl, Permutation_nil. rewrite <- Hnil. apply sortByDate_perm.
Qed.

(** What [categorizeThreads] returns, thread by thread: the fields that do
    not depend on the decision. *)
Lemma categorizeWith_shape dom decide classify emails cts :
  categorizeWith dom decide classify emails = Some cts ->
  NoDup (map CategorizedThread.threadKey cts) /\
  forall ct, In ct cts ->
    CategorizedThread.emails ct <> [] /\
    StronglySorted dateLe (CategorizedThread.emails ct) /\
    CategorizedThread.emailCount ct = length (CategorizedThread.emails ct) /\
    CategorizedThread.lastEmailDate ct = last (CategorizedThread.emails ct) ≫= date /\
    CategorizedThread.lastEmailFromUs ct
    = isOutboundOpt dom (last (CategorizedThread.emails ct)).
Proof.
  unfold categorizeWith. intros Hrun.
  destruct (groupEmailsIntoThreads_spec emails) as (out & Hout & Hnd & _).
  rewrite Hout in Hrun. simpl in Hrun. inversion Hrun as [Hcts]. clear Hrun.
  set (threadsData := omap (threadDataOf dom) out) in *.
  assert (HndData : NoDup (map ThreadData.threadKey threadsData)).
  { apply (NoDup_keys_omap (threadDataOf dom) fst); [|exact Hnd].
    intros a b Hab. now apply threadDataOf_key in Hab as [H _]. }
  split.
  - apply (NoDup_keys_omap _ ThreadData.threadKey); [|exact HndData].
    intros data ct Hct. destruct (has _ _); [discriminate|].
    destruct (ThreadData.threadEmails data); [discriminate|].
    inversion Hct. unfold finishThread. now destruct (decide _ _ _ _ _).
  - intros ct Hin. apply list_elem_of_In in Hin.
    apply list_elem_of_omap in Hin as (data & Hdata & Hct).
    destruct (has _ _); [discriminate|].
    destruct (ThreadData.threadEmails data) as [|firstEmail rest] eqn:Hemails;
      [discriminate|].
    inversion Hct as [Heq]. clear Hct. unfold finishThread.
    destruct (decide _ _ _ _ _) as [itemType needsResponse]. simpl.
    split; [|split; [apply sortByDate_sorted | repeat split]].
    unfold collectEmails. apply sortByDate_nonempty. rewrite Hemails. discriminate.
Qed.

(** *** The latest date *)

Lemma laterDate_fold emails :
  forall latest,
    let r := fold_left laterDate emails latest in
    (forall d, latest = Some d -> exists d', r = Some d' /\ d <= d') /\
    (forall e d, In e emails -> date e = Some d -> exists d', r = Some d' /\ d <= d') /\
    (forall d', r = Some d' -> latest = Some d' \/ exists e, In e emails /\ date e = Some d').
Proof.
  induction emails as [|e emails IH]; intros latest; simpl.
  - split; [|split].
    + intros d ->. exists d. split; [reflexivity | lia].
    + intros e d [].
    + auto.
  - destruct (IH (laterDate latest e)) as (H1 & H2 & H3).
    assert (Hstep : forall d, latest = Some d ->
                              exists d1, laterDate latest e = Some d1 /\ d <= d1).
    { intros d ->. unfold laterDate. destruct (date e) as [de|].
      - destruct (Z.ltb_spec d de); eexists; split; try reflexivity; lia.
      - exists d. split; [reflexivity | lia]. }
    assert (Hown : forall d, date e = Some d ->
                             exists d1, laterDate latest e = Some d1 /\ d <= d1).
    { intros d Hd. unfold laterDate. rewrite Hd. destruct latest as [l|].
      - destruct (Z.ltb_spec l d); eexists; split; try reflexivity; lia.
      - exists d. split; [reflexivity | lia]. }
    split; [|split].
    + intros d Hd. destruct (Hstep d Hd) as (d1 & Hd1 & Hle).
      destruct (H1 d1 Hd1) as (d' & Hr & Hle'). exists d'. split; [exact Hr | lia].
    + intros e0 d [<-|Hin] Hd.
      * destruct (Hown d Hd) as (d1 & Hd1 & Hle).
        destruct (H1 d1 Hd1) as (d' & Hr & Hle'). exists d'. split; [exact Hr | lia].
      * eauto.
    + intros d' Hr. destruct (H3 d' Hr) as [Hl|(e0 & Hin & Hd)]; [|eauto].
      unfold laterDate in Hl. destruct (date e) as [de|] eqn:Hde.
      * destruct latest as [l|].
        -- destruct (l <? de); [right; exists e; split; [now left | congruence] | now left].
        -- right. exists e. split; [now left | congruence].
      * now left.
Qed.

(** *** Counting *)

Lemma countFold dom emails :
  forall c,
    let r := fold_left (countStep dom) emails c in
    sent r = (sent c + length (List.filter (isOutbound dom) emails))%nat /\
    received r
    = (received c + length (List.filter (fun e => negb (isOutbound dom e)) emails))%nat.
Proof.
  induction emails as [|e emails IH]; intros c; simpl; [lia|].
  destruct (IH (countStep dom c e)) as [Hs Hr]. rewrite Hs, Hr.
  unfold countStep. destruct (isOutbound dom e); simpl; lia.
Qed.

Lemma filter_split_length {A : Type} (p : A -> bool) (l : list A) :
  (length (List.filter p l) + length (List.filter (fun x => negb (p x)) l))%nat = length l.
Proof. induction l as [|x l IH]; simpl; [reflexivity|]. destruct (p x); simpl; lia. Qed.

End CategorizerShape.

Import CategorizerMore.

(** X7: in both revisions of the categorizer a thread whose last email is
    from us never needs a response, whatever the classifier answered and
    whatever the subject says. *)
Theorem X7_no_response_needed_after_our_reply
    (dom : string) (classify : list ThreadData.t -> JsMap.t AiResult.t)
    (emails : list Email) (cts : list CategorizedThread.t) (ct : CategorizedThread.t) :
  Categorizer.categorizeThreads dom classify emails = Some cts \/
  CategorizerSafetyNets.categorizeThreads dom classify emails = Some cts ->
  In ct cts ->
  CategorizedThread.lastEmailFromUs ct = true ->
  CategorizedThread.needsResponse ct = false.
Proof.
  intros [Hrun|Hrun] Hin Hus;
    destruct (CategorizerFacts.categorizeWith_In _ _ _ _ _ _ Hrun Hin)
      as (firstEmail & aiResult & _ & Hdecide);
    apply (f_equal snd) in Hdecide; simpl in Hdecide; rewrite Hdecide, Hus.
  - reflexivity.
  - unfold CategorizerSafetyNets.forceResponse, CategorizerSafetyNets.initialNeedsResponse.
    reflexivity.
Qed.

Lemma X7_no_response_witness :
  exists ct,
    CategorizerSafetyNets.categorizeThreads ourDomain saysGeneral [rfqMail; quoteReply]
    = Some [ct] /\
    CategorizedThread.itemType ct = quote_request /\
    CategorizedThread.lastEmailFromUs ct = true /\
    CategorizedThread.needsResponse ct = false.
Proof.
  eexists. split; [vm_compute; reflexivity|]. split; [reflexivity|]. split; [reflexivity|].
  eapply (X7_no_response_needed_after_our_reply ourDomain saysGeneral [rfqMail; quoteReply]).
  - right. vm_compute. reflexivity.
  - left. reflexivity.
  - reflexivity.
Defined.

(** X8: the categorized threads have pairwise distinct thread keys; each
    holds at least one email, its emails are in ascending order of the date
    key, [emailCount] is their number, and [lastEmailDate] and
    [lastEmailFromUs] are read off the last of them. *)
Theorem X8_categorized_threads_are_well_formed
    (dom : string) (classify : list ThreadData.t -> JsMap.t AiResult.t)
    (emails : list Email) (cts : list CategorizedThread.t) :
  Categorizer.categorizeThreads dom classify emails = Some cts \/
  CategorizerSafetyNets.categorizeThreads dom classify emails = Some cts ->
  NoDup (map CategorizedThread.threadKey cts) /\
  forall ct, In ct cts ->
    CategorizedThread.emails ct <> [] /\
    StronglySorted ThreaderInv.dateLe (CategorizedThread.emails ct) /\
    CategorizedThread.emailCount ct = length (CategorizedThread.emails ct) /\
    CategorizedThread.lastEmailDate ct = last (CategorizedThread.emails ct) ≫= date /\
    CategorizedThread.lastEmailFromUs ct
    = isOutboundOpt dom (last (CategorizedThread.emails ct)).
Proof. intros [Hrun|Hrun]; exact (CategorizerShape.categorizeWith_shape _ _ _ _ _ Hrun). Qed.

Lemma X8_categorized_threads_witness :
  exists cts,
    Categorizer.categorizeThreads ourDomain noAnswers [ourQuote; ackWithPo; poMail] = Some cts /\
    length cts = 2%nat /\
    NoDup (map CategorizedThread.threadKey cts).
Proof.
  eexists. split; [vm_compute; reflexivity|]. split; [reflexivity|].
  eapply (X8_categorized_threads_are_well_formed ourDomain noAnswers
            [ourQuote; ackWithPo; poMail]).
  left. vm_compute. reflexivity.
Defined.

(** X9: [getLastEmailDate] is the latest date of the thread: it is the date
    of one of the emails, no email is dated later, and it is missing only
    when no email has a date. *)
Theorem X9_last_email_date_is_the_latest (emails : list Email) :
  (forall e d, In e emails -> date e = Some d ->
               exists latest, getLastEmailDate emails = Some latest /\ d <= latest) /\
  (forall latest, getLastEmailDate emails = Some latest ->
                  exists e, In e emails /\ date e = Some latest).
Proof.
  destruct (CategorizerShape.laterDate_fold emails None) as (_ & H2 & H3).
  split; [exact H2|].
  intros latest H. destruct (H3 latest H) as [Hnone|Hsome]; [discriminate | exact Hsome].
Qed.

(** X10: [getEmailCounts] counts each email of the window once, as received
    or as sent; the window includes both of its ends, so an email dated
    exactly at the end of one window and the start of the next is counted
    in both, and an email without a date is in no window. *)
Theorem X10_window_counts (dom : string) (window : JobsReport.TimeWindow)
    (table : list Email) :
  let inside := fetchEmailsInWindow window table in
  (received (getEmailCounts dom window table) + sent (getEmailCounts dom window table))%nat
  = length inside /\
  sent (getEmailCounts dom window table) = length (List.filter (isOutbound dom) inside) /\
  (forall e, In e inside <->
             In e table /\ exists d, date e = Some d /\
                                     JobsReport.start window <= d <= JobsReport.end_ window).
Proof.
  intros inside. unfold getEmailCounts. fold inside.
  destruct (CategorizerShape.countFold dom inside {| received := 0; sent := 0 |}) as [Hs Hr].
  unfold countEmailsByDirection. rewrite Hs, Hr. simpl. split; [|split].
  - rewrite Nat.add_comm. apply CategorizerShape.filter_split_length.
  - reflexivity.
  - intros e. subst inside. unfold fetchEmailsInWindow. rewrite filter_In.
    unfold inWindow. destruct (date e) as [d|].
    + rewrite andb_true_iff, !Z.leb_le. split.
      * intros [Hin Hd]. split; [exact Hin|]. exists d. split; [reflexivity | lia].
      * intros [Hin (d' & [= <-] & Hd)]. split; [exact Hin | lia].
    + split; [intros [_ H]; discriminate | intros [_ (d & H & _)]; discriminate].
Qed.

(** ** The classifier batches *)

Module BatchFacts.
Import JsMap Threader ThreaderInv ThreaderFacts CategorizerShape.

Lemma batchLoop_concat {A : Type} (l : list A) :
  forall fuel i, (length l - i <= fuel)%nat -> concat (batchLoop fuel i l) = drop i l.
Proof.
  induction fuel as [|fuel IH]; intros i Hfuel; simpl.
  - symmetry. apply drop_ge. lia.
  - destruct (Nat.ltb_spec i (length l)) as [Hlt|Hge].
    + simpl. rewrite IH by (unfold MAX_THREADS_PER_BATCH; lia).
      rewrite <- drop_drop. apply take_drop.
    + symmetry. apply drop_ge. lia.
Qed.

Lemma batchLoop_sizes {A : Type} (l : list A) :
  forall fuel i,
    Forall (fun b => (1 <= length b <= MAX_THREADS_PER_BATCH)%nat) (batchLoop fuel i l).
Proof.
  induction fuel as [|fuel IH]; intros i; simpl; [constructor|].
  destruct (Nat.ltb_spec i (length l)) as [Hlt|Hge]; [|constructor].
  constructor; [|apply IH].
  rewrite length_take, length_drop. unfold MAX_THREADS_PER_BATCH. lia.
Qed.

Section WithClassifier.
Variable batchFn : list ThreadData.t -> option (list (string * AiResult.t)).
Variable singleFn : ThreadData.t -> option AiResult.t.

Lemma individually_calls batch :
  forall st,
    snd (fold_left (individually singleFn) batch st)
    = snd st ++ map (fun data => SingleCall (ThreadData.threadKey data)) batch.
Proof.
  induction batch as [|d batch IH]; intros [results calls]; simpl.
  - now rewrite app_nil_r.
  - rewrite IH. destruct (singleFn d); simpl; now rewrite <- app_assoc.
Qed.

Lemma batchStep_calls st batch :
  snd (batchStep batchFn singleFn st batch) = snd st ++ callsOf batchFn batch.
Proof.
  destruct st as [results calls]. unfold batchStep, callsOf.
  destruct (batchFn batch); simpl.
  - reflexivity.
  - rewrite individually_calls. simpl. now rewrite <- app_assoc.
Qed.

Lemma batchFold_calls batches :
  forall st,
    snd (fold_left (batchStep batchFn singleFn) batches st)
    = snd st ++ flat_map (callsOf batchFn) batches.
Proof.
  induction batches as [|b batches IH]; intros st; simpl.
  - now rewrite app_nil_r.
  - rewrite IH, batchStep_calls. now rewrite <- app_assoc.
Qed.

Lemma runBatches_calls threadsData :
  snd (runBatches batchFn singleFn threadsData)
  = flat_map (callsOf batchFn) (splitIntoBatches threadsData).
Proof.
  unfold runBatches. destruct threadsData as [|d l]; [reflexivity|].
  now rewrite batchFold_calls.
Qed.

Hypothesis batch_down : forall batch, batchFn batch = None.
Hypothesis single_down : forall data, singleFn data = None.

Lemma individually_down batch :
  forall st, fst (fold_left (individually singleFn) batch st) = fst st.
Proof.
  induction batch as [|d batch IH]; intros [results calls]; simpl; [reflexivity|].
  rewrite single_down. now rewrite IH.
Qed.

Lemma batchFold_down batches :
  forall st, fst (fold_left (batchStep batchFn singleFn) batches st) = fst st.
Proof.
  induction batches as [|b batches IH]; intros [results calls]; simpl; [reflexivity|].
  rewrite batch_down, IH. apply individually_down.
Qed.

Lemma classifier_down threadsData :
  categorizeThreadsWithBatch batchFn singleFn threadsData = [].
Proof.
  unfold categorizeThreadsWithBatch, runBatches.
  destruct threadsData; [reflexivity|]. now rewrite batchFold_down.
Qed.
End WithClassifier.

Lemma sortByDate_sorted_id l : StronglySorted dateLe l -> sortByDate l = l.
Proof.
  induction 1 as [|x l Hsorted IH Hall]; [reflexivity|].
  simpl. rewrite IH. destruct l as [|y l]; [reflexivity|]. simpl.
  apply Forall_cons in Hall as [Hxy _]. unfold dateLe in Hxy.
  destruct (Z.leb_spec (dateKey x) (dateKey y)); [reflexivity | lia].
Qed.

(** Without answers every thread is finished on its own. *)
Lemma categorizeWith_no_answers dom decide classify (out : JsMap.t (list Email)) :
  (forall threadsData, classify threadsData = []) ->
  NonEmptyThreads out ->
  (forall k l, In (k, l) out -> StronglySorted dateLe l) ->
  exists cts,
    omap (fun data =>
            if has (buildMergedInto (buildDataByKey (omap (threadDataOf dom) out))
                                    (classify (omap (threadDataOf dom) out)))
                   (ThreadData.threadKey data) then None
            else
              match ThreadData.threadEmails data with
              | firstEmail :: _ =>
                  Some (finishThread dom decide
                          (classify (omap (threadDataOf dom) out))
                          (buildDataByKey (omap (threadDataOf dom) out))
                          (buildMergedInto (buildDataByKey (omap (threadDataOf dom) out))
                                           (classify (omap (threadDataOf dom) out)))
                          data firstEmail)
              | [] => None
              end)
         (omap (threadDataOf dom) out) = cts /\
    map (fun ct => (CategorizedThread.threadKey ct, CategorizedThread.emails ct)) cts = out /\
    forall ct, In ct cts ->
      exists firstEmail,
        head (CategorizedThread.emails ct) = Some firstEmail /\
        CategorizedThread.category ct
        = determineInitialCategory dom (CategorizedThread.emails ct) /\
        CategorizedThread.summary ct = None /\
        (CategorizedThread.itemType ct, CategorizedThread.needsResponse ct)
        = decide firstEmail (CategorizedThread.category ct)
                 (CategorizedThread.lastEmailFromUs ct)
                 (last (CategorizedThread.emails ct)) None.
Proof.
  intros Hdown. rewrite Hdown. generalize (buildDataByKey (omap (threadDataOf dom) out)).
  intros dataByKey. change (buildMergedInto dataByKey []) with (@nil (string * string)).
  induction out as [|[k l] out IH]; intros Hne Hsorted.
  - exists []. simpl. split; [reflexivity|]. split; [reflexivity|]. intros ct [].
  - destruct IH as (cts & Hcts & Hmap & Hall).
    { intros k0 l0 Hin. apply (Hne k0 l0). now right. }
    { intros k0 l0 Hin. apply (Hsorted k0 l0). now right. }
    subst cts.
    assert (Hl : l <> []) by (apply (Hne k l); now left).
    assert (Hs : StronglySorted dateLe l) by (apply (Hsorted k l); now left).
    destruct l as [|firstEmail rest]; [contradiction|].
    assert (Hcollect : forall data,
               ThreadData.threadEmails data = firstEmail :: rest ->
               collectEmails dataByKey [] data = firstEmail :: rest).
    { intros data Hd. unfold collectEmails, mergedKeys. simpl.
      rewrite app_nil_r, Hd. now apply sortByDate_sorted_id. }
    eexists. split; [reflexivity|].
    cbn [omap list_omap threadDataOf ThreadData.threadEmails ThreadData.threadKey].
    change (has [] k) with false. cbv iota.
    match goal with
    | |- context [finishThread _ _ _ _ _ ?d _] => set (data := d)
    end.
    assert (Hc : collectEmails dataByKey [] data = firstEmail :: rest)
      by (apply Hcollect; reflexivity).
    cbn [map]. split.
    + f_equal; [|exact Hmap]. unfold finishThread. rewrite Hc.
      now destruct (decide firstEmail _ _ _ _) as [itemType needsResponse].
    + intros ct [<-|Hin]; [|now apply Hall].
      unfold finishThread. rewrite Hc.
      destruct (decide firstEmail _ _ _ _) as [itemType needsResponse] eqn:Hdecide.
      exists firstEmail. split; [reflexivity|]. split; [reflexivity|].
      split; [reflexivity|]. simpl. now rewrite <- Hdecide.
Qed.

End BatchFacts.

(** X11: the classifier is asked batch by batch: the batches are the
    threads in their order, cut into runs of at least one and at most twenty
    threads; one batch call is made per batch, and a thread gets a call of
    its own exactly when the call for a batch that holds it has thrown. *)
Theorem X11_batches_cover_the_threads
    (batchFn : list ThreadData.t -> option (list (string * AiResult.t)))
    (singleFn : ThreadData.t -> option AiResult.t)
    (threadsData : list ThreadData.t) :
  let batches := splitIntoBatches threadsData in
  let calls := snd (runBatches batchFn singleFn threadsData) in
  concat batches = threadsData /\
  Forall (fun b => (1 <= length b <= 20)%nat) batches /\
  (forall keys, In (BatchCall keys) calls <->
                exists b, In b batches /\ keys = map ThreadData.threadKey b) /\
  (forall k, In (SingleCall k) calls <->
             exists b, In b batches /\ batchFn b = None /\
                       In k (map ThreadData.threadKey b)).
Proof.
  intros batches calls. subst calls. rewrite BatchFacts.runBatches_calls. fold batches.
  split; [|split; [|split]].
  - unfold batches, splitIntoBatches. rewrite BatchFacts.batchLoop_concat by lia.
    apply drop_0.
  - apply BatchFacts.batchLoop_sizes.
  - intros keys. rewrite in_flat_map. split.
    + intros (b & Hb & Hin). exists b. split; [exact Hb|].
      unfold callsOf in Hin. destruct Hin as [[= <-]|Hin]; [reflexivity|].
      destruct (batchFn b); [destruct Hin|].
      apply in_map_iff in Hin as (d & Hd & _). discriminate.
    + intros (b & Hb & ->). exists b. split; [exact Hb | now left].
  - intros k. rewrite in_flat_map. split.
    + intros (b & Hb & Hin). exists b. split; [exact Hb|].
      unfold callsOf in Hin. destruct Hin as [Hin|Hin]; [discriminate|].
      destruct (batchFn b); [destruct Hin|]. split; [reflexivity|].
      apply in_map_iff in Hin as (d & [= <-] & Hd). now apply in_map.
    + intros (b & Hb & Hnone & Hin). exists b. split; [exact Hb|].
      unfold callsOf. rewrite Hnone. right.
      apply in_map_iff in Hin as (d & <- & Hd). apply in_map_iff. now exists d.
Qed.

(** X12: a classifier that is down does not stop the categorization.  When
    every batch call and every single call throws, the categorized threads
    are the grouped threads themselves, each with the category read off its
    first email and without a summary; in the revision with the safety nets
    such a thread needs a response exactly when its last email is not from
    us. *)
Theorem X12_classifier_down_falls_back_to_rules
    (dom : string)
    (batchFn : list ThreadData.t -> option (list (string * AiResult.t)))
    (singleFn : ThreadData.t -> option AiResult.t)
    (emails : list Email) :
  (forall batch, batchFn batch = None) ->
  (forall data, singleFn data = None) ->
  exists out cts,
    Threader.groupEmailsIntoThreads emails = Some out /\
    CategorizerSafetyNets.categorizeThreads dom (categorizeThreadsWithBatch batchFn singleFn)
                                            emails = Some cts /\
    map (fun ct => (CategorizedThread.threadKey ct, CategorizedThread.emails ct)) cts = out /\
    forall ct, In ct cts ->
      CategorizedThread.category ct
      = determineInitialCategory dom (CategorizedThread.emails ct) /\
      CategorizedThread.summary ct = None /\
      CategorizedThread.needsResponse ct = negb (CategorizedThread.lastEmailFromUs ct).
Proof.
  intros Hbatch Hsingle.
  destruct (ThreaderFacts.groupEmailsIntoThreads_spec emails)
    as (out & Hout & _ & _ & _ & Hsorted).
  pose proof (groupEmailsIntoThreads_nonempty emails out Hout) as Hne.
  destruct (BatchFacts.categorizeWith_no_answers dom CategorizerSafetyNets.decide
              (categorizeThreadsWithBatch batchFn singleFn) out
              (BatchFacts.classifier_down batchFn singleFn Hbatch Hsingle) Hne Hsorted)
    as (cts & Hcts & Hmap & Hall).
  exists out, cts. split; [exact Hout|]. split; [|split; [exact Hmap|]].
  - unfold CategorizerSafetyNets.categorizeThreads, categorizeWith. rewrite Hout. simpl.
    now rewrite Hcts.
  - intros ct Hin. destruct (Hall ct Hin) as (firstEmail & _ & Hcat & Hsum & Hdecide).
    split; [exact Hcat|]. split; [exact Hsum|].
    apply (f_equal snd) in Hdecide. simpl in Hdecide. rewrite Hdecide.
    unfold CategorizerSafetyNets.forceResponse, CategorizerSafetyNets.initialNeedsResponse.
    destruct (CategorizedThread.lastEmailFromUs ct); simpl; [reflexivity|].
    now destruct (_ || _).
Qed.

Lemma X12_classifier_down_witness :
  exists out cts,
    Threader.groupEmailsIntoThreads [ourQuote; ackWithPo; poMail] = Some out /\
    CategorizerSafetyNets.categorizeThreads ourDomain
      (categorizeThreadsWithBatch batchDown singleDown) [ourQuote; ackWithPo; poMail] = Some cts /\
    map (fun ct => (CategorizedThread.threadKey ct, CategorizedThread.emails ct)) cts = out /\
    forall ct, In ct cts ->
      CategorizedThread.category ct
      = determineInitialCategory ourDomain (CategorizedThread.emails ct) /\
      CategorizedThread.summary ct = None /\
      CategorizedThread.needsResponse ct = negb (CategorizedThread.lastEmailFromUs ct).
Proof.
  apply (X12_classifier_down_falls_back_to_rules ourDomain batchDown singleDown
           [ourQuote; ackWithPo; poMail]); reflexivity.
Defined.

(** ** The reconciliation of todos, run again and after a manual close *)

Module TodoMoreFacts.
Import TodoSync TodoSyncFacts TodoRoutes.

Local Abbreviation zero := {| newTodos := 0; resolvedTodos := 0; updatedThreads := 0 |}.

(** The row of a key of the batch after the pass. *)
Lemma syncDashTodos_row now threads todos db k :
  In k (allThreadKeys threads todos) ->
  dashTodos (fst (syncDashTodos now threads todos db)) !! k =
  match dashTodos db !! k with
  | Some row =>
      match threadsByKey threads !! k with
      | Some th =>
          if repliedWithoutNewTodo row (Some th) (todosByThreadKey todos !! k)
          then Some (resolveByReply now th row)
          else Some (updateMetadata now th (todosByThreadKey todos !! k) row row)
      | None => Some row
      end
  | None =>
      match todosByThreadKey todos !! k, threadsByKey threads !! k with
      | Some td, Some th =>
          Some (newRow now k th td (bool_decide (k ∈ dismissedThreads db)))
      | _, _ => None
      end
  end.
Proof.
  intros Hin. rewrite syncDashTodos_lookup.
  rewrite bool_decide_eq_true_2 by now apply list_elem_of_In.
  unfold syncKey. destruct (dashTodos db !! k) as [row|] eqn:Hrow.
  - destruct (threadsByKey threads !! k) as [th|] eqn:Hth.
    + destruct (repliedWithoutNewTodo row (Some th) _); simpl;
        now rewrite lookup_alter_eq, Hrow.
    + now destruct (repliedWithoutNewTodo row None _).
  - destruct (todosByThreadKey todos !! k) as [td|]; [|exact Hrow].
    destruct (threadsByKey threads !! k) as [th|]; [|exact Hrow].
    destruct (decide (k ∈ dismissedThreads db)) as [Hd|Hd]; simpl;
      unfold insertOnConflictDoNothing; simpl; rewrite Hrow, lookup_insert_eq.
    + now rewrite bool_decide_eq_true_2.
    + now rewrite bool_decide_eq_false_2.
Qed.

Lemma syncDashTodos_outside now threads todos db k :
  ~ In k (allThreadKeys threads todos) ->
  dashTodos (fst (syncDashTodos now threads todos db)) !! k = dashTodos db !! k.
Proof.
  intros Hnotin. rewrite syncDashTodos_lookup.
  rewrite bool_decide_eq_false_2; [reflexivity|].
  intros H. apply Hnotin. now apply list_elem_of_In.
Qed.

Lemma replied_closed row th td :
  DashTodo.status row <> st_open -> repliedWithoutNewTodo row th td = false.
Proof. unfold repliedWithoutNewTodo. destruct (DashTodo.status row); [contradiction| |]; auto. Qed.

Section Counters.
Variables (now : Z) (threads : gmap string CategorizedThread.t)
          (todos : gmap string IdentifiedTodo.t) (existing : gmap string DashTodo.t).

Lemma quiet_step st k :
  quietKey threads todos existing k ->
  newTodos (snd (syncKey now threads todos existing st k)) = newTodos (snd st) /\
  resolvedTodos (snd (syncKey now threads todos existing st k)) = resolvedTodos (snd st).
Proof.
  unfold quietKey, syncKey. destruct st as [d r].
  destruct (existing !! k) as [e|].
  - intros ->. destruct (threads !! k); split; reflexivity.
  - intros [-> | ->]; [split; reflexivity|].
    destruct (todos !! k); split; reflexivity.
Qed.

Lemma quiet_fold ks :
  (forall k, In k ks -> quietKey threads todos existing k) ->
  forall st,
    newTodos (snd (fold_left (syncKey now threads todos existing) ks st))
    = newTodos (snd st) /\
    resolvedTodos (snd (fold_left (syncKey now threads todos existing) ks st))
    = resolvedTodos (snd st).
Proof.
  induction ks as [|k ks IH]; intros Hq st; simpl; [auto|].
  destruct (IH (fun k' H => Hq k' (or_intror H))
               (syncKey now threads todos existing st k)) as [H1 H2].
  destruct (quiet_step st k (Hq k (or_introl eq_refl))) as [H3 H4].
  split; congruence.
Qed.
End Counters.

Lemma updateMetadata_status now th td e row :
  DashTodo.status (updateMetadata now th td e row) = DashTodo.status row.
Proof. reflexivity. Qed.

Lemma closeSelected_lookup action now threadKeys rows k :
  closeSelected action now threadKeys rows !! k
  = (fun row => if selected threadKeys k row then closeByHand action now row else row)
      <$> rows !! k.
Proof.
  unfold closeSelected. rewrite map_lookup_imap. now destruct (rows !! k).
Qed.

Lemma closeSelected_Some action now threadKeys rows k row :
  rows !! k = Some row ->
  closeSelected action now threadKeys rows !! k
  = Some (if selected threadKeys k row then closeByHand action now row else row).
Proof. intros H. now rewrite closeSelected_lookup, H. Qed.

Lemma updatedKeys_spec threadKeys rows k :
  In k (updatedKeys threadKeys rows) <->
  exists row, rows !! k = Some row /\ selected threadKeys k row = true.
Proof.
  unfold updatedKeys. rewrite in_map_iff. split.
  - intros ([k' row] & <- & Hin). apply filter_In in Hin as [Hin Hsel].
    exists row. split; [|exact Hsel].
    apply elem_of_map_to_list. now apply list_elem_of_In.
  - intros (row & Hrow & Hsel). exists (k, row). split; [reflexivity|].
    apply filter_In. split; [|exact Hsel].
    apply list_elem_of_In. now apply elem_of_map_to_list.
Qed.

(** What the pass keeps of a row. *)
Lemma syncDashTodos_keeps now threads todos db k row :
  dashTodos db !! k = Some row ->
  exists row',
    dashTodos (fst (syncDashTodos now threads todos db)) !! k = Some row' /\
    DashTodo.firstDetectedAt row' = DashTodo.firstDetectedAt row /\
    DashTodo.createdAt row' = DashTodo.createdAt row /\
    DashTodo.category row' = DashTodo.category row /\
    DashTodo.itemType row' = DashTodo.itemType row /\
    (DashTodo.status row <> st_open ->
     DashTodo.status row' = DashTodo.status row /\
     DashTodo.resolvedAt row' = DashTodo.resolvedAt row /\
     DashTodo.resolvedBy row' = DashTodo.resolvedBy row) /\
    (~ In k (allThreadKeys threads todos) -> row' = row).
Proof.
  intros Hrow.
  destruct (in_dec string_dec k (allThreadKeys threads todos)) as [Hin|Hnotin].
  - rewrite (syncDashTodos_row now threads todos db k Hin), Hrow.
    destruct (threadsByKey threads !! k) as [th|].
    + destruct (repliedWithoutNewTodo row (Some th) _) eqn:Hreplied.
      * eexists. split; [reflexivity|]. simpl.
        split; [reflexivity|]. split; [reflexivity|]. split; [reflexivity|].
        split; [reflexivity|]. split; [|contradiction].
        intros Hclosed. rewrite (replied_closed row _ _ Hclosed) in Hreplied.
        discriminate.
      * eexists. split; [reflexivity|]. simpl.
        split; [reflexivity|]. split; [reflexivity|]. split; [reflexivity|].
        split; [reflexivity|]. split; [auto | contradiction].
    + exists row. split; [reflexivity|]. split; [reflexivity|]. split; [reflexivity|].
      split; [reflexivity|]. split; [reflexivity|]. split; [auto | contradiction].
  - rewrite (syncDashTodos_outside now threads todos db k Hnotin).
    exists row. split; [exact Hrow|]. split; [reflexivity|]. split; [reflexivity|].
    split; [reflexivity|]. split; [reflexivity|]. auto.
Qed.

End TodoMoreFacts.

Import TodoRoutes.

(** X13: the reconciliation never reopens a todo and never drops one.  A
    row that is there before the pass is there after it, with the time of
    its first detection, its creation time, its category and its item type
    as before; a row that is resolved or dismissed keeps its status and its
    resolution stamp, also when a new todo was identified for its thread;
    and a row whose key is not in the batch is not touched at all. *)
Theorem X13_reconciliation_never_reopens
    (now : Z) (threads : list CategorizedThread.t) (todos : list IdentifiedTodo.t)
    (db : Db) (k : string) (row : DashTodo.t) :
  dashTodos db !! k = Some row ->
  exists row',
    dashTodos (fst (syncDashTodos now threads todos db)) !! k = Some row' /\
    DashTodo.firstDetectedAt row' = DashTodo.firstDetectedAt row /\
    DashTodo.createdAt row' = DashTodo.createdAt row /\
    DashTodo.category row' = DashTodo.category row /\
    DashTodo.itemType row' = DashTodo.itemType row /\
    (DashTodo.status row <> st_open ->
     DashTodo.status row' = DashTodo.status row /\
     DashTodo.resolvedAt row' = DashTodo.resolvedAt row /\
     DashTodo.resolvedBy row' = DashTodo.resolvedBy row) /\
    (~ In k (allThreadKeys threads todos) -> row' = row).
Proof. apply TodoMoreFacts.syncDashTodos_keeps. Qed.

Lemma X13_never_reopens_witness :
  exists row',
    dashTodos (fst (syncDashTodos 5000 [threadAfterThanks] [identifiedRfq]
                      (fst (syncDashTodos 2500 [threadAfterReply] [] dbWithRfqTodo))))
      !! rfqKey = Some row' /\
    DashTodo.status row' = st_resolved.
Proof.
  destruct (X13_reconciliation_never_reopens 5000 [threadAfterThanks] [identifiedRfq]
              (fst (syncDashTodos 2500 [threadAfterReply] [] dbWithRfqTodo)) rfqKey
              (resolveByReply 2500 threadAfterReply rfqTodo))
    as (row' & Hrow' & _ & _ & _ & _ & Hclosed & _).
  { vm_compute. reflexivity. }
  exists row'. split; [exact Hrow'|].
  destruct Hclosed as [Hstatus _]; [discriminate|]. exact Hstatus.
Defined.

(** X14: a second pass over the same batch changes no status, inserts no
    row and reports no new and no resolved todo, whatever the clock says. *)
Theorem X14_second_pass_changes_no_status
    (now1 now2 : Z) (threads : list CategorizedThread.t) (todos : list IdentifiedTodo.t)
    (db : Db) :
  let db1 := fst (syncDashTodos now1 threads todos db) in
  let second := syncDashTodos now2 threads todos db1 in
  (forall k, DashTodo.status <$> dashTodos (fst second) !! k
             = DashTodo.status <$> dashTodos db1 !! k) /\
  newTodos (snd second) = 0%nat /\
  resolvedTodos (snd second) = 0%nat.
Proof.
  intros db1 second.
  assert (Hquiet : forall k, In k (allThreadKeys threads todos) ->
            quietKey (threadsByKey threads) (todosByThreadKey todos) (dashTodos db1) k).
  { intros k Hin. unfold quietKey. subst db1.
    rewrite (TodoMoreFacts.syncDashTodos_row now1 threads todos db k Hin).
    destruct (dashTodos db !! k) as [row|].
    - destruct (threadsByKey threads !! k) as [th|] eqn:Hth.
      + destruct (repliedWithoutNewTodo row (Some th) _) eqn:Hreplied.
        * now apply TodoMoreFacts.replied_closed.
        * exact Hreplied.
      + unfold repliedWithoutNewTodo. now rewrite andb_false_r.
    - destruct (todosByThreadKey todos !! k) as [td|]; [|now left].
      destruct (threadsByKey threads !! k) as [th|]; [|now right].
      unfold repliedWithoutNewTodo. now rewrite andb_false_r. }
  split.
  - intros k. subst second.
    destruct (in_dec string_dec k (allThreadKeys threads todos)) as [Hin|Hnotin].
    + rewrite (TodoMoreFacts.syncDashTodos_row now2 threads todos db1 k Hin).
      specialize (Hquiet k Hin). unfold quietKey in Hquiet.
      destruct (dashTodos db1 !! k) as [row1|].
      * destruct (threadsByKey threads !! k) as [th|]; [|reflexivity].
        now rewrite Hquiet.
      * now destruct Hquiet as [-> | ->]; [|destruct (todosByThreadKey todos !! k)].
    + now rewrite (TodoMoreFacts.syncDashTodos_outside now2 threads todos db1 k Hnotin).
  - subst second. unfold syncDashTodos.
    apply (TodoMoreFacts.quiet_fold now2 _ _ (dashTodos db1) _ Hquiet).
Qed.

(** X15: a todo dismissed by hand stays dismissed.  The bulk dismissal
    closes the open row of a listed key with resolvedBy = manual and records
    the key as dismissed, and leaves every row that is not both listed and
    open as it was; after it no reconciliation pass changes the status of
    the row, not even when the key has been taken off the dismissed list
    again. *)
Theorem X15_dismissed_by_hand_stays_dismissed
    (now : Z) (threadKeys : list string) (t : Tables) (k : string) (row : DashTodo.t) :
  dashTodos (db t) !! k = Some row ->
  DashTodo.status row = st_open ->
  In k threadKeys ->
  let t1 := snd (bulkUpdate (Some ActDismiss) (Some threadKeys) now t) in
  dashTodos (db t1) !! k = Some (closeByHand ActDismiss now row) /\
  k ∈ dismissedThreads (db t1) /\
  (forall k' row', dashTodos (db t) !! k' = Some row' ->
                   selected threadKeys k' row' = false ->
                   dashTodos (db t1) !! k' = Some row') /\
  forall t2 later threads todos,
    t2 = t1 \/ t2 = snd (undismiss (Some k) t1) ->
    exists row2,
      dashTodos (fst (syncDashTodos later threads todos (db t2))) !! k = Some row2 /\
      DashTodo.status row2 = st_dismissed /\
      DashTodo.resolvedBy row2 = Some by_manual.
Proof.
  intros Hrow Hopen Hin t1.
  assert (Hsel : selected threadKeys k row = true).
  { unfold selected. rewrite Hopen, bool_decide_eq_true_2; [reflexivity|].
    now apply list_elem_of_In. }
  destruct threadKeys as [|k0 ks]; [destruct Hin|].
  assert (Hrow1 : dashTodos (db t1) !! k = Some (closeByHand ActDismiss now row)).
  { subst t1. cbn [bulkUpdate snd db dashTodos].
    now rewrite (TodoMoreFacts.closeSelected_Some _ _ _ _ _ _ Hrow), Hsel. }
  split; [exact Hrow1|]. split; [|split].
  - subst t1. simpl. apply elem_of_union. left. apply elem_of_list_to_set.
    apply list_elem_of_In, TodoMoreFacts.updatedKeys_spec. eauto.
  - intros k' row' Hrow' Hnot. subst t1. cbn [bulkUpdate snd db dashTodos].
    now rewrite (TodoMoreFacts.closeSelected_Some _ _ _ _ _ _ Hrow'), Hnot.
  - intros t2 later threads todos Ht2.
    assert (Hrow2 : dashTodos (db t2) !! k = Some (closeByHand ActDismiss now row)).
    { destruct Ht2 as [-> | ->]; [exact Hrow1|].
      unfold undismiss. simpl truthy.
      destruct (String.eqb k EmptyString); [exact Hrow1|].
      destruct (decide (k ∈ dismissedThreads (db t1))); exact Hrow1. }
    destruct (TodoMoreFacts.syncDashTodos_keeps later threads todos (db t2) k _ Hrow2)
      as (row2 & Hafter & _ & _ & _ & _ & Hclosed & _).
    exists row2. split; [exact Hafter|].
    destruct Hclosed as (Hs & _ & Hb); [discriminate|].
    rewrite Hs, Hb. split; reflexivity.
Qed.

Lemma X15_dismissed_by_hand_witness :
  exists row2,
    dashTodos
      (fst (syncDashTodos 9000 [threadAfterThanks] [identifiedRfq]
              (db (snd (undismiss (Some rfqKey)
                          (snd (bulkUpdate (Some ActDismiss) (Some [rfqKey]) 4000
                                           sampleTables)))))))
      !! rfqKey = Some row2 /\
    DashTodo.status row2 = st_dismissed /\
    DashTodo.resolvedBy row2 = Some by_manual.
Proof.
  destruct (X15_dismissed_by_hand_stays_dismissed 4000 [rfqKey] sampleTables rfqKey rfqTodo)
    as (_ & _ & _ & Hlater).
  - vm_compute. reflexivity.
  - reflexivity.
  - left. reflexivity.
  - apply Hlater. right. reflexivity.
Defined.

(** ** The alert checks: auto-resolution, repeated runs, the summary *)

Module AlertMoreFacts.
Import AlertManager AlertManagerFacts AlertResolution.

Lemma selectAlerts_spec p db alertId alert :
  (alertId, alert) ∈ selectAlerts p db <->
  rows db !! alertId = Some alert /\ p alert = true.
Proof.
  unfold selectAlerts. rewrite list_elem_of_filter, elem_of_map_to_list. tauto.
Qed.

Lemma selectAlerts_NoDup p db : NoDup (selectAlerts p db).*1.
Proof.
  unfold selectAlerts.
  pose proof (NoDup_fst_map_to_list (rows db)) as Hnd.
  induction (map_to_list (rows db)) as [|[i a] l IH]; [constructor|].
  rewrite fmap_cons in Hnd. apply NoDup_cons in Hnd as [Hnotin Hnd].
  rewrite filter_cons. destruct (decide _); [|auto].
  rewrite fmap_cons. apply NoDup_cons. split; [|auto].
  intros Hin. apply Hnotin. simpl in *.
  apply list_elem_of_fmap in Hin as ([j b] & -> & Hin).
  apply list_elem_of_filter in Hin as [_ Hin].
  apply list_elem_of_fmap. now exists (j, b).
Qed.

Section Resolution.
Variable Docs : Type.
Variable findMatchingSalesOrder : Docs -> option string -> option Z -> option QbDocument.t.

Local Abbreviation checkAndResolveAlerts :=
  (checkAndResolveAlerts Docs findMatchingSalesOrder).
Local Abbreviation salesOrderExists := (salesOrderExists Docs findMatchingSalesOrder).
Local Abbreviation round := (fun settled now st c => fst (resolveStep settled now st c)).

Lemma resolveStep_raises (settled : QbSyncAlert.t -> Reply bool) now (st : Stage3) c :
  snd (resolveStep settled now st c) = raised (settled (snd c)).
Proof. destruct c as [i a]. unfold resolveStep. simpl. now destruct (settled a) as [[]|]. Qed.

Lemma resolveStep_rows (settled : QbSyncAlert.t -> Reply bool) now (st : Stage3)
    alertId alert j :
  rows (s3_db (round settled now st (alertId, alert))) !! j
  = alter (fun a => match settled alert with
                    | Replies true => closed st_resolved by_auto now a
                    | _ => a
                    end) alertId (rows (s3_db st)) !! j.
Proof.
  unfold resolveStep. destruct (settled alert) as [[]|]; simpl; [reflexivity| |].
  all: rewrite lookup_alter; case_decide; [subst|reflexivity].
  all: now destruct (rows (s3_db st) !! j).
Qed.

Lemma resolveFold_other (settled : QbSyncAlert.t -> Reply bool) now candidates alertId :
  alertId ∉ candidates.*1 ->
  forall st : Stage3,
    rows (s3_db (fold_left (round settled now) candidates st)) !! alertId
    = rows (s3_db st) !! alertId.
Proof.
  induction candidates as [|[i a] candidates IH]; intros Hnotin st; [reflexivity|].
  rewrite fmap_cons, not_elem_of_cons in Hnotin. destruct Hnotin as [Hne Hnotin].
  cbn [fold_left]. rewrite IH by assumption. rewrite resolveStep_rows.
  apply lookup_alter_ne. simpl in Hne. congruence.
Qed.

Lemma resolveFold_own (settled : QbSyncAlert.t -> Reply bool) now candidates
    alertId alert :
  NoDup candidates.*1 ->
  (alertId, alert) ∈ candidates ->
  forall st : Stage3,
    rows (s3_db st) !! alertId = Some alert ->
    rows (s3_db (fold_left (round settled now) candidates st)) !! alertId
    = Some (match settled alert with
            | Replies true => closed st_resolved by_auto now alert
            | _ => alert
            end).
Proof.
  induction candidates as [|[i a] candidates IH]; intros Hnd Hin st Hrow.
  - inversion Hin.
  - rewrite fmap_cons in Hnd. apply NoDup_cons in Hnd as [Hnotin Hnd]. simpl in Hnotin.
    cbn [fold_left]. apply elem_of_cons in Hin as [Heq|Hin].
    + inversion Heq. subst i a.
      rewrite resolveFold_other by assumption.
      now rewrite resolveStep_rows, lookup_alter_eq, Hrow.
    + assert (Hne : i <> alertId).
      { intros ->. apply Hnotin. apply list_elem_of_fmap. now exists (alertId, alert). }
      apply IH; auto.
      now rewrite resolveStep_rows, lookup_alter_ne.
Qed.

(** A sweep over the rows selected by [p], row by row: a row is closed
    only when it was selected and the ledger settles it. *)
Lemma sweep_row p (settled : QbSyncAlert.t -> Reply bool) now (db : AlertDb)
    (found : list (nat * QbSyncAlert.t)) alertId alert :
  rows db !! alertId = Some alert ->
  exists alert',
    rows (s3_db (fst (loopUntilRaise (resolveStep settled now) (selectAlerts p db)
                                     {| s3_db := db; resolved := found |}))) !! alertId
    = Some alert' /\
    (alert' = alert \/
     alert' = closed st_resolved by_auto now alert /\
     p alert = true /\ settled alert = Replies true).
Proof.
  intros Hrow.
  rewrite (LoopFacts.loopUntilRaise_attempted
             (resolveStep settled now) (fun c => raised (settled (snd c)))
             (selectAlerts p db) (resolveStep_raises settled now)).
  cbn [fst].
  set (cs := attempted _ (selectAlerts p db)).
  destruct (decide (alertId ∈ cs.*1)) as [Hin|Hnot].
  - apply list_elem_of_fmap in Hin as ([j b] & Hj & Hin). simpl in Hj. subst j.
    assert (Hsel : (alertId, b) ∈ selectAlerts p db).
    { apply list_elem_of_In in Hin. apply LoopFacts.attempted_In in Hin.
      now apply list_elem_of_In. }
    apply selectAlerts_spec in Hsel as [Hb Hp].
    assert (b = alert) by congruence. subst b.
    rewrite (resolveFold_own settled now cs alertId alert);
      [| apply (LoopFacts.NoDup_attempted _ fst), selectAlerts_NoDup | exact Hin
       | exact Hrow].
    destruct (settled alert) as [[]|] eqn:Hs; eexists; (split; [reflexivity|]); auto.
  - rewrite resolveFold_other by exact Hnot. eauto.
Qed.

(** The auto-resolution, row by row. *)
Lemma checkAndResolveAlerts_row client now db alertId alert :
  rows db !! alertId = Some alert ->
  exists alert',
    rows (s3_db (fst (checkAndResolveAlerts client now db))) !! alertId = Some alert' /\
    (alert' = alert \/
     alert' = closed st_resolved by_auto now alert /\
     exists qb, client = Some qb /\
       (isPoAlert alert = true /\ salesOrderExists qb alert = Replies true \/
        isNoCustomerAlert alert = true /\ customerExists Docs qb alert = Replies true)).
Proof.
  intros Hrow. unfold AlertResolution.checkAndResolveAlerts.
  destruct client as [qb|]; [|eauto].
  destruct (sweep_row isPoAlert (salesOrderExists qb) now db [] alertId alert Hrow)
    as (a1 & H1 & Hcase1).
  destruct (loopUntilRaise _ (selectAlerts isPoAlert db) _) as [afterPo threw].
  cbn [fst] in H1. destruct threw.
  - exists a1. split; [exact H1|].
    destruct Hcase1 as [->|(-> & Hp & Hs)]; [now left|]. right. eauto 8.
  - destruct afterPo as [db1 found1]. simpl in H1.
    destruct (sweep_row isNoCustomerAlert (customerExists Docs qb) now db1 found1
                        alertId a1 H1) as (a2 & H2 & Hcase2).
    exists a2. split; [exact H2|].
    destruct Hcase1 as [->|(-> & Hp & Hs)].
    + destruct Hcase2 as [->|(-> & Hp & Hs)]; [now left|]. right. eauto 8.
    + destruct Hcase2 as [->|(_ & Hp2 & _)]; [right; eauto 8|].
      exfalso. unfold isNoCustomerAlert in Hp2. simpl in Hp2.
      now rewrite andb_false_r in Hp2.
Qed.

(** The ledger is not asked about an inert alert, or its answer is not
    used. *)
Lemma inert_unsettled qb a :
  Inert a ->
  ~ (isPoAlert a = true /\ salesOrderExists qb a = Replies true) /\
  isNoCustomerAlert a = false.
Proof.
  unfold isPoAlert, isNoCustomerAlert, AlertResolution.salesOrderExists.
  intros [Hs|[Ht|[Ht|[Ht|[Ht Hc]]]]].
  - destruct (QbSyncAlert.status a); [contradiction| |];
      rewrite !andb_false_r; (split; [intros [? _]; discriminate | reflexivity]).
  - rewrite Ht. simpl. split; [intros [? _]; discriminate | reflexivity].
  - rewrite Ht. simpl. split; [intros [? _]; discriminate | reflexivity].
  - rewrite Ht. simpl. split; [intros [? _]; discriminate | reflexivity].
  - rewrite Ht, Hc. simpl. split; [intros [_ ?]; discriminate | reflexivity].
Qed.

Lemma checkAndResolveAlerts_inert client now db alertId a :
  rows db !! alertId = Some a -> Inert a ->
  rows (s3_db (fst (checkAndResolveAlerts client now db))) !! alertId = Some a.
Proof.
  intros Hrow Hinert.
  destruct (checkAndResolveAlerts_row client now db alertId a Hrow)
    as (a' & Hrow' & [->|(_ & qb & _ & Hcase)]); [exact Hrow'|].
  exfalso. destruct (inert_unsettled qb a Hinert) as [Hpo Hnc].
  destruct Hcase as [Hcase|[Hcase _]]; [now apply Hpo | congruence].
Qed.

Lemma inert_no_candidate now a : Inert a -> isCandidate now a = false.
Proof.
  unfold isCandidate.
  intros [Hs|[Ht|[Ht|[Ht|[Ht Hc]]]]]; try (now rewrite Ht).
  destruct (QbSyncAlert.status a); [contradiction| |]; simpl;
    now rewrite andb_false_r.
Qed.

Lemma runChecks_inert client checks :
  forall db alertId a,
    rows db !! alertId = Some a -> Inert a ->
    rows (fold_left (runCheck Docs findMatchingSalesOrder client) checks db) !! alertId
    = Some a.
Proof.
  induction checks as [|c checks IH]; intros db alertId a Hrow Hinert; [exact Hrow|].
  simpl. apply IH; [|exact Hinert]. destruct c as [now|now]; simpl.
  - rewrite (checkEscalations_lookup _ _ _ now db alertId a Hrow).
    now rewrite afterEscalationCheck_idle by auto using inert_no_candidate.
  - now apply checkAndResolveAlerts_inert.
Qed.
End Resolution.

(** *** Stage 1, run again *)

Section Stage1.
Variable OUR_DOMAIN : string.
Variable Docs : Type.
Variable isDomainTrusted : string -> bool.
Variable mentionsPdf : Email -> bool.
Variable analyzeEmailPdfs : Email -> option PoDetails.t.
Variable findMatchingSalesOrder : Docs -> option string -> option Z -> option QbDocument.t.
Variable findMatchingEstimate : Docs -> option string -> option Z -> option QbDocument.t.
Variable client : option (Ledger Docs).

Local Abbreviation analyzeThread :=
  (analyzeThread OUR_DOMAIN Docs isDomainTrusted mentionsPdf analyzeEmailPdfs
                 findMatchingSalesOrder findMatchingEstimate client).
Local Abbreviation stage1Alert :=
  (stage1Alert OUR_DOMAIN Docs isDomainTrusted mentionsPdf analyzeEmailPdfs
               findMatchingSalesOrder findMatchingEstimate client).
Local Abbreviation stage1Raises :=
  (stage1Raises OUR_DOMAIN Docs isDomainTrusted mentionsPdf analyzeEmailPdfs
                findMatchingSalesOrder findMatchingEstimate client).
Local Abbreviation callsFor :=
  (callsFor OUR_DOMAIN Docs isDomainTrusted mentionsPdf analyzeEmailPdfs
            findMatchingSalesOrder findMatchingEstimate client).
Local Abbreviation round := (fun now existing st thread =>
                               fst (analyzeThread now existing st thread)).

(** What a round keeps: the thread has an alert afterwards unless the
    round throws, and a key gets no second alert. *)
Lemma analyzeThread_unique now existing (st : Stage1) thread (rest : list string) :
  AlertOps.SerialAhead (s1_db st) ->
  let st' := round now existing st thread in
  (stage1Raises now existing thread = false ->
   CategorizedThread.threadKey thread ∈ existing \/
   exists i a, rows (s1_db st') !! i = Some a /\
               QbSyncAlert.threadKey a = CategorizedThread.threadKey thread) /\
  (~ In (CategorizedThread.threadKey thread) rest ->
   UniqueThreadKeys (s1_db st) ->
   (forall i a, rows (s1_db st) !! i = Some a ->
                QbSyncAlert.threadKey a ∈ existing \/
                ~ In (QbSyncAlert.threadKey a) (CategorizedThread.threadKey thread :: rest)) ->
   UniqueThreadKeys (s1_db st') /\
   (forall i a, rows (s1_db st') !! i = Some a ->
                QbSyncAlert.threadKey a ∈ existing \/ ~ In (QbSyncAlert.threadKey a) rest)).
Proof.
  intros Hserial st'.
  destruct (analyzeThread_round OUR_DOMAIN Docs isDomainTrusted mentionsPdf
              analyzeEmailPdfs findMatchingSalesOrder findMatchingEstimate client
              now existing st thread) as [_ Hround].
  fold st' in Hround.
  assert (Hsame : s1_db st' = s1_db st ->
            ~ In (CategorizedThread.threadKey thread) rest ->
            UniqueThreadKeys (s1_db st) ->
            (forall i a, rows (s1_db st) !! i = Some a ->
                         QbSyncAlert.threadKey a ∈ existing \/
                         ~ In (QbSyncAlert.threadKey a)
                              (CategorizedThread.threadKey thread :: rest)) ->
            UniqueThreadKeys (s1_db st') /\
            (forall i a, rows (s1_db st') !! i = Some a ->
                         QbSyncAlert.threadKey a ∈ existing \/
                         ~ In (QbSyncAlert.threadKey a) rest)).
  { intros -> _ Huniq Hkeys. split; [exact Huniq|].
    intros i a Hrow. destruct (Hkeys i a Hrow) as [H|H]; [now left|].
    right. intros Hin. apply H. now right. }
  unfold AlertManager.stage1Raises.
  destruct (fst (stage1Alert now thread)) as [data|] eqn:Hdata.
  - destruct (decide (CategorizedThread.threadKey thread ∈ existing)) as [Hex|Hnew].
    + destruct Hround as [Hdb _]. split; [now left | now apply Hsame].
    + destruct Hround as [Hdb _].
      destruct (stage1Alert_spec OUR_DOMAIN Docs isDomainTrusted mentionsPdf
                  analyzeEmailPdfs findMatchingSalesOrder findMatchingEstimate client
                  now thread data Hdata) as [Hkey _].
      rewrite Hdb. simpl. split.
      * intros _. right. exists (nextId (s1_db st)), data.
        now rewrite lookup_insert_eq.
      * intros Hrest Huniq Hkeys. split.
        -- intros i j a b Hi Hj Hab. simpl in Hi, Hj.
           destruct (decide (i = nextId (s1_db st))) as [->|Hi'];
             destruct (decide (j = nextId (s1_db st))) as [->|Hj']; [reflexivity| | |].
           ++ rewrite lookup_insert_eq in Hi. rewrite lookup_insert_ne in Hj by congruence.
              inversion Hi. subst a. exfalso.
              destruct (Hkeys j b Hj) as [H|H].
              ** apply Hnew. now rewrite <- Hkey, Hab.
              ** apply H. left. now rewrite <- Hkey, Hab.
           ++ rewrite lookup_insert_eq in Hj. rewrite lookup_insert_ne in Hi by congruence.
              inversion Hj. subst b. exfalso.
              destruct (Hkeys i a Hi) as [H|H].
              ** apply Hnew. now rewrite <- Hkey, <- Hab.
              ** apply H. left. now rewrite <- Hkey, <- Hab.
           ++ rewrite lookup_insert_ne in Hi, Hj by congruence. eauto.
        -- intros i a Hrow. simpl in Hrow.
           destruct (decide (i = nextId (s1_db st))) as [->|Hi'].
           ++ rewrite lookup_insert_eq in Hrow. inversion Hrow. subst a.
              right. now rewrite Hkey.
           ++ rewrite lookup_insert_ne in Hrow by congruence.
              destruct (Hkeys i a Hrow) as [H|H]; [now left|].
              right. intros Hin. apply H. now right.
  - destruct Hround as [Hdb _]. split; [|now apply Hsame].
    destruct (decide (CategorizedThread.threadKey thread ∈ existing)) as [Hex|Hnew];
      [now left|].
    rewrite bool_decide_eq_false_2 by exact Hnew. discriminate.
Qed.

Lemma analyzeFold_unique now existing threads :
  forall st : Stage1,
    AlertOps.SerialAhead (s1_db st) ->
    let st' := fold_left (round now existing) threads st in
    ((forall thread, In thread threads -> stage1Raises now existing thread = false) ->
     forall thread, In thread threads ->
       CategorizedThread.threadKey thread ∈ existing \/
       exists i a, rows (s1_db st') !! i = Some a /\
                   QbSyncAlert.threadKey a = CategorizedThread.threadKey thread) /\
    (NoDup (map CategorizedThread.threadKey threads) ->
     UniqueThreadKeys (s1_db st) ->
     (forall i a, rows (s1_db st) !! i = Some a ->
                  QbSyncAlert.threadKey a ∈ existing \/
                  ~ In (QbSyncAlert.threadKey a) (map CategorizedThread.threadKey threads)) ->
     UniqueThreadKeys (s1_db st')).
Proof.
  induction threads as [|thread threads IH]; intros st Hserial.
  - simpl. split; [intros _ t []|]. auto.
  - cbn [fold_left map].
    destruct (analyzeThread_unique now existing st thread
                (map CategorizedThread.threadKey threads) Hserial) as (Hhas1 & Huniq1).
    destruct (analyzeThread_inv OUR_DOMAIN Docs isDomainTrusted mentionsPdf
                analyzeEmailPdfs findMatchingSalesOrder findMatchingEstimate client
                now existing st thread Hserial) as (Hserial1 & _).
    destruct (analyzeFold_inv OUR_DOMAIN Docs isDomainTrusted mentionsPdf
                analyzeEmailPdfs findMatchingSalesOrder findMatchingEstimate client
                now existing threads _ Hserial1) as (_ & Hkeep2 & _).
    destruct (IH _ Hserial1) as (Hhas2 & Huniq2).
    split.
    + intros Hquiet t [<-|Hin];
        [|apply Hhas2; [intros t' Ht'; apply Hquiet; now right | exact Hin]].
      destruct Hhas1 as [H|(i & a & Hrow & Hk)]; [apply Hquiet; now left | now left|].
      right. exists i, a. auto.
    + intros Hnd Huniq Hkeys. apply NoDup_cons in Hnd as [Hnotin Hnd].
      destruct Huniq1 as [Hu Hk]; auto.
      intros Hin. apply Hnotin. now apply list_elem_of_In.
Qed.

(** A batch whose threads all have an alert already is passed over. *)
Lemma analyzeLoop_quiet now existing threads :
  (forall thread, In thread threads -> CategorizedThread.threadKey thread ∈ existing) ->
  forall st : Stage1,
    loopUntilRaise (analyzeThread now existing) threads st = (st, false).
Proof.
  induction threads as [|thread threads IH]; intros Hall st; [reflexivity|].
  cbn [loopUntilRaise]. unfold AlertManager.analyzeThread at 1.
  destruct (decide _) as [_|Hnot]; [|exfalso; apply Hnot, Hall; now left].
  apply IH. intros t Ht. apply Hall. now right.
Qed.

(** A thread that has an alert already gets no ledger call and no
    further alert. *)
Lemma callsFold_existing now existing threads k :
  k ∈ existing ->
  filter (fun c => callTag c = k) (flat_map (callsFor now existing) threads) = [].
Proof.
  intros Hk. induction threads as [|t threads IH]; [reflexivity|].
  cbn [flat_map]. rewrite filter_app, IH, app_nil_r.
  destruct (decide (CategorizedThread.threadKey t = k)) as [Heq|Hne].
  - unfold AlertManager.callsFor. rewrite Heq.
    destruct (decide (k ∈ existing)); [reflexivity | contradiction].
  - now apply callsFor_other.
Qed.

Lemma analyzeFold_new_keys now existing threads :
  forall st : Stage1,
    (forall i a, In (i, a) (newAlerts st) -> QbSyncAlert.threadKey a ∉ existing) ->
    forall i a,
      In (i, a) (newAlerts (fold_left (round now existing) threads st)) ->
      QbSyncAlert.threadKey a ∉ existing.
Proof.
  induction threads as [|thread threads IH]; intros st Hnew; [exact Hnew|].
  cbn [fold_left]. apply IH.
  destruct (analyzeThread_round OUR_DOMAIN Docs isDomainTrusted mentionsPdf
              analyzeEmailPdfs findMatchingSalesOrder findMatchingEstimate client
              now existing st thread) as [_ Hround].
  destruct (fst (stage1Alert now thread)) as [data|] eqn:Hdata;
    [|destruct Hround as [_ ->]; exact Hnew].
  destruct (decide _) as [Hex|Hfresh]; [destruct Hround as [_ ->]; exact Hnew|].
  destruct Hround as [_ ->]. intros i a Hin.
  apply in_app_iff in Hin as [Hin|[[= <- <-]|[]]]; [now apply (Hnew i a)|].
  destruct (stage1Alert_spec OUR_DOMAIN Docs isDomainTrusted mentionsPdf
              analyzeEmailPdfs findMatchingSalesOrder findMatchingEstimate client
              now thread data Hdata) as [-> _].
  exact Hfresh.
Qed.
End Stage1.

(** *** The summary *)

Lemma ofType_split (alerts : list (nat * QbSyncAlert.t)) :
  Permutation
    (ofType po_detected alerts ++ ofType po_detected_with_so alerts
     ++ ofType po_missing_so alerts ++ ofType no_qb_customer alerts
     ++ ofType suspicious_po_email alerts ++ ofType so_should_be_closed alerts)
    alerts.
Proof.
  induction alerts as [|[i a] alerts IH]; [reflexivity|].
  unfold ofType in *. cbn [List.filter]. symmetry.
  destruct (QbSyncAlert.alertType a); simpl;
    lazymatch goal with
    | |- Permutation (?x :: _) (?x :: _) => apply perm_skip; symmetry; exact IH
    | |- Permutation (?x :: _) (?A ++ ?x :: ?R) =>
        apply Permutation_cons_app; symmetry; exact IH
    | |- Permutation (?x :: _) (?A ++ ?B ++ ?x :: ?R) =>
        replace (A ++ B ++ x :: R) with ((A ++ B) ++ x :: R)
          by (rewrite <- !app_assoc; reflexivity);
        apply Permutation_cons_app; rewrite <- !app_assoc; symmetry; exact IH
    | |- Permutation (?x :: _) (?A ++ ?B ++ ?C ++ ?x :: ?R) =>
        replace (A ++ B ++ C ++ x :: R) with ((A ++ B ++ C) ++ x :: R)
          by (rewrite <- !app_assoc; reflexivity);
        apply Permutation_cons_app; rewrite <- !app_assoc; symmetry; exact IH
    | |- Permutation (?x :: _) (?A ++ ?B ++ ?C ++ ?D ++ ?x :: ?R) =>
        replace (A ++ B ++ C ++ D ++ x :: R) with ((A ++ B ++ C ++ D) ++ x :: R)
          by (rewrite <- !app_assoc; reflexivity);
        apply Permutation_cons_app; rewrite <- !app_assoc; symmetry; exact IH
    | |- Permutation (?x :: _) (?A ++ ?B ++ ?C ++ ?D ++ ?E ++ ?x :: ?R) =>
        replace (A ++ B ++ C ++ D ++ E ++ x :: R) with ((A ++ B ++ C ++ D ++ E) ++ x :: R)
          by (rewrite <- !app_assoc; reflexivity);
        apply Permutation_cons_app; rewrite <- !app_assoc; symmetry; exact IH
    end.
Qed.

End AlertMoreFacts.

Import AlertManager AlertResolution AlertSamples AlertMoreSamples.

(** X16: the auto-resolution, row by row.  It removes no row and changes
    no alert type.  A row is changed only when it is open and the ledger,
    asked in this run, settles it: a sales order matches a po_detected or
    po_missing_so alert that carries a ledger customer, or a customer
    matches the contact of a no_qb_customer alert; the row is then resolved
    with resolvedBy = auto.  Without a ledger client nothing changes.  All
    this holds whether the run returns or a ledger call throws on the
    way. *)
Theorem X16_auto_resolution_row_by_row
    (Docs : Type)
    (findMatchingSalesOrder : Docs -> option string -> option Z -> option QbDocument.t)
    (client : option (Ledger Docs)) (now : Z) (db : AlertDb)
    (alertId : nat) (alert : QbSyncAlert.t) :
  rows db !! alertId = Some alert ->
  exists alert',
    rows (s3_db (fst (checkAndResolveAlerts Docs findMatchingSalesOrder client now db)))
      !! alertId = Some alert' /\
    QbSyncAlert.alertType alert' = QbSyncAlert.alertType alert /\
    (Inert alert -> alert' = alert) /\
    (client = None -> alert' = alert) /\
    (alert' = alert \/
     alert' = closed st_resolved by_auto now alert /\
     QbSyncAlert.status alert = st_open /\
     exists qb, client = Some qb /\
       ((isPoAlert alert = true /\
         exists customerId,
           Js.truthy (QbSyncAlert.qbCustomerId alert) = Some customerId /\
           exists so,
             salesOrderNow Docs findMatchingSalesOrder qb customerId alert
             = Replies (Some so)) \/
        (QbSyncAlert.alertType alert = no_qb_customer /\
         exists email,
           Js.truthy (QbSyncAlert.contactEmail alert) = Some email /\
           exists matchResult,
             matchCustomer Docs qb email (Js.truthy (QbSyncAlert.contactName alert))
             = Replies (Some matchResult)))).
Proof.
  intros Hrow.
  destruct (AlertMoreFacts.checkAndResolveAlerts_row Docs findMatchingSalesOrder client
              now db alertId alert Hrow) as (alert' & Hrow' & Hcase).
  exists alert'. split; [exact Hrow'|]. split; [|split; [|split]].
  - destruct Hcase as [->|[-> _]]; reflexivity.
  - intros Hinert.
    pose proof (AlertMoreFacts.checkAndResolveAlerts_inert Docs findMatchingSalesOrder
                  client now db alertId alert Hrow Hinert) as Hsame.
    congruence.
  - intros Hnone. destruct Hcase as [->|(_ & qb & Hqb & _)]; [reflexivity | congruence].
  - destruct Hcase as [->|(-> & qb & Hqb & Hsettled)]; [now left|].
    right. split; [reflexivity|].
    destruct Hsettled as [[Hpo Hso]|[Hnc Hcust]].
    + assert (Hopen : QbSyncAlert.status alert = st_open).
      { unfold isPoAlert in Hpo. apply andb_true_iff in Hpo as [_ Hs].
        now destruct (QbSyncAlert.status alert). }
      split; [exact Hopen|]. exists qb. split; [exact Hqb|]. left.
      split; [exact Hpo|]. unfold salesOrderExists in Hso.
      destruct (Js.truthy (QbSyncAlert.qbCustomerId alert)) as [c|]; [|discriminate].
      exists c. split; [reflexivity|].
      destruct (salesOrderNow _ _ _ _ _) as [[so|]|]; [eauto | discriminate..].
    + unfold isNoCustomerAlert in Hnc. apply andb_true_iff in Hnc as [Hty Hs].
      split; [now destruct (QbSyncAlert.status alert)|].
      exists qb. split; [exact Hqb|]. right.
      split; [now destruct (QbSyncAlert.alertType alert)|].
      unfold customerExists in Hcust.
      destruct (Js.truthy (QbSyncAlert.contactEmail alert)) as [e|]; [|discriminate].
      exists e. split; [reflexivity|].
      destruct (matchCustomer _ _ _ _) as [[m|]|]; [eauto | discriminate..].
Qed.

Lemma X16_auto_resolution_witness :
  exists alert',
    rows (s3_db (fst (checkAndResolveAlerts SampleDocs sameReference (Some acmeLedger)
                                            fiveHours dbAcme))) !! 1%nat = Some alert' /\
    QbSyncAlert.alertType alert' = po_detected.
Proof.
  destruct (X16_auto_resolution_row_by_row SampleDocs sameReference (Some acmeLedger)
              fiveHours dbAcme 1%nat pendingAcme) as (alert' & Hrow & Htype & _).
  - vm_compute. reflexivity.
  - exists alert'. split; [exact Hrow | exact Htype].
Defined.

(** X17: no recurring check ever acts on an alert that is closed, that is
    of a kind that is only reported (po_detected_with_so,
    suspicious_po_email, so_should_be_closed), or that has been escalated to
    po_missing_so without a ledger customer: through any sequence of
    escalation checks and auto-resolutions, at any times and whatever the
    ledger answers, its row stays as it is.  Such an escalated alert can
    only be closed by hand. *)
Theorem X17_inert_alerts_are_left_alone
    (Docs : Type)
    (findMatchingSalesOrder : Docs -> option string -> option Z -> option QbDocument.t)
    (client : option (Ledger Docs)) (checks : list Check) (db : AlertDb)
    (alertId : nat) (alert : QbSyncAlert.t) :
  rows db !! alertId = Some alert ->
  Inert alert ->
  rows (fold_left (runCheck Docs findMatchingSalesOrder client) checks db) !! alertId
  = Some alert.
Proof. apply AlertMoreFacts.runChecks_inert. Qed.

Lemma X17_inert_alerts_witness :
  QbSyncAlert.alertType escalatedNoCustomer = po_missing_so /\
  QbSyncAlert.status escalatedNoCustomer = st_open /\
  rows (fold_left (runCheck SampleDocs sameReference (Some acmeLedger))
                  [RunResolution fiveHours; RunEscalations tenHours; RunResolution tenHours]
                  dbEscalated) !! 1%nat
  = Some escalatedNoCustomer.
Proof.
  split; [reflexivity|]. split; [reflexivity|].
  apply (X17_inert_alerts_are_left_alone SampleDocs sameReference (Some acmeLedger)).
  - vm_compute. reflexivity.
  - right. right. right. right. split; reflexivity.
Defined.

(** X18: stage 1 creates each alert once.  Take a table whose serial id is
    ahead of its rows and run stage 1 twice over the same batch of threads.
    The first run loses no row, and when the thread keys of the batch are
    pairwise distinct, a table with at most one alert per thread key stays
    so, whether the run returns or a ledger call throws on the way.  In the
    second run a thread that has an alert gets no ledger call and no further
    alert.  When the first run returned, the second one creates no alert,
    makes no ledger call, leaves the table as the first run left it, and
    returns. *)
Theorem X18_stage1_creates_each_alert_once
    (OUR_DOMAIN : string) (Docs : Type)
    (isDomainTrusted : string -> bool) (mentionsPdf : Email -> bool)
    (analyzeEmailPdfs : Email -> option PoDetails.t)
    (findMatchingSalesOrder findMatchingEstimate :
       Docs -> option string -> option Z -> option QbDocument.t)
    (client : option (Ledger Docs))
    (now1 now2 : Z) (threads : list CategorizedThread.t) (db : AlertDb) :
  AlertOps.SerialAhead db ->
  let run now db :=
    analyzeNewPoEmails OUR_DOMAIN Docs isDomainTrusted mentionsPdf analyzeEmailPdfs
                       findMatchingSalesOrder findMatchingEstimate client now threads db in
  let db1 := s1_db (fst (run now1 db)) in
  (snd (run now1 db) = false ->
   run now2 db1 = ({| s1_db := db1; newAlerts := []; s1_calls := [] |}, false)) /\
  (forall k,
     k ∈ existingThreadKeys db1 ->
     filter (fun c => callTag c = k) (s1_calls (fst (run now2 db1))) = [] /\
     forall i a, In (i, a) (newAlerts (fst (run now2 db1))) -> QbSyncAlert.threadKey a <> k) /\
  (forall i a, rows db !! i = Some a -> rows db1 !! i = Some a) /\
  (NoDup (map CategorizedThread.threadKey threads) ->
   UniqueThreadKeys db -> UniqueThreadKeys db1).
Proof.
  intros Hserial run db1.
  set (raises1 := stage1Raises OUR_DOMAIN Docs isDomainTrusted mentionsPdf analyzeEmailPdfs
                    findMatchingSalesOrder findMatchingEstimate client
                    now1 (existingThreadKeys db)).
  set (init := {| s1_db := db; newAlerts := []; s1_calls := [] |}).
  assert (Hrun1 : run now1 db
                  = (fold_left (fun st thread =>
                                  fst (analyzeThread OUR_DOMAIN Docs isDomainTrusted
                                         mentionsPdf analyzeEmailPdfs findMatchingSalesOrder
                                         findMatchingEstimate client
                                         now1 (existingThreadKeys db) st thread))
                               (attempted raises1 threads) init,
                     existsb raises1 threads))
    by apply AlertManagerFacts.analyzeNewPoEmails_fold.
  destruct (AlertManagerFacts.analyzeFold_inv OUR_DOMAIN Docs isDomainTrusted mentionsPdf
              analyzeEmailPdfs findMatchingSalesOrder findMatchingEstimate client now1
              (existingThreadKeys db) (attempted raises1 threads) init Hserial)
    as (Hserial1 & Hkeep & _).
  destruct (AlertMoreFacts.analyzeFold_unique OUR_DOMAIN Docs isDomainTrusted mentionsPdf
              analyzeEmailPdfs findMatchingSalesOrder findMatchingEstimate client now1
              (existingThreadKeys db) (attempted raises1 threads) init Hserial)
    as (Hhas & Huniq).
  assert (Hdb1 : db1 = s1_db (fold_left
                                (fun st thread =>
                                   fst (analyzeThread OUR_DOMAIN Docs isDomainTrusted
                                          mentionsPdf analyzeEmailPdfs findMatchingSalesOrder
                                          findMatchingEstimate client
                                          now1 (existingThreadKeys db) st thread))
                                (attempted raises1 threads) init))
    by (subst db1; now rewrite Hrun1).
  rewrite <- Hdb1 in Hserial1, Hkeep, Hhas, Huniq. simpl in Hkeep, Huniq.
  split; [|split; [|split; [exact Hkeep|]]].
  - intros Hreturned. rewrite Hrun1 in Hreturned. cbn [snd] in Hreturned.
    rewrite (LoopFacts.attempted_all raises1 threads Hreturned) in Hhas.
    apply AlertMoreFacts.analyzeLoop_quiet. intros thread Hin.
    apply AlertManagerFacts.existingThreadKeys_spec.
    destruct (Hhas (LoopFacts.existsb_false raises1 threads Hreturned) thread Hin)
      as [Hex|Hnew]; [|exact Hnew].
    apply AlertManagerFacts.existingThreadKeys_spec in Hex as (i & a & Hrow & Hk).
    exists i, a. split; [now apply Hkeep | exact Hk].
  - intros k Hk.
    assert (Hrun2 : run now2 db1 = _)
      by apply AlertManagerFacts.analyzeNewPoEmails_fold.
    rewrite Hrun2. cbn [fst]. split.
    + destruct (AlertManagerFacts.analyzeFold_inv OUR_DOMAIN Docs isDomainTrusted
                  mentionsPdf analyzeEmailPdfs findMatchingSalesOrder findMatchingEstimate
                  client now2 (existingThreadKeys db1)
                  (attempted (stage1Raises OUR_DOMAIN Docs isDomainTrusted mentionsPdf
                                analyzeEmailPdfs findMatchingSalesOrder
                                findMatchingEstimate client now2 (existingThreadKeys db1))
                             threads)
                  {| s1_db := db1; newAlerts := []; s1_calls := [] |} Hserial1)
        as (_ & _ & _ & _ & ->).
      cbn [s1_calls app]. now apply AlertMoreFacts.callsFold_existing.
    + intros i a Hin Hkey.
      eapply AlertMoreFacts.analyzeFold_new_keys in Hin; [|intros ? ? []].
      apply Hin. now rewrite Hkey.
  - intros Hnd Hu. apply Huniq; [|exact Hu|].
    + now apply (LoopFacts.NoDup_attempted raises1 CategorizedThread.threadKey).
    + intros i a Hrow. left. apply AlertManagerFacts.existingThreadKeys_spec. eauto.
Qed.

Lemma X18_stage1_once_witness :
  let run now db :=
    analyzeNewPoEmails ourDomain SampleDocs trustAcme namesPdf readsPo4471 sameReference
                       noEstimate (Some acmeLedger) now [poThread; poThreadWithPdf] db in
  length (newAlerts (fst (run 1000 emptyDb))) = 2%nat /\
  snd (run 1000 emptyDb) = false /\
  newAlerts (fst (run 2000 (s1_db (fst (run 1000 emptyDb))))) = [].
Proof.
  split; [vm_compute; reflexivity|]. split; [vm_compute; reflexivity|].
  destruct (X18_stage1_creates_each_alert_once ourDomain SampleDocs trustAcme namesPdf
              readsPo4471 sameReference noEstimate (Some acmeLedger) 1000 2000
              [poThread; poThreadWithPdf] emptyDb) as (Hquiet & _).
  - intros i a Hrow. vm_compute in Hrow. discriminate.
  - cbv zeta in Hquiet. rewrite Hquiet; [reflexivity | vm_compute; reflexivity].
Defined.

(** After a run that the ledger cut short, the next run takes up the
    threads that are still without an alert. *)
Example stage1_after_timeout :
  let cut := analyzeNewPoEmails ourDomain SampleDocs trustAcme namesPdf readsPo4471
               sameReference noEstimate (Some ledgerTimesOut) 1000
               [poThread; poThreadWithPdf] emptyDb in
  let again := analyzeNewPoEmails ourDomain SampleDocs trustAcme namesPdf readsPo4471
                 sameReference noEstimate (Some acmeLedger) 2000
                 [poThread; poThreadWithPdf] (s1_db (fst cut)) in
  snd cut = true /\ newAlerts (fst cut) = [] /\
  snd again = false /\ length (newAlerts (fst again)) = 2%nat.
Proof. repeat split; vm_compute; reflexivity. Qed.

Module SummaryFacts.
Import JobsReport MorningReview.

Lemma getOpenAlerts_spec (alertRows : gmap nat QbSyncAlert.t) i a :
  In (i, a) (getOpenAlerts alertRows) <->
  alertRows !! i = Some a /\ QbSyncAlert.status a = st_open.
Proof.
  unfold getOpenAlerts. rewrite filter_In, <- list_elem_of_In, elem_of_map_to_list.
  destruct (QbSyncAlert.status a); simpl; intuition discriminate.
Qed.

Lemma ofType_spec ty alerts i a :
  In (i, a) (ofType ty alerts) <-> In (i, a) alerts /\ QbSyncAlert.alertType a = ty.
Proof.
  unfold ofType. rewrite filter_In.
  destruct (QbSyncAlert.alertType a), ty; simpl; intuition discriminate.
Qed.

Lemma In_map_fst_ofType ty alerts i :
  In i (map fst (ofType ty alerts)) <->
  exists a, In (i, a) alerts /\ QbSyncAlert.alertType a = ty.
Proof.
  rewrite in_map_iff. split.
  - intros ([j a] & <- & Hin). exists a. now apply ofType_spec.
  - intros (a & Hin). exists (i, a). split; [reflexivity | now apply ofType_spec].
Qed.

Lemma reviewedIds_spec (alertRows : gmap nat QbSyncAlert.t) i :
  In i (reviewedIds (getOpenAlertsSummary alertRows)) <->
  exists a, alertRows !! i = Some a /\ reviewed a = true.
Proof.
  unfold reviewedIds, getOpenAlertsSummary. simpl.
  rewrite !in_app_iff, !In_map_fst_ofType. unfold reviewed. split.
  - intros H.
    assert (Hex : exists a, In (i, a) (getOpenAlerts alertRows) /\
                            QbSyncAlert.alertType a <> po_detected_with_so).
    { destruct H as [(a & Hin & Ht)|[(a & Hin & Ht)|[(a & Hin & Ht)|[(a & Hin & Ht)
                     |(a & Hin & Ht)]]]]; exists a; (split; [exact Hin|]);
        rewrite Ht; discriminate. }
    destruct Hex as (a & Hin & Ht). apply getOpenAlerts_spec in Hin as [Hrow Hs].
    exists a. split; [exact Hrow|]. rewrite Hs. simpl.
    destruct (QbSyncAlert.alertType a); try reflexivity. contradiction.
  - intros (a & Hrow & Hrev). apply andb_true_iff in Hrev as [Hs Ht].
    assert (Hin : In (i, a) (getOpenAlerts alertRows)).
    { apply getOpenAlerts_spec. split; [exact Hrow|].
      now destruct (QbSyncAlert.status a). }
    destruct (QbSyncAlert.alertType a) eqn:Hty; try discriminate Ht.
    + left. eauto.
    + right. right. left. eauto.
    + right. right. right. left. eauto.
    + right. left. eauto.
    + right. right. right. right. eauto.
Qed.

Lemma notified_idem now a : notified now (notified now a) = notified now a.
Proof. reflexivity. Qed.

Lemma markFold_lookup now ids :
  forall (r : gmap nat QbSyncAlert.t) i,
    fold_left (fun r alertId => alter (notified now) alertId r) ids r !! i
    = (if bool_decide (i ∈ ids) then notified now else fun a => a) <$> r !! i.
Proof.
  induction ids as [|j ids IH]; intros r i; cbn [fold_left].
  - rewrite bool_decide_eq_false_2 by apply not_elem_of_nil. now destruct (r !! i).
  - rewrite IH. destruct (decide (j = i)) as [->|Hne].
    + rewrite lookup_alter_eq.
      rewrite (bool_decide_eq_true_2 (i ∈ i :: ids)) by (apply elem_of_cons; now left).
      destruct (r !! i) as [a|]; [|reflexivity]. simpl.
      now destruct (bool_decide (i ∈ ids)).
    + rewrite lookup_alter_ne by exact Hne.
      destruct (bool_decide_reflect (i ∈ ids)) as [Hin|Hnotin].
      * now rewrite bool_decide_eq_true_2 by (apply elem_of_cons; now right).
      * rewrite bool_decide_eq_false_2; [reflexivity|].
        intros H. apply elem_of_cons in H as [H|H]; [congruence | contradiction].
Qed.

End SummaryFacts.

Import JobsReport MorningReview.

(** X19: the summary of the open alerts files every open alert under
    exactly one of its six headings: the six lists together are a
    rearrangement of the open alerts, which are the rows with status open.
    The total that the morning review prints leaves out the alerts that
    already have a sales order. *)
Theorem X19_summary_partitions_the_open_alerts (alertRows : gmap nat QbSyncAlert.t) :
  let summary := getOpenAlertsSummary alertRows in
  Permutation
    (poDetected summary ++ poWithSo summary ++ poMissingSo summary
     ++ noQbCustomer summary ++ suspiciousEmail summary ++ soShouldBeClosed summary)
    (getOpenAlerts alertRows) /\
  (forall i a, In (i, a) (getOpenAlerts alertRows) <->
               alertRows !! i = Some a /\ QbSyncAlert.status a = st_open) /\
  (totalOpen summary + length (poWithSo summary))%nat = length (getOpenAlerts alertRows).
Proof.
  intros summary.
  pose proof (AlertMoreFacts.ofType_split (getOpenAlerts alertRows)) as Hperm.
  split; [exact Hperm|]. split; [apply SummaryFacts.getOpenAlerts_spec|].
  apply Permutation_length in Hperm. rewrite <- Hperm.
  unfold totalOpen, summary, getOpenAlertsSummary. simpl.
  rewrite !length_app. lia.
Qed.


(** X21: consecutive hourly windows are contiguous.  The window of a run
    ends at the time of the run; after a run that is no preview and that
    returns, with or without activity to report, the next window starts
    exactly there.  A preview never moves the checkpoint (the alert check
    leaving it alone), and no run writes another row of the sync
    metadata. *)
Theorem X21_hourly_windows_are_contiguous
    (sendReportEmail : Z -> AlertSummary -> bool)
    (syncAndCheck : Z -> TimeWindow -> State -> AlertSummary * State)
    (preview : bool) (now : Z) (st : State) :
  let window := getHourlyWindow now st in
  let checked := syncAndCheck now window st in
  let run := runHourlyCheck sendReportEmail syncAndCheck preview now st in
  end_ window = now /\
  (preview = false -> fst run = Returned ->
   forall later, getHourlyWindow later (snd run) = {| start := now; end_ := later |}) /\
  (preview = false -> hasContent (fst checked) = false -> fst run = Returned) /\
  (LeavesCheckpoint syncAndCheck -> preview = true ->
   fst run = Returned /\
   forall later, getHourlyWindow later (snd run) = getHourlyWindow later st) /\
  (forall mailbox, mailbox <> JOBS_CHECK_KEY ->
                   syncMetadata (snd run) !! mailbox = syncMetadata (snd checked) !! mailbox).
Proof.
  intros window checked run. subst run checked. unfold runHourlyCheck. fold window.
  assert (Hsaved : forall t s later,
            getHourlyWindow later (saveJobCheckTime t s) = {| start := t; end_ := later |}).
  { intros t s later. unfold getHourlyWindow, getLastJobCheckTime, saveJobCheckTime. simpl.
    destruct (syncMetadata s !! JOBS_CHECK_KEY) eqn:Hlast.
    - now rewrite lookup_alter_eq, Hlast.
    - now rewrite lookup_insert_eq. }
  assert (Hother : forall t s mailbox, mailbox <> JOBS_CHECK_KEY ->
            syncMetadata (saveJobCheckTime t s) !! mailbox = syncMetadata s !! mailbox).
  { intros t s mailbox Hne. unfold saveJobCheckTime. simpl.
    destruct (syncMetadata s !! JOBS_CHECK_KEY).
    - now rewrite lookup_alter_ne.
    - now rewrite lookup_insert_ne. }
  split; [reflexivity|].
  pose proof (fun H : LeavesCheckpoint syncAndCheck => H now window st) as Hframe.
  destruct (syncAndCheck now window st) as [result st1]. simpl in *.
  destruct (hasContent result); simpl.
  - destruct preview; simpl.
    + split; [discriminate|]. split; [discriminate|]. split; [|reflexivity].
      intros Hf _. split; [reflexivity|]. intros later. unfold getHourlyWindow.
      now rewrite (Hframe Hf).
    + destruct (sendReportEmail now result); simpl.
      * split; [intros _ _; apply Hsaved|]. split; [discriminate|].
        split; [discriminate|]. intros mailbox Hne. now rewrite Hother.
      * split; [discriminate|]. split; [discriminate|]. split; [discriminate|]. reflexivity.
  - destruct preview; simpl.
    + split; [discriminate|]. split; [discriminate|]. split; [|reflexivity].
      intros Hf _. split; [reflexivity|]. intros later. unfold getHourlyWindow.
      now rewrite (Hframe Hf).
    + split; [intros _ _; apply Hsaved|]. split; [reflexivity|].
      split; [discriminate|]. intros mailbox Hne. now rewrite Hother.
Qed.

(** ** The ledger client's retry loop *)

Module RetryFacts.
Import ConductorClient.

Section WithNetwork.
Variable fetch : nat -> FetchOutcome.
Variable parseInt : string -> option Z.

(** The loop from [attempt] on makes the attempts [attempt],
    [attempt + 1], ... up to its last one. *)
Lemma fetchLoop_spec remaining :
  forall attempt,
    let result := fst (fetchLoop fetch parseInt remaining attempt) in
    let made := attempts (snd (fetchLoop fetch parseInt remaining attempt)) in
    exists n,
      made = seq attempt n /\ (n <= remaining)%nat /\
      (forall k, (attempt <= k < attempt + n - 1)%nat -> failed fetch k) /\
      match result with
      | Returns status retryAfter =>
          (1 <= n)%nat /\ fetch (attempt + n - 1)%nat = Answers status retryAfter /\
          status <> 429
      | ThrowsTimedOut =>
          n = remaining /\ (1 <= n)%nat /\ fetch (attempt + n - 1)%nat = ThrowsAbort
      | Rethrows message =>
          n = remaining /\ (1 <= n)%nat /\
          fetch (attempt + n - 1)%nat = ThrowsOther message
      | ThrowsMaxRetries =>
          n = remaining /\
          (n = 0%nat \/ exists retryAfter,
                          fetch (attempt + n - 1)%nat = Answers 429 retryAfter)
      end.
Proof.
  induction remaining as [|remaining IH]; intros attempt; cbn zeta.
  - exists 0%nat. simpl. split; [reflexivity|]. split; [lia|].
    split; [intros k Hk; lia|]. auto.
  - assert (Hgo : forall delay,
              failed fetch attempt ->
              (remaining = 0%nat -> exists retryAfter, fetch attempt = Answers 429 retryAfter) ->
              let r := fetchLoop fetch parseInt remaining (S attempt) in
              let result := fst r in
              let made := attempts (Fetch attempt :: Sleep delay :: snd r) in
              exists n,
                made = seq attempt n /\ (n <= S remaining)%nat /\
                (forall k, (attempt <= k < attempt + n - 1)%nat -> failed fetch k) /\
                match result with
                | Returns status retryAfter =>
                    (1 <= n)%nat /\
                    fetch (attempt + n - 1)%nat = Answers status retryAfter /\
                    status <> 429
                | ThrowsTimedOut =>
                    n = S remaining /\ (1 <= n)%nat /\
                    fetch (attempt + n - 1)%nat = ThrowsAbort
                | Rethrows message =>
                    n = S remaining /\ (1 <= n)%nat /\
                    fetch (attempt + n - 1)%nat = ThrowsOther message
                | ThrowsMaxRetries =>
                    n = S remaining /\
                    (n = 0%nat \/ exists retryAfter,
                                    fetch (attempt + n - 1)%nat = Answers 429 retryAfter)
                end).
    { intros delay Hfailed Hlast. cbn zeta.
      destruct (IH (S attempt)) as (n & Hmade & Hle & Hfail & Hres).
      exists (S n). cbn [attempts omap list_omap]. fold (attempts (snd (fetchLoop fetch parseInt remaining (S attempt)))).
      split; [simpl; now rewrite Hmade|]. split; [lia|]. split.
      - intros k Hk. destruct (Nat.eq_dec k attempt) as [->|Hne]; [exact Hfailed|].
        apply Hfail. lia.
      - replace (attempt + S n - 1)%nat with (S attempt + n - 1)%nat by lia.
        destruct (fst (fetchLoop fetch parseInt remaining (S attempt))).
        + destruct Hres as (H1 & H2 & H3). repeat split; try assumption. lia.
        + destruct Hres as (H1 & H2 & H3). repeat split; try assumption; lia.
        + destruct Hres as (H1 & H2 & H3). repeat split; try assumption; lia.
        + destruct Hres as (H1 & H2). split; [lia|]. right.
          destruct H2 as [->|H2]; [|exact H2].
          assert (remaining = 0%nat) by lia.
          replace (S attempt + 0 - 1)%nat with attempt by lia. now apply Hlast. }
    cbn [fetchLoop]. unfold failed in Hgo.
    destruct (fetch attempt) as [status retryAfter| |message] eqn:Hfetch.
    + destruct (Z.eqb_spec status 429) as [->|Hne].
      * specialize (Hgo (rateLimitDelay parseInt attempt retryAfter) eq_refl
                        (fun _ => ex_intro _ retryAfter eq_refl)).
        cbn zeta in Hgo.
        now destruct (fetchLoop fetch parseInt remaining (S attempt)) as [result events].
      * exists 1%nat. simpl. split; [reflexivity|]. split; [lia|].
        split; [intros k Hk; lia|]. split; [lia|].
        replace (attempt + 1 - 1)%nat with attempt by lia. auto.
    + destruct remaining as [|remaining'].
      * exists 1%nat. simpl. split; [reflexivity|]. split; [lia|].
        split; [intros k Hk; lia|]. split; [reflexivity|]. split; [lia|].
        now replace (attempt + 1 - 1)%nat with attempt by lia.
      * specialize (Hgo (Some (2 ^ Z.of_nat attempt * 1000)) I
                        (fun H => ltac:(discriminate H))).
        cbn zeta in Hgo.
        now destruct (fetchLoop fetch parseInt (S remaining') (S attempt))
          as [result events].
    + destruct remaining as [|remaining'].
      * exists 1%nat. simpl. split; [reflexivity|]. split; [lia|].
        split; [intros k Hk; lia|]. split; [reflexivity|]. split; [lia|].
        now replace (attempt + 1 - 1)%nat with attempt by lia.
      * specialize (Hgo (Some (2 ^ Z.of_nat attempt * 1000)) I
                        (fun H => ltac:(discriminate H))).
        cbn zeta in Hgo.
        now destruct (fetchLoop fetch parseInt (S remaining') (S attempt))
          as [result events].
Qed.
End WithNetwork.

End RetryFacts.

Import ConductorClient.

(** X22: the retry loop makes at most [maxRetries] requests, one after the
    other.  It returns the first response that is not a 429; every attempt
    before the last one made was a 429 or threw.  It throws only after
    [maxRetries] requests: the error of the last request (a timeout for an
    abort), or "max retries exceeded" when the last response was a 429 (or
    when [maxRetries] is 0 and no request is made). *)
Theorem X22_retry_loop_is_bounded
    (fetch : nat -> FetchOutcome) (parseInt : string -> option Z) (maxRetries : nat) :
  let result := fst (fetchWithRetry fetch parseInt maxRetries) in
  let made := attempts (snd (fetchWithRetry fetch parseInt maxRetries)) in
  exists n,
    made = seq 0 n /\ (n <= maxRetries)%nat /\
    (forall k, (k < n - 1)%nat -> failed fetch k) /\
    match result with
    | Returns status retryAfter =>
        (1 <= n)%nat /\ fetch (n - 1)%nat = Answers status retryAfter /\ status <> 429
    | ThrowsTimedOut => n = maxRetries /\ (1 <= n)%nat /\ fetch (n - 1)%nat = ThrowsAbort
    | Rethrows message =>
        n = maxRetries /\ (1 <= n)%nat /\ fetch (n - 1)%nat = ThrowsOther message
    | ThrowsMaxRetries =>
        n = maxRetries /\
        (n = 0%nat \/ exists retryAfter, fetch (n - 1)%nat = Answers 429 retryAfter)
    end.
Proof.
  intros result made. subst result made. unfold fetchWithRetry.
  destruct (RetryFacts.fetchLoop_spec fetch parseInt maxRetries 0%nat)
    as (n & Hmade & Hle & Hfail & Hres).
  exists n. split; [exact Hmade|]. split; [exact Hle|]. split.
  - intros k Hk. apply Hfail. lia.
  - exact Hres.
Qed.

Example retry_waits_as_told_then_backs_off :
  fetchWithRetry busyTwice readsSeven MAX_RETRIES
  = (Returns 200 None,
     [Fetch 0; Sleep (Some 7000); Fetch 1; Sleep (Some 2000); Fetch 2]).
Proof. reflexivity. Qed.

(** ** More about regular expressions *)

Module RegexMore.
Import Regex RegexFacts.

Lemma Matches_Seq a b s :
  Matches (Seq a b) s <-> exists s1 s2, s = s1 ++ s2 /\ Matches a s1 /\ Matches b s2.
Proof.
  split; [apply Matches_Seq_inv|]. intros (s1 & s2 & -> & Ha & Hb). now apply MSeq.
Qed.

Lemma Matches_Alt a b s : Matches (Alt a b) s <-> Matches a s \/ Matches b s.
Proof.
  split; [apply Matches_Alt_inv|]. intros [H|H]; [now apply MAltL | now apply MAltR].
Qed.

Lemma Matches_Eps s : Matches Eps s <-> s = [].
Proof. split; [intros H; now inversion H | intros ->; constructor]. Qed.

Lemma Matches_Cls p s : Matches (Cls p) s <-> exists c, s = [c] /\ p c = true.
Proof.
  split; [apply Matches_Cls_inv|]. intros (c & -> & Hc). now apply MCls.
Qed.

Lemma Matches_opt r s : Matches (opt r) s <-> s = [] \/ Matches r s.
Proof. unfold opt. now rewrite Matches_Alt, Matches_Eps. Qed.

Lemma Matches_chr c s : Matches (chr c) s <-> s = [c].
Proof.
  unfold chr. rewrite Matches_Cls. split.
  - intros (c' & -> & Hc). apply Ascii.eqb_eq in Hc. now subst.
  - intros ->. exists c. split; [reflexivity | apply Ascii.eqb_refl].
Qed.

Lemma Matches_litChars p s : Matches (litChars p) s <-> s = p.
Proof.
  revert s. induction p as [|c p IH]; intros s; simpl.
  - apply Matches_Eps.
  - rewrite Matches_Seq. split.
    + intros (s1 & s2 & -> & H1 & H2). apply Matches_chr in H1. apply IH in H2.
      now subst.
    + intros ->. exists [c], p. split; [reflexivity|].
      split; [now apply Matches_chr | now apply IH].
Qed.

Lemma Matches_lit p s : Matches (lit p) s <-> s = Js.chars p.
Proof. apply Matches_litChars. Qed.

(** A star of a character class matches the strings over the class. *)
Lemma Matches_Star_Cls p s :
  Matches (Star (Cls p)) s <-> Forall (fun c => p c = true) s.
Proof.
  split.
  - intros H. remember (Star (Cls p)) as r eqn:Hr.
    induction H as [| | | | | |a s1 s2 H1 _ H2 IH2]; try discriminate; [constructor|].
    inversion Hr. subst a. apply Matches_Cls in H1 as (c & -> & Hc).
    constructor; [exact Hc | now apply IH2].
  - induction 1 as [|c s Hc _ IH]; [constructor|].
    apply (MStarApp (Cls p) [c] s); [now apply MCls | exact IH].
Qed.

Lemma testWhole_spec r s : testWhole r s = true <-> Matches r (Js.chars s).
Proof. apply matchesChars_spec. Qed.

End RegexMore.

(** ** Matching a purchase order to a ledger document *)

Module JobDocumentsFacts.
Import Regex RegexMore JobDocuments.

Lemma chars_inj a b : Js.chars a = Js.chars b -> a = b.
Proof.
  intros H. apply (f_equal Js.str) in H. now rewrite !JsFacts.str_chars in H.
Qed.

Lemma numberMatches_spec poNorm docNorm :
  numberMatches poNorm docNorm = true <-> ExtendsBy poNorm docNorm.
Proof.
  unfold numberMatches, ExtendsBy, RevisionSuffix. rewrite !orb_true_iff.
  rewrite !testWhole_spec. unfold prefixPattern, revisionPattern, lower, digit.
  rewrite !Matches_Seq. split.
  - intros [[Heq|Hpre]|Hrev].
    + apply String.eqb_eq in Heq. subst docNorm. exists []. rewrite app_nil_r.
      split; [reflexivity|]. right. exists [], []. split; [reflexivity|].
      split; [now left | constructor].
    + destruct Hpre as (s1 & s2 & Heq & H1 & H2). apply Matches_lit in H1. subst s1.
      apply Matches_Cls in H2 as (c & -> & Hc). exists [c]. split; [exact Heq|].
      left. eauto.
    + destruct Hrev as (s1 & s2 & Heq & H1 & H2). apply Matches_lit in H1. subst s1.
      apply Matches_Seq in H2 as (pre & digits & -> & Hpre & Hdigits).
      exists (pre ++ digits). split; [exact Heq|]. right. exists pre, digits.
      split; [reflexivity|]. split; [|now apply Matches_Star_Cls].
      apply Matches_opt in Hpre as [->|Hpre]; [now left|]. right.
      apply Matches_Alt in Hpre as [H|H]; apply Matches_lit in H; auto.
  - intros (suffix & Heq & [(c & -> & Hc)|(pre & digits & -> & Hpre & Hdigits)]).
    + left. right. exists (Js.chars poNorm), [c]. split; [exact Heq|].
      split; [now apply Matches_lit | apply Matches_Cls; eauto].
    + right. exists (Js.chars poNorm), (pre ++ digits). split; [exact Heq|].
      split; [now apply Matches_lit|]. apply Matches_Seq. exists pre, digits.
      split; [reflexivity|]. split; [|now apply Matches_Star_Cls].
      apply Matches_opt. destruct Hpre as [->|[->| ->]]; [now left | |]; right;
        apply Matches_Alt; [left | right]; now apply Matches_lit.
Qed.

(** [find] returns the first element that passes the test. *)
Lemma find_first {A : Type} (p : A -> bool) (l : list A) x :
  find p l = Some x ->
  p x = true /\
  exists before after, l = before ++ x :: after /\ forall y, In y before -> p y = false.
Proof.
  induction l as [|y l IH]; simpl; [discriminate|].
  destruct (p y) eqn:Hy.
  - intros [= <-]. split; [exact Hy|]. exists [], l. split; [reflexivity|]. intros z [].
  - intros H. destruct (IH H) as (Hx & before & after & -> & Hbefore).
    split; [exact Hx|]. exists (y :: before), after. split; [reflexivity|].
    intros z [<-|Hz]; auto.
Qed.

End JobDocumentsFacts.

Import JobDocuments.

(** X23: which document matches a purchase order.  A document matches by
    number exactly when the PO number, reduced to its letters and digits in
    lower case, has at least three characters and the reference or the memo
    of the document, reduced likewise, is that number followed by nothing,
    by one letter, or by digits after an optional "r" or "rev".  So a
    reference that continues the number with further digits matches too.
    [matchByPoOrAmount] returns the first document of the list that matches
    by number or by amount. *)
Theorem X23_matching_documents_by_number
    (Amount : Type) (withinTolerance : Amount -> string -> bool)
    (documents : list Document) (poNumber : option string) (poAmount : option Amount) :
  (forall doc,
     matchesByNumber poNumber doc = true <->
     exists po,
       Js.truthy poNumber = Some po /\
       (3 <= String.length (normalize po))%nat /\
       (ExtendsBy (normalize po) (normalize (Js.orDefault (refNumber doc) EmptyString)) \/
        ExtendsBy (normalize po) (normalize (Js.orDefault (memo doc) EmptyString)))) /\
  (forall doc,
     matchByPoOrAmount Amount withinTolerance documents poNumber poAmount = Some doc ->
     (matchesByNumber poNumber doc = true
      \/ matchesByAmount Amount withinTolerance poAmount doc = true) /\
     exists before after,
       documents = before ++ doc :: after /\
       forall d, In d before ->
                 matchesByNumber poNumber d = false /\
                 matchesByAmount Amount withinTolerance poAmount d = false) /\
  (matchByPoOrAmount Amount withinTolerance documents poNumber poAmount = None ->
   forall d, In d documents ->
             matchesByNumber poNumber d = false /\
             matchesByAmount Amount withinTolerance poAmount d = false).
Proof.
  split; [|split].
  - intros doc. unfold matchesByNumber.
    destruct (Js.truthy poNumber) as [po|]; [|split; [discriminate | intros (po & H & _); discriminate]].
    rewrite andb_true_iff, orb_true_iff, !JobDocumentsFacts.numberMatches_spec, Nat.leb_le.
    split.
    + intros [Hlen Hext]. exists po. auto.
    + intros (po' & [= <-] & Hlen & Hext). auto.
  - intros doc Hfind. unfold matchByPoOrAmount in Hfind.
    apply JobDocumentsFacts.find_first in Hfind as (Hdoc & before & after & Heq & Hbefore).
    apply orb_true_iff in Hdoc. split; [exact Hdoc|].
    exists before, after. split; [exact Heq|].
    intros d Hd. apply orb_false_iff. now apply Hbefore.
  - intros Hnone d Hd. unfold matchByPoOrAmount in Hnone.
    apply orb_false_iff. exact (find_none _ _ Hnone d Hd).
Qed.

(** The order for "PO 1" is matched to the sales order of "PO 10", which
    comes first in the list, although a sales order "PO 1" exists. *)
Example po_1_matches_po_10 :
  matchByPoOrAmount Z neverClose [so10; so1] (Some "PO 1") None = Some so10 /\
  normalize "PO 1" = "po1" /\ normalize "PO 10" = "po10".
Proof. repeat split; vm_compute; reflexivity. Qed.

(** ** Matching invoices to sales orders *)

Module MatcherFacts.
Import InvoiceSoMatcher.

Section Passes.
Variable Money : Type.
Variable parseAmount : option string -> Money.
Variable minus : Money -> Money -> Money.
Variable getMatchType : Money -> Money -> MatchType.
Variable salesOrders : list SalesOrder.
Variable invoices : list Invoice.

Local Abbreviation Match := (SimpleMatchResult Money).
Local Abbreviation State := (State Money).
Local Abbreviation mk := (mkMatch Money parseAmount minus getMatchType).
Local Abbreviation Ok := (Consistent Money parseAmount minus getMatchType salesOrders invoices).
Local Abbreviation Just := (Justified Money parseAmount minus getMatchType salesOrders invoices).

(** Adding a match for a sales order that has none keeps the invariant. *)
Lemma Consistent_add (ms : list Match) (ids : gset string) so inv reason :
  Ok (ms, ids) -> soId so ∉ ids -> Just (mk so inv reason) ->
  Ok (ms ++ [mk so inv reason], {[soId so]} ∪ ids).
Proof.
  intros (Hnd & Hms & Hids) Hnew Hjust. unfold Consistent, matchedIds in *.
  simpl in *. split; [|split].
  - rewrite map_app. apply NoDup_app. split; [exact Hnd|]. split.
    + intros x Hx Hx'. simpl in Hx'. apply list_elem_of_singleton in Hx'. subst x.
      apply list_elem_of_In, in_map_iff in Hx as (m & Hm & Hin).
      destruct (Hms m Hin) as [Hmem _]. rewrite Hm in Hmem. now apply Hnew.
    + simpl. apply NoDup_singleton.
  - intros m Hm. apply in_app_iff in Hm as [Hm|[<-|[]]].
    + destruct (Hms m Hm) as [Hmem Hj]. split; [|exact Hj].
      apply elem_of_union. now right.
    + split; [|exact Hjust]. simpl. apply elem_of_union. left.
      now apply elem_of_singleton.
  - intros id Hid. rewrite map_app. apply in_app_iff.
    apply elem_of_union in Hid as [Hid|Hid].
    + apply elem_of_singleton in Hid. subst id. right. simpl. now left.
    + left. now apply Hids.
Qed.

Lemma linkStep_ok inv links l st :
  In inv invoices -> linkedTransactions inv = Some links -> In l links ->
  Ok st -> Ok (linkStep Money parseAmount minus getMatchType salesOrders inv st l).
Proof.
  intros Hinv Hlinks Hl Hst. destruct st as [ms ids]. unfold linkStep.
  destruct (isSalesOrderLink l) eqn:Hkind; [|exact Hst].
  destruct (find _ salesOrders) as [so|] eqn:Hfind; [|exact Hst].
  destruct (decide (soId so ∈ ids)) as [|Hnew]; [exact Hst|].
  apply find_some in Hfind as [Hso Heq]. apply String.eqb_eq in Heq.
  apply Consistent_add; [exact Hst | exact Hnew|].
  repeat split; simpl; [exact Hso | exact Hinv|].
  exists links, l. auto.
Qed.

Lemma fold_ok {A : Type} (step : State -> A -> State) (all : list A) :
  (forall x st, In x all -> Ok st -> Ok (step st x)) ->
  forall part st, (forall x, In x part -> In x all) -> Ok st ->
                  Ok (fold_left step part st).
Proof.
  intros Hstep part. induction part as [|x part IH]; intros st Hall Hst; simpl;
    [exact Hst|].
  apply IH; [intros y Hy; apply Hall; now right|].
  apply Hstep; [apply Hall; now left | exact Hst].
Qed.

Lemma linkPass_ok inv st :
  In inv invoices -> Ok st ->
  Ok (linkPass Money parseAmount minus getMatchType salesOrders st inv).
Proof.
  intros Hinv Hst. unfold linkPass.
  destruct (linkedTransactions inv) as [links|] eqn:Hlinks; [|exact Hst].
  apply (fold_ok _ links); [|auto|exact Hst].
  intros l st' Hl Hst'. now apply (linkStep_ok inv links).
Qed.

Lemma refPass_ok so st :
  In so salesOrders -> Ok st ->
  Ok (refPass Money parseAmount minus getMatchType invoices st so).
Proof.
  intros Hso Hst. destruct st as [ms ids]. unfold refPass.
  destruct (decide (soId so ∈ ids)) as [|Hnew]; [exact Hst|].
  destruct (find _ invoices) as [inv|] eqn:Hfind; [|exact Hst].
  apply find_some in Hfind as [Hinv Hmatch].
  apply Consistent_add; [exact Hst | exact Hnew|].
  repeat split; simpl; assumption.
Qed.

Lemma Consistent_empty : Ok ([], ∅).
Proof.
  split; [apply NoDup_nil_2|]. split; [intros m []|]. intros id Hid. set_solver.
Qed.

Lemma afterLinks_ok :
  Ok (fold_left (linkPass Money parseAmount minus getMatchType salesOrders)
                invoices ([], ∅)).
Proof.
  apply (fold_ok _ invoices); [|auto|apply Consistent_empty].
  intros inv st Hinv Hst. now apply linkPass_ok.
Qed.

Lemma passes_ok :
  Ok (fold_left (refPass Money parseAmount minus getMatchType invoices) salesOrders
        (fold_left (linkPass Money parseAmount minus getMatchType salesOrders)
                   invoices ([], ∅))).
Proof.
  apply (fold_ok _ salesOrders); [|auto|apply afterLinks_ok].
  intros so st Hso Hst. now apply refPass_ok.
Qed.

(** The second pass only adds to the matched sales orders, and when it
    has looked at a sales order, the order is matched or no invoice
    refers to it. *)
Lemma refPass_mono so st :
  snd st ⊆ snd (refPass Money parseAmount minus getMatchType invoices st so).
Proof.
  destruct st as [ms ids]. unfold refPass.
  destruct (decide (soId so ∈ ids)); [reflexivity|].
  destruct (find _ invoices); simpl; set_solver.
Qed.

Lemma refFold_mono part st :
  snd st ⊆ snd (fold_left (refPass Money parseAmount minus getMatchType invoices) part st).
Proof.
  revert st. induction part as [|so part IH]; intros st; simpl; [reflexivity|].
  etransitivity; [apply (refPass_mono so)|apply IH].
Qed.

Lemma refPass_covers so st :
  soId so ∈ snd (refPass Money parseAmount minus getMatchType invoices st so)
  \/ find (hasRefMatch so) invoices = None.
Proof.
  destruct st as [ms ids]. unfold refPass.
  destruct (decide (soId so ∈ ids)); [now left|].
  destruct (find _ invoices); [left; simpl; set_solver | now right].
Qed.

Lemma refFold_covers part st so :
  In so part ->
  soId so ∈ snd (fold_left (refPass Money parseAmount minus getMatchType invoices) part st)
  \/ find (hasRefMatch so) invoices = None.
Proof.
  revert st. induction part as [|x part IH]; intros st; simpl; [intros []|].
  intros [->|Hin]; [|now apply IH].
  destruct (refPass_covers so st) as [Hmem|Hnone]; [left | now right].
  now apply refFold_mono.
Qed.

Lemma matchByPoNumber_ok :
  let ms := matchByPoNumber Money parseAmount minus getMatchType salesOrders invoices in
  NoDup (matchedIds Money ms) /\
  (forall m, In m ms -> Just m) /\
  (forall so inv, In so salesOrders -> In inv invoices -> hasRefMatch so inv = true ->
                  In (soId so) (matchedIds Money ms)).
Proof.
  unfold matchByPoNumber. cbv zeta. destruct passes_ok as (Hnd & Hms & Hids).
  split; [exact Hnd|]. split; [intros m Hm; now apply Hms|].
  intros so inv Hso Hinv Hmatch. apply Hids.
  destruct (refFold_covers salesOrders
              (fold_left (linkPass Money parseAmount minus getMatchType salesOrders)
                         invoices ([], ∅)) so Hso) as [Hmem|Hnone]; [exact Hmem|].
  pose proof (find_none _ _ Hnone inv Hinv) as Hno. congruence.
Qed.
End Passes.

Lemma In_filter_isOpen so sos :
  In so (List.filter isOpen sos) <-> In so sos /\ isOpen so = true.
Proof. apply filter_In. Qed.

Lemma MatchType_eqb_eq a b : MatchType_eqb a b = true <-> a = b.
Proof. destruct a, b; simpl; split; intros H; congruence. Qed.

Lemma matchByPoNumber_nil Money parseAmount minus getMatchType invoices :
  matchByPoNumber Money parseAmount minus getMatchType [] invoices = [].
Proof.
  unfold matchByPoNumber. simpl.
  assert (H : forall part st,
             fold_left (linkPass Money parseAmount minus getMatchType []) part st = st).
  { induction part as [|inv part IH]; intros st; simpl; [reflexivity|].
    rewrite IH. unfold linkPass. destruct (linkedTransactions inv) as [links|]; [|reflexivity].
    revert st. induction links as [|l links IHl]; intros st; simpl; [reflexivity|].
    rewrite IHl. unfold linkStep. destruct st. simpl.
    now destruct (isSalesOrderLink l). }
  now rewrite H.
Qed.

Lemma findSosShouldBeClosed_eq Money parseAmount minus getMatchType salesOrders invoices :
  findSosShouldBeClosed Money parseAmount minus getMatchType salesOrders invoices =
  List.filter (fun m => MatchType_eqb (matchType Money m) full)
    (matchByPoNumber Money parseAmount minus getMatchType
                     (List.filter isOpen salesOrders) invoices).
Proof.
  unfold findSosShouldBeClosed. destruct (List.filter isOpen salesOrders); [|reflexivity].
  now rewrite matchByPoNumber_nil.
Qed.

Lemma NoDup_map_filter {A B : Type} (f : A -> B) (p : A -> bool) (l : list A) :
  NoDup (map f l) -> NoDup (map f (List.filter p l)).
Proof.
  induction l as [|x l IH]; simpl; [auto|]. intros H. apply NoDup_cons in H as [Hx Hl].
  destruct (p x); [|now apply IH]. simpl. apply NoDup_cons. split; [|now apply IH].
  intros Hmem. apply Hx. apply list_elem_of_In, in_map_iff in Hmem as (y & Hy & Hin).
  apply filter_In in Hin as [Hin _]. apply list_elem_of_In, in_map_iff. eauto.
Qed.

End MatcherFacts.

(** X24: matching invoices to sales orders.  [matchByPoNumber] gives each
    sales order at most one match; every match pairs a sales order of the
    input with an invoice of the input, carries the totals of the two, and
    is backed by its reason: a sales-order link of the invoice with the id of
    the sales order, or a reference of the one matching a reference of the
    other.  No sales order to which an invoice refers is left without a
    match. *)
Theorem X24_each_sales_order_is_matched_once
    (Money : Type) (parseAmount : option string -> Money)
    (minus : Money -> Money -> Money)
    (getMatchType : Money -> Money -> InvoiceSoMatcher.MatchType)
    (salesOrders : list InvoiceSoMatcher.SalesOrder)
    (invoices : list InvoiceSoMatcher.Invoice) :
  let ms := InvoiceSoMatcher.matchByPoNumber Money parseAmount minus getMatchType
              salesOrders invoices in
  NoDup (InvoiceSoMatcher.matchedIds Money ms) /\
  (forall m, In m ms ->
             InvoiceSoMatcher.Justified Money parseAmount minus getMatchType
               salesOrders invoices m) /\
  (forall so inv,
     In so salesOrders -> In inv invoices ->
     InvoiceSoMatcher.hasRefMatch so inv = true ->
     In (InvoiceSoMatcher.soId so) (InvoiceSoMatcher.matchedIds Money ms)).
Proof. apply MatcherFacts.matchByPoNumber_ok. Qed.

(** X25: which sales orders should be closed.  [findSosShouldBeClosed]
    reports only sales orders of the input that are open (neither closed by
    hand nor fully invoiced), each at most once, and only with a match of
    type [full]; the invoice of the match is backed as for
    [matchByPoNumber] run on the open sales orders alone. *)
Theorem X25_only_open_sales_orders_are_reported
    (Money : Type) (parseAmount : option string -> Money)
    (minus : Money -> Money -> Money)
    (getMatchType : Money -> Money -> InvoiceSoMatcher.MatchType)
    (salesOrders : list InvoiceSoMatcher.SalesOrder)
    (invoices : list InvoiceSoMatcher.Invoice) :
  let found := InvoiceSoMatcher.findSosShouldBeClosed Money parseAmount minus
                 getMatchType salesOrders invoices in
  NoDup (InvoiceSoMatcher.matchedIds Money found) /\
  forall m, In m found ->
            In (InvoiceSoMatcher.salesOrder Money m) salesOrders /\
            InvoiceSoMatcher.isOpen (InvoiceSoMatcher.salesOrder Money m) = true /\
            InvoiceSoMatcher.matchType Money m = InvoiceSoMatcher.full /\
            InvoiceSoMatcher.Justified Money parseAmount minus getMatchType
              (List.filter InvoiceSoMatcher.isOpen salesOrders) invoices m.
Proof.
  cbv zeta. rewrite MatcherFacts.findSosShouldBeClosed_eq.
  destruct (MatcherFacts.matchByPoNumber_ok Money parseAmount minus getMatchType
              (List.filter InvoiceSoMatcher.isOpen salesOrders) invoices)
    as (Hnd & Hjust & _).
  split; [now apply MatcherFacts.NoDup_map_filter|].
  intros m Hm. apply filter_In in Hm as [Hm Hfull].
  apply MatcherFacts.MatchType_eqb_eq in Hfull. pose proof (Hjust m Hm) as Hj.
  destruct Hj as (Hso & Hrest). apply MatcherFacts.In_filter_isOpen in Hso as Hopen.
  destruct Hopen as [Hin Hopen]. repeat split; try assumption; apply Hrest.
Qed.

(** ** Escaping text for the alert mails *)

Module EscapeFacts.
Import AlertTemplates.

Lemma replaceAll_app c by_ a b :
  replaceAll c by_ (a ++ b) = replaceAll c by_ a ++ replaceAll c by_ b.
Proof. apply flat_map_app. Qed.

Lemma escapePasses_app a b : escapePasses (a ++ b) = escapePasses a ++ escapePasses b.
Proof. unfold escapePasses. now rewrite !replaceAll_app. Qed.

Lemma escapePasses_one c : escapePasses [c] = entity c.
Proof. destruct c as [[] [] [] [] [] [] [] []]; vm_compute; reflexivity. Qed.

Lemma escapePasses_spec l : escapePasses l = flat_map entity l.
Proof.
  induction l as [|c l IH]; [reflexivity|].
  change (c :: l) with ([c] ++ l). rewrite escapePasses_app, escapePasses_one, IH.
  reflexivity.
Qed.

Lemma entity_clean c : forallb (fun x => negb (isMarkup x)) (entity c) = true.
Proof. destruct c as [[] [] [] [] [] [] [] []]; vm_compute; reflexivity. Qed.

Lemma entity_plain c :
  isMarkup c = false -> Ascii.eqb c "&" = false -> entity c = [c].
Proof.
  unfold isMarkup, entity. intros H Hamp. rewrite Hamp.
  apply orb_false_iff in H as [H Ha]. apply orb_false_iff in H as [H Hq].
  apply orb_false_iff in H as [Hlt Hgt]. now rewrite Hlt, Hgt, Hq, Ha.
Qed.

Lemma entities_plain l :
  Forall (fun c => isMarkup c = false /\ Ascii.eqb c "&" = false) l ->
  flat_map entity l = l.
Proof.
  induction 1 as [|c l [Hm Ha] _ IH]; [reflexivity|].
  simpl. rewrite (entity_plain c Hm Ha). simpl. now f_equal.
Qed.

Lemma entities_clean l : Forall (fun c => isMarkup c = false) (flat_map entity l).
Proof.
  induction l as [|c l IH]; simpl; [constructor|].
  apply Forall_app. split; [|exact IH].
  apply Forall_forall. intros x Hx. apply list_elem_of_In in Hx.
  pose proof (entity_clean c) as Hclean.
  rewrite forallb_forall in Hclean. specialize (Hclean x Hx).
  now apply negb_true_iff in Hclean.
Qed.

End EscapeFacts.

Import AlertTemplates.

(** X26: escaping is character by character.  The five replacements of
    [escapeHtml], made one after the other, give the text in which every
    character is replaced once by its entity: the ampersands that the later
    replacements write are not escaped again.  The result holds none of the
    characters <, >, double quote and apostrophe, and a text without these
    and without an ampersand is returned as it is.  A missing or empty
    text gives the empty string. *)
Theorem X26_escaping_is_character_by_character (text : option string) :
  Js.chars (escapeHtml text) =
    match Js.truthy text with
    | Some t => flat_map entity (Js.chars t)
    | None => []
    end /\
  Forall (fun c => isMarkup c = false) (Js.chars (escapeHtml text)) /\
  (forall t, text = Some t ->
             Forall (fun c => isMarkup c = false /\ Ascii.eqb c "&" = false) (Js.chars t) ->
             escapeHtml text = t).
Proof.
  assert (Hchars : Js.chars (escapeHtml text) =
                   match Js.truthy text with
                   | Some t => flat_map entity (Js.chars t)
                   | None => []
                   end).
  { unfold escapeHtml. destruct (Js.truthy text) as [t|]; [|reflexivity].
    now rewrite JsFacts.chars_str, EscapeFacts.escapePasses_spec. }
  split; [exact Hchars|]. split.
  - rewrite Hchars. destruct (Js.truthy text) as [t|]; [|constructor].
    apply EscapeFacts.entities_clean.
  - intros t -> Hplain. unfold escapeHtml.
    destruct (Js.truthy (Some t)) as [t'|] eqn:Ht.
    + apply JsFacts.truthy_Some in Ht. destruct Ht as [Ht _]. injection Ht as <-.
      rewrite EscapeFacts.escapePasses_spec.
      rewrite (EscapeFacts.entities_plain _ Hplain). apply JsFacts.str_chars.
    + destruct t; [reflexivity|]. discriminate.
Qed.

(** ** What an acknowledgment can look like *)

Module BoundsFacts.
Import Regex RegexBounds Categorizer.

Lemma mayContain_spec r s :
  Matches r s -> Forall (fun c => mayContain r c = true) s.
Proof.
  induction 1 as [|p c Hc|a b s1 s2 _ IH1 _ IH2|a b s _ IH|a b s _ IH| |a s1 s2 _ IH1 _ IH2];
    simpl in *.
  - constructor.
  - constructor; [exact Hc | constructor].
  - apply Forall_app. split.
    + eapply Forall_impl; [exact IH1|]. intros c Hc. simpl in Hc. now rewrite Hc.
    + eapply Forall_impl; [exact IH2|]. intros c Hc. simpl in Hc.
      rewrite Hc. apply orb_true_r.
  - eapply Forall_impl; [exact IH|]. intros c Hc. simpl in Hc. now rewrite Hc.
  - eapply Forall_impl; [exact IH|]. intros c Hc. simpl in Hc.
    rewrite Hc. apply orb_true_r.
  - constructor.
  - apply Forall_app. split; assumption.
Qed.

Lemma maxLen_spec r s :
  Matches r s -> forall n, maxLen r = Some n -> (length s <= n)%nat.
Proof.
  induction 1 as [|p c Hc|a b s1 s2 _ IH1 _ IH2|a b s _ IH|a b s _ IH|a|a s1 s2 _ IH1 _ IH2];
    intros n Hn; simpl in Hn.
  - simpl. lia.
  - injection Hn as <-. simpl. lia.
  - destruct (maxLen a) as [m|]; [|discriminate].
    destruct (maxLen b) as [k|]; [|discriminate]. injection Hn as <-.
    rewrite length_app. specialize (IH1 m eq_refl). specialize (IH2 k eq_refl). lia.
  - destruct (maxLen a) as [m|]; [|discriminate].
    destruct (maxLen b) as [k|]; [|discriminate]. injection Hn as <-.
    specialize (IH m eq_refl). lia.
  - destruct (maxLen a) as [m|]; [|discriminate].
    destruct (maxLen b) as [k|]; [|discriminate]. injection Hn as <-.
    specialize (IH k eq_refl). lia.
  - simpl. lia.
  - destruct (maxLen a) as [[|m]|] eqn:Ha; try discriminate. injection Hn as <-.
    rewrite length_app. specialize (IH1 0%nat eq_refl).
    assert (H2 : (length s2 <= 0)%nat) by (apply IH2; simpl; now rewrite Ha). lia.
Qed.

(** Every pattern of the acknowledgment test is over the characters of
    an acknowledgment. *)
Lemma ack_alphabet c :
  forallb (fun p => implb (mayContain p c) (ackChar c))
          (ackWithClosingPattern :: strictAckPatterns) = true.
Proof. destruct c as [[] [] [] [] [] [] [] []]; vm_compute; reflexivity. Qed.

Lemma strict_lengths :
  forallb (fun p => match maxLen p with
                    | Some n => (n <? 40)%nat
                    | None => false
                    end) strictAckPatterns = true.
Proof. vm_compute. reflexivity. Qed.

Lemma ack_pattern_chars p s :
  In p (ackWithClosingPattern :: strictAckPatterns) -> Matches p s ->
  Forall (fun c => ackChar c = true) s.
Proof.
  intros Hp Hm. eapply Forall_impl; [apply (mayContain_spec p s Hm)|].
  intros c Hc. simpl in Hc. pose proof (ack_alphabet c) as Hall.
  rewrite forallb_forall in Hall. specialize (Hall p Hp). simpl in Hall.
  rewrite Hc in Hall. exact Hall.
Qed.

Lemma strict_pattern_short p s :
  In p strictAckPatterns -> Matches p s -> (length s < 40)%nat.
Proof.
  intros Hp Hm. pose proof strict_lengths as Hall.
  rewrite forallb_forall in Hall. specialize (Hall p Hp). simpl in Hall.
  destruct (maxLen p) as [n|] eqn:Hn; [|discriminate].
  apply Nat.ltb_lt in Hall. pose proof (maxLen_spec p s Hm n Hn). lia.
Qed.

Lemma length_chars s : length (Js.chars s) = String.length s.
Proof. induction s as [|c s IH]; simpl; [reflexivity | now rewrite <- IH]. Qed.

End BoundsFacts.

Import RegexBounds.

(** X27: what counts as a simple acknowledgment.  When
    [isSimpleAcknowledgment] accepts a body, the body is not empty, and its
    text before the signature (the first 200 characters in lower case,
    trimmed, up to the first signature marker, trimmed again) is shorter
    than 40 characters and consists of letters, white space, exclamation
    marks and full stops only: a text with a digit, a comma or a question
    mark before the signature is never taken for an acknowledgment. *)
Theorem X27_acknowledgment_is_short_and_plain (bodyText : option string) :
  Categorizer.isSimpleAcknowledgment bodyText = true ->
  exists body,
    bodyText = Some body /\ body <> EmptyString /\
    (String.length (beforeSignature body) < 40)%nat /\
    Forall (fun c => ackChar c = true) (Js.chars (beforeSignature body)).
Proof.
  unfold Categorizer.isSimpleAcknowledgment. intros Hack.
  destruct (Js.truthy bodyText) as [body|] eqn:Hbody; [|discriminate].
  apply JsFacts.truthy_Some in Hbody as [-> Hne]. exists body.
  split; [reflexivity|]. split; [exact Hne|].
  fold (beforeSignature body) in Hack. apply orb_true_iff in Hack as [Hstrict|Hclosing].
  - apply existsb_exists in Hstrict as (p & Hp & Hm).
    apply RegexMore.testWhole_spec in Hm. split.
    + rewrite <- BoundsFacts.length_chars.
      exact (BoundsFacts.strict_pattern_short p _ Hp Hm).
    + apply (BoundsFacts.ack_pattern_chars p); [now right | exact Hm].
  - apply andb_true_iff in Hclosing as [Hm Hlen].
    apply RegexMore.testWhole_spec in Hm. apply Nat.ltb_lt in Hlen.
    split; [exact Hlen|].
    apply (BoundsFacts.ack_pattern_chars Categorizer.ackWithClosingPattern);
      [now left | exact Hm].
Qed.

Lemma X27_acknowledgment_witness :
  exists body,
    Some thanksWithSignature = Some body /\ body <> EmptyString /\
    (String.length (beforeSignature body) < 40)%nat /\
    Forall (fun c => ackChar c = true) (Js.chars (beforeSignature body)).
Proof.
  apply (X27_acknowledgment_is_short_and_plain (Some thanksWithSignature)).
  vm_compute. reflexivity.
Defined.

(** The sample is cut at its signature block; with a question it is no
    acknowledgment. *)
Example acknowledgment_before_signature :
  Js.chars (beforeSignature thanksWithSignature)
  = Js.chars "thanks!" ++ ["010"; "010"]%char ++ Js.chars "preet" /\
  Categorizer.isSimpleAcknowledgment (Some "Thanks! Can you ship by the 5th?") = false.
Proof. split; vm_compute; reflexivity. Qed.

(** ** Resolving a todo of a report *)

Module PatchFacts.
Import TodoSync TodoRoutes TodoItemRoute.

(** A key that is dismissed and has no row gets no open row from the
    reconciliation. *)
Lemma dismissed_stays_closed now threads todos d k row' :
  k ∈ dismissedThreads d -> dashTodos d !! k = None ->
  dashTodos (fst (syncDashTodos now threads todos d)) !! k = Some row' ->
  DashTodo.status row' = st_dismissed.
Proof.
  intros Hdis Hnone.
  destruct (in_dec String.string_dec k (allThreadKeys threads todos)) as [Hin|Hout].
  - rewrite (TodoMoreFacts.syncDashTodos_row now threads todos d k Hin), Hnone.
    destruct (todosByThreadKey todos !! k) as [td|]; [|discriminate].
    destruct (threadsByKey threads !! k) as [th|]; [|discriminate].
    rewrite bool_decide_eq_true_2 by exact Hdis. intros [= <-]. reflexivity.
  - rewrite (TodoMoreFacts.syncDashTodos_outside now threads todos d k Hout), Hnone.
    discriminate.
Qed.

Lemma itemsOfThread_spec k items i item :
  In (i, item) (itemsOfThread k items) <->
  items !! i = Some item /\ itemThreadKey item = k.
Proof.
  unfold itemsOfThread, hasThreadKey. rewrite filter_In, <- list_elem_of_In.
  rewrite elem_of_map_to_list, String.eqb_eq. reflexivity.
Qed.

Lemma resolveByThreadKey_spec reportId threadKey now t :
  let out := resolveByThreadKey reportId threadKey now t in
  match fst out with
  | PatchBadRequest =>
      (truthyNumber reportId = false \/ Js.truthy threadKey = None) /\ snd out = t
  | PatchNotFound =>
      snd out = t /\
      exists k, Js.truthy threadKey = Some k /\
                forall i item, todoItems t !! i = Some item -> itemThreadKey item <> k
  | ResolvedCount n =>
      exists k,
        Js.truthy threadKey = Some k /\
        (0 < n)%nat /\ n = length (itemsOfThread k (todoItems t)) /\
        db (snd out) = dismissThread k (db t) /\
        forall i, todoItems (snd out) !! i =
                  (fun item => if hasThreadKey k item then resolveItem now item else item)
                    <$> todoItems t !! i
  | ResolvedTodo _ => False
  end.
Proof.
  unfold resolveByThreadKey. cbv zeta.
  destruct (truthyNumber reportId); [|simpl; auto].
  destruct (Js.truthy threadKey) as [k|]; [|simpl; auto].
  destruct (itemsOfThread k (todoItems t)) as [|[i0 item0] rest] eqn:Hitems.
  - simpl. split; [reflexivity|]. exists k. split; [reflexivity|].
    intros i item Hi Hk.
    assert (Hin : In (i, item) (itemsOfThread k (todoItems t)))
      by now apply itemsOfThread_spec.
    rewrite Hitems in Hin. exact Hin.
  - cbn [fst snd]. exists k. split; [reflexivity|]. split; [simpl; lia|].
    split; [now rewrite Hitems|]. split; [reflexivity|].
    intros i. cbn [todoItems]. apply lookup_fmap.
Qed.

Lemma resolveById_spec parseInt id now t :
  let out := resolveById parseInt id now t in
  match fst out with
  | PatchBadRequest => parseInt id = None /\ snd out = t
  | PatchNotFound =>
      snd out = t /\ exists z, parseInt id = Some z /\ lookupId z (todoItems t) = None
  | ResolvedTodo todo' =>
      exists z todo,
        parseInt id = Some z /\ todoItems t !! Z.to_nat z = Some todo /\
        todo' = resolveItem now todo /\
        db (snd out) = dismissThread (itemThreadKey todo) (db t) /\
        todoItems (snd out) !! Z.to_nat z = Some (resolveItem now todo) /\
        forall i, i <> Z.to_nat z -> todoItems (snd out) !! i = todoItems t !! i
  | ResolvedCount _ => False
  end.
Proof.
  unfold resolveById. cbv zeta.
  destruct (parseInt id) as [z|]; [|simpl; auto].
  destruct (lookupId z (todoItems t)) as [todo|] eqn:Hlook.
  - cbn [fst snd]. exists z, todo. split; [reflexivity|].
    assert (Hrow : todoItems t !! Z.to_nat z = Some todo).
    { unfold lookupId in Hlook. now destruct (z <? 0). }
    split; [exact Hrow|]. split; [reflexivity|]. split; [reflexivity|].
    cbn [todoItems]. split.
    + now rewrite lookup_alter_eq, Hrow.
    + intros i Hi. now rewrite lookup_alter_ne.
  - simpl. split; [reflexivity|]. eauto.
Qed.

End PatchFacts.

Import TodoItemRoute.

(** X28: resolving a todo of a report.  [PATCH /api/todos/:id] never
    touches the dashboard rows and never shortens the dismissed list.  With
    id "resolve" it answers 400 without a truthy reportId and threadKey and
    404 when no item has the thread key, changing nothing; otherwise it
    resolves every item of the thread, and no other, counts them, and puts the
    key on the dismissed list.  With another id it answers 400 when the id is
    no number and 404 when no item has it, changing nothing; otherwise it
    resolves that one item and dismisses its thread key.  A key on the
    dismissed list that has no dashboard row gets no open one from a later
    reconciliation. *)
Theorem X28_resolving_a_report_todo
    (parseInt : string -> option Z) (id : string) (reportId : option Z)
    (threadKey : option string) (now : Z) (t : Tables) :
  let out := patchTodo parseInt id reportId threadKey now t in
  dashTodos (db (snd out)) = dashTodos (db t) /\
  dismissedThreads (db t) ⊆ dismissedThreads (db (snd out)) /\
  match fst out with
  | PatchBadRequest =>
      snd out = t /\
      if String.eqb id "resolve"
      then truthyNumber reportId = false \/ Js.truthy threadKey = None
      else parseInt id = None
  | PatchNotFound =>
      snd out = t /\
      if String.eqb id "resolve"
      then exists k, Js.truthy threadKey = Some k /\
                     forall i item, todoItems t !! i = Some item -> itemThreadKey item <> k
      else exists z, parseInt id = Some z /\ lookupId z (todoItems t) = None
  | ResolvedCount n =>
      exists k,
        id = "resolve"%string /\ Js.truthy threadKey = Some k /\
        (0 < n)%nat /\ n = length (itemsOfThread k (todoItems t)) /\
        k ∈ dismissedThreads (db (snd out)) /\
        forall i, todoItems (snd out) !! i =
                  (fun item => if hasThreadKey k item then resolveItem now item else item)
                    <$> todoItems t !! i
  | ResolvedTodo todo' =>
      exists z todo,
        parseInt id = Some z /\ todoItems t !! Z.to_nat z = Some todo /\
        todo' = resolveItem now todo /\
        itemThreadKey todo ∈ dismissedThreads (db (snd out)) /\
        todoItems (snd out) !! Z.to_nat z = Some (resolveItem now todo) /\
        forall i, i <> Z.to_nat z -> todoItems (snd out) !! i = todoItems t !! i
  end /\
  (forall k now' threads todos row',
     k ∈ dismissedThreads (db (snd out)) -> dashTodos (db t) !! k = None ->
     dashTodos (fst (TodoSync.syncDashTodos now' threads todos (db (snd out)))) !! k
     = Some row' ->
     DashTodo.status row' = st_dismissed).
Proof.
  cbv zeta.
  assert (Hkinds :
    match fst (patchTodo parseInt id reportId threadKey now t) with
    | PatchBadRequest | PatchNotFound =>
        snd (patchTodo parseInt id reportId threadKey now t) = t
    | ResolvedCount _ | ResolvedTodo _ =>
        exists k, db (snd (patchTodo parseInt id reportId threadKey now t))
                  = dismissThread k (db t)
    end).
  { unfold patchTodo. destruct (String.eqb id "resolve").
    - pose proof (PatchFacts.resolveByThreadKey_spec reportId threadKey now t) as H.
      cbv zeta in H. destruct (fst (resolveByThreadKey reportId threadKey now t));
        [apply H | apply H | | contradiction].
      destruct H as (k & _ & _ & _ & Hdb & _). eauto.
    - pose proof (PatchFacts.resolveById_spec parseInt id now t) as H.
      cbv zeta in H. destruct (fst (resolveById parseInt id now t));
        [apply H | apply H | contradiction |].
      destruct H as (z & item & _ & _ & _ & Hdb & _). eauto. }
  assert (Hdash : dashTodos (db (snd (patchTodo parseInt id reportId threadKey now t)))
                  = dashTodos (db t)).
  { destruct (fst (patchTodo parseInt id reportId threadKey now t));
      try (now rewrite Hkinds); destruct Hkinds as [k ->]; reflexivity. }
  split; [exact Hdash|]. split.
  { destruct (fst (patchTodo parseInt id reportId threadKey now t));
      try (now rewrite Hkinds); destruct Hkinds as [k ->]; simpl; set_solver. }
  split.
  - clear Hkinds Hdash. unfold patchTodo. destruct (String.eqb id "resolve") eqn:Hid.
    + apply String.eqb_eq in Hid.
      pose proof (PatchFacts.resolveByThreadKey_spec reportId threadKey now t) as H.
      cbv zeta in H. destruct (fst (resolveByThreadKey reportId threadKey now t)).
      * destruct H as [H ->]. auto.
      * destruct H as [-> H]. auto.
      * destruct H as (k & Hk & Hpos & Hn & Hdb & Hrows). exists k.
        repeat (split; [assumption|]). split; [|exact Hrows].
        rewrite Hdb. simpl. apply elem_of_union. left. now apply elem_of_singleton.
      * contradiction.
    + pose proof (PatchFacts.resolveById_spec parseInt id now t) as H.
      cbv zeta in H. destruct (fst (resolveById parseInt id now t)).
      * destruct H as [H ->]. auto.
      * destruct H as [-> H]. auto.
      * contradiction.
      * destruct H as (z & item & Hz & Hrow & Htodo & Hdb & Hnew & Hrest).
        exists z, item. repeat (split; [assumption|]). split; [|auto].
        rewrite Hdb. simpl. apply elem_of_union. left. now apply elem_of_singleton.
  - intros k now' threads todos row' Hdis Hnone. rewrite <- Hdash in Hnone.
    now apply PatchFacts.dismissed_stays_closed.
Qed.

(** ** Smart detection of purchase orders *)

Module DetectionFacts.
Import PoAttachments SmartPoDetection.

Lemma rowKey_update id now v t :
  map rowKey (rows (updateAttachmentAnalysis id now v t)) = map rowKey (rows t).
Proof.
  unfold updateAttachmentAnalysis. cbn [rows]. rewrite map_map. apply map_ext.
  intros r. now destruct (paId r =? id)%nat.
Qed.

Lemma Progress_refl l : Progress l l [].
Proof.
  exists [], [], [], []. rewrite !app_nil_r. repeat split; simpl; auto.
Qed.

Lemma Progress_trans a b c cs1 cs2 :
  Progress a b cs1 -> Progress b c cs2 -> Progress a c (cs1 ++ cs2).
Proof.
  intros (f1 & d1 & m1 & r1 & Ha1 & Hv1 & Hc1 & Hr1 & Hn1 & Hs1 & Hf1 & Hl1 & Hk1 & Hm1)
         (f2 & d2 & m2 & r2 & Ha2 & Hv2 & Hc2 & Hr2 & Hn2 & Hs2 & Hf2 & Hl2 & Hk2 & Hm2).
  exists (f1 ++ f2), (d1 ++ d2), (m1 ++ m2), (r1 ++ r2).
  unfold successes, fetchFailures in *.
  rewrite Ha2, Ha1, Hv2, Hv1, Hc2, Hc1, Hr2, Hr1, <- !app_assoc.
  rewrite !map_app, !List.filter_app, !length_app, Hn1, Hn2.
  repeat split; try reflexivity; try lia. now apply Forall_app.
Qed.

Section Loop.
Variable fetchSpecificAttachment : nat -> string -> FetchReply.
Variable analyzeAndValidatePo : nat -> FetchedPdf -> PoValidationResult.
Variable emailId : Z.
Variable threadKey : string.
Variable now : Z.

Local Abbreviation step :=
  (processCandidate fetchSpecificAttachment analyzeAndValidatePo emailId threadKey now).
Local Abbreviation loop :=
  (processCandidates fetchSpecificAttachment analyzeAndValidatePo emailId threadKey now).

Lemma cachedVerdict_shape existing file found :
  cachedVerdict existing = Some (file, found) ->
  (attResult file = att_success /\ exists d, found = [d])
  \/ (attResult file = att_not_a_po /\ found = []).
Proof.
  unfold cachedVerdict. destruct existing as [e|]; [|discriminate].
  destruct (analyzedAt e); [|discriminate].
  destruct (isValidPo e) as [[|]|]; [destruct (analysisJson e) as [d|]| |];
    try discriminate; intros [= <- <-]; simpl; eauto.
Qed.

Lemma processCandidate_progress l i c : Progress l (step l i c) [c].
Proof.
  unfold processCandidate. cbv zeta.
  destruct (cachedVerdict _) as [[file found]|] eqn:Hcached.
  - exists [{| attFilename := rankedFilename c; attResult := attResult file;
               attReason := attReason file |}], found, [], [].
    unfold attempt; cbn [attempted validPoDetails calls table].
    apply cachedVerdict_shape in Hcached as [[Hres (d & ->)]|[Hres ->]];
      rewrite ?app_nil_r; unfold successes, fetchFailures; simpl; rewrite Hres;
      repeat split; simpl; auto.
  - destruct (fetchSpecificAttachment i (rankedFilename c)) as [error| |pdf].
    + exists [failed (rankedFilename c) error], [], [CallFetch (rankedFilename c)], [].
      unfold attempt; cbn [attempted validPoDetails calls table].
      rewrite ?app_nil_r; repeat split; simpl; auto.
    + exists [failed (rankedFilename c) "Attachment not found in email"], [],
             [CallFetch (rankedFilename c)], [].
      unfold attempt; cbn [attempted validPoDetails calls table].
      rewrite ?app_nil_r; repeat split; simpl; auto.
    + unfold storeAttachment.
      destruct (getStoredAttachment emailId (pdfFilename pdf) (table l)) as [existing|].
      * destruct (valid (analyzeAndValidatePo i pdf));
          [destruct (details (analyzeAndValidatePo i pdf)) as [d|]|];
          [exists [{| attFilename := rankedFilename c; attResult := att_success;
                      attReason := None |}], [d],
                  [CallFetch (rankedFilename c); CallAnalyze (pdfFilename pdf)], []
          |exists [{| attFilename := rankedFilename c; attResult := att_not_a_po;
                      attReason :=
                        Some (Js.orDefault (whyNot (analyzeAndValidatePo i pdf))
                                           "Document is not a purchase order") |}], [],
                  [CallFetch (rankedFilename c); CallAnalyze (pdfFilename pdf)], []
          |exists [{| attFilename := rankedFilename c; attResult := att_not_a_po;
                      attReason :=
                        Some (Js.orDefault (whyNot (analyzeAndValidatePo i pdf))
                                           "Document is not a purchase order") |}], [],
                  [CallFetch (rankedFilename c); CallAnalyze (pdfFilename pdf)], []];
          unfold attempt; cbn [attempted validPoDetails calls table];
          rewrite rowKey_update, ?app_nil_r; repeat split; simpl; auto.
      * set (inserted := {| paId := nextId (table l); paEmailId := emailId;
                            paThreadKey := threadKey; paFilename := pdfFilename pdf;
                            analysisJson := None; analyzedAt := None;
                            isValidPo := None; notPoReason := None |}).
        destruct (valid (analyzeAndValidatePo i pdf));
          [destruct (details (analyzeAndValidatePo i pdf)) as [d|]|];
          [exists [{| attFilename := rankedFilename c; attResult := att_success;
                      attReason := None |}], [d],
                  [CallFetch (rankedFilename c); CallAnalyze (pdfFilename pdf)],
                  [rowKey inserted]
          |exists [{| attFilename := rankedFilename c; attResult := att_not_a_po;
                      attReason :=
                        Some (Js.orDefault (whyNot (analyzeAndValidatePo i pdf))
                                           "Document is not a purchase order") |}], [],
                  [CallFetch (rankedFilename c); CallAnalyze (pdfFilename pdf)],
                  [rowKey inserted]
          |exists [{| attFilename := rankedFilename c; attResult := att_not_a_po;
                      attReason :=
                        Some (Js.orDefault (whyNot (analyzeAndValidatePo i pdf))
                                           "Document is not a purchase order") |}], [],
                  [CallFetch (rankedFilename c); CallAnalyze (pdfFilename pdf)],
                  [rowKey inserted]];
          unfold attempt; cbn [attempted validPoDetails calls table];
          rewrite rowKey_update; cbn [rows]; rewrite map_app;
          repeat split; simpl; auto.
Qed.

Lemma processCandidates_progress cs : forall l i, Progress l (loop l i cs) cs.
Proof.
  induction cs as [|c cs IH]; intros l i; simpl; [apply Progress_refl|].
  change (c :: cs) with ([c] ++ cs).
  eapply Progress_trans; [apply processCandidate_progress | apply IH].
Qed.

(** With a verdict for every candidate the loop asks nobody and writes
    nothing. *)
Lemma processCandidates_cached cs :
  forall l i,
    AllCached emailId (table l) cs ->
    table (loop l i cs) = table l /\ calls (loop l i cs) = calls l.
Proof.
  induction cs as [|c cs IH]; intros l i Hall; simpl; [auto|].
  apply Forall_cons in Hall as [Hc Hall].
  assert (Hstep : table (step l i c) = table l /\ calls (step l i c) = calls l).
  { unfold processCandidate. cbv zeta.
    destruct (cachedVerdict _) as [[file found]|]; [|contradiction].
    unfold attempt. cbn [table calls]. now rewrite app_nil_r. }
  destruct Hstep as [Ht Hcalls].
  destruct (IH (step l i c) (S i)) as [Ht' Hcalls'].
  - unfold AllCached. now rewrite Ht.
  - split; congruence.
Qed.

(** ... and the oracles do not matter. *)
Lemma processCandidates_cached_any fetch' analyze' threadKey' now' cs :
  forall l i,
    AllCached emailId (table l) cs ->
    loop l i cs = processCandidates fetch' analyze' emailId threadKey' now' l i cs.
Proof.
  induction cs as [|c cs IH]; intros l i Hall; simpl; [reflexivity|].
  apply Forall_cons in Hall as [Hc Hall].
  assert (Hstep : step l i c
                  = processCandidate fetch' analyze' emailId threadKey' now' l i c
                    /\ table (step l i c) = table l).
  { unfold processCandidate. cbv zeta.
    destruct (cachedVerdict _) as [[file found]|]; [|contradiction]. auto. }
  destruct Hstep as [Heq Ht]. rewrite <- Heq. apply IH.
  unfold AllCached. now rewrite Ht.
Qed.
End Loop.

Lemma successes_not_a_po {A : Type} (f : A -> string) (g : A -> option string) l :
  successes (map (fun r => {| attFilename := f r; attResult := att_not_a_po;
                              attReason := g r |}) l) = [].
Proof. induction l as [|x l IH]; simpl; auto. Qed.

End DetectionFacts.

Import PoAttachments SmartPoDetection.

(** X29: one attempt per candidate.  A run of [smartPoDetection] reports
    success exactly when some attempted file is a success, with one purchase
    order per such file, and needs reclassification otherwise.  When there
    are candidates, the attempted files are the candidates, one each and in
    rank order.  Every fetch ends in a failure or in one analysis, there are
    no more fetches than candidates, and the table only grows: its rows keep
    their id, email and file name, and at most one row per fetch is added.
    When the table holds a verdict for every candidate, the run fetches and
    analyzes nothing, leaves the table as it is, and gives the same result
    whatever the mail server and the analyzer would have answered. *)
Theorem X29_one_attempt_per_candidate
    (fetchSpecificAttachment : nat -> string -> FetchReply)
    (analyzeAndValidatePo : nat -> FetchedPdf -> PoValidationResult)
    (emailId : Z) (threadKey : string) (now : Z)
    (attachments : list AttachmentInfo) (rankedAttachments : list RankedAttachment)
    (t : Table) :
  let run := smartPoDetection fetchSpecificAttachment analyzeAndValidatePo
               emailId threadKey now attachments rankedAttachments t in
  let result := fst (fst run) in
  let made := snd run in
  needsReclassification result = negb (success result) /\
  (success result = true <-> exists f, In f (successes (attemptedFiles result))) /\
  length (poDetailsList result) = length (successes (attemptedFiles result)) /\
  primaryPo result = head (poDetailsList result) /\
  (attachments <> [] -> candidatesOf rankedAttachments <> [] ->
   map attFilename (attemptedFiles result)
   = map rankedFilename (candidatesOf rankedAttachments)) /\
  length (List.filter isFetch made)
  = (length (fetchFailures (attemptedFiles result))
     + length (List.filter isAnalyze made))%nat /\
  (length (List.filter isFetch made) <= length (candidatesOf rankedAttachments))%nat /\
  (exists added,
      map rowKey (rows (snd (fst run))) = map rowKey (rows t) ++ added /\
      (length added <= length (List.filter isFetch made))%nat) /\
  (AllCached emailId t (candidatesOf rankedAttachments) ->
   snd (fst run) = t /\
   List.filter isFetch made = [] /\ List.filter isAnalyze made = [] /\
   forall fetch' analyze' threadKey' now',
     fst (fst (smartPoDetection fetch' analyze' emailId threadKey' now'
                 attachments rankedAttachments t)) = result).
Proof.
  cbv zeta. unfold smartPoDetection, candidatesOf.
  destruct attachments as [|a attachments].
  { cbn. repeat split; try reflexivity; try lia; try discriminate; try contradiction.
    - intros [f []].
    - exists []. now rewrite app_nil_r. }
  destruct (List.filter isPoCandidate rankedAttachments) as [|c cs] eqn:Hcs.
  { cbn [fst snd nothingFound success poDetailsList primaryPo needsReclassification
         attemptedFiles].
    rewrite DetectionFacts.successes_not_a_po. cbn.
    repeat split; try reflexivity; try lia; try discriminate; try contradiction.
    - intros [f []].
    - unfold fetchFailures. induction rankedAttachments as [|r rs IH]; simpl; auto.
      apply IH. simpl in Hcs. destruct (isPoCandidate r); [discriminate | exact Hcs].
    - exists []. now rewrite app_nil_r. }
  set (l0 := {| table := t; attempted := []; validPoDetails := []; calls := [CallRank] |}).
  pose proof (DetectionFacts.processCandidates_progress fetchSpecificAttachment
                analyzeAndValidatePo emailId threadKey now (c :: cs) l0 0%nat) as Hprog.
  destruct Hprog as (files & found & made & added & Ha & Hv & Hc & Hr & Hn & Hs & Hf & Hl
                     & Hk & Hm).
  cbv zeta. cbn [fst snd success poDetailsList primaryPo needsReclassification attemptedFiles].
  set (l := processCandidates fetchSpecificAttachment analyzeAndValidatePo emailId
              threadKey now l0 0 (c :: cs)) in *.
  simpl in Ha, Hv, Hc, Hr. rewrite Ha, Hv.
  assert (Hlog : forall extra,
             Forall (fun x => isFetch x || isAnalyze x = false) extra ->
             List.filter isFetch (calls l ++ extra) = List.filter isFetch made /\
             List.filter isAnalyze (calls l ++ extra) = List.filter isAnalyze made).
  { intros extra Hextra. rewrite Hc. rewrite !List.filter_app. simpl.
    assert (He : List.filter isFetch extra = [] /\ List.filter isAnalyze extra = []).
    { induction Hextra as [|x extra Hx _ [IH1 IH2]]; [auto|]. simpl.
      apply orb_false_iff in Hx as [-> ->]. auto. }
    destruct He as [-> ->]. now rewrite !app_nil_r. }
  assert (Hextra : Forall (fun x => isFetch x || isAnalyze x = false)
                          (if negb (length found =? 0)%nat then []
                           else [CallLogFailure not_a_po])).
  { destruct (negb (length found =? 0)%nat); repeat constructor. }
  destruct (Hlog _ Hextra) as [Hfetch Hanalyze]. rewrite Hfetch, Hanalyze.
  split; [reflexivity|]. split.
  { rewrite negb_true_iff, Nat.eqb_neq, Hs. destruct (successes files) as [|f fs].
    - split; [intros H; now elim H | intros [f []]].
    - split; [intros _; exists f; now left | intros _; discriminate]. }
  split; [exact Hs|]. split; [reflexivity|]. split; [intros _ _; exact Hn|].
  split; [exact Hf|]. split; [exact Hl|]. split; [exists added; now split|].
  intros Hall.
  destruct (DetectionFacts.processCandidates_cached fetchSpecificAttachment
              analyzeAndValidatePo emailId threadKey now (c :: cs) l0 0%nat Hall)
    as [Ht Hcalls].
  fold l in Ht, Hcalls. split; [exact Ht|].
  assert (Hmade : made = []).
  { rewrite Hcalls in Hc. simpl in Hc. injection Hc as <-. reflexivity. }
  subst made. split; [reflexivity|]. split; [reflexivity|].
  intros fetch' analyze' threadKey' now'.
  rewrite <- (DetectionFacts.processCandidates_cached_any fetchSpecificAttachment
                analyzeAndValidatePo emailId threadKey now fetch' analyze' threadKey' now'
                (c :: cs) l0 0%nat Hall).
  fold l. now rewrite Ha, Hv.
Qed.

(** ** The verdicts kept in the table *)

Module CacheFacts.
Import PoAttachments SmartPoDetection.

Lemma find_map_keep {A : Type} (p : A -> bool) (g : A -> A) (l : list A) :
  (forall x, p (g x) = p x) -> find p (map g l) = option_map g (find p l).
Proof.
  intros H. induction l as [|x l IH]; simpl; [reflexivity|].
  rewrite H. now destruct (p x).
Qed.

Lemma find_app_l {A : Type} (p : A -> bool) (l k : list A) x :
  find p l = Some x -> find p (l ++ k) = Some x.
Proof. induction l as [|y l IH]; simpl; [discriminate|]. now destruct (p y). Qed.

Lemma find_app_r {A : Type} (p : A -> bool) (l k : list A) :
  find p l = None -> find p (l ++ k) = find p k.
Proof. induction l as [|y l IH]; simpl; [reflexivity|]. now destruct (p y). Qed.

Lemma getStored_update e f id now v t :
  getStoredAttachment e f (updateAttachmentAnalysis id now v t)
  = option_map (fun r => if (paId r =? id)%nat then withAnalysis now v r else r)
               (getStoredAttachment e f t).
Proof.
  unfold getStoredAttachment, updateAttachmentAnalysis. cbn [rows].
  apply find_map_keep. intros r. now destruct (paId r =? id)%nat.
Qed.

Lemma getStored_In e f t r :
  getStoredAttachment e f t = Some r ->
  In r (rows t) /\ paEmailId r = e /\ paFilename r = f.
Proof.
  intros H. apply find_some in H as [Hin Hp]. unfold isAttachment in Hp.
  apply andb_true_iff in Hp as [He Hf]. apply Z.eqb_eq in He.
  apply String.eqb_eq in Hf. auto.
Qed.

Lemma same_id t r1 r2 :
  WellFormed t -> In r1 (rows t) -> In r2 (rows t) -> paId r1 = paId r2 -> r1 = r2.
Proof.
  intros [Hnd _]. induction (rows t) as [|r rs IH]; simpl in *; [tauto|].
  apply NoDup_cons in Hnd as [Hr Hnd].
  assert (Hmem : forall x, In x rs -> paId x = paId r -> False).
  { intros x Hx Heq. apply Hr. rewrite <- Heq. apply list_elem_of_In, in_map, Hx. }
  intros [<-|H1] [<-|H2] Heq; auto.
  - exfalso. eapply Hmem; eauto.
  - exfalso. eapply Hmem; eauto.
Qed.

Lemma WellFormed_update id now v t :
  WellFormed t -> WellFormed (updateAttachmentAnalysis id now v t).
Proof.
  intros [Hnd Hlt]. unfold WellFormed, updateAttachmentAnalysis. cbn [rows nextId].
  split.
  - rewrite map_map. erewrite map_ext; [exact Hnd|].
    intros r. now destruct (paId r =? id)%nat.
  - apply Forall_forall. intros r Hr. apply list_elem_of_In, in_map_iff in Hr as (r0 & <- & Hr0).
    rewrite Forall_forall in Hlt. specialize (Hlt r0 (proj2 (list_elem_of_In _ _) Hr0)).
    now destruct (paId r0 =? id)%nat.
Qed.

Lemma storeAttachment_spec e tk pdf t :
  WellFormed t ->
  exists stored t',
    storeAttachment e tk pdf t = (Some stored, t') /\
    WellFormed t' /\
    getStoredAttachment e (pdfFilename pdf) t' = Some stored /\
    forall f r, getStoredAttachment e f t = Some r -> getStoredAttachment e f t' = Some r.
Proof.
  intros Hwf. unfold storeAttachment.
  destruct (getStoredAttachment e (pdfFilename pdf) t) as [existing|] eqn:Hget.
  - exists existing, t. auto.
  - eexists _, _. split; [reflexivity|]. destruct Hwf as [Hnd Hlt]. split; [|split].
    + unfold WellFormed. cbn [rows nextId]. split.
      * rewrite map_app. apply NoDup_app. split; [exact Hnd|]. split.
        -- intros x Hx Hx'. simpl in Hx'. apply list_elem_of_singleton in Hx'. subst x.
           apply list_elem_of_In, in_map_iff in Hx as (r & Hid & Hr).
           rewrite Forall_forall in Hlt.
           specialize (Hlt r (proj2 (list_elem_of_In _ _) Hr)). lia.
        -- simpl. apply NoDup_singleton.
      * apply Forall_app. split.
        -- eapply Forall_impl; [exact Hlt|]. intros r Hr. simpl in *. lia.
        -- repeat constructor.
    + unfold getStoredAttachment in *. cbn [rows]. rewrite (find_app_r _ _ _ Hget).
      simpl. unfold isAttachment. cbn [paEmailId paFilename].
      now rewrite Z.eqb_refl, String.eqb_refl.
    + intros f r Hr. unfold getStoredAttachment in *. cbn [rows].
      now apply find_app_l.
Qed.

Lemma Settled_row e t f result found :
  Settled e t f result found -> exists r, getStoredAttachment e f t = Some r.
Proof.
  intros (file & Hc & _). destruct (getStoredAttachment e f t) as [r|]; [eauto|].
  discriminate.
Qed.

Section Loop.
Variable fetchSpecificAttachment : nat -> string -> FetchReply.
Variable analyzeAndValidatePo : nat -> FetchedPdf -> PoValidationResult.
Variable emailId : Z.
Variable threadKey : string.
Variable now : Z.
Hypothesis keepsNames : KeepsNames fetchSpecificAttachment.
Hypothesis validWithDetails : ValidWithDetails analyzeAndValidatePo.

Local Abbreviation step :=
  (processCandidate fetchSpecificAttachment analyzeAndValidatePo emailId threadKey now).
Local Abbreviation loop :=
  (processCandidates fetchSpecificAttachment analyzeAndValidatePo emailId threadKey now).

(** A round keeps the verdicts that the table holds, and unless the
    fetch fails, it leaves a verdict for its own file. *)
Lemma processCandidate_settles l i c :
  WellFormed (table l) ->
  WellFormed (table (step l i c)) /\
  (forall f r fd, Settled emailId (table l) f r fd ->
                  Settled emailId (table (step l i c)) f r fd) /\
  exists file found made,
    step l i c = attempt l (table (step l i c)) file found made /\
    attFilename file = rankedFilename c /\
    (attResult file = att_fetch_failed
     \/ Settled emailId (table (step l i c)) (rankedFilename c) (attResult file) found).
Proof.
  intros Hwf. unfold processCandidate. cbv zeta.
  destruct (cachedVerdict _) as [[file found]|] eqn:Hcached.
  - cbn [table attempt]. split; [exact Hwf|]. split; [auto|].
    eexists _, found, []. split; [reflexivity|]. split; [reflexivity|].
    right. exists file. auto.
  - destruct (fetchSpecificAttachment i (rankedFilename c)) as [error| |pdf] eqn:Hfetch.
    + cbn [table attempt]. split; [exact Hwf|]. split; [auto|].
      eexists _, [], _. split; [reflexivity|]. split; [reflexivity|]. now left.
    + cbn [table attempt]. split; [exact Hwf|]. split; [auto|].
      eexists _, [], _. split; [reflexivity|]. split; [reflexivity|]. now left.
    + pose proof (keepsNames _ _ _ Hfetch) as Hname.
      destruct (storeAttachment_spec emailId threadKey pdf (table l) Hwf)
        as (stored & t' & Hstore & Hwf' & Hget & Hkeep).
      rewrite Hstore. set (v := analyzeAndValidatePo i pdf).
      set (t'' := updateAttachmentAnalysis (paId stored) now v t').
      assert (Hwf'' : WellFormed t'') by now apply WellFormed_update.
      assert (Hmono : forall f r fd, Settled emailId (table l) f r fd ->
                                     Settled emailId t'' f r fd).
      { intros f r fd Hs. destruct (Settled_row _ _ _ _ _ Hs) as [e0 He0].
        destruct Hs as (file0 & Hc0 & Hr0). exists file0. split; [|exact Hr0].
        unfold t''. rewrite getStored_update, (Hkeep _ _ He0). simpl.
        destruct (Nat.eqb_spec (paId e0) (paId stored)) as [Hid|_];
          [|now rewrite He0 in Hc0].
        exfalso.
        destruct (getStored_In _ _ _ _ (Hkeep _ _ He0)) as (Hin0 & _ & Hf0).
        destruct (getStored_In _ _ _ _ Hget) as (Hin1 & _ & Hf1).
        pose proof (same_id t' e0 stored Hwf' Hin0 Hin1 Hid) as Heq. subst e0.
        assert (Hfc : f = rankedFilename c) by congruence.
        rewrite Hfc in He0, Hc0. rewrite He0 in Hcached, Hc0. congruence. }
      assert (Hnew : getStoredAttachment emailId (rankedFilename c) t''
                     = Some (withAnalysis now v stored)).
      { unfold t''. rewrite getStored_update, <- Hname, Hget. simpl.
        now rewrite Nat.eqb_refl. }
      destruct (valid v) eqn:Hvalid; [destruct (details v) as [d|] eqn:Hdetails|].
      * cbn [table attempt]. fold t''. split; [exact Hwf''|]. split; [exact Hmono|].
        eexists _, [d], _. split; [reflexivity|]. split; [reflexivity|].
        right. eexists. rewrite Hnew. unfold cachedVerdict. cbn [analyzedAt withAnalysis
          isValidPo analysisJson]. rewrite Hvalid, Hdetails. split; reflexivity.
      * destruct (validWithDetails i pdf Hvalid) as [d Hd]. fold v in Hd. congruence.
      * cbn [table attempt]. fold t''. split; [exact Hwf''|]. split; [exact Hmono|].
        eexists _, [], _. split; [reflexivity|]. split; [reflexivity|].
        right. eexists. rewrite Hnew. unfold cachedVerdict. cbn [analyzedAt withAnalysis
          isValidPo analysisJson]. rewrite Hvalid. split; reflexivity.
Qed.

Lemma processCandidates_settles cs :
  forall l i,
    WellFormed (table l) ->
    WellFormed (table (loop l i cs)) /\
    (forall f r fd, Settled emailId (table l) f r fd ->
                    Settled emailId (table (loop l i cs)) f r fd).
Proof.
  induction cs as [|c cs IH]; intros l i Hwf; simpl; [auto|].
  destruct (processCandidate_settles l i c Hwf) as (Hwf' & Hmono & _).
  destruct (IH (step l i c) (S i) Hwf') as [Hwf'' Hmono'']. auto.
Qed.

(** A second pass over the same candidates, on a table that holds the
    verdicts of the first, asks nobody and gives the same outcomes. *)
Lemma replay fetch' analyze' threadKey' now' cs :
  forall l i l' i',
    WellFormed (table l) ->
    length (fetchFailures (attempted (loop l i cs)))
    = length (fetchFailures (attempted l)) ->
    (forall f r fd, Settled emailId (table (loop l i cs)) f r fd ->
                    Settled emailId (table l') f r fd) ->
    let l2 := processCandidates fetch' analyze' emailId threadKey' now' l' i' cs in
    table l2 = table l' /\ calls l2 = calls l' /\
    exists files files' found,
      attempted (loop l i cs) = attempted l ++ files /\
      attempted l2 = attempted l' ++ files' /\
      map outcome files' = map outcome files /\
      validPoDetails (loop l i cs) = validPoDetails l ++ found /\
      validPoDetails l2 = validPoDetails l' ++ found.
Proof.
  induction cs as [|c cs IH]; intros l i l' i' Hwf Hlen Hsub; cbv zeta.
  - simpl. split; [reflexivity|]. split; [reflexivity|].
    exists [], [], []. now rewrite !app_nil_r.
  - simpl in *.
    destruct (processCandidate_settles l i c Hwf)
      as (Hwf' & _ & file & found & made & Hstep & Hname & Hres).
    destruct (DetectionFacts.processCandidates_progress fetchSpecificAttachment
                analyzeAndValidatePo emailId threadKey now cs (step l i c) (S i))
      as (files & found_r & made_r & added_r & Ha & Hv & _).
    assert (Hamid : attempted (step l i c) = attempted l ++ [file])
      by (rewrite Hstep; reflexivity).
    assert (Hvmid : validPoDetails (step l i c) = validPoDetails l ++ found)
      by (rewrite Hstep; reflexivity).
    assert (Hfails : AttemptResult_eqb (attResult file) att_fetch_failed = false
                     /\ length (fetchFailures (attempted (loop (step l i c) (S i) cs)))
                        = length (fetchFailures (attempted (step l i c)))).
    { rewrite Ha, Hamid in Hlen |- *. unfold fetchFailures in *.
      rewrite !List.filter_app, !length_app in Hlen |- *. simpl in Hlen |- *.
      destruct (AttemptResult_eqb (attResult file) att_fetch_failed);
        simpl in Hlen |- *; [lia|]. split; [reflexivity | lia]. }
    destruct Hfails as [Hok Hlen'].
    destruct Hres as [Hfailed|Hsettled];
      [rewrite Hfailed in Hok; discriminate|].
    assert (Hlate : Settled emailId (table l') (rankedFilename c) (attResult file) found).
    { apply Hsub.
      now apply (processCandidates_settles cs (step l i c) (S i) Hwf'). }
    destruct Hlate as (file0 & Hcached & Hres0).
    set (l'mid := processCandidate fetch' analyze' emailId threadKey' now' l' i' c).
    assert (Hmid : l'mid = attempt l' (table l')
                             {| attFilename := rankedFilename c;
                                attResult := attResult file0;
                                attReason := attReason file0 |} found []).
    { unfold l'mid, processCandidate. cbv zeta. now rewrite Hcached. }
    destruct (IH (step l i c) (S i) l'mid (S i') Hwf' Hlen') as (Ht & Hc & IHex).
    { rewrite Hmid. exact Hsub. }
    destruct IHex as (fs & fs' & fd & Hfs & Hfs' & Hout & Hfd & Hfd').
    split; [rewrite Ht, Hmid; reflexivity|].
    split; [rewrite Hc, Hmid; unfold attempt; cbn [calls]; apply app_nil_r|].
    exists (file :: fs),
           ({| attFilename := rankedFilename c; attResult := attResult file0;
               attReason := attReason file0 |} :: fs'),
           (found ++ fd).
    rewrite Hfs, Hamid, Hfs', Hfd, Hvmid, Hfd', Hmid. unfold attempt.
    cbn [attempted validPoDetails]. rewrite <- !app_assoc. simpl.
    repeat split; try reflexivity. rewrite Hout. f_equal.
    unfold outcome. cbn [attFilename attResult]. now rewrite Hname, Hres0.
Qed.
End Loop.

End CacheFacts.

Import DetectionSamples.

(** X30: a second run uses the verdicts of the first.  Let the ids of the
    table be distinct and below the next one, let the mail server hand out
    each file under the name it was asked for, and let the analyzer give the
    details of what it takes for a purchase order.  If a run of
    [smartPoDetection] ends without a failed fetch, then a second run for the
    same attachments on the table it leaves, whatever the mail server and the
    analyzer would answer now, fetches and analyzes nothing, leaves the table
    as it is, and gives the same success, the same purchase orders and the
    same outcome for every file. *)
Theorem X30_second_run_uses_the_verdicts
    (fetchSpecificAttachment : nat -> string -> FetchReply)
    (analyzeAndValidatePo : nat -> FetchedPdf -> PoValidationResult)
    (emailId : Z) (threadKey : string) (now : Z)
    (attachments : list AttachmentInfo) (rankedAttachments : list RankedAttachment)
    (t : Table) :
  WellFormed t ->
  KeepsNames fetchSpecificAttachment ->
  ValidWithDetails analyzeAndValidatePo ->
  fetchFailures
    (attemptedFiles
       (fst (fst (smartPoDetection fetchSpecificAttachment analyzeAndValidatePo
                    emailId threadKey now attachments rankedAttachments t)))) = [] ->
  forall fetch' analyze' threadKey' now',
    let first := smartPoDetection fetchSpecificAttachment analyzeAndValidatePo
                   emailId threadKey now attachments rankedAttachments t in
    let second := smartPoDetection fetch' analyze' emailId threadKey' now'
                    attachments rankedAttachments (snd (fst first)) in
    snd (fst second) = snd (fst first) /\
    List.filter isFetch (snd second) = [] /\
    List.filter isAnalyze (snd second) = [] /\
    success (fst (fst second)) = success (fst (fst first)) /\
    poDetailsList (fst (fst second)) = poDetailsList (fst (fst first)) /\
    map outcome (attemptedFiles (fst (fst second)))
    = map outcome (attemptedFiles (fst (fst first))).
Proof.
  intros Hwf Hnames Hvalid Hfails fetch' analyze' threadKey' now'. cbv zeta.
  unfold smartPoDetection in *. destruct attachments as [|a attachments].
  { cbn. auto 10. }
  destruct (List.filter isPoCandidate rankedAttachments) as [|c cs] eqn:Hcs.
  { cbn. auto 10. }
  cbv zeta in Hfails |- *.
  cbn [fst snd success poDetailsList attemptedFiles] in Hfails |- *.
  set (l0 := {| table := t; attempted := []; validPoDetails := []; calls := [CallRank] |})
    in *.
  set (l1 := processCandidates fetchSpecificAttachment analyzeAndValidatePo emailId
               threadKey now l0 0 (c :: cs)) in *.
  set (l0' := {| table := table l1; attempted := []; validPoDetails := [];
                 calls := [CallRank] |}).
  destruct (CacheFacts.replay fetchSpecificAttachment analyzeAndValidatePo emailId
              threadKey now Hnames Hvalid fetch' analyze' threadKey' now' (c :: cs)
              l0 0%nat l0' 0%nat Hwf) as (Ht & Hc & files & files' & found & Ha & Ha'
                                          & Hout & Hv & Hv').
  { fold l1. now rewrite Hfails. }
  { fold l1. auto. }
  fold l1 in Ha, Hv.
  set (l2 := processCandidates fetch' analyze' emailId threadKey' now' l0' 0 (c :: cs)) in *.
  simpl in Ha, Ha', Hv, Hv', Ht, Hc. rewrite Ht, Hc, Ha, Ha', Hv, Hv'.
  split; [reflexivity|].
  split; [now destruct (negb (length found =? 0)%nat)|].
  split; [now destruct (negb (length found =? 0)%nat)|].
  split; [reflexivity|]. split; [reflexivity | exact Hout].
Qed.

Lemma X30_second_run_witness :
  let first := smartPoDetection fetchAsNamed readsPo 7 "thread-4471" 1000
                 onePdf rankedPdf emptyTable in
  let second := smartPoDetection fetchDown readsNothing 7 "thread-4471" 2000
                  onePdf rankedPdf (snd (fst first)) in
  snd (fst second) = snd (fst first) /\
  List.filter isFetch (snd second) = [] /\
  List.filter isAnalyze (snd second) = [] /\
  success (fst (fst second)) = success (fst (fst first)) /\
  poDetailsList (fst (fst second)) = poDetailsList (fst (fst first)) /\
  map outcome (attemptedFiles (fst (fst second)))
  = map outcome (attemptedFiles (fst (fst first))).
Proof.
  apply (X30_second_run_uses_the_verdicts fetchAsNamed readsPo 7 "thread-4471" 1000
           onePdf rankedPdf emptyTable).
  - split; [apply NoDup_nil_2 | constructor].
  - intros i filename pdf [= <-]. reflexivity.
  - intros i pdf _. exists po4471. reflexivity.
  - vm_compute. reflexivity.
Defined.

(** A Word document comes back as a PDF under another name, so the verdict
    is filed under a name that the next run does not look up: the next run
    fetches and analyzes the document again. *)
Example word_document_is_analyzed_again :
  let first := smartPoDetection fetchConverted readsPo 7 "thread-4471" 1000
                 oneWord rankedWord emptyTable in
  let second := smartPoDetection fetchConverted readsPo 7 "thread-4471" 2000
                  oneWord rankedWord (snd (fst first)) in
  success (fst (fst first)) = true /\
  map paFilename (rows (snd (fst first))) = ["po-4471.pdf"%string] /\
  snd second = [CallRank; CallFetch "po-4471.docx"; CallAnalyze "po-4471.pdf"] /\
  map analyzedAt (rows (snd (fst second))) = [Some 2000].
Proof. vm_compute. repeat split; reflexivity. Qed.
